(** * Echoes of Xylos: a shallow embedding of EchoesOfXylos.py

    The development follows the source file top-down: configuration
    constants, the entity model ([GameEntity], [Player], [Enemy]), items,
    skills, traps, the level generator [GameMap.generate_map] and the
    game logic of [Game] (saving and loading, enemy turns, movement,
    combat, skills).

    Python integers are [Z].  Objects that the program mutates through
    several references (the enemies, reachable both from the floor's
    entity list and from the local variable of a running combat) live in
    an explicit heap indexed by object identity; immutable objects whose
    identity is compared (items) carry their identity as a field.  The
    random number generator, the keyboard and the screen are threaded
    through a small state-and-error monad. *)

From stdpp Require Import gmap strings list fin_maps.
From Stdlib Require Import ZArith Lia Ascii.

Local Open Scope Z_scope.

(** ** Game configuration *)

Definition MAP_WIDTH : Z := 40.
Definition MAP_HEIGHT : Z := 20.
Definition MAX_ENEMIES_PER_LEVEL : Z := 7.
Definition MAX_ITEMS_PER_LEVEL : Z := 5.
Definition INITIAL_PLAYER_ENERGY : Z := 50.
Definition XP_TO_LEVEL_UP_BASE : Z := 50.
Definition MAX_ROOMS : nat := 10.
Definition ROOM_MIN_SIZE : Z := 5.
Definition ROOM_MAX_SIZE : Z := 10.
Definition TRAP_DAMAGE_BASE : Z := 15.

(** ** Items

    The class hierarchy [Item] / [Weapon] / [Armor] / [Consumable] /
    [Collectible] becomes a tagged union; the bound method stored in
    [Consumable.effect_func] becomes a description of its effect.
    [EnergyCrystal] is the only [Collectible]. *)

Inductive consumable_effect :=
  | HealHP (heal_amount : Z)
  | RestoreEnergy (energy_restore : Z).

Inductive item_kind :=
  | Weapon (damage_bonus : Z)
  | Armor (defense_bonus : Z)
  | Consumable (effect_func : consumable_effect)
  | Collectible.

Record Item := mkItem {
  item_oid : nat;             (* object identity, compared by == and in *)
  item_name : string;
  item_description : string;
  item_kind_of : item_kind;
  base_value : Z
}.

Definition HealthPotion (oid : nat) : Item :=
  mkItem oid "Health Potion" "Restores 50 HP." (Consumable (HealHP 50)) 20.
Definition EnergyCell (oid : nat) : Item :=
  mkItem oid "Energy Cell" "Restores 25 HP." (Consumable (HealHP 25)) 15.
Definition EnergyPack (oid : nat) : Item :=
  mkItem oid "Energy Pack" "Restores 40 Energy." (Consumable (RestoreEnergy 40)) 25.
Definition EnergyCrystal (oid : nat) : Item :=
  mkItem oid "Energy Crystal" "A shimmering crystal, vital for your mission."
         Collectible 100.
Definition LaserPistol (oid : nat) : Item :=
  mkItem oid "Laser Pistol" "A standard issue energy weapon." (Weapon 5) 30.
Definition PlasmaRifle (oid : nat) : Item :=
  mkItem oid "Plasma Rifle" "A powerful, high-energy rifle." (Weapon 10) 60.
Definition ScrapArmor (oid : nat) : Item :=
  mkItem oid "Scrap Armor" "Crude armor made from salvaged parts." (Armor 3) 25.
Definition ReinforcedVest (oid : nat) : Item :=
  mkItem oid "Reinforced Vest" "A sturdy vest offering decent protection." (Armor 7) 50.

(** [ALL_ITEM_CLASSES]: item name to constructor. *)
Definition ALL_ITEM_CLASSES : gmap string (nat → Item) :=
  list_to_map
    [ ("Health Potion", HealthPotion); ("Energy Cell", EnergyCell);
      ("Energy Pack", EnergyPack); ("Energy Crystal", EnergyCrystal);
      ("Laser Pistol", LaserPistol); ("Plasma Rifle", PlasmaRifle);
      ("Scrap Armor", ScrapArmor); ("Reinforced Vest", ReinforcedVest) ]%string.

(** Two item references are [==] when they are the same object. *)
Definition item_is (a b : Item) : bool := Nat.eqb (item_oid a) (item_oid b).

(** ** Skills

    [Skill.effect_func] holds one of six module-level functions. *)

Inductive skill_effect :=
  | PowerShot | RepairDrone | BurstOfSpeed
  | GrenadeToss | ShieldMatrix | StealthField.

Record Skill := mkSkill {
  skill_name : string;
  skill_description : string;
  energy_cost : Z;
  skill_effect_func : skill_effect
}.

(** [ALL_SKILL_DATA]: skill name to (cost, effect, description). *)
Definition ALL_SKILL_DATA : gmap string (Z * skill_effect * string) :=
  list_to_map
    [ ("Power Shot", (15, PowerShot, "Deals extra damage to an enemy."));
      ("Repair Drone", (20, RepairDrone, "Summons a drone to restore your HP."));
      ("Burst of Speed",
        (10, BurstOfSpeed, "Temporarily increases your speed in combat."));
      ("Grenade Toss", (30, GrenadeToss, "Throws a grenade, damaging all enemies."));
      ("Shield Matrix",
        (25, ShieldMatrix, "Deploys a temporary shield, increasing defense."));
      ("Stealth Field",
        (35, StealthField,
         "Activates a stealth field, increasing defense and evasion.")) ]%string.

(** ** Entities *)

Record Enemy := mkEnemy {
  e_name : string;
  e_max_hp : Z;
  e_hp : Z;
  e_attack : Z;
  e_defense : Z;
  e_speed : Z;
  e_level : Z;
  e_xp_value : Z;
  e_credit_value : Z;
  e_item_drop : option Item;
  e_symbol : string;
  e_x : Z;
  e_y : Z
}.

Record Player := mkPlayer {
  p_name : string;
  p_max_hp : Z;
  p_hp : Z;
  p_attack : Z;
  p_defense : Z;
  p_speed : Z;
  p_level : Z;
  p_class_type : string;
  p_inventory : list Item;
  p_equipped_weapon : option Item;
  p_equipped_armor : option Item;
  p_xp : Z;
  p_xp_to_next_level : Z;
  p_current_level_num : Z;
  p_learned_skills : list Skill;
  p_max_energy : Z;
  p_energy : Z;
  p_credits : Z;
  p_crystals_collected : Z;
  p_x : Z;   (* assigned by generate_level or load_game before any read *)
  p_y : Z
}.

(** Attribute assignments on the player. *)
Definition with_hp (v : Z) (p : Player) : Player :=
  mkPlayer (p_name p) (p_max_hp p) v (p_attack p) (p_defense p) (p_speed p)
    (p_level p) (p_class_type p) (p_inventory p) (p_equipped_weapon p)
    (p_equipped_armor p) (p_xp p) (p_xp_to_next_level p) (p_current_level_num p)
    (p_learned_skills p) (p_max_energy p) (p_energy p) (p_credits p)
    (p_crystals_collected p) (p_x p) (p_y p).
Definition with_max_hp (v : Z) (p : Player) : Player :=
  mkPlayer (p_name p) v (p_hp p) (p_attack p) (p_defense p) (p_speed p)
    (p_level p) (p_class_type p) (p_inventory p) (p_equipped_weapon p)
    (p_equipped_armor p) (p_xp p) (p_xp_to_next_level p) (p_current_level_num p)
    (p_learned_skills p) (p_max_energy p) (p_energy p) (p_credits p)
    (p_crystals_collected p) (p_x p) (p_y p).
Definition with_attack (v : Z) (p : Player) : Player :=
  mkPlayer (p_name p) (p_max_hp p) (p_hp p) v (p_defense p) (p_speed p)
    (p_level p) (p_class_type p) (p_inventory p) (p_equipped_weapon p)
    (p_equipped_armor p) (p_xp p) (p_xp_to_next_level p) (p_current_level_num p)
    (p_learned_skills p) (p_max_energy p) (p_energy p) (p_credits p)
    (p_crystals_collected p) (p_x p) (p_y p).
Definition with_defense (v : Z) (p : Player) : Player :=
  mkPlayer (p_name p) (p_max_hp p) (p_hp p) (p_attack p) v (p_speed p)
    (p_level p) (p_class_type p) (p_inventory p) (p_equipped_weapon p)
    (p_equipped_armor p) (p_xp p) (p_xp_to_next_level p) (p_current_level_num p)
    (p_learned_skills p) (p_max_energy p) (p_energy p) (p_credits p)
    (p_crystals_collected p) (p_x p) (p_y p).
Definition with_speed (v : Z) (p : Player) : Player :=
  mkPlayer (p_name p) (p_max_hp p) (p_hp p) (p_attack p) (p_defense p) v
    (p_level p) (p_class_type p) (p_inventory p) (p_equipped_weapon p)
    (p_equipped_armor p) (p_xp p) (p_xp_to_next_level p) (p_current_level_num p)
    (p_learned_skills p) (p_max_energy p) (p_energy p) (p_credits p)
    (p_crystals_collected p) (p_x p) (p_y p).
Definition with_level (v : Z) (p : Player) : Player :=
  mkPlayer (p_name p) (p_max_hp p) (p_hp p) (p_attack p) (p_defense p) (p_speed p)
    v (p_class_type p) (p_inventory p) (p_equipped_weapon p)
    (p_equipped_armor p) (p_xp p) (p_xp_to_next_level p) (p_current_level_num p)
    (p_learned_skills p) (p_max_energy p) (p_energy p) (p_credits p)
    (p_crystals_collected p) (p_x p) (p_y p).
Definition with_inventory (v : list Item) (p : Player) : Player :=
  mkPlayer (p_name p) (p_max_hp p) (p_hp p) (p_attack p) (p_defense p) (p_speed p)
    (p_level p) (p_class_type p) v (p_equipped_weapon p)
    (p_equipped_armor p) (p_xp p) (p_xp_to_next_level p) (p_current_level_num p)
    (p_learned_skills p) (p_max_energy p) (p_energy p) (p_credits p)
    (p_crystals_collected p) (p_x p) (p_y p).
Definition with_equipped_weapon (v : option Item) (p : Player) : Player :=
  mkPlayer (p_name p) (p_max_hp p) (p_hp p) (p_attack p) (p_defense p) (p_speed p)
    (p_level p) (p_class_type p) (p_inventory p) v
    (p_equipped_armor p) (p_xp p) (p_xp_to_next_level p) (p_current_level_num p)
    (p_learned_skills p) (p_max_energy p) (p_energy p) (p_credits p)
    (p_crystals_collected p) (p_x p) (p_y p).
Definition with_equipped_armor (v : option Item) (p : Player) : Player :=
  mkPlayer (p_name p) (p_max_hp p) (p_hp p) (p_attack p) (p_defense p) (p_speed p)
    (p_level p) (p_class_type p) (p_inventory p) (p_equipped_weapon p)
    v (p_xp p) (p_xp_to_next_level p) (p_current_level_num p)
    (p_learned_skills p) (p_max_energy p) (p_energy p) (p_credits p)
    (p_crystals_collected p) (p_x p) (p_y p).
Definition with_xp (v : Z) (p : Player) : Player :=
  mkPlayer (p_name p) (p_max_hp p) (p_hp p) (p_attack p) (p_defense p) (p_speed p)
    (p_level p) (p_class_type p) (p_inventory p) (p_equipped_weapon p)
    (p_equipped_armor p) v (p_xp_to_next_level p) (p_current_level_num p)
    (p_learned_skills p) (p_max_energy p) (p_energy p) (p_credits p)
    (p_crystals_collected p) (p_x p) (p_y p).
Definition with_xp_to_next_level (v : Z) (p : Player) : Player :=
  mkPlayer (p_name p) (p_max_hp p) (p_hp p) (p_attack p) (p_defense p) (p_speed p)
    (p_level p) (p_class_type p) (p_inventory p) (p_equipped_weapon p)
    (p_equipped_armor p) (p_xp p) v (p_current_level_num p)
    (p_learned_skills p) (p_max_energy p) (p_energy p) (p_credits p)
    (p_crystals_collected p) (p_x p) (p_y p).
Definition with_learned_skills (v : list Skill) (p : Player) : Player :=
  mkPlayer (p_name p) (p_max_hp p) (p_hp p) (p_attack p) (p_defense p) (p_speed p)
    (p_level p) (p_class_type p) (p_inventory p) (p_equipped_weapon p)
    (p_equipped_armor p) (p_xp p) (p_xp_to_next_level p) (p_current_level_num p)
    v (p_max_energy p) (p_energy p) (p_credits p)
    (p_crystals_collected p) (p_x p) (p_y p).
Definition with_max_energy (v : Z) (p : Player) : Player :=
  mkPlayer (p_name p) (p_max_hp p) (p_hp p) (p_attack p) (p_defense p) (p_speed p)
    (p_level p) (p_class_type p) (p_inventory p) (p_equipped_weapon p)
    (p_equipped_armor p) (p_xp p) (p_xp_to_next_level p) (p_current_level_num p)
    (p_learned_skills p) v (p_energy p) (p_credits p)
    (p_crystals_collected p) (p_x p) (p_y p).
Definition with_energy (v : Z) (p : Player) : Player :=
  mkPlayer (p_name p) (p_max_hp p) (p_hp p) (p_attack p) (p_defense p) (p_speed p)
    (p_level p) (p_class_type p) (p_inventory p) (p_equipped_weapon p)
    (p_equipped_armor p) (p_xp p) (p_xp_to_next_level p) (p_current_level_num p)
    (p_learned_skills p) (p_max_energy p) v (p_credits p)
    (p_crystals_collected p) (p_x p) (p_y p).
Definition with_credits (v : Z) (p : Player) : Player :=
  mkPlayer (p_name p) (p_max_hp p) (p_hp p) (p_attack p) (p_defense p) (p_speed p)
    (p_level p) (p_class_type p) (p_inventory p) (p_equipped_weapon p)
    (p_equipped_armor p) (p_xp p) (p_xp_to_next_level p) (p_current_level_num p)
    (p_learned_skills p) (p_max_energy p) (p_energy p) v
    (p_crystals_collected p) (p_x p) (p_y p).
Definition with_crystals_collected (v : Z) (p : Player) : Player :=
  mkPlayer (p_name p) (p_max_hp p) (p_hp p) (p_attack p) (p_defense p) (p_speed p)
    (p_level p) (p_class_type p) (p_inventory p) (p_equipped_weapon p)
    (p_equipped_armor p) (p_xp p) (p_xp_to_next_level p) (p_current_level_num p)
    (p_learned_skills p) (p_max_energy p) (p_energy p) (p_credits p)
    v (p_x p) (p_y p).
Definition with_xy (vx vy : Z) (p : Player) : Player :=
  mkPlayer (p_name p) (p_max_hp p) (p_hp p) (p_attack p) (p_defense p) (p_speed p)
    (p_level p) (p_class_type p) (p_inventory p) (p_equipped_weapon p)
    (p_equipped_armor p) (p_xp p) (p_xp_to_next_level p) (p_current_level_num p)
    (p_learned_skills p) (p_max_energy p) (p_energy p) (p_credits p)
    (p_crystals_collected p) vx vy.

(** Attribute assignments on an enemy. *)
Definition e_with_hp (v : Z) (e : Enemy) : Enemy :=
  mkEnemy (e_name e) (e_max_hp e) v (e_attack e) (e_defense e) (e_speed e)
    (e_level e) (e_xp_value e) (e_credit_value e) (e_item_drop e) (e_symbol e)
    (e_x e) (e_y e).
Definition e_with_xy (vx vy : Z) (e : Enemy) : Enemy :=
  mkEnemy (e_name e) (e_max_hp e) (e_hp e) (e_attack e) (e_defense e) (e_speed e)
    (e_level e) (e_xp_value e) (e_credit_value e) (e_item_drop e) (e_symbol e)
    vx vy.

(** ** The world outside the game objects

    [w_rng] is the stream of raw draws of the random number generator,
    [w_in] the entries the user will type (already stripped and
    lower-cased, as [get_player_input] does), [w_out] the messages shown
    by [display_message] so far, [w_heap] the enemy objects by identity and
    [w_next] the next unused object identity.  Raw [print] screens
    (panels, menus, the map) and [time.sleep] are not modelled. *)

(** One entry typed by the user: text that [int()] rejects, or text
    that [int()] parses to the given number. *)
Inductive Entry :=
  | Txt (s : string)
  | Num (n : Z).

(** The messages of [display_message], with their run-time arguments. *)
Inductive Msg :=
  | MsgGainedXP (amount : Z)
  | MsgReachedLevel (name : string) (level : Z)
  | MsgStatsIncreased
  | MsgUnlockedSkill (skill : string)
  | MsgAttacks (attacker target : string) (damage : Z)
  | MsgDefeated (name : string)
  | MsgEquipped (item : string) (bonus : Z)
  | MsgCannotEquip
  | MsgUsed (item : string)
  | MsgCannotUse
  | MsgRestoredHP (name : string) (amount : Z)
  | MsgRestoredEnergy (name : string) (amount : Z)
  | MsgRepairDrone (amount : Z)
  | MsgPowerShot (name target : string) (damage : Z)
  | MsgNoValidTarget
  | MsgBurstOfSpeed (name : string) (boost : Z)
  | MsgGrenade (name : string) (damage : Z)
  | MsgExplosion (target : string) (damage : Z)
  | MsgShieldMatrix (name : string) (boost : Z)
  | MsgStealthField (name : string) (dboost sboost : Z)
  | MsgTrapStepped
  | MsgTrapAvoided
  | MsgTrapDamage (damage hp max_hp : Z)
  | MsgNoEmptyTiles
  | MsgInvalidInput (valid_options : list string)
  | MsgHitWall
  | MsgInvalidDirection
  | MsgBump (name : string)
  | MsgPressAnyKey
  | MsgFoundCrystal (name : string) (count : Z)
  | MsgFoundItem (name : string)
  | MsgFailedToEscape
  | MsgWereDefeated
  | MsgYouDefeated (name : string)
  | MsgGainedCredits (amount : Z)
  | MsgDropped (name item : string)
  | MsgFleeAttempt (player_speed enemy_speed : Z)
  | MsgEscaped
  | MsgSaferPosition
  | MsgNoEscapeRoute
  | MsgInventoryEmpty
  | MsgCannotUseCrystals
  | MsgAlreadyEquipped (item : string)
  | MsgCannotUseOrEquip
  | MsgInvalidItemNumber
  | MsgEnterNumberOrB
  | MsgNoSkills
  | MsgNotEnoughEnergy (skill : string) (cost : Z)
  | MsgInvalidSkillNumber
  | MsgUnknownItem (name : string)
  | MsgUnknownWeapon (name : string)
  | MsgUnknownArmor (name : string)
  | MsgUnknownSkill (name : string)
  | MsgGameLoaded
  | MsgGameSaved.

Record World := mkWorld {
  w_rng : list N;
  w_in : list Entry;
  w_out : list Msg;
  w_heap : gmap nat Enemy;
  w_next : nat
}.

(** The monad of the embedding: a computation reads and updates the
    world and either returns a value or stops without one ([None]: a
    Python exception that the program does not catch, or draws, entries
    or iteration budget exhausted before the run completes). *)
Definition M (A : Type) : Type := World → option (A * World).

Definition ret {A} (a : A) : M A := λ w, Some (a, w).
Definition bind {A B} (m : M A) (k : A → M B) : M B :=
  λ w, match m w with
       | Some (a, w') => k a w'
       | None => None
       end.
Definition raise {A} : M A := λ _, None.

Notation "'do' x <- m ; k" := (bind m (λ x, k))
  (at level 10, x name, m at level 100, k at level 200,
   format "'[v' 'do'  x  <-  m ; '/' k ']'").
Notation "'do' ' pat <- m ; k" := (bind m (λ x, match x with pat => k end))
  (at level 10, pat pattern, m at level 100, k at level 200).
Notation "m ;; k" := (bind m (λ _, k))
  (at level 100, k at level 200, right associativity).

(** [display_message]. *)
Definition display_message (m : Msg) : M unit :=
  λ w, Some (tt, mkWorld (w_rng w) (w_in w) (w_out w ++ [m]) (w_heap w) (w_next w)).

(** A fresh object identity. *)
Definition new_oid : M nat :=
  λ w, Some (w_next w, mkWorld (w_rng w) (w_in w) (w_out w) (w_heap w) (S (w_next w))).

(** ** Player progression *)

(** [int(XP_TO_LEVEL_UP_BASE * (XP_LEVEL_MULTIPLIER ** (level - 1)))],
    computed exactly: [1.5 ** n] is [3^n / 2^n].  The source computes
    the product in binary64; power and product are exact, and this
    definition is the value of the source, as long as [50 * 3^n] fits
    the 53-bit mantissa: for levels 1 to 30.  Beyond, the source rounds
    (it is one more than the exact floor at level 81) and, from about
    level 1740 on, raises [OverflowError]; what [add_xp] does is stated
    below for levels up to 30. *)
Definition xp_for_level (level : Z) : Z :=
  let n := level - 1 in
  if 0 <=? n then (XP_TO_LEVEL_UP_BASE * 3 ^ n) `div` 2 ^ n
  else (XP_TO_LEVEL_UP_BASE * 2 ^ (- n)) `div` 3 ^ (- n).

Definition knows_skill (name : string) (p : Player) : bool :=
  existsb (λ s, String.eqb (skill_name s) name) (p_learned_skills p).

(** One unlock step of [level_up]: [if self.level == lvl and not any(...)]. *)
Definition unlock (lvl : Z) (s : Skill) (p : Player) : M Player :=
  if (p_level p =? lvl) && negb (knows_skill (skill_name s) p) then
    display_message (MsgUnlockedSkill (skill_name s)) ;;
    ret (with_learned_skills (p_learned_skills p ++ [s]) p)
  else ret p.

Definition level_up (p : Player) : M Player :=
  let p := with_level (p_level p + 1) p in
  let p := with_max_hp (p_max_hp p + 15) p in
  let p := with_hp (p_max_hp p) p in
  let p := with_attack (p_attack p + 3) p in
  let p := with_defense (p_defense p + 2) p in
  let p := with_speed (p_speed p + 1) p in
  let p := with_max_energy (p_max_energy p + 10) p in
  let p := with_energy (p_max_energy p) p in
  let p := with_xp (p_xp p - p_xp_to_next_level p) p in
  let p := with_xp_to_next_level (xp_for_level (p_level p)) p in
  display_message (MsgReachedLevel (p_name p) (p_level p)) ;;
  display_message MsgStatsIncreased ;;
  if String.eqb (p_class_type p) "soldier" then
    do p <- unlock 2 (mkSkill "Power Shot" "Deals extra damage to an enemy."
                         15 PowerShot) p;
    unlock 5 (mkSkill "Grenade Toss" "Throws a grenade, damaging all enemies."
                30 GrenadeToss) p
  else if String.eqb (p_class_type p) "engineer" then
    do p <- unlock 2 (mkSkill "Repair Drone" "Summons a drone to restore your HP."
                         20 RepairDrone) p;
    unlock 5 (mkSkill "Shield Matrix"
                "Deploys a temporary shield, increasing defense." 25 ShieldMatrix) p
  else if String.eqb (p_class_type p) "scout" then
    do p <- unlock 2 (mkSkill "Burst of Speed"
                         "Temporarily increases your speed in combat."
                         10 BurstOfSpeed) p;
    unlock 5 (mkSkill "Stealth Field"
                "Activates a stealth field, increasing defense and evasion."
                35 StealthField) p
  else ret p.

Definition add_xp (amount : Z) (p : Player) : M Player :=
  let p := with_xp (p_xp p + amount) p in
  display_message (MsgGainedXP amount) ;;
  if p_xp_to_next_level p <=? p_xp p then level_up p else ret p.

(** Primitive accesses to the world. *)
Definition with_w_rng (v : list N) (x : World) : World :=
  mkWorld v (w_in x) (w_out x) (w_heap x) (w_next x).
Definition with_w_in (v : list Entry) (x : World) : World :=
  mkWorld (w_rng x) v (w_out x) (w_heap x) (w_next x).
Definition with_w_heap (v : gmap nat Enemy) (x : World) : World :=
  mkWorld (w_rng x) (w_in x) (w_out x) v (w_next x).

Definition lift {A} (o : option A) : M A :=
  λ w, match o with Some a => Some (a, w) | None => None end.

(** One raw draw of the generator. *)
Definition draw : M N :=
  λ w, match w_rng w with
       | [] => None
       | r :: rest => Some (r, with_w_rng rest w)
       end.

(** [random.randint(a, b)]: a value of [a..b]; [ValueError] on an empty
    range. *)
Definition randint (a b : Z) : M Z :=
  if b <? a then raise
  else do r <- draw; ret (a + Z.of_N r `mod` (b - a + 1)).

(** [random.choice(l)]: an element of [l]; [IndexError] on an empty list. *)
Definition choice {A} (l : list A) : M A :=
  match l with
  | [] => raise
  | _ => do r <- draw; lift (l !! (N.to_nat r `mod` length l)%nat)
  end.

(** [random.random() < num / den]: [random()] is [k / 2^53] for a
    uniform 53-bit [k]; the threshold is compared as an exact fraction
    (the source compares with the nearest float); [ZeroDivisionError]
    when the source divides by zero to obtain it. *)
Definition random_lt (num den : Z) : M bool :=
  if den =? 0 then raise
  else do r <- draw;
       let k := Z.of_N r `mod` 2 ^ 53 in
       ret (if 0 <? den then k * den <? num * 2 ^ 53
            else num * 2 ^ 53 <? k * den).

(** The next entry typed by the user ([_getch] or [input]). *)
Definition read_entry : M Entry :=
  λ w, match w_in w with
       | [] => None
       | e :: rest => Some (e, with_w_in rest w)
       end.

(** [get_player_input(prompt, valid_options)]: re-prompts until the
    entry is one of [valid_options].  An entry that parses as a number is
    never among the single-letter options used here. *)
Fixpoint get_valid (valid_options : list string) (entries : list Entry)
    (out : list Msg) : option (string * list Entry * list Msg) :=
  match entries with
  | [] => None
  | Txt s :: rest =>
      if bool_decide (s ∈ valid_options) then Some (s, rest, out)
      else get_valid valid_options rest (out ++ [MsgInvalidInput valid_options])
  | Num _ :: rest =>
      get_valid valid_options rest (out ++ [MsgInvalidInput valid_options])
  end.

Definition get_player_input (valid_options : list string) : M string :=
  λ w, match get_valid valid_options (w_in w) (w_out w) with
       | Some (s, rest, out) =>
           Some (s, mkWorld (w_rng w) rest out (w_heap w) (w_next w))
       | None => None
       end.

(** Enemy objects on the heap. *)
Definition get_enemy (oid : nat) : M Enemy := λ w, lift (w_heap w !! oid) w.
Definition set_enemy (oid : nat) (e : Enemy) : M unit :=
  λ w, Some (tt, with_w_heap (<[oid := e]> (w_heap w)) w).
Definition alloc_enemy (e : Enemy) : M nat :=
  do oid <- new_oid; set_enemy oid e ;; ret oid.

(** ** GameEntity methods *)

(** [take_damage]: the new [hp]. *)
Definition take_damage (hp damage : Z) : Z :=
  let hp := hp - damage in if hp <? 0 then 0 else hp.

Definition p_take_damage (damage : Z) (p : Player) : Player :=
  with_hp (take_damage (p_hp p) damage) p.
Definition e_take_damage (damage : Z) (e : Enemy) : Enemy :=
  e_with_hp (take_damage (e_hp e) damage) e.

Definition p_is_alive (p : Player) : bool := 0 <? p_hp p.
Definition e_is_alive (e : Enemy) : bool := 0 <? e_hp e.

(** [player.attack_target(enemy)]. *)
Definition player_attacks (p : Player) (oid : nat) : M Z :=
  do e <- get_enemy oid;
  let damage := Z.max 0 (p_attack p - e_defense e) in
  let e := e_take_damage damage e in
  set_enemy oid e ;;
  display_message (MsgAttacks (p_name p) (e_name e) damage) ;;
  (if e_is_alive e then ret tt else display_message (MsgDefeated (e_name e))) ;;
  ret damage.

(** [enemy.attack_target(player)]. *)
Definition enemy_attacks (e : Enemy) (p : Player) : M Player :=
  let damage := Z.max 0 (e_attack e - p_defense p) in
  let p := p_take_damage damage p in
  display_message (MsgAttacks (e_name e) (p_name p) damage) ;;
  (if p_is_alive p then ret tt else display_message (MsgDefeated (p_name p))) ;;
  ret p.

(** ** Player methods *)

Definition equip_item (item : Item) (p : Player) : M Player :=
  match item_kind_of item with
  | Weapon damage_bonus =>
      let p :=
        match p_equipped_weapon p with
        | Some old =>
            let p := with_inventory (p_inventory p ++ [old]) p in
            match item_kind_of old with
            | Weapon old_bonus => Some (with_attack (p_attack p - old_bonus) p)
            | _ => None   (* AttributeError: no damage_bonus *)
            end
        | None => Some p
        end in
      do p <- lift p;
      let p := with_equipped_weapon (Some item) p in
      let p := with_attack (p_attack p + damage_bonus) p in
      display_message (MsgEquipped (item_name item) damage_bonus) ;;
      ret p
  | Armor defense_bonus =>
      let p :=
        match p_equipped_armor p with
        | Some old =>
            let p := with_inventory (p_inventory p ++ [old]) p in
            match item_kind_of old with
            | Armor old_bonus => Some (with_defense (p_defense p - old_bonus) p)
            | _ => None   (* AttributeError: no defense_bonus *)
            end
        | None => Some p
        end in
      do p <- lift p;
      let p := with_equipped_armor (Some item) p in
      let p := with_defense (p_defense p + defense_bonus) p in
      display_message (MsgEquipped (item_name item) defense_bonus) ;;
      ret p
  | _ => display_message MsgCannotEquip ;; ret p
  end.

(** [item in self.inventory] and [self.inventory.remove(item)]. *)
Definition in_inventory (item : Item) (inv : list Item) : bool :=
  existsb (item_is item) inv.
Fixpoint remove_item (item : Item) (inv : list Item) : list Item :=
  match inv with
  | [] => []
  | i :: inv' => if item_is item i then inv' else i :: remove_item item inv'
  end.

(** [Consumable.use]: the bound effect method, then the message. *)
Definition consumable_use (item : Item) (eff : consumable_effect) (p : Player)
    : M Player :=
  do p <-
    match eff with
    | HealHP heal_amount =>
        let p := with_hp (Z.min (p_max_hp p) (p_hp p + heal_amount)) p in
        display_message (MsgRestoredHP (p_name p) heal_amount) ;; ret p
    | RestoreEnergy energy_restore =>
        let p := with_energy (Z.min (p_max_energy p) (p_energy p + energy_restore)) p in
        display_message (MsgRestoredEnergy (p_name p) energy_restore) ;; ret p
    end;
  display_message (MsgUsed (item_name item)) ;;
  ret p.

Definition use_item (item : Item) (p : Player) : M Player :=
  match item_kind_of item with
  | Consumable eff =>
      do p <- consumable_use item eff p;
      if in_inventory item (p_inventory p)
      then ret (with_inventory (remove_item item (p_inventory p)) p)
      else ret p
  | _ => display_message MsgCannotUse ;; ret p
  end.

(** ** Enemy.create_random_enemy *)

Definition enemy_types : list (string * Z * Z * Z * Z * Z * Z * string) :=
  [ ("Cyber-Drone", 30, 8, 3, 7, 20, 5, "D");
    ("Mutant Scavenger", 40, 12, 5, 6, 30, 8, "S");
    ("Rogue Android", 50, 15, 7, 8, 40, 10, "A");
    ("Alien Hunter", 60, 18, 9, 9, 50, 15, "H") ]%string.

(** [int(base * level_multiplier)] with
    [level_multiplier = 1 + (player_level - 1) * 0.2], computed exactly
    as [base * (player_level + 4) / 5] truncated towards zero.  The
    source computes in binary64, where [0.2] is not exact: for the bases
    of [enemy_types] the two agree at player levels 1 to 18, and the
    source is one less at level 19 (base 50) and at some later levels.
    The properties of generated floors and of combat below read a
    scaled stat at levels 1 to 18 only. *)
Definition scale_stat (base player_level : Z) : Z :=
  (base * (player_level + 4)) `quot` 5.

(** The seven droppable items, each a new object, in list order. *)
Definition fresh_loot : M (list Item) :=
  do o1 <- new_oid; do o2 <- new_oid; do o3 <- new_oid; do o4 <- new_oid;
  do o5 <- new_oid; do o6 <- new_oid; do o7 <- new_oid;
  ret [ HealthPotion o1; EnergyCell o2; EnergyPack o3; LaserPistol o4;
        PlasmaRifle o5; ScrapArmor o6; ReinforcedVest o7 ].

Definition create_random_enemy (player_level : Z) : M Enemy :=
  do '(name, base_hp, base_atk, base_def, base_spd, base_xp, base_credits, symbol)
     <- choice enemy_types;
  let hp := scale_stat base_hp player_level in
  let atk := scale_stat base_atk player_level in
  let defense := scale_stat base_def player_level in
  let speed := scale_stat base_spd player_level in
  let xp := scale_stat base_xp player_level in
  let credits := scale_stat base_credits player_level in
  do drops <- random_lt 3 10;
  do item_drop <-
    (if drops : bool then do loot <- fresh_loot; do it <- choice loot; ret (Some it)
     else ret None);
  ret (mkEnemy name hp hp atk defense speed 1 xp credits item_drop symbol (-1) (-1)).

(** ** Skill effect functions *)

(** What [Skill.use] passes as second argument: the engaged enemy, or
    the floor's entity list. *)
Inductive skill_target :=
  | OneEnemy (oid : nat)
  | EnemiesOnMap (oids : list nat).

Definition _engineer_repair_drone_effect (p : Player) : M Player :=
  let heal_amount := 30 + p_level p * 2 in
  let p := with_hp (Z.min (p_max_hp p) (p_hp p + heal_amount)) p in
  display_message (MsgRepairDrone heal_amount) ;; ret p.

Definition _soldier_power_shot_effect (p : Player) (oid : nat) : M Player :=
  do e <- get_enemy oid;
  if e_is_alive e then
    let damage_bonus := p_attack p `div` 2 in
    let total_damage := Z.max 0 (p_attack p + damage_bonus - e_defense e) in
    let e := e_take_damage total_damage e in
    set_enemy oid e ;;
    display_message (MsgPowerShot (p_name p) (e_name e) total_damage) ;;
    (if e_is_alive e then ret tt else display_message (MsgDefeated (e_name e))) ;;
    ret p
  else display_message MsgNoValidTarget ;; ret p.

Definition _scout_burst_of_speed_effect (p : Player) : M Player :=
  let speed_boost := 5 in
  let p := with_speed (p_speed p + speed_boost) p in
  display_message (MsgBurstOfSpeed (p_name p) speed_boost) ;; ret p.

(** The loop body of [_soldier_grenade_toss_effect] for one entry of
    [list(enemies_on_map)]. *)
Definition grenade_hit (aoe_damage : Z) (oid : nat) : M unit :=
  do e <- get_enemy oid;
  if e_is_alive e then
    let damage_dealt := Z.max 0 (aoe_damage - e_defense e) in
    let e := e_take_damage damage_dealt e in
    set_enemy oid e ;;
    display_message (MsgExplosion (e_name e) damage_dealt) ;;
    (if e_is_alive e then ret tt else display_message (MsgDefeated (e_name e)))
  else ret tt.

Fixpoint for_each_M {A} (l : list A) (body : A → M unit) : M unit :=
  match l with
  | [] => ret tt
  | a :: l' => body a ;; for_each_M l' body
  end.

Definition _soldier_grenade_toss_effect (p : Player) (enemies_on_map : list nat)
    : M Player :=
  let aoe_damage := p_attack p `div` 3 + 10 in
  display_message (MsgGrenade (p_name p) aoe_damage) ;;
  for_each_M enemies_on_map (grenade_hit aoe_damage) ;;
  ret p.

Definition _engineer_shield_matrix_effect (p : Player) : M Player :=
  let defense_boost := 10 in
  let p := with_defense (p_defense p + defense_boost) p in
  display_message (MsgShieldMatrix (p_name p) defense_boost) ;; ret p.

Definition _scout_stealth_field_effect (p : Player) : M Player :=
  let defense_boost := 5 in
  let speed_boost := 3 in
  let p := with_defense (p_defense p + defense_boost) p in
  let p := with_speed (p_speed p + speed_boost) p in
  display_message (MsgStealthField (p_name p) defense_boost speed_boost) ;; ret p.

(** Calling an effect function on the argument it is given.  The effects
    that ignore their second argument accept either kind; the others
    raise when handed the wrong kind (a list has no [is_alive], an enemy
    is not iterable). *)
Definition run_effect (f : skill_effect) (p : Player) (arg : skill_target)
    : M Player :=
  match f, arg with
  | RepairDrone, _ => _engineer_repair_drone_effect p
  | BurstOfSpeed, _ => _scout_burst_of_speed_effect p
  | ShieldMatrix, _ => _engineer_shield_matrix_effect p
  | StealthField, _ => _scout_stealth_field_effect p
  | PowerShot, OneEnemy oid => _soldier_power_shot_effect p oid
  | PowerShot, EnemiesOnMap [] => display_message MsgNoValidTarget ;; ret p
  | PowerShot, EnemiesOnMap (_ :: _) => raise
  | GrenadeToss, EnemiesOnMap oids => _soldier_grenade_toss_effect p oids
  | GrenadeToss, OneEnemy _ =>
      display_message (MsgGrenade (p_name p) (p_attack p `div` 3 + 10)) ;; raise
  end.

(** [Skill.use(player, target, enemies_on_map)]. *)
Definition skill_use (s : Skill) (p : Player) (target : nat)
    (enemies_on_map : list nat) : M Player :=
  if String.eqb (skill_name s) "Grenade Toss"
  then run_effect (skill_effect_func s) p (EnemiesOnMap enemies_on_map)
  else run_effect (skill_effect_func s) p (OneEnemy target).

(** ** Traps *)

Record Trap := mkTrap {
  t_x : Z;
  t_y : Z;
  t_damage : Z;
  triggered : bool
}.

(** [Trap.trigger(player)]: the trap and the player after the call. *)
Definition trigger (t : Trap) (p : Player) : M (Trap * Player) :=
  if triggered t then ret (t, p)
  else
    let t := mkTrap (t_x t) (t_y t) (t_damage t) true in
    display_message MsgTrapStepped ;;
    if String.eqb (p_class_type p) "scout" then
      display_message MsgTrapAvoided ;; ret (t, p)
    else
      let damage_dealt := t_damage t in
      let p := p_take_damage damage_dealt p in
      display_message (MsgTrapDamage damage_dealt (p_hp p) (p_max_hp p)) ;;
      ret (t, p).

(** ** The game map *)

(** A room is the dict [{'x1': .., 'y1': .., 'x2': .., 'y2': ..}]. *)
Record Room := mkRoom { x1 : Z; y1 : Z; x2 : Z; y2 : Z }.

Record GameMap := mkGameMap {
  width : Z;
  height : Z;
  tiles : list (list ascii);          (* tiles[y][x] *)
  player_start : Z * Z;
  exit_location : Z * Z;
  shop_location : option (Z * Z);
  entities : list nat;                (* references to Enemy objects *)
  items_on_map : gmap (Z * Z) Item;
  traps_on_map : gmap (Z * Z) Trap;
  rooms : list Room
}.

Definition m_with_tiles (v : list (list ascii)) (x : GameMap) : GameMap :=
  mkGameMap (width x) (height x) v (player_start x) (exit_location x)
    (shop_location x) (entities x) (items_on_map x) (traps_on_map x) (rooms x).
Definition m_with_player_start (v : Z * Z) (x : GameMap) : GameMap :=
  mkGameMap (width x) (height x) (tiles x) v (exit_location x)
    (shop_location x) (entities x) (items_on_map x) (traps_on_map x) (rooms x).
Definition m_with_exit_location (v : Z * Z) (x : GameMap) : GameMap :=
  mkGameMap (width x) (height x) (tiles x) (player_start x) v
    (shop_location x) (entities x) (items_on_map x) (traps_on_map x) (rooms x).
Definition m_with_shop_location (v : option (Z * Z)) (x : GameMap) : GameMap :=
  mkGameMap (width x) (height x) (tiles x) (player_start x) (exit_location x)
    v (entities x) (items_on_map x) (traps_on_map x) (rooms x).
Definition m_with_entities (v : list nat) (x : GameMap) : GameMap :=
  mkGameMap (width x) (height x) (tiles x) (player_start x) (exit_location x)
    (shop_location x) v (items_on_map x) (traps_on_map x) (rooms x).
Definition m_with_items_on_map (v : gmap (Z * Z) Item) (x : GameMap) : GameMap :=
  mkGameMap (width x) (height x) (tiles x) (player_start x) (exit_location x)
    (shop_location x) (entities x) v (traps_on_map x) (rooms x).
Definition m_with_traps_on_map (v : gmap (Z * Z) Trap) (x : GameMap) : GameMap :=
  mkGameMap (width x) (height x) (tiles x) (player_start x) (exit_location x)
    (shop_location x) (entities x) (items_on_map x) v (rooms x).
Definition m_with_rooms (v : list Room) (x : GameMap) : GameMap :=
  mkGameMap (width x) (height x) (tiles x) (player_start x) (exit_location x)
    (shop_location x) (entities x) (items_on_map x) (traps_on_map x) v.

(** Python list indexing: a negative index counts from the end, an
    index outside [-len .. len-1] raises [IndexError]. *)
Definition py_pos (len : nat) (i : Z) : option nat :=
  if (0 <=? i) && (i <? Z.of_nat len) then Some (Z.to_nat i)
  else if (- Z.of_nat len <=? i) && (i <? 0) then Some (Z.to_nat (Z.of_nat len + i))
  else None.

Definition py_get {A} (l : list A) (i : Z) : option A :=
  match py_pos (length l) i with
  | Some k => l !! k
  | None => None
  end.

Definition py_set {A} (l : list A) (i : Z) (v : A) : option (list A) :=
  match py_pos (length l) i with
  | Some k => Some (<[k := v]> l)
  | None => None
  end.

(** [tiles[y][x]] and [tiles[y][x] = c]. *)
Definition tile_get (t : list (list ascii)) (x y : Z) : option ascii :=
  match py_get t y with
  | Some row => py_get row x
  | None => None
  end.

Definition tile_set (c : ascii) (x y : Z) (t : list (list ascii))
    : option (list (list ascii)) :=
  match py_get t y with
  | Some row =>
      match py_set row x c with
      | Some row' => py_set t y row'
      | None => None
      end
  | None => None
  end.

(** [tiles[y][x] == c] *)
Definition tile_is (c : ascii) (t : list (list ascii)) (x y : Z) : option bool :=
  match tile_get t x y with
  | Some c' => Some (Ascii.eqb c' c)
  | None => None
  end.

(** [[['#' for _ in range(width)] for _ in range(height)]] *)
Definition all_walls (w h : Z) : list (list ascii) :=
  replicate (Z.to_nat h) (replicate (Z.to_nat w) "#"%char).

Definition GameMap_init (w h : Z) : GameMap :=
  mkGameMap w h (all_walls w h) (0, 0) (0, 0) None [] ∅ ∅ [].

(** A [for] loop over a list whose body may raise. *)
Fixpoint for_each {A S} (l : list A) (body : A → S → option S) (s : S) : option S :=
  match l with
  | [] => Some s
  | a :: l' =>
      match body a s with
      | Some s' => for_each l' body s'
      | None => None
      end
  end.

(** [range(a, b)] *)
Definition range (a b : Z) : list Z := seqZ a (b - a).

(** The overlap test of step 1 (rooms expanded by a one-tile margin). *)
Definition overlaps_room (new_room existing_room : Room) : bool :=
  (x1 new_room <=? x2 existing_room + 1) &&
  (x1 existing_room - 1 <=? x2 new_room) &&
  (y1 new_room <=? y2 existing_room + 1) &&
  (y1 existing_room - 1 <=? y2 new_room).

(** Carving a room: rows [y1 .. y2-1], columns [x1 .. x2-1]. *)
Definition carve_room (r : Room) (t : list (list ascii)) : option (list (list ascii)) :=
  for_each (range (y1 r) (y2 r))
    (λ ry t, for_each (range (x1 r) (x2 r)) (λ rx t, tile_set "." rx ry t) t) t.

(** One iteration of [for _ in range(MAX_ROOMS)]. *)
Definition try_room (self : GameMap) : M GameMap :=
  do w <- randint ROOM_MIN_SIZE ROOM_MAX_SIZE;
  do h <- randint ROOM_MIN_SIZE ROOM_MAX_SIZE;
  do x <- randint 1 (width self - w - 1);
  do y <- randint 1 (height self - h - 1);
  let new_room := mkRoom x y (x + w) (y + h) in
  let overlaps := existsb (overlaps_room new_room) (rooms self) in
  if overlaps then ret self
  else
    let self := m_with_rooms (rooms self ++ [new_room]) self in
    do t <- lift (carve_room new_room (tiles self));
    ret (m_with_tiles t self).

Fixpoint place_rooms (n : nat) (self : GameMap) : M GameMap :=
  match n with
  | O => ret self
  | S n' => do self <- try_room self; place_rooms n' self
  end.

(** [self.rooms.sort(key=lambda r: r['x1'])]: a stable sort on [x1]. *)
Fixpoint insert_room (r : Room) (l : list Room) : list Room :=
  match l with
  | [] => [r]
  | r' :: l' => if x1 r <=? x1 r' then r :: l else r' :: insert_room r l'
  end.

Definition sort_rooms (l : list Room) : list Room := foldr insert_room [] l.

Definition center_x (r : Room) : Z := (x1 r + x2 r) `div` 2.
Definition center_y (r : Room) : Z := (y1 r + y2 r) `div` 2.

(** The L-shaped corridor from [room1] to [room2]. *)
Definition carve_corridor (room1 room2 : Room) (t : list (list ascii))
    : option (list (list ascii)) :=
  let center1_x := center_x room1 in
  let center1_y := center_y room1 in
  let center2_x := center_x room2 in
  let center2_y := center_y room2 in
  match for_each (range (Z.min center1_x center2_x) (Z.max center1_x center2_x + 1))
          (λ x t, tile_set "." x center1_y t) t with
  | Some t =>
      for_each (range (Z.min center1_y center2_y) (Z.max center1_y center2_y + 1))
        (λ y t, tile_set "." center2_x y t) t
  | None => None
  end.

(** [for i in range(len(rooms) - 1)]: [rooms[i]] to [rooms[i+1]]. *)
Fixpoint connect_rooms (rs : list Room) (t : list (list ascii))
    : option (list (list ascii)) :=
  match rs with
  | room1 :: ((room2 :: _) as rest) =>
      match carve_corridor room1 room2 t with
      | Some t => connect_rooms rest t
      | None => None
      end
  | _ => Some t
  end.

(** Step 2. *)
Definition connect (self : GameMap) : option GameMap :=
  if (1 <? length (rooms self))%nat then
    let self := m_with_rooms (sort_rooms (rooms self)) self in
    match connect_rooms (rooms self) (tiles self) with
    | Some t => Some (m_with_tiles t self)
    | None => None
    end
  else Some self.

(** The scan that collects [empty_tiles], row by row. *)
Definition scan_empty (self : GameMap) : option (list (Z * Z)) :=
  for_each (range 0 (height self))
    (λ y acc,
       for_each (range 0 (width self))
         (λ x acc,
            match tile_is "." (tiles self) x y with
            | Some true => Some (acc ++ [(x, y)])
            | Some false => Some acc
            | None => None
            end) acc) [].

(** [empty_tiles.remove(pos)]: drops the first occurrence; [ValueError]
    when there is none. *)
Fixpoint remove_first (pos : Z * Z) (l : list (Z * Z)) : option (list (Z * Z)) :=
  match l with
  | [] => None
  | q :: l' =>
      if bool_decide (q = pos) then Some l'
      else match remove_first pos l' with
           | Some r => Some (q :: r)
           | None => None
           end
  end.

(** [random.choice(empty_tiles)] followed by [empty_tiles.remove(..)]. *)
Definition take_tile (empty_tiles : list (Z * Z)) : M (Z * Z * list (Z * Z)) :=
  do pos <- choice empty_tiles;
  do rest <- lift (remove_first pos empty_tiles);
  ret (pos, rest).

Definition mark (c : ascii) (pos : Z * Z) (self : GameMap) : M GameMap :=
  do t <- lift (tile_set c pos.1 pos.2 (tiles self));
  ret (m_with_tiles t self).

(** The [while True] loop that places the exit; [budget] bounds the
    number of redraws. *)
Fixpoint place_exit (budget : nat) (self : GameMap) (empty_tiles : list (Z * Z))
    : M (GameMap * list (Z * Z)) :=
  match budget with
  | O => raise
  | S budget' =>
      do ex <- choice empty_tiles;
      let self := m_with_exit_location ex self in
      if (width self `div` 4 <? Z.abs (ex.1 - (player_start self).1))
         || (height self `div` 4 <? Z.abs (ex.2 - (player_start self).2))
      then
        do rest <- lift (remove_first ex empty_tiles);
        do self <- mark "E" ex self;
        ret (self, rest)
      else place_exit budget' self empty_tiles
  end.

(** The [while True] loop that places the shop. *)
Fixpoint place_shop (budget : nat) (self : GameMap) (empty_tiles : list (Z * Z))
    : M (GameMap * list (Z * Z)) :=
  match budget with
  | O => raise
  | S budget' =>
      do pos <- choice empty_tiles;
      if negb (bool_decide (pos = player_start self))
         && negb (bool_decide (pos = exit_location self))
      then
        do rest <- lift (remove_first pos empty_tiles);
        let self := m_with_shop_location (Some pos) self in
        do self <- mark "S" pos self;
        ret (self, rest)
      else place_shop budget' self empty_tiles
  end.

(** [int(len(empty_tiles) * TRAP_SPAWN_CHANCE)] with the chance [0.033]
    taken as the fraction [33/1000] (the same integer as the float
    product for every list shorter than 1000 tiles). *)
Definition num_traps_for (empty_tiles : list (Z * Z)) : nat :=
  Z.to_nat ((Z.of_nat (length empty_tiles) * 33) `div` 1000).

Fixpoint place_traps (n : nat) (self : GameMap) (empty_tiles : list (Z * Z))
    : M (GameMap * list (Z * Z)) :=
  match n with
  | O => ret (self, empty_tiles)
  | S n' =>
      match empty_tiles with
      | [] => ret (self, empty_tiles)      (* break *)
      | _ =>
          do '(pos, rest) <- take_tile empty_tiles;
          let self :=
            m_with_traps_on_map
              (<[pos := mkTrap pos.1 pos.2 TRAP_DAMAGE_BASE false]> (traps_on_map self))
              self in
          place_traps n' self rest
      end
  end.

Fixpoint place_enemies (n : nat) (player_level : Z) (self : GameMap)
    (empty_tiles : list (Z * Z)) : M (GameMap * list (Z * Z)) :=
  match n with
  | O => ret (self, empty_tiles)
  | S n' =>
      match empty_tiles with
      | [] => ret (self, empty_tiles)      (* break *)
      | _ =>
          do '(pos, rest) <- take_tile empty_tiles;
          do enemy <- create_random_enemy player_level;
          let enemy := e_with_xy pos.1 pos.2 enemy in
          do oid <- alloc_enemy enemy;
          let self := m_with_entities (entities self ++ [oid]) self in
          place_enemies n' player_level self rest
      end
  end.

Fixpoint place_items (n : nat) (self : GameMap) (empty_tiles : list (Z * Z))
    : M (GameMap * list (Z * Z)) :=
  match n with
  | O => ret (self, empty_tiles)
  | S n' =>
      match empty_tiles with
      | [] => ret (self, empty_tiles)      (* break *)
      | _ =>
          do '(pos, rest) <- take_tile empty_tiles;
          do loot <- fresh_loot;
          do item <- choice loot;
          let self := m_with_items_on_map (<[pos := item]> (items_on_map self)) self in
          place_items n' self rest
      end
  end.

(** [CRYSTAL_SPAWN_CHANCE_BASE + current_level_num *
    CRYSTAL_SPAWN_CHANCE_PER_LEVEL] is [(20 + 5 * current_level_num) / 1000]. *)
Fixpoint place_crystals (n : nat) (current_level_num : Z) (self : GameMap)
    (empty_tiles : list (Z * Z)) : M (GameMap * list (Z * Z)) :=
  match n with
  | O => ret (self, empty_tiles)
  | S n' =>
      match empty_tiles with
      | [] => ret (self, empty_tiles)      (* break *)
      | _ =>
          do spawn <- random_lt (20 + 5 * current_level_num) 1000;
          if spawn : bool then
            do '(pos, rest) <- take_tile empty_tiles;
            do oid <- new_oid;
            let self :=
              m_with_items_on_map (<[pos := EnergyCrystal oid]> (items_on_map self))
                self in
            place_crystals n' current_level_num self rest
          else place_crystals n' current_level_num self empty_tiles
      end
  end.

(** Step 3, once [empty_tiles] is known to be non-empty. *)
Definition place_features (budget : nat) (self : GameMap)
    (empty_tiles : list (Z * Z)) (player_level current_level_num : Z)
    (is_shop_floor : bool) : M GameMap :=
  do start <- choice empty_tiles;
  let self := m_with_player_start start self in
  do empty_tiles <- lift (remove_first start empty_tiles);
  do self <- mark "P" start self;
  do '(self, empty_tiles) <- place_exit budget self empty_tiles;
  do '(self, empty_tiles) <-
    (if is_shop_floor then place_shop budget self empty_tiles
     else ret (self, empty_tiles));
  do '(self, empty_tiles) <- place_traps (num_traps_for empty_tiles) self empty_tiles;
  do num_enemies <- randint 1 MAX_ENEMIES_PER_LEVEL;
  do '(self, empty_tiles) <-
    place_enemies (Z.to_nat num_enemies) player_level self empty_tiles;
  do num_items <- randint 0 MAX_ITEMS_PER_LEVEL;
  do '(self, empty_tiles) <- place_items (Z.to_nat num_items) self empty_tiles;
  do num_crystals <- randint 0 2;
  do '(self, _) <-
    place_crystals (Z.to_nat num_crystals) current_level_num self empty_tiles;
  ret self.

(** The state of the map after the resets at the top of [generate_map]. *)
Definition reset_map (self : GameMap) : GameMap :=
  mkGameMap (width self) (height self) (all_walls (width self) (height self))
    (player_start self) (exit_location self) None [] ∅ ∅ [].

(** Steps 1 and 2: the carved floor before any feature is placed. *)
Definition carve_floor (self : GameMap) : M GameMap :=
  do self <- place_rooms MAX_ROOMS (reset_map self);
  lift (connect self).

(** [GameMap.generate_map].  [budget] bounds the regenerations of the
    degenerate case and the redraws of the exit and shop loops. *)
Fixpoint generate_map (budget : nat) (self : GameMap)
    (player_level current_level_num : Z) (is_shop_floor : bool) : M GameMap :=
  match budget with
  | O => raise
  | S budget' =>
      do self <- carve_floor self;
      do empty_tiles <- lift (scan_empty self);
      match empty_tiles with
      | [] =>
          display_message MsgNoEmptyTiles ;;
          generate_map budget' self player_level current_level_num is_shop_floor
      | _ =>
          place_features budget' self empty_tiles player_level current_level_num
            is_shop_floor
      end
  end.

(** ** The game *)

Record Game := mkGame {
  player : option Player;             (* None until created or loaded *)
  current_map : option GameMap;
  game_over : bool;
  current_level_num : Z;
  original_player_speed : Z;
  original_player_defense : Z
}.

Definition g_with_player (v : option Player) (x : Game) : Game :=
  mkGame v (current_map x) (game_over x) (current_level_num x)
    (original_player_speed x) (original_player_defense x).
Definition g_with_current_map (v : option GameMap) (x : Game) : Game :=
  mkGame (player x) v (game_over x) (current_level_num x)
    (original_player_speed x) (original_player_defense x).
Definition g_with_game_over (v : bool) (x : Game) : Game :=
  mkGame (player x) (current_map x) v (current_level_num x)
    (original_player_speed x) (original_player_defense x).
Definition g_with_current_level_num (v : Z) (x : Game) : Game :=
  mkGame (player x) (current_map x) (game_over x) v
    (original_player_speed x) (original_player_defense x).
Definition g_with_original_player_speed (v : Z) (x : Game) : Game :=
  mkGame (player x) (current_map x) (game_over x) (current_level_num x)
    v (original_player_defense x).
Definition g_with_original_player_defense (v : Z) (x : Game) : Game :=
  mkGame (player x) (current_map x) (game_over x) (current_level_num x)
    (original_player_speed x) v.

Definition Game_init : Game := mkGame None None false 0 0 0.

(** [self.player] and [self.current_map] where the code dereferences
    them ([AttributeError] on [None]). *)
Definition the_player (g : Game) : M Player := lift (player g).
Definition the_map (g : Game) : M GameMap := lift (current_map g).
Definition set_player (p : Player) (g : Game) : Game := g_with_player (Some p) g.
Definition set_map (m : GameMap) (g : Game) : Game := g_with_current_map (Some m) g.

(** *** Saving and loading *)

(** The [player_data] object of the save file.  [credits] and
    [crystals_collected] are read with [.get(key, 0)] and may be absent;
    the other keys are read with [[key]]. *)
Record PlayerData := mkPlayerData {
  pd_name : string;
  pd_hp : Z;
  pd_max_hp : Z;
  pd_attack : Z;
  pd_defense : Z;
  pd_speed : Z;
  pd_level : Z;
  pd_xp : Z;
  pd_xp_to_next_level : Z;
  pd_class_type : string;
  pd_max_energy : Z;
  pd_energy : Z;
  pd_credits : option Z;
  pd_crystals_collected : option Z;
  pd_x : Z;
  pd_y : Z;
  pd_inventory : list string;
  pd_equipped_weapon : option string;   (* None is JSON null *)
  pd_equipped_armor : option string;
  pd_learned_skills : list string
}.

Record SaveData := mkSaveData {
  sd_current_level_num : Z;
  sd_player_data : PlayerData
}.

(** [Game.save_game]: the record dumped to the save file, if any. *)
Definition save_game (g : Game) : M (option SaveData) :=
  match player g with
  | None => ret None       (* "No game in progress to save." *)
  | Some p =>
      let inventory_names := item_name <$> p_inventory p in
      let equipped_weapon_name := item_name <$> p_equipped_weapon p in
      let equipped_armor_name := item_name <$> p_equipped_armor p in
      let learned_skill_names := skill_name <$> p_learned_skills p in
      let save_data :=
        mkSaveData (current_level_num g)
          (mkPlayerData (p_name p) (p_hp p) (p_max_hp p) (p_attack p) (p_defense p)
             (p_speed p) (p_level p) (p_xp p) (p_xp_to_next_level p)
             (p_class_type p) (p_max_energy p) (p_energy p) (Some (p_credits p))
             (Some (p_crystals_collected p)) (p_x p) (p_y p) inventory_names
             equipped_weapon_name equipped_armor_name learned_skill_names) in
      display_message MsgGameSaved ;;
      ret (Some save_data)
  end.

(** [Player.__init__] *)
Definition Player_init (name : string) (hp attack defense speed : Z)
    (class_type : string) : Player :=
  mkPlayer name hp hp attack defense speed 1 class_type [] None None 0
    XP_TO_LEVEL_UP_BASE 1 [] INITIAL_PLAYER_ENERGY INITIAL_PLAYER_ENERGY 0 0 0 0.

(** "Reconstruct inventory" *)
Fixpoint load_inventory (names : list string) (inv : list Item) : M (list Item) :=
  match names with
  | [] => ret inv
  | item_name :: names' =>
      match ALL_ITEM_CLASSES !! item_name with
      | Some item_class =>
          do oid <- new_oid; load_inventory names' (inv ++ [item_class oid])
      | None =>
          display_message (MsgUnknownItem item_name) ;; load_inventory names' inv
      end
  end.

(** "Reconstruct equipped items": one slot.  An empty name is falsy. *)
Definition load_equipped (name : option string) (unknown : string → Msg)
    (current : option Item) : M (option Item) :=
  match name with
  | Some n =>
      if String.eqb n "" then ret current
      else match ALL_ITEM_CLASSES !! n with
           | Some item_class => do oid <- new_oid; ret (Some (item_class oid))
           | None => display_message (unknown n) ;; ret current
           end
  | None => ret current
  end.

(** "Reconstruct learned skills" *)
Fixpoint load_skills (names : list string) (skills : list Skill) : M (list Skill) :=
  match names with
  | [] => ret skills
  | skill_name :: names' =>
      match ALL_SKILL_DATA !! skill_name with
      | Some (cost, effect, description) =>
          load_skills names' (skills ++ [mkSkill skill_name description cost effect])
      | None =>
          display_message (MsgUnknownSkill skill_name) ;; load_skills names' skills
      end
  end.

(** The part of [Game.load_game] that rebuilds the player. *)
Definition load_player (player_data : PlayerData) : M Player :=
  let p := Player_init (pd_name player_data) (pd_max_hp player_data)
             (pd_attack player_data) (pd_defense player_data)
             (pd_speed player_data) (pd_class_type player_data) in
  let p := with_hp (pd_hp player_data) p in
  let p := with_energy (pd_energy player_data) p in
  let p := with_credits (default 0 (pd_credits player_data)) p in
  let p := with_crystals_collected (default 0 (pd_crystals_collected player_data)) p in
  let p := with_level (pd_level player_data) p in
  let p := with_xp (pd_xp player_data) p in
  let p := with_xp_to_next_level (pd_xp_to_next_level player_data) p in
  let p := with_max_energy (pd_max_energy player_data) p in
  let p := with_xy (pd_x player_data) (pd_y player_data) p in
  do inv <- load_inventory (pd_inventory player_data) [];
  let p := with_inventory inv p in
  do wpn <- load_equipped (pd_equipped_weapon player_data) MsgUnknownWeapon
              (p_equipped_weapon p);
  let p := with_equipped_weapon wpn p in
  do arm <- load_equipped (pd_equipped_armor player_data) MsgUnknownArmor
              (p_equipped_armor p);
  let p := with_equipped_armor arm p in
  do skills <- load_skills (pd_learned_skills player_data) [];
  ret (with_learned_skills skills p).

(** [Game.load_game] on a save file that parses to [save_data]. *)
Definition load_game (budget : nat) (save_data : SaveData) (g : Game) : M Game :=
  let player_data := sd_player_data save_data in
  let g := g_with_current_level_num (sd_current_level_num save_data) g in
  do p <- load_player player_data;
  let g := set_player p g in
  let g := g_with_original_player_speed (p_speed p) g in
  let g := g_with_original_player_defense (p_defense p) g in
  let is_shop_floor :=
    (current_level_num g `mod` 5 =? 0) && (0 <? current_level_num g) in
  do m <- generate_map budget (GameMap_init MAP_WIDTH MAP_HEIGHT) (p_level p)
            (current_level_num g) is_shop_floor;
  let g := set_map m g in
  display_message MsgGameLoaded ;;
  ret g.

(** *** Enemy turns (the loop at the end of [main_game_loop]) *)

(** [0 <= x < width and 0 <= y < height] *)
Definition in_bounds (m : GameMap) (x y : Z) : bool :=
  (0 <=? x) && (x <? width m) && (0 <=? y) && (y <? height m).

(** Is a living enemy of [oids], other than [self_oid] when given,
    standing on [(x, y)]?  (The loops over [entities] that set a flag
    and [break].) *)
Definition enemy_at (x y : Z) (e : Enemy) : bool :=
  e_is_alive e && (e_x e =? x) && (e_y e =? y).

Fixpoint occupied (skip : option nat) (x y : Z) (oids : list nat) : M bool :=
  match oids with
  | [] => ret false
  | oid :: oids' =>
      do other <- get_enemy oid;
      if negb (bool_decide (skip = Some oid)) && enemy_at x y other then ret true
      else occupied skip x y oids'
  end.

(** The step an enemy at [(ex, ey)] wants to take towards the player. *)
Definition step_towards (px py ex ey : Z) : Z * Z :=
  let new_x := if ex <? px then ex + 1 else if px <? ex then ex - 1 else ex in
  let new_y := if ey <? py then ey + 1 else if py <? ey then ey - 1 else ey in
  (new_x, new_y).

(** The body of [for enemy in self.current_map.entities]. *)
Definition enemy_turn (m : GameMap) (oid : nat) (p : Player) : M Player :=
  do enemy <- get_enemy oid;
  if e_is_alive enemy then
    let dx := Z.abs (e_x enemy - p_x p) in
    let dy := Z.abs (e_y enemy - p_y p) in
    if ((dx =? 1) && (dy =? 0)) || ((dx =? 0) && (dy =? 1)) then
      enemy_attacks enemy p
    else
      let '(new_x, new_y) := step_towards (p_x p) (p_y p) (e_x enemy) (e_y enemy) in
      do can_move <-
        (if negb (in_bounds m new_x new_y) then ret false
         else do wall <- lift (tile_is "#" (tiles m) new_x new_y);
              ret (negb wall));
      do taken <- occupied (Some oid) new_x new_y (entities m);
      let can_move := if taken : bool then false else can_move in
      let can_move :=
        if bool_decide ((new_x, new_y) = (p_x p, p_y p)) then false else can_move in
      (if can_move : bool then set_enemy oid (e_with_xy new_x new_y enemy)
       else ret tt) ;;
      ret p
  else ret p.

Fixpoint enemy_turns_loop (m : GameMap) (oids : list nat) (p : Player) : M Player :=
  match oids with
  | [] => ret p
  | oid :: oids' => do p <- enemy_turn m oid p; enemy_turns_loop m oids' p
  end.

(** "Enemy turns (only if player is still alive and game not over)". *)
Definition enemy_turns (g : Game) : M Game :=
  do p <- the_player g;
  if p_is_alive p && negb (game_over g) then
    do m <- the_map g;
    do p <- enemy_turns_loop m (entities m) p;
    ret (set_player p g)
  else ret g.

(** *** Combat *)

(** [self.current_map.entities = [e for e in ... if e.is_alive()]] *)
Fixpoint prune (oids : list nat) : M (list nat) :=
  match oids with
  | [] => ret []
  | oid :: oids' =>
      do e <- get_enemy oid;
      do rest <- prune oids';
      ret (if e_is_alive e then oid :: rest else rest)
  end.

(** The free orthogonal neighbours of the player, in the order
    [(0, 1), (0, -1), (1, 0), (-1, 0)]. *)
Fixpoint free_neighbours (m : GameMap) (x y : Z) (dirs : list (Z * Z))
    : M (list (Z * Z)) :=
  match dirs with
  | [] => ret []
  | (dx, dy) :: dirs' =>
      let new_x := x + dx in
      let new_y := y + dy in
      do ok <-
        (if in_bounds m new_x new_y then
           do floor <- lift (tile_is "." (tiles m) new_x new_y);
           if floor : bool then
             do is_occupied <- occupied None new_x new_y (entities m);
             ret (negb is_occupied)
           else ret false
         else ret false);
      do rest <- free_neighbours m x y dirs';
      ret (if ok : bool then (new_x, new_y) :: rest else rest)
  end.

Definition attempt_flee (enemy : nat) (g : Game) : M (bool * Game) :=
  do p <- the_player g;
  do e <- get_enemy enemy;
  display_message (MsgFleeAttempt (p_speed p) (e_speed e)) ;;
  do escaped <- random_lt (p_speed p) (p_speed p + e_speed e);
  if escaped : bool then
    display_message MsgEscaped ;;
    do m <- the_map g;
    do possible_moves <-
      free_neighbours m (p_x p) (p_y p) [(0, 1); (0, -1); (1, 0); (-1, 0)];
    match possible_moves with
    | [] => display_message MsgNoEscapeRoute ;; ret (true, g)
    | _ =>
        do pos <- choice possible_moves;
        display_message MsgSaferPosition ;;
        ret (true, set_player (with_xy pos.1 pos.2 p) g)
    end
  else ret (false, g).

(** [Game.handle_inventory]: the menu loop.  [budget] bounds the number
    of prompts. *)
Fixpoint inventory_menu (budget : nat) (in_combat : bool) (g : Game)
    : M (bool * Game) :=
  match budget with
  | O => raise
  | S budget' =>
      do choice <- read_entry;
      do p <- the_player g;
      let again :=
        inventory_menu budget' in_combat g in
      match choice with
      | Txt s =>
          if String.eqb s "b" then ret (false, g)
          else display_message MsgEnterNumberOrB ;; again     (* ValueError *)
      | Num n =>
          let item_index := n - 1 in
          if (0 <=? item_index) && (item_index <? Z.of_nat (length (p_inventory p)))
          then
            do item <- lift (p_inventory p !! Z.to_nat item_index);
            match item_kind_of item with
            | Consumable _ =>
                do p <- use_item item p;
                ret (true, set_player p g)
            | Collectible =>
                display_message MsgCannotUseCrystals ;; again   (* continue *)
            | Weapon _ =>
                if match p_equipped_weapon p with
                   | Some w => item_is item w
                   | None => false
                   end
                then display_message (MsgAlreadyEquipped (item_name item)) ;; again
                else
                  do p <- equip_item item p;
                  let p :=
                    if in_inventory item (p_inventory p)
                    then with_inventory (delete (Z.to_nat item_index) (p_inventory p)) p
                    else p in
                  ret (true, set_player p g)
            | Armor _ =>
                if match p_equipped_armor p with
                   | Some a => item_is item a
                   | None => false
                   end
                then display_message (MsgAlreadyEquipped (item_name item)) ;; again
                else
                  do p <- equip_item item p;
                  let p :=
                    if in_inventory item (p_inventory p)
                    then with_inventory (delete (Z.to_nat item_index) (p_inventory p)) p
                    else p in
                  ret (true, set_player p g)
            end
          else display_message MsgInvalidItemNumber ;; again
      end
  end.

Definition handle_inventory (budget : nat) (in_combat : bool) (g : Game)
    : M (bool * Game) :=
  do p <- the_player g;
  match p_inventory p with
  | [] =>
      display_message MsgInventoryEmpty ;;
      (if in_combat then ret tt
       else display_message MsgPressAnyKey ;; do _ <- read_entry; ret tt) ;;
      ret (false, g)
  | _ => inventory_menu budget in_combat g
  end.

(** [Game.handle_skills]: the menu loop. *)
Fixpoint skills_menu (budget : nat) (enemy : nat) (g : Game) : M (bool * Game) :=
  match budget with
  | O => raise
  | S budget' =>
      do choice <- read_entry;
      do p <- the_player g;
      match choice with
      | Txt s =>
          if String.eqb s "b" then ret (false, g)
          else display_message MsgEnterNumberOrB ;;        (* ValueError *)
               skills_menu budget' enemy g
      | Num n =>
          let skill_index := n - 1 in
          if (0 <=? skill_index)
             && (skill_index <? Z.of_nat (length (p_learned_skills p)))
          then
            do skill <- lift (p_learned_skills p !! Z.to_nat skill_index);
            if energy_cost skill <=? p_energy p then
              let p := with_energy (p_energy p - energy_cost skill) p in
              if String.eqb (skill_name skill) "Grenade Toss" then
                do m <- the_map g;
                do p <- skill_use skill p enemy (entities m);
                do alive <- prune (entities m);
                let g := set_player p g in
                ret (true, set_map (m_with_entities alive m) g)
              else
                do p <- skill_use skill p enemy [];
                ret (true, set_player p g)
            else
              display_message
                (MsgNotEnoughEnergy (skill_name skill) (energy_cost skill)) ;;
              skills_menu budget' enemy g
          else display_message MsgInvalidSkillNumber ;; skills_menu budget' enemy g
      end
  end.

Definition handle_skills (budget : nat) (enemy : nat) (g : Game) : M (bool * Game) :=
  do p <- the_player g;
  match p_learned_skills p with
  | [] => display_message MsgNoSkills ;; ret (false, g)
  | _ => skills_menu budget enemy g
  end.

Inductive combatant := ThePlayer | TheEnemy.

(** [sorted([self.player, enemy], key=lambda c: c.speed, reverse=True)]:
    the sort is stable, so the player comes first on a tie. *)
Definition turn_order (p : Player) (e : Enemy) : list combatant :=
  if p_speed p <? e_speed e then [TheEnemy; ThePlayer] else [ThePlayer; TheEnemy].

(** [for combatant in combatants]: returns [combat_active].  A
    [continue] moves on to the next combatant, like the normal end of the
    loop body. *)
Fixpoint combat_turns (budget : nat) (cs : list combatant) (enemy : nat) (g : Game)
    : M (bool * Game) :=
  match cs with
  | [] => ret (true, g)
  | c :: cs' =>
      do p <- the_player g;
      do e <- get_enemy enemy;
      if negb (p_is_alive p) || negb (e_is_alive e) then ret (true, g)   (* break *)
      else
        match c with
        | ThePlayer =>
            let action_options :=
              ["a"; "i"; "f"]%string
              ++ (match p_learned_skills p with [] => [] | _ => ["k"%string] end) in
            do action <- get_player_input action_options;
            if String.eqb action "a" then
              player_attacks p enemy ;; combat_turns budget cs' enemy g
            else if String.eqb action "i" then
              do '(item_used_or_equipped, g) <- handle_inventory budget true g;
              if item_used_or_equipped : bool then combat_turns budget cs' enemy g
              else combat_turns budget cs' enemy g                    (* continue *)
            else if String.eqb action "f" then
              do '(fled, g) <- attempt_flee enemy g;
              if fled : bool then ret (false, g)                      (* break *)
              else display_message MsgFailedToEscape ;;
                   combat_turns budget cs' enemy g
            else if String.eqb action "k" then
              do '(skill_used, g) <- handle_skills budget enemy g;
              if skill_used : bool then combat_turns budget cs' enemy g
              else combat_turns budget cs' enemy g                    (* continue *)
            else combat_turns budget cs' enemy g
        | TheEnemy =>
            do p <- enemy_attacks e p;
            combat_turns budget cs' enemy (set_player p g)
        end
  end.

(** [while self.player.is_alive() and enemy.is_alive() and combat_active].
    [budget] bounds the number of rounds and of menu prompts. *)
Fixpoint combat_loop (budget : nat) (enemy : nat) (g : Game) : M Game :=
  match budget with
  | O => raise
  | S budget' =>
      do p <- the_player g;
      do e <- get_enemy enemy;
      if p_is_alive p && e_is_alive e then
        do '(combat_active, g) <- combat_turns budget' (turn_order p e) enemy g;
        if combat_active : bool then combat_loop budget' enemy g else ret g
      else ret g
  end.

(** [Game.combat_round] up to and including the reset of the temporary
    boosts ("Combat ends: reset any temporary stat boosts from skills"). *)
Definition fight (budget : nat) (enemy : nat) (g : Game) : M Game :=
  do p <- the_player g;
  let initial_player_speed_in_combat := p_speed p in
  let initial_player_defense_in_combat := p_defense p in
  do g <- combat_loop budget enemy g;
  do p <- the_player g;
  let p := with_speed initial_player_speed_in_combat p in
  let p := with_defense initial_player_defense_in_combat p in
  ret (set_player p g).

(** The rest of [Game.combat_round]: the outcome. *)
Definition combat_outcome (enemy : nat) (g : Game) : M Game :=
  do p <- the_player g;
  do e <- get_enemy enemy;
  if negb (p_is_alive p) then
    display_message MsgWereDefeated ;;
    ret (g_with_game_over true g)
  else if negb (e_is_alive e) then
    display_message (MsgYouDefeated (e_name e)) ;;
    do p <- add_xp (e_xp_value e) p;
    let p := with_credits (p_credits p + e_credit_value e) p in
    display_message (MsgGainedCredits (e_credit_value e)) ;;
    do p <-
      match e_item_drop e with
      | Some drop =>
          display_message (MsgDropped (e_name e) (item_name drop)) ;;
          ret (with_inventory (p_inventory p ++ [drop]) p)
      | None => ret p
      end;
    do m <- the_map g;
    do alive <- prune (entities m);
    let g := set_map (m_with_entities alive m) (set_player p g) in
    display_message MsgPressAnyKey ;;
    do _ <- read_entry;
    ret g
  else ret g.

Definition combat_round (budget : nat) (enemy : nat) (g : Game) : M Game :=
  do g <- fight budget enemy g;
  combat_outcome enemy g.

(** *** Movement *)

(** The first living enemy of [oids] standing on [(x, y)]. *)
Fixpoint find_enemy_at (x y : Z) (oids : list nat) : M (option nat) :=
  match oids with
  | [] => ret None
  | oid :: oids' =>
      do e <- get_enemy oid;
      if enemy_at x y e then ret (Some oid) else find_enemy_at x y oids'
  end.

(** How a call of [move_player] went. *)
Inductive move_result :=
  | InvalidDirection     (* not one of w/a/s/d *)
  | HitWall              (* out of bounds or a wall tile *)
  | DiedOnTrap           (* the trap on the target tile killed the player *)
  | Fought               (* an enemy stood on the target tile *)
  | Stepped.             (* the player now stands on the target tile *)

(** "Check for traps FIRST": the trap block of [move_player] for the
    target tile; the flag tells whether the trap was triggered now. *)
Definition step_on_trap (pos : Z * Z) (m : GameMap) (p : Player)
    : M (bool * GameMap * Player) :=
  match traps_on_map m !! pos with
  | Some trap =>
      if negb (triggered trap) then
        do '(_, p) <- trigger trap p;
        ret (true, m_with_traps_on_map (delete pos (traps_on_map m)) m, p)
      else ret (false, m, p)
  | None => ret (false, m, p)
  end.

(** [Game.move_player] up to and including the pick-up of an item on
    the tile stepped on.  The shop and exit interactions that may follow
    a step ([handle_shop], [generate_level]) are outside this
    development; they start from the state returned with [Stepped]. *)
Definition move_player (budget : nat) (direction : string) (g : Game)
    : M (move_result * Game) :=
  do p <- the_player g;
  do target <-
    (if String.eqb direction "w" then ret (Some (p_x p, p_y p - 1))
     else if String.eqb direction "s" then ret (Some (p_x p, p_y p + 1))
     else if String.eqb direction "a" then ret (Some (p_x p - 1, p_y p))
     else if String.eqb direction "d" then ret (Some (p_x p + 1, p_y p))
     else display_message MsgInvalidDirection ;; ret None);
  match target with
  | None => ret (InvalidDirection, g)
  | Some (new_x, new_y) =>
      do m <- the_map g;
      do blocked <-
        (if negb (in_bounds m new_x new_y) then ret true
         else lift (tile_is "#" (tiles m) new_x new_y));
      if blocked : bool then display_message MsgHitWall ;; ret (HitWall, g)
      else
        do '(fired, m, p) <- step_on_trap (new_x, new_y) m p;
        let g := set_map m (set_player p g) in
        if fired && negb (p_is_alive p) then ret (DiedOnTrap, g)
        else
          do target_enemy <- find_enemy_at new_x new_y (entities m);
          match target_enemy with
          | Some enemy =>
              do e <- get_enemy enemy;
              display_message (MsgBump (e_name e)) ;;
              display_message MsgPressAnyKey ;;
              do _ <- read_entry;
              do g <- combat_round budget enemy g;
              ret (Fought, g)
          | None =>
              let p := with_xy new_x new_y p in
              match items_on_map m !! (p_x p, p_y p) with
              | Some item =>
                  let m := m_with_items_on_map
                             (delete (p_x p, p_y p) (items_on_map m)) m in
                  match item_kind_of item with
                  | Collectible =>
                      let p := with_crystals_collected (p_crystals_collected p + 1) p in
                      display_message
                        (MsgFoundCrystal (item_name item) (p_crystals_collected p)) ;;
                      ret (Stepped, set_map m (set_player p g))
                  | _ =>
                      let p := with_inventory (p_inventory p ++ [item]) p in
                      display_message (MsgFoundItem (item_name item)) ;;
                      ret (Stepped, set_map m (set_player p g))
                  end
              | None => ret (Stepped, set_player p g)
              end
          end
  end.
(** The progression rule as the specification words it: level up
    _while_ [xp >= xp_to_next_level].  [rounds] bounds the iterations. *)
Fixpoint level_up_while (rounds : nat) (p : Player) : M Player :=
  match rounds with
  | O => raise
  | S rounds' =>
      if p_xp_to_next_level p <=? p_xp p then
        do p <- level_up p; level_up_while rounds' p
      else ret p
  end.

Definition add_xp_spec (rounds : nat) (amount : Z) (p : Player) : M Player :=
  let p := with_xp (p_xp p + amount) p in
  display_message (MsgGainedXP amount) ;;
  level_up_while rounds p.

(** A fresh level-1 soldier, as [character_creation] builds it before
    the starting equipment is handed out. *)
Definition new_soldier : Player :=
  mkPlayer "Ada" 110 110 15 5 10 1 "soldier" [] None None 0 XP_TO_LEVEL_UP_BASE 1
           [] INITIAL_PLAYER_ENERGY INITIAL_PLAYER_ENERGY 0 0 0 0.

Definition empty_world : World := mkWorld [] [] [] ∅ 0.

(** A soldier with 110 hp steps on a fresh trap. *)
Definition fresh_trap : Trap := mkTrap 3 4 TRAP_DAMAGE_BASE false.

(** ** Properties used in the statements below *)

(** The effect of one level-up on [p], whatever skills are unlocked on
    the way: the stats that grow, and the belongings that stay. *)
Definition leveled_up (p p' : Player) : Prop :=
  p_level p' = p_level p + 1 ∧
  p_max_hp p' = p_max_hp p + 15 ∧
  p_hp p' = p_max_hp p + 15 ∧
  p_attack p' = p_attack p + 3 ∧
  p_defense p' = p_defense p + 2 ∧
  p_speed p' = p_speed p + 1 ∧
  p_max_energy p' = p_max_energy p + 10 ∧
  p_energy p' = p_max_energy p + 10 ∧
  p_xp p' = p_xp p - p_xp_to_next_level p ∧
  p_xp_to_next_level p' = xp_for_level (p_level p + 1) ∧
  p_credits p' = p_credits p ∧
  p_crystals_collected p' = p_crystals_collected p ∧
  p_inventory p' = p_inventory p ∧
  p_equipped_weapon p' = p_equipped_weapon p ∧
  p_equipped_armor p' = p_equipped_armor p.

(** What [unlock] leaves alone: everything but the skill list. *)
Definition same_but_skills (p p' : Player) : Prop :=
  p' = with_learned_skills (p_learned_skills p') p.


(** Is the enemy [oid] alive in heap [h]? *)
Definition alive_in (h : gmap nat Enemy) (oid : nat) : bool :=
  match h !! oid with
  | Some e => e_is_alive e
  | None => false
  end.

(** The enemy left by one pass of the grenade loop body. *)
Definition grenade_result (aoe_damage : Z) (e : Enemy) : Enemy :=
  if e_is_alive e then e_take_damage (Z.max 0 (aoe_damage - e_defense e)) e else e.

(** A skill as [level_up] and [load_game] build it: the name
    "Grenade Toss" goes with the grenade effect and with no other. *)
Definition skill_wf (s : Skill) : Prop :=
  skill_name s = "Grenade Toss"%string ↔ skill_effect_func s = GrenadeToss.

(** The items the player holds: inventory and equipment slots. *)
Definition owned (p : Player) : list Item :=
  p_inventory p ++ option_list (p_equipped_weapon p)
                ++ option_list (p_equipped_armor p).

(** What only a victory may change: experience, level, credits, and
    items coming from outside the player's own holdings. *)
Definition no_reward (p p' : Player) : Prop :=
  p_xp p' = p_xp p ∧ p_xp_to_next_level p' = p_xp_to_next_level p
  ∧ p_level p' = p_level p ∧ p_credits p' = p_credits p
  ∧ p_crystals_collected p' = p_crystals_collected p
  ∧ (∀ it, it ∈ owned p' → it ∈ owned p).

(** Heap cells are never freed. *)
Definition heap_grows (w w' : World) : Prop :=
  ∀ oid, is_Some (w_heap w !! oid) → is_Some (w_heap w' !! oid).

(** ** A small arena for concrete runs

    A 7 x 5 floor with one room, two enemies on it and a level-5 soldier
    who knows both soldier skills. *)
Definition arena_tiles : list (list ascii) :=
  String.list_ascii_of_string <$>
    [ "#######"; "#.....#"; "#.....#"; "#.....#"; "#######" ]%string.

Definition arena : GameMap :=
  mkGameMap 7 5 arena_tiles (1, 1) (5, 3) None [0%nat; 1%nat] ∅ ∅
            [mkRoom 1 1 6 4].

Definition drone : Enemy :=
  mkEnemy "Cyber-Drone" 30 30 8 3 7 1 20 5 None "D" 3 1.
Definition hunter : Enemy :=
  mkEnemy "Alien Hunter" 60 60 18 9 9 1 50 15 (Some (PlasmaRifle 7)) "H" 5 3.

Definition power_shot : Skill :=
  mkSkill "Power Shot" "Deals extra damage to an enemy." 15 PowerShot.
Definition grenade_toss : Skill :=
  mkSkill "Grenade Toss" "Throws a grenade, damaging all enemies." 30 GrenadeToss.

Definition veteran : Player :=
  mkPlayer "Ada" 170 170 30 13 14 5 "soldier"
           [HealthPotion 2; ReinforcedVest 3] (Some (LaserPistol 4))
           (Some (ScrapArmor 5)) 10 253 1 [power_shot; grenade_toss]
           90 40 12 0 1 1.

Definition arena_heap : gmap nat Enemy := <[1%nat := hunter]> (<[0%nat := drone]> ∅).

Definition arena_game : Game := mkGame (Some veteran) (Some arena) false 1 14 13.

Definition arena_world (entries : list Entry) (draws : list N) : World :=
  mkWorld draws entries [] arena_heap 8.

(** What an enemy is worth never changes while it is fought: heap [h']
    holds every enemy of heap [h], with the same rewards. *)
Definition bounty_kept (h h' : gmap nat Enemy) : Prop :=
  ∀ oid e, h !! oid = Some e →
    ∃ e', h' !! oid = Some e'
          ∧ e_xp_value e' = e_xp_value e
          ∧ e_credit_value e' = e_credit_value e
          ∧ e_item_drop e' = e_item_drop e
          ∧ e_name e' = e_name e.

(** The player of [g'] holds no reward that the player of [g] did not. *)
Definition g_no_reward (g g' : Game) : Prop :=
  ∀ p, player g = Some p → ∃ p', player g' = Some p' ∧ no_reward p p'.

(** A level-1 soldier about to finish off a wounded Alien Hunter. *)
Definition wounded_hunter : Enemy :=
  mkEnemy "Alien Hunter" 60 6 18 9 9 1 50 15 None "H" 2 1.

Definition rookie_game : Game :=
  mkGame (Some (with_xy 1 1 new_soldier))
         (Some (m_with_entities [0%nat] arena)) false 1 10 5.

Definition rookie_world (entries : list Entry) : World :=
  mkWorld [] entries [] (<[0%nat := wounded_hunter]> ∅) 1.

(** The arena with a crippled second drone standing by. *)
Definition crippled_drone : Enemy :=
  mkEnemy "Cyber-Drone" 30 5 8 3 7 1 20 5 (Some (EnergyCell 6)) "D" 4 3.

Definition skirmish_world (entries : list Entry) (draws : list N) : World :=
  mkWorld draws entries [] (<[1%nat := crippled_drone]> (<[0%nat := drone]> ∅)) 8.

(** The tile grid has [height] rows of [width] columns, as built by
    [GameMap.__init__] and [generate_map]. *)
Definition wf_tiles (w h : Z) (t : list (list ascii)) : Prop :=
  length t = Z.to_nat h ∧ Forall (λ row, length row = Z.to_nat w) t.

(** Every item and skill name of the save file is in the catalog. *)
Definition names_known (pd : PlayerData) : Prop :=
  Forall (λ n, is_Some (ALL_ITEM_CLASSES !! n)) (pd_inventory pd)
  ∧ (∀ n, pd_equipped_weapon pd = Some n → is_Some (ALL_ITEM_CLASSES !! n))
  ∧ (∀ n, pd_equipped_armor pd = Some n → is_Some (ALL_ITEM_CLASSES !! n))
  ∧ Forall (λ n, is_Some (ALL_SKILL_DATA !! n)) (pd_learned_skills pd).

(** A save file of the veteran on floor 3. *)
Definition veteran_save : SaveData :=
  mkSaveData 3
    (mkPlayerData "Ada" 120 170 30 13 14 5 10 253 "soldier" 90 40 (Some 12) (Some 2)
       7 4 ["Health Potion"; "Reinforced Vest"; "Energy Crystal"]%string
       (Some "Laser Pistol"%string) (Some "Scrap Armor"%string)
       ["Power Shot"; "Grenade Toss"]%string).

(** Draws for which [generate_map] carves two rooms and places every
    feature. *)
Definition some_draws : list N :=
  ([0; 0; 0; 0; 0; 0; 27; 9] ++ replicate 32 0
   ++ [0; 60; 3; 2; 0; 7; 1; 4; 10; 2; 3; 8; 1; 1; 5; 0; 2; 2; 0; 0])%N.

(** ** Floors *)

(** A tile one can stand on: inside the grid and not a wall. *)
Definition open_tile (t : list (list ascii)) (x y : Z) : Prop :=
  0 ≤ x ∧ 0 ≤ y ∧ ∃ c, tile_get t x y = Some c ∧ c ≠ "#"%char.

(** The same, as [move_player] tests it on a map. *)
Definition walkable (m : GameMap) (pos : Z * Z) : Prop :=
  in_bounds m pos.1 pos.2 = true
  ∧ ∃ c, tile_get (tiles m) pos.1 pos.2 = Some c ∧ c ≠ "#"%char.

(** One move in one of the four directions. *)
Definition adjacent4 (p q : Z * Z) : Prop :=
  Z.abs (p.1 - q.1) + Z.abs (p.2 - q.2) = 1.

(** [path O p q]: [q] is reached from [p] by 4-directional moves through
    positions satisfying [O]. *)
Inductive path (O : Z * Z → Prop) : Z * Z → Z * Z → Prop :=
  | path_here p : O p → path O p p
  | path_step p q r : path O p q → adjacent4 q r → O r → path O p r.

Definition reachable (m : GameMap) : Z * Z → Z * Z → Prop := path (walkable m).

(** Membership in a room as carved, and the cells of the L-shaped
    corridor between two rooms. *)
Definition in_room (r : Room) (x y : Z) : Prop :=
  x1 r ≤ x < x2 r ∧ y1 r ≤ y < y2 r.

Definition on_corridor (room1 room2 : Room) (x y : Z) : Prop :=
  (y = center_y room1
   ∧ Z.min (center_x room1) (center_x room2) ≤ x
     ≤ Z.max (center_x room1) (center_x room2))
  ∨ (x = center_x room2
     ∧ Z.min (center_y room1) (center_y room2) ≤ y
       ≤ Z.max (center_y room1) (center_y room2)).

Fixpoint on_corridors (rs : list Room) (x y : Z) : Prop :=
  match rs with
  | room1 :: ((room2 :: _) as rest) => on_corridor room1 room2 x y ∨ on_corridors rest x y
  | _ => False
  end.

(** A room as [try_room] draws it on a [w] by [h] grid. *)
Definition room_ok (w h : Z) (r : Room) : Prop :=
  1 ≤ x1 r ∧ x1 r + ROOM_MIN_SIZE ≤ x2 r ∧ x2 r ≤ w - 1
  ∧ 1 ≤ y1 r ∧ y1 r + ROOM_MIN_SIZE ≤ y2 r ∧ y2 r ≤ h - 1.

(** The floor after steps 1 and 2 of [generate_map]: the open tiles are
    the rooms and the corridors between consecutive rooms. *)
Definition carved (m : GameMap) : Prop :=
  wf_tiles (width m) (height m) (tiles m)
  ∧ Forall (room_ok (width m) (height m)) (rooms m)
  ∧ ∀ x y, open_tile (tiles m) x y ↔
           (∃ r, r ∈ rooms m ∧ in_room r x y) ∨ on_corridors (rooms m) x y.

(** The floor after step 1 alone: the open tiles are the rooms. *)
Definition rooms_carved (m : GameMap) : Prop :=
  wf_tiles (width m) (height m) (tiles m)
  ∧ Forall (room_ok (width m) (height m)) (rooms m)
  ∧ ∀ x y, open_tile (tiles m) x y ↔ ∃ r, r ∈ rooms m ∧ in_room r x y.

(** No feature placed yet. *)
Definition blank (m : GameMap) : Prop :=
  entities m = [] ∧ items_on_map m = ∅ ∧ traps_on_map m = ∅
  ∧ shop_location m = None.

(** ** Features *)

Definition enemy_xy (h : gmap nat Enemy) (oid : nat) : option (Z * Z) :=
  (λ e, (e_x e, e_y e)) <$> h !! oid.

(** Where the enemies of [oids] stand, in list order. *)
Definition enemy_positions (h : gmap nat Enemy) (oids : list nat) : list (Z * Z) :=
  omap (enemy_xy h) oids.

(** The positions that are keys of a dict of the map, in some order. *)
Abbreviation keys m := ((map_to_list m).*1).

(** The tiles taken by the features of a floor: start, exit, shop,
    traps, enemies, items. *)
Definition feature_positions (m : GameMap) (h : gmap nat Enemy) : list (Z * Z) :=
  player_start m :: exit_location m :: option_list (shop_location m)
  ++ keys (traps_on_map m)
  ++ enemy_positions h (entities m)
  ++ keys (items_on_map m).
(** ** Properties of the items and of the menus *)

(** The bonus that the item in a slot contributes. *)
Definition damage_bonus_of (slot : option Item) : Z :=
  match slot with
  | Some it => match item_kind_of it with Weapon b => b | _ => 0 end
  | None => 0
  end.
Definition defense_bonus_of (slot : option Item) : Z :=
  match slot with
  | Some it => match item_kind_of it with Armor b => b | _ => 0 end
  | None => 0
  end.

(** The player's own attack and defense, without the equipment. *)
Definition base_attack (p : Player) : Z :=
  p_attack p - damage_bonus_of (p_equipped_weapon p).
Definition base_defense (p : Player) : Z :=
  p_defense p - defense_bonus_of (p_equipped_armor p).

(** The slots hold what [equip_item] puts there: a weapon in the weapon
    slot, an armor in the armor slot. *)
Definition slots_wf (p : Player) : Prop :=
  (∀ it, p_equipped_weapon p = Some it → ∃ b, item_kind_of it = Weapon b)
  ∧ (∀ it, p_equipped_armor p = Some it → ∃ b, item_kind_of it = Armor b).

(** Is the item the very object held in the slot? *)
Definition in_slot (item : Item) (slot : option Item) : bool :=
  match slot with
  | Some it => item_is item it
  | None => false
  end.

(** ** Properties of positions *)

(** No living enemy of the floor's entity list stands on [(x, y)]. *)
Definition tile_free_of_enemies (m : GameMap) (h : gmap nat Enemy) (x y : Z) : Prop :=
  ∀ oid e, oid ∈ entities m → h !! oid = Some e → enemy_at x y e = false.

(** The living enemies of the floor stand apart: each on a non-wall tile
    inside the grid, none on the tile [(px, py)] of the player, no two on
    the same tile. *)
Definition enemies_apart (m : GameMap) (h : gmap nat Enemy) (px py : Z) : Prop :=
  (∀ oid e, oid ∈ entities m → h !! oid = Some e → e_is_alive e = true →
     walkable m (e_x e, e_y e) ∧ (e_x e, e_y e) ≠ (px, py))
  ∧ (∀ o1 o2 e1 e2, o1 ∈ entities m → o2 ∈ entities m → o1 ≠ o2 →
       h !! o1 = Some e1 → h !! o2 = Some e2 →
       e_is_alive e1 = true → e_is_alive e2 = true →
       (e_x e1, e_y e1) ≠ (e_x e2, e_y e2)).

(** From heap [h] to heap [h'] the enemies have only moved, and the dead
    ones not at all. *)
Definition only_moved (h h' : gmap nat Enemy) : Prop :=
  ∀ oid e, h !! oid = Some e →
    ∃ e', h' !! oid = Some e' ∧ e' = e_with_xy (e_x e') (e_y e') e
          ∧ (e_is_alive e = false → e' = e).

(** ** Properties of saved games *)



(** ** Properties of generated floors *)

(** [R] holds between any two elements of the list at different
    positions ([R] is used on symmetric relations). *)
Fixpoint pairwise {A} (R : A → A → Prop) (l : list A) : Prop :=
  match l with
  | [] => True
  | a :: l' => Forall (R a) l' ∧ pairwise R l'
  end.

(** At least two tiles lie between the tiles of two rooms, along one
    axis at least. *)
Definition separated (r r' : Room) : Prop :=
  ∀ x y x' y', in_room r x y → in_room r' x' y' →
               3 ≤ Z.abs (x - x') ∨ 3 ≤ Z.abs (y - y').

(** The exit is placed far from the start: more than a quarter of the
    grid away, along one axis at least. *)
Definition far_apart (m : GameMap) (p q : Z * Z) : Prop :=
  width m `div` 4 < Z.abs (q.1 - p.1) ∨ height m `div` 4 < Z.abs (q.2 - p.2).

(** A trap as [generate_map] lays it on tile [pos]. *)
Definition fresh_trap_at (pos : Z * Z) (t : Trap) : Prop :=
  t = mkTrap pos.1 pos.2 TRAP_DAMAGE_BASE false.

(** An enemy as [create_random_enemy] makes it for a player of level
    [player_level]: one of the four kinds, at full health, alive when the
    level is 1 to 18 (where the scaled stats are those of the source). *)
Definition fresh_enemy (player_level : Z) (e : Enemy) : Prop :=
  e_hp e = e_max_hp e
  ∧ e_name e ∈ (λ ty : string * Z * Z * Z * Z * Z * Z * string, ty.1.1.1.1.1.1.1)
               <$> enemy_types
  ∧ (1 ≤ player_level ≤ 18 → e_is_alive e = true).
(** ** Properties of a turn *)

(** From heap [h] to heap [h'] the enemies have only lost health: no
    enemy is new, none has moved, none has come back to life. *)
Definition only_hurt (h h' : gmap nat Enemy) : Prop :=
  ∀ oid e', h' !! oid = Some e' →
    ∃ e, h !! oid = Some e ∧ e' = e_with_hp (e_hp e') e
         ∧ (e_is_alive e' = true → e_is_alive e = true).

(** From [g] to [g'] the player has not moved and the floor is the same
    grid, with no entity added. *)
Definition same_place (g g' : Game) : Prop :=
  ∀ p m, player g = Some p → current_map g = Some m →
    ∃ p' m', player g' = Some p' ∧ current_map g' = Some m'
             ∧ p_x p' = p_x p ∧ p_y p' = p_y p
             ∧ tiles m' = tiles m ∧ width m' = width m ∧ height m' = height m
             ∧ entities m' ⊆ entities m.

(** Everybody is in order: the player stands on a non-wall tile inside
    the grid, and so do the living enemies of the floor, each on a tile
    of its own that is not the player's. *)
Definition in_order (g : Game) (h : gmap nat Enemy) : Prop :=
  ∃ p m, player g = Some p ∧ current_map g = Some m
         ∧ walkable m (p_x p, p_y p)
         ∧ enemies_apart m h (p_x p) (p_y p).

(** ** Properties of saved games, continued *)

(** The record with the two optional keys of [player_data] present:
    a missing [credits] or [crystals_collected] becomes 0. *)
Definition with_defaults (sd : SaveData) : SaveData :=
  let pd := sd_player_data sd in
  mkSaveData (sd_current_level_num sd)
    (mkPlayerData (pd_name pd) (pd_hp pd) (pd_max_hp pd) (pd_attack pd)
       (pd_defense pd) (pd_speed pd) (pd_level pd) (pd_xp pd)
       (pd_xp_to_next_level pd) (pd_class_type pd) (pd_max_energy pd)
       (pd_energy pd) (Some (default 0 (pd_credits pd)))
       (Some (default 0 (pd_crystals_collected pd))) (pd_x pd) (pd_y pd)
       (pd_inventory pd) (pd_equipped_weapon pd) (pd_equipped_armor pd)
       (pd_learned_skills pd)).

(** The veteran's save file as a version of the game without credits
    and crystals wrote it: the two keys are absent. *)
Definition legacy_save : SaveData :=
  mkSaveData 3
    (mkPlayerData "Ada" 120 170 30 13 14 5 10 253 "soldier" 90 40 None None
       7 4 ["Health Potion"; "Reinforced Vest"; "Energy Crystal"]%string
       (Some "Laser Pistol"%string) (Some "Scrap Armor"%string)
       ["Power Shot"; "Grenade Toss"]%string).

(** The veteran with too little energy for Grenade Toss. *)
Definition tired_game : Game :=
  mkGame (Some (with_energy 20 veteran)) (Some arena) false 1 14 13.



(** * Reasoning about computations in [M] *)

Lemma bind_Some {A B} (m : M A) (k : A → M B) w r :
  bind m k w = Some r ↔ ∃ a w1, m w = Some (a, w1) ∧ k a w1 = Some r.
Proof.
  unfold bind. split.
  - destruct (m w) as [[a w1]|]; [eauto | discriminate].
  - intros (a & w1 & -> & H). exact H.
Qed.

Lemma bind_step {A B} (m : M A) (k : A → M B) w a w1 :
  m w = Some (a, w1) → bind m k w = k a w1.
Proof. unfold bind. intros ->. reflexivity. Qed.

Lemma ret_Some {A} (a : A) w r : ret a w = Some r ↔ r = (a, w).
Proof. unfold ret. split; [intros [= <-] | intros ->]; reflexivity. Qed.

Lemma lift_Some {A} (o : option A) w r :
  lift o w = Some r ↔ ∃ a, o = Some a ∧ r = (a, w).
Proof.
  unfold lift. destruct o as [a|]; split.
  - intros [= <-]. eauto.
  - intros (? & [= <-] & ->). reflexivity.
  - discriminate.
  - intros (? & [=] & _).
Qed.

Lemma display_message_Some msg w r :
  display_message msg w = Some r ↔
  r = (tt, mkWorld (w_rng w) (w_in w) (w_out w ++ [msg]) (w_heap w) (w_next w)).
Proof. unfold display_message. split; [intros [= <-] | intros ->]; reflexivity. Qed.

(** Splits a hypothesis [H : (do x <- m; k) w = Some r] along its binds. *)
Ltac inv_M H :=
  repeat match type of H with
  | bind _ _ _ = Some _ =>
      let a := fresh "a" in let w := fresh "w" in
      let H1 := fresh "H" in
      apply bind_Some in H as (a & w & H1 & H); try inv_M H1
  | ret _ _ = Some _ => apply ret_Some in H
  | raise _ = Some _ => discriminate H
  | lift _ _ = Some _ =>
      let a := fresh "a" in let H1 := fresh "H" in
      apply lift_Some in H as (a & H1 & H)
  | display_message _ _ = Some _ => apply display_message_Some in H
  end.

(** Runs the first bind of the goal with the equation [E] of its first
    computation, or through a [display_message]. *)
Ltac mrun E := erewrite bind_step by exact E.
Ltac msay := erewrite bind_step by (unfold display_message; reflexivity).

(** * Progression: [add_xp] and [level_up] *)

Lemma unlock_total lvl s p w :
  ∃ p' w', unlock lvl s p w = Some (p', w') ∧ same_but_skills p p'
           ∧ w_heap w' = w_heap w ∧ w_in w' = w_in w ∧ w_rng w' = w_rng w.
Proof.
  unfold unlock, same_but_skills.
  destruct ((p_level p =? lvl) && negb (knows_skill (skill_name s) p)).
  - eexists _, _. split; [reflexivity |]. destruct p; auto.
  - eexists _, _. split; [reflexivity |]. destruct p; auto.
Qed.

Lemma same_but_skills_trans p q r :
  same_but_skills p q → same_but_skills q r → same_but_skills p r.
Proof. unfold same_but_skills. intros -> ->. reflexivity. Qed.

Lemma level_up_total p w :
  ∃ p' w', level_up p w = Some (p', w') ∧ leveled_up p p'
           ∧ w_heap w' = w_heap w ∧ w_in w' = w_in w ∧ w_rng w' = w_rng w.
Proof.
  unfold level_up.
  set (q := with_xp_to_next_level _ _).
  assert (Hq : leveled_up p q) by (unfold leveled_up; repeat split; reflexivity).
  assert (Hfin : ∀ q' : Player, same_but_skills q q' → leveled_up p q').
  { unfold same_but_skills, leveled_up. intros q' ->. exact Hq. }
  cbn [bind display_message].
  set (w0 := mkWorld _ _ _ _ _).
  assert (Hw0 : w_heap w0 = w_heap w ∧ w_in w0 = w_in w ∧ w_rng w0 = w_rng w)
    by (subst w0; auto).
  clearbody w0 q. destruct Hw0 as (Hh & Hi & Hr).
  assert (Htwo : ∀ l1 s1 l2 s2,
    ∃ p' w', (do p <- unlock l1 s1 q; unlock l2 s2 p) w0 = Some (p', w')
             ∧ same_but_skills q p'
             ∧ w_heap w' = w_heap w0 ∧ w_in w' = w_in w0 ∧ w_rng w' = w_rng w0).
  { intros l1 s1 l2 s2.
    destruct (unlock_total l1 s1 q w0) as (q1 & w1 & E1 & S1 & Hh1 & Hi1 & Hr1).
    destruct (unlock_total l2 s2 q1 w1) as (q2 & w2 & E2 & S2 & Hh2 & Hi2 & Hr2).
    exists q2, w2. split.
    - apply bind_Some. eauto.
    - split; [eapply same_but_skills_trans; eauto |]. repeat split; congruence. }
  destruct (String.eqb (p_class_type q) "soldier");
    [| destruct (String.eqb (p_class_type q) "engineer");
       [| destruct (String.eqb (p_class_type q) "scout")]].
  1-3: edestruct Htwo as (p' & w' & E & S & Hh' & Hi' & Hr');
       exists p', w'; split; [exact E |]; split; [auto |];
       repeat split; congruence.
  exists q, w0. split; [reflexivity |]. split; [| auto].
  apply Hfin. unfold same_but_skills. destruct q; reflexivity.
Qed.

(** [add_xp] always returns, after at most one level-up. *)
Lemma add_xp_total amount p w :
  ∃ p' w', add_xp amount p w = Some (p', w') ∧
    w_heap w' = w_heap w ∧ w_in w' = w_in w ∧ w_rng w' = w_rng w ∧
    if p_xp_to_next_level p <=? p_xp p + amount
    then leveled_up (with_xp (p_xp p + amount) p) p'
    else p' = with_xp (p_xp p + amount) p.
Proof.
  unfold add_xp. cbn [bind display_message].
  set (w0 := mkWorld _ _ _ _ _).
  change (p_xp_to_next_level (with_xp (p_xp p + amount) p))
    with (p_xp_to_next_level p).
  change (p_xp (with_xp (p_xp p + amount) p)) with (p_xp p + amount).
  destruct (p_xp_to_next_level p <=? p_xp p + amount).
  - destruct (level_up_total (with_xp (p_xp p + amount) p) w0)
      as (p' & w' & E & L & ? & ? & ?).
    exists p', w'. split; [exact E |]. auto.
  - eexists _, _. split; [reflexivity |]. auto.
Qed.

(** C1 (as the code has it): for a player of level 0 to 29 (the new
    level is then at most 30, where the floating-point threshold of the
    source is the exact floor), [add_xp] adds the amount and then levels
    up at most once: when the new total reaches [xp_to_next_level],
    exactly one level-up is applied (level +1, max_hp +15 and full heal,
    attack +3, defense +2, speed +1, max_energy +10 and full restore, xp
    reduced by the old threshold, new threshold
    [floor(50 * 1.5^(level-1))] for the new level); otherwise only [xp]
    changes.  The call returns. *)
Theorem add_xp_levels_up_at_most_once amount p w :
  0 ≤ p_level p < 30 →
  ∃ p' w', add_xp amount p w = Some (p', w') ∧
    if p_xp_to_next_level p <=? p_xp p + amount
    then leveled_up (with_xp (p_xp p + amount) p) p'
         ∧ p_level p' = p_level p + 1
         ∧ p_xp p' = p_xp p + amount - p_xp_to_next_level p
    else p' = with_xp (p_xp p + amount) p.
Proof.
  intros _.
  destruct (add_xp_total amount p w) as (p' & w' & E & _ & _ & _ & H).
  exists p', w'. split; [exact E |].
  destruct (p_xp_to_next_level p <=? p_xp p + amount); [| exact H].
  split; [exact H |].
  destruct H as (Hl & _ & _ & _ & _ & _ & _ & _ & Hx & _). auto.
Qed.

(** A level-1 soldier with no XP receives 50 XP, the first threshold:
    level 2, no XP left, next threshold 75. *)
Lemma add_xp_levels_up_at_most_once_witness :
  ∃ p' w', add_xp 50 new_soldier empty_world = Some (p', w')
    ∧ p_level p' = 2 ∧ p_xp p' = 0 ∧ p_xp_to_next_level p' = 75
    ∧ p_max_hp p' = 125 ∧ p_hp p' = 125.
Proof.
  destruct (add_xp_levels_up_at_most_once 50 new_soldier empty_world
              ltac:(cbn; lia))
    as (p' & w' & E & H).
  change (p_xp_to_next_level new_soldier <=? p_xp new_soldier + 50) with true in H.
  destruct H as ((_ & Hmax & Hhp & _ & _ & _ & _ & _ & _ & Hnext & _) & Hl & Hx).
  exists p', w'. split; [exact E |].
  split; [exact Hl |]. split; [exact Hx |]. split; [exact Hnext |].
  split; [exact Hmax | exact Hhp].
Defined.

(** The threshold is the floor of [50 * 1.5^(level-1)]. *)
Lemma xp_for_level_floor level :
  1 ≤ level →
  xp_for_level level * 2 ^ (level - 1) ≤ 50 * 3 ^ (level - 1)
    < (xp_for_level level + 1) * 2 ^ (level - 1).
Proof.
  intros H. unfold xp_for_level, XP_TO_LEVEL_UP_BASE.
  destruct (Z.leb_spec 0 (level - 1)); [| lia].
  assert (0 < 2 ^ (level - 1)) by (apply Z.pow_pos_nonneg; lia).
  pose proof (Z.mul_div_le (50 * 3 ^ (level - 1)) (2 ^ (level - 1)) ltac:(lia)).
  pose proof (Z.mul_succ_div_gt (50 * 3 ^ (level - 1)) (2 ^ (level - 1)) ltac:(lia)).
  lia.
Qed.

Example xp_for_level_2 : xp_for_level 2 = 75.
Proof. reflexivity. Qed.

(** C1 (as stated) fails: one call that crosses two thresholds.  A
    level-1 player with [xp = 0] and threshold 50 receives 200 XP.  The
    code levels up once (level 2, 150 XP left, next threshold 75, so the
    loop condition of the claim still holds), where levelling up while
    [xp >= xp_to_next_level] reaches level 3. *)
Lemma add_xp_two_thresholds_counterexample :
  ∃ p' w', add_xp 200 new_soldier empty_world = Some (p', w')
    ∧ p_level p' = 2 ∧ p_xp p' = 150 ∧ p_xp_to_next_level p' = 75
    ∧ p_xp_to_next_level p' ≤ p_xp p'
    ∧ ∃ q w'', add_xp_spec 10 200 new_soldier empty_world = Some (q, w'')
        ∧ p_level q = 3 ∧ p_xp q = 75 ∧ p_level p' ≠ p_level q.
Proof.
  eexists _, _. split; [vm_compute; reflexivity |].
  repeat split; try (vm_compute; congruence).
  eexists _, _. split; [vm_compute; reflexivity |].
  repeat split; vm_compute; congruence.
Qed.

(** In play one level-up per call is all that is needed, at the levels
    where both formulas are those of the source (1 to 18): the XP of an
    enemy is at most that of an Alien Hunter scaled to the player's
    level, which never reaches the next threshold on top of the current
    one. *)
Lemma threshold_outgrows_rewards (n : nat) :
  (10 * Z.of_nat n + 50) * 2 ^ Z.of_nat (S n) ≤ 50 * 3 ^ Z.of_nat (S n).
Proof.
  induction n as [|n IH]; [vm_compute; discriminate |].
  rewrite (Nat2Z.inj_succ (S n)), !Z.pow_succ_r by lia.
  rewrite Nat2Z.inj_succ in *.
  assert (0 < 2 ^ Z.of_nat (S n)) by (apply Z.pow_pos_nonneg; lia).
  nia.
Qed.

Lemma no_double_threshold_in_play level xp amount :
  1 ≤ level ≤ 18 → xp < xp_for_level level → amount ≤ scale_stat 50 level →
  xp + amount - xp_for_level level < xp_for_level (level + 1).
Proof.
  intros Hl Hxp Ham.
  assert (Hs : scale_stat 50 level = 10 * level + 40).
  { unfold scale_stat. replace (50 * (level + 4)) with ((10 * level + 40) * 5) by lia.
    apply Z.quot_mul. lia. }
  assert (Hn : 10 * level + 40 ≤ xp_for_level (level + 1)).
  { unfold xp_for_level, XP_TO_LEVEL_UP_BASE.
    replace (level + 1 - 1) with level by lia.
    destruct (Z.leb_spec 0 level); [| lia].
    apply Z.div_le_lower_bound; [apply Z.pow_pos_nonneg; lia |].
    pose proof (threshold_outgrows_rewards (Z.to_nat (level - 1))) as T.
    replace (Z.of_nat (S (Z.to_nat (level - 1)))) with level in T by lia.
    replace (Z.of_nat (Z.to_nat (level - 1))) with (level - 1) in T by lia.
    lia. }
  lia.
Qed.

(** * Traps *)

Lemma take_damage_max hp damage : take_damage hp damage = Z.max 0 (hp - damage).
Proof. unfold take_damage. destruct (Z.ltb_spec (hp - damage) 0); lia. Qed.

(** Triggering a trap that has already fired does nothing at all. *)
Lemma trigger_triggered t p w :
  triggered t = true → trigger t p w = Some ((t, p), w).
Proof. intros H. unfold trigger. rewrite H. reflexivity. Qed.

(** The first trigger. *)
Lemma trigger_first t p w :
  triggered t = false →
  ∃ w', trigger t p w
        = Some ((mkTrap (t_x t) (t_y t) (t_damage t) true,
                 if String.eqb (p_class_type p) "scout" then p
                 else p_take_damage (t_damage t) p), w')
        ∧ w_heap w' = w_heap w ∧ w_in w' = w_in w ∧ w_rng w' = w_rng w.
Proof.
  intros H. unfold trigger. rewrite H. cbn [bind display_message].
  destruct (String.eqb (p_class_type p) "scout"); eexists; split; reflexivity || auto.
Qed.

(** C5: a trap fires at most once.  On the first trigger of a trap
    dealing [TRAP_DAMAGE_BASE], the trap becomes triggered, a scout is
    left untouched and any other class loses exactly 15 hp (clamped at
    0); [move_player]'s trap block removes the trap from [traps_on_map]
    in both cases and leaves the other traps in place; triggering the same
    trap object again changes neither the trap nor the player nor the
    world. *)
Theorem trap_fires_at_most_once (t : Trap) (p : Player) (w : World) :
  triggered t = false →
  t_damage t = TRAP_DAMAGE_BASE →
  ∃ t' p' w',
    trigger t p w = Some ((t', p'), w')
    ∧ triggered t' = true
    ∧ (p_class_type p = "scout"%string → p' = p)
    ∧ (p_class_type p ≠ "scout"%string →
       p' = with_hp (Z.max 0 (p_hp p - 15)) p)
    ∧ (∀ q v, trigger t' q v = Some ((t', q), v))
    ∧ (∀ (m : GameMap) (pos : Z * Z),
         traps_on_map m !! pos = Some t →
         ∃ m', step_on_trap pos m p w = Some ((true, m', p'), w')
               ∧ traps_on_map m' !! pos = None
               ∧ (∀ pos', pos' ≠ pos →
                    traps_on_map m' !! pos' = traps_on_map m !! pos')
               ∧ tiles m' = tiles m ∧ entities m' = entities m).
Proof.
  intros Hf Hd.
  destruct (trigger_first t p w Hf) as (w' & E & _).
  eexists _, _, w'. split; [exact E |]. split; [reflexivity |].
  split; [| split; [| split]].
  - intros Hs. rewrite Hs. reflexivity.
  - intros Hs. apply String.eqb_neq in Hs. rewrite Hs.
    unfold p_take_damage. rewrite take_damage_max, Hd. reflexivity.
  - intros q v. apply trigger_triggered. reflexivity.
  - intros m pos Hm. unfold step_on_trap. rewrite Hm, Hf.
    cbn [negb]. unfold bind at 1. rewrite E. cbn [ret].
    eexists. split; [reflexivity |]. cbn.
    split; [apply lookup_delete_eq |].
    split; [| auto]. intros pos' Hne. apply lookup_delete_ne. congruence.
Qed.

Lemma trap_fires_at_most_once_witness :
  ∃ t' p' w',
    trigger fresh_trap new_soldier empty_world = Some ((t', p'), w')
    ∧ triggered t' = true ∧ p_hp p' = 95.
Proof.
  destruct (trap_fires_at_most_once fresh_trap new_soldier empty_world
              eq_refl eq_refl) as (t' & p' & w' & E & T & _ & Hp & _).
  exists t', p', w'. split; [exact E |]. split; [exact T |].
  rewrite Hp; [reflexivity | discriminate].
Defined.

(** * Skills *)

Lemma get_enemy_Some oid w r :
  get_enemy oid w = Some r ↔ ∃ e, w_heap w !! oid = Some e ∧ r = (e, w).
Proof. unfold get_enemy. apply lift_Some. Qed.

Lemma get_enemy_eq oid w e : w_heap w !! oid = Some e → get_enemy oid w = Some (e, w).
Proof. intros H. apply get_enemy_Some. eauto. Qed.

Lemma grenade_hit_spec aoe oid e w :
  w_heap w !! oid = Some e →
  ∃ w', grenade_hit aoe oid w = Some (tt, w')
        ∧ w_heap w' = <[oid := grenade_result aoe e]> (w_heap w)
        ∧ w_in w' = w_in w ∧ w_rng w' = w_rng w ∧ w_next w' = w_next w.
Proof.
  intros H. unfold grenade_hit, grenade_result.
  unfold bind at 1. unfold get_enemy, lift. rewrite H.
  destruct (e_is_alive e) eqn:Ha.
  - unfold bind, set_enemy, display_message.
    destruct (e_is_alive (e_take_damage _ e)); cbn; eexists; split; reflexivity || auto.
  - exists w. split; [reflexivity |]. split; [| auto].
    symmetry. apply insert_id. exact H.
Qed.

Lemma grenade_loop_spec aoe (l : list nat) : ∀ w,
  NoDup l →
  (∀ oid, oid ∈ l → is_Some (w_heap w !! oid)) →
  ∃ w', for_each_M l (grenade_hit aoe) w = Some (tt, w')
        ∧ (∀ oid e, oid ∈ l → w_heap w !! oid = Some e →
             w_heap w' !! oid = Some (grenade_result aoe e))
        ∧ (∀ oid, oid ∉ l → w_heap w' !! oid = w_heap w !! oid)
        ∧ w_in w' = w_in w ∧ w_rng w' = w_rng w ∧ w_next w' = w_next w.
Proof.
  induction l as [|a l IH]; intros w Hnd Hin.
  - exists w. split; [reflexivity |]. split; [intros ? ? H; inversion H | auto].
  - apply NoDup_cons in Hnd as [Ha Hnd].
    destruct (Hin a) as [e He]; [left |].
    destruct (grenade_hit_spec aoe a e w He) as (w1 & E1 & Hh1 & Hi1 & Hr1 & Hn1).
    destruct (IH w1 Hnd) as (w2 & E2 & Hin2 & Hout2 & Hi2 & Hr2 & Hn2).
    { intros oid Ho. rewrite Hh1. destruct (decide (a = oid)) as [->|Hne].
      - rewrite lookup_insert_eq. eauto.
      - rewrite lookup_insert_ne by done. apply Hin. right. exact Ho. }
    exists w2. split.
    { cbn [for_each_M]. unfold bind at 1. rewrite E1. exact E2. }
    split; [| split; [| repeat split; congruence]].
    + intros oid e' Ho He'. apply elem_of_cons in Ho as [->|Ho].
      * rewrite Hout2 by exact Ha. rewrite Hh1, lookup_insert_eq. congruence.
      * apply Hin2; [exact Ho |]. rewrite Hh1.
        rewrite lookup_insert_ne; [exact He' |]. intros <-. contradiction.
    + intros oid Ho. apply not_elem_of_cons in Ho as [Hne Ho].
      rewrite Hout2 by exact Ho. rewrite Hh1. apply lookup_insert_ne. congruence.
Qed.

Lemma alive_in_Some h oid e : h !! oid = Some e → alive_in h oid = e_is_alive e.
Proof. unfold alive_in. intros ->. reflexivity. Qed.

(** [prune] keeps, in order, the references to living enemies. *)
Lemma prune_spec (l : list nat) : ∀ w,
  (∀ oid, oid ∈ l → is_Some (w_heap w !! oid)) →
  prune l w = Some (List.filter (alive_in (w_heap w)) l, w).
Proof.
  induction l as [|a l IH]; intros w Hin; [reflexivity |].
  destruct (Hin a) as [e He]; [left |].
  cbn [prune List.filter].
  rewrite (bind_step _ _ _ _ _ (get_enemy_eq _ _ _ He)).
  rewrite (bind_step _ _ _ _ _ (IH w ltac:(intros; apply Hin; right; assumption))).
  rewrite (alive_in_Some _ _ _ He). reflexivity.
Qed.

(** ** What a skill effect can and cannot do *)

Lemma no_reward_refl p : no_reward p p.
Proof. unfold no_reward. auto 10. Qed.

Lemma no_reward_trans p q r : no_reward p q → no_reward q r → no_reward p r.
Proof.
  unfold no_reward. intros (?&?&?&?&?&Hq) (?&?&?&?&?&Hr).
  repeat split; try congruence. auto.
Qed.

Lemma heap_grows_refl w : heap_grows w w.
Proof. intros ? H. exact H. Qed.

Lemma heap_grows_trans w1 w2 w3 :
  heap_grows w1 w2 → heap_grows w2 w3 → heap_grows w1 w3.
Proof. unfold heap_grows. auto. Qed.

Lemma heap_grows_insert w w' oid e :
  w_heap w' = <[oid := e]> (w_heap w) → heap_grows w w'.
Proof.
  intros E o H. rewrite E. destruct (decide (oid = o)) as [->|Hne].
  - rewrite lookup_insert_eq. eauto.
  - rewrite lookup_insert_ne by done. exact H.
Qed.

Lemma heap_grows_same w w' : w_heap w' = w_heap w → heap_grows w w'.
Proof. intros E o. rewrite E. auto. Qed.

Lemma grenade_loop_total aoe (l : list nat) : ∀ w,
  (∀ oid, oid ∈ l → is_Some (w_heap w !! oid)) →
  ∃ w', for_each_M l (grenade_hit aoe) w = Some (tt, w')
        ∧ heap_grows w w' ∧ w_in w' = w_in w ∧ w_rng w' = w_rng w.
Proof.
  induction l as [|a l IH]; intros w Hin.
  - exists w. split; [reflexivity |]. split; [apply heap_grows_refl | auto].
  - destruct (Hin a) as [e He]; [left |].
    destruct (grenade_hit_spec aoe a e w He) as (w1 & E1 & Hh1 & Hi1 & Hr1 & _).
    pose proof (heap_grows_insert _ _ _ _ Hh1) as G1.
    destruct (IH w1) as (w2 & E2 & G2 & Hi2 & Hr2).
    { intros oid Ho. apply G1, Hin. right. exact Ho. }
    exists w2. split.
    { cbn [for_each_M]. rewrite (bind_step _ _ _ _ _ E1). exact E2. }
    split; [eapply heap_grows_trans; eauto |]. split; congruence.
Qed.

(** Every skill effect returns, given a consistent skill and live
    references, and changes nothing that a reward would change; the
    player's energy is left as it is. *)
Lemma skill_use_total skill p enemy ents w :
  skill_wf skill →
  is_Some (w_heap w !! enemy) →
  (∀ oid, oid ∈ ents → is_Some (w_heap w !! oid)) →
  ∃ p' w', skill_use skill p enemy ents w = Some (p', w')
    ∧ p_energy p' = p_energy p ∧ no_reward p p'
    ∧ heap_grows w w' ∧ w_in w' = w_in w ∧ w_rng w' = w_rng w.
Proof.
  intros Hwf [e He] Hents. unfold skill_use, skill_wf in *.
  destruct (String.eqb_spec (skill_name skill) "Grenade Toss") as [Hn|Hn].
  - rewrite (proj1 Hwf Hn). cbn [run_effect]. unfold _soldier_grenade_toss_effect.
    msay. set (w0 := mkWorld _ _ _ _ _).
    destruct (grenade_loop_total (p_attack p `div` 3 + 10) ents w0 Hents)
      as (w1 & E1 & G1 & Hi1 & Hr1).
    mrun E1. exists p, w1. split; [reflexivity |]. split; [reflexivity |].
    split; [apply no_reward_refl |]. split; [exact G1 |]. auto.
  - destruct (skill_effect_func skill) eqn:Hf; cbn [run_effect].
    + (* Power Shot *)
      unfold _soldier_power_shot_effect.
      rewrite (bind_step _ _ _ _ _ (get_enemy_eq _ _ _ He)).
      destruct (e_is_alive e).
      * cbn [bind set_enemy]. 
        destruct (e_is_alive (e_take_damage _ e));
          cbn; eexists _, _; (split; [reflexivity |]); (split; [reflexivity |]);
          (split; [apply no_reward_refl |]);
          (split; [eapply heap_grows_insert; reflexivity | auto]).
      * cbn. eexists _, _. split; [reflexivity |]. split; [reflexivity |].
        split; [apply no_reward_refl |]. split; [apply heap_grows_same; reflexivity | auto].
    + cbn. eexists _, _. split; [reflexivity |]. split; [reflexivity |].
      split; [unfold no_reward; cbn; auto 10 |].
      split; [apply heap_grows_same; reflexivity | auto].
    + cbn. eexists _, _. split; [reflexivity |]. split; [reflexivity |].
      split; [unfold no_reward; cbn; auto 10 |].
      split; [apply heap_grows_same; reflexivity | auto].
    + exfalso. apply Hn, Hwf. reflexivity.
    + cbn. eexists _, _. split; [reflexivity |]. split; [reflexivity |].
      split; [unfold no_reward; cbn; auto 10 |].
      split; [apply heap_grows_same; reflexivity | auto].
    + cbn. eexists _, _. split; [reflexivity |]. split; [reflexivity |].
      split; [unfold no_reward; cbn; auto 10 |].
      split; [apply heap_grows_same; reflexivity | auto].
Qed.

(** ** The skill menu *)

Lemma read_entry_eq w c rest :
  w_in w = c :: rest → read_entry w = Some (c, with_w_in rest w).
Proof. unfold read_entry. intros ->. reflexivity. Qed.

Lemma the_player_eq g p w : player g = Some p → the_player g w = Some (p, w).
Proof. unfold the_player, lift. intros ->. reflexivity. Qed.

Lemma the_map_eq g m w : current_map g = Some m → the_map g w = Some (m, w).
Proof. unfold the_map, lift. intros ->. reflexivity. Qed.

Lemma lift_eq {A} (o : option A) a w : o = Some a → lift o w = Some (a, w).
Proof. intros ->. reflexivity. Qed.

(** Selecting entry [n] of the skill list: one iteration of the loop. *)
Lemma skills_menu_select budget enemy g p skill n rest w :
  player g = Some p →
  w_in w = Num n :: rest →
  1 ≤ n →
  p_learned_skills p !! Z.to_nat (n - 1) = Some skill →
  skills_menu (S budget) enemy g w =
    (if energy_cost skill <=? p_energy p then
       let p := with_energy (p_energy p - energy_cost skill) p in
       if String.eqb (skill_name skill) "Grenade Toss" then
         do m <- the_map g;
         do p <- skill_use skill p enemy (entities m);
         do alive <- prune (entities m);
         let g := set_player p g in
         ret (true, set_map (m_with_entities alive m) g)
       else
         do p <- skill_use skill p enemy [];
         ret (true, set_player p g)
     else
       display_message (MsgNotEnoughEnergy (skill_name skill) (energy_cost skill)) ;;
       skills_menu budget enemy g) (with_w_in rest w).
Proof.
  intros Hp Hin Hn Hs. cbn [skills_menu].
  rewrite (bind_step _ _ _ _ _ (read_entry_eq _ _ _ Hin)).
  rewrite (bind_step _ _ _ _ _ (the_player_eq _ _ _ Hp)).
  apply lookup_lt_Some in Hs as Hlt.
  replace ((0 <=? n - 1) && (n - 1 <? Z.of_nat (length (p_learned_skills p))))
    with true by (symmetry; apply andb_true_iff; split; lia).
  rewrite (bind_step _ _ _ _ _ (lift_eq _ _ _ Hs)).
  reflexivity.
Qed.

Lemma handle_skills_menu budget enemy g p w :
  player g = Some p → p_learned_skills p ≠ [] →
  handle_skills budget enemy g w = skills_menu budget enemy g w.
Proof.
  intros Hp Hne. unfold handle_skills.
  rewrite (bind_step _ _ _ _ _ (the_player_eq _ _ _ Hp)).
  destruct (p_learned_skills p); [contradiction | reflexivity].
Qed.

(** Selecting a skill in the skill menu with too little energy: the
    menu reports "Not enough energy" and asks again with the game, the
    enemies and the floor exactly as they were. *)
Lemma skill_menu_refuses
    (budget : nat) (enemy : nat) (g : Game) (p : Player)
    (skill : Skill) (n : Z) (rest : list Entry) (w : World) :
  player g = Some p →
  w_in w = Num n :: rest →
  1 ≤ n →
  p_learned_skills p !! Z.to_nat (n - 1) = Some skill →
  p_energy p < energy_cost skill →
  handle_skills (S budget) enemy g w
  = skills_menu budget enemy g
      (mkWorld (w_rng w) rest
         (w_out w ++ [MsgNotEnoughEnergy (skill_name skill) (energy_cost skill)])
         (w_heap w) (w_next w)).
Proof.
  intros Hp Hin Hn Hs Hlow.
  assert (Hne : p_learned_skills p ≠ []) by (intros E; rewrite E in Hs; discriminate).
  rewrite (handle_skills_menu _ _ _ _ _ Hp Hne).
  rewrite (skills_menu_select _ _ _ _ _ _ _ _ Hp Hin Hn Hs).
  replace (energy_cost skill <=? p_energy p) with false by (symmetry; lia).
  msay. reflexivity.
Qed.

(** Selecting a skill with enough energy: the cost is taken off the
    player's energy first, the effect is applied to the debited player,
    and the menu returns [True]. *)
Lemma skill_menu_uses
    (budget : nat) (enemy : nat) (g : Game) (p : Player) (m : GameMap)
    (skill : Skill) (n : Z) (rest : list Entry) (w : World) :
  player g = Some p →
  current_map g = Some m →
  w_in w = Num n :: rest →
  1 ≤ n →
  p_learned_skills p !! Z.to_nat (n - 1) = Some skill →
  skill_wf skill →
  is_Some (w_heap w !! enemy) →
  (∀ oid, oid ∈ entities m → is_Some (w_heap w !! oid)) →
  energy_cost skill ≤ p_energy p →
  ∃ p' g' w1,
    handle_skills (S budget) enemy g w = Some ((true, g'), w1)
    ∧ player g' = Some p'
    ∧ p_energy p' = p_energy p - energy_cost skill
    ∧ skill_use skill (with_energy (p_energy p - energy_cost skill) p) enemy
        (if String.eqb (skill_name skill) "Grenade Toss" then entities m else [])
        (with_w_in rest w) = Some (p', w1).
Proof.
  intros Hp Hm Hin Hn Hs Hwf He Hents Hok.
  assert (Hne : p_learned_skills p ≠ []) by (intros E; rewrite E in Hs; discriminate).
  rewrite (handle_skills_menu _ _ _ _ _ Hp Hne).
  rewrite (skills_menu_select _ _ _ _ _ _ _ _ Hp Hin Hn Hs).
  replace (energy_cost skill <=? p_energy p) with true by (symmetry; lia).
  cbv zeta.
  set (q := with_energy (p_energy p - energy_cost skill) p).
  set (w0 := with_w_in rest w).
  destruct (String.eqb (skill_name skill) "Grenade Toss") eqn:Hname.
  - rewrite (bind_step _ _ _ _ _ (the_map_eq _ _ _ Hm)).
    destruct (skill_use_total skill q enemy (entities m) w0 Hwf He Hents)
      as (p' & w1 & E & Hen & _ & G & _).
    mrun E.
    rewrite (bind_step _ _ _ _ _
               (prune_spec (entities m) w1 ltac:(intros; apply G, Hents; assumption))).
    eexists p', _, w1. split; [reflexivity |]. split; [reflexivity |].
    split; [rewrite Hen; reflexivity | exact E].
  - destruct (skill_use_total skill q enemy [] w0 Hwf He) as (p' & w1 & E & Hen & _).
    { intros ? H; inversion H. }
    mrun E. eexists p', _, w1. split; [reflexivity |]. split; [reflexivity |].
    split; [rewrite Hen; reflexivity | exact E].
Qed.

(** A larger budget of prompts does not change what the menu returns. *)
Lemma skills_menu_mono (budget : nat) enemy g : ∀ w r,
  skills_menu budget enemy g w = Some r → skills_menu (S budget) enemy g w = Some r.
Proof.
  induction budget as [|budget IH]; intros w r H; [discriminate |].
  cbn [skills_menu] in H.
  remember (S budget) as b eqn:Hb. cbn [skills_menu].
  apply bind_Some in H as (choice & w1 & Er & H). rewrite (bind_step _ _ _ _ _ Er).
  apply bind_Some in H as (p & w2 & Ep & H). rewrite (bind_step _ _ _ _ _ Ep).
  assert (Hrec : ∀ msg w0,
            (display_message msg ;; skills_menu budget enemy g) w0 = Some r →
            (display_message msg ;; skills_menu b enemy g) w0 = Some r).
  { intros msg w0 H'. apply bind_Some in H' as (u & w3 & Ed & H').
    rewrite (bind_step _ _ _ _ _ Ed). apply IH, H'. }
  destruct choice as [s|n].
  - destruct (String.eqb s "b"); [exact H | apply Hrec, H].
  - destruct ((0 <=? n - 1) && (n - 1 <? Z.of_nat (length (p_learned_skills p))));
      [| apply Hrec, H].
    apply bind_Some in H as (skill & w3 & Es & H). rewrite (bind_step _ _ _ _ _ Es).
    destruct (energy_cost skill <=? p_energy p); [exact H | apply Hrec, H].
Qed.

Lemma get_player_input_first opts s rest w :
  w_in w = Txt s :: rest → s ∈ opts →
  get_player_input opts w = Some (s, with_w_in rest w).
Proof.
  intros Hin Hs. unfold get_player_input. rewrite Hin. cbn [get_valid].
  rewrite bool_decide_eq_true_2 by exact Hs. reflexivity.
Qed.

(** The player's step of a combat round when the player presses [k]:
    the skill menu runs, and only when it has returned does the round
    move on to the next combatant. *)
Lemma combat_turns_skill_step budget (cs : list combatant) enemy g p e rest w :
  player g = Some p →
  w_heap w !! enemy = Some e →
  p_is_alive p = true → e_is_alive e = true →
  p_learned_skills p ≠ [] →
  w_in w = Txt "k" :: rest →
  combat_turns budget (ThePlayer :: cs) enemy g w
  = (do '(_, g1) <- skills_menu budget enemy g; combat_turns budget cs enemy g1)
      (with_w_in rest w).
Proof.
  intros Hp He Hpa Hea Hne Hin. cbn [combat_turns].
  rewrite (bind_step _ _ _ _ _ (the_player_eq _ _ _ Hp)).
  rewrite (bind_step _ _ _ _ _ (get_enemy_eq _ _ _ He)).
  rewrite Hpa, Hea. cbn [negb orb].
  erewrite bind_step
    by (apply (get_player_input_first _ "k" rest); [exact Hin |];
        destruct (p_learned_skills p); [contradiction | set_solver]).
  cbn [String.eqb Ascii.eqb Bool.eqb].
  unfold bind.
  rewrite (handle_skills_menu _ _ _ _ _ Hp Hne).
  destruct (skills_menu budget enemy g (with_w_in rest w)) as [[[used g1] w1]|];
    [destruct used |]; reflexivity.
Qed.

(** C9: selecting a skill in combat.  It is the player's step of a
    combat round (player and enemy alive), the player presses [k] and
    enters the number of a learned skill.  With too little energy the
    "Not enough energy" message is reported and the step is not
    consumed: the skill menu asks again, on the game, the enemies and the
    floor exactly as they were, and only when the menu has returned does
    the round move on to the next combatant; whatever the round then
    yields is what it yields when the same entries are typed without the
    refused pick.  With enough energy (for a skill whose name and effect
    agree, on a floor whose entities exist) the cost is taken off the
    player's energy first, the effect is applied to the debited player,
    and the step is consumed: the round goes on with the next
    combatant. *)
Theorem skill_selection_checks_energy
    (budget : nat) (cs : list combatant) (enemy : nat) (g : Game) (p : Player)
    (e : Enemy) (skill : Skill) (n : Z) (rest : list Entry) (w : World) :
  player g = Some p →
  w_heap w !! enemy = Some e →
  p_is_alive p = true → e_is_alive e = true →
  w_in w = Txt "k" :: Num n :: rest →
  1 ≤ n →
  p_learned_skills p !! Z.to_nat (n - 1) = Some skill →
  let refused := MsgNotEnoughEnergy (skill_name skill) (energy_cost skill) in
  let asked_again :=
    mkWorld (w_rng w) rest (w_out w ++ [refused]) (w_heap w) (w_next w) in
  (p_energy p < energy_cost skill →
     combat_turns (S budget) (ThePlayer :: cs) enemy g w
     = (do '(_, g1) <- skills_menu budget enemy g;
        combat_turns (S budget) cs enemy g1) asked_again
     ∧ ∀ r, combat_turns (S budget) (ThePlayer :: cs) enemy g w = Some r →
            combat_turns (S budget) (ThePlayer :: cs) enemy g
              (mkWorld (w_rng w) (Txt "k" :: rest) (w_out w ++ [refused])
                 (w_heap w) (w_next w)) = Some r)
  ∧ (energy_cost skill ≤ p_energy p →
     ∀ m, current_map g = Some m →
          skill_wf skill →
          (∀ oid, oid ∈ entities m → is_Some (w_heap w !! oid)) →
     ∃ p' g' w1,
       skill_use skill (with_energy (p_energy p - energy_cost skill) p) enemy
         (if String.eqb (skill_name skill) "Grenade Toss" then entities m else [])
         (with_w_in rest w) = Some (p', w1)
       ∧ player g' = Some p'
       ∧ p_energy p' = p_energy p - energy_cost skill
       ∧ combat_turns (S budget) (ThePlayer :: cs) enemy g w
         = combat_turns (S budget) cs enemy g' w1).
Proof.
  intros Hp He Hpa Hea Hin Hn Hs refused asked_again.
  assert (Hne : p_learned_skills p ≠ []) by (intros E; rewrite E in Hs; discriminate).
  pose proof (combat_turns_skill_step (S budget) cs enemy g p e (Num n :: rest) w
                Hp He Hpa Hea Hne Hin) as Hstep.
  split.
  - intros Hlt.
    pose proof (skill_menu_refuses budget enemy g p skill n rest
                  (with_w_in (Num n :: rest) w) Hp eq_refl Hn Hs Hlt) as Hlow.
    rewrite (handle_skills_menu _ _ _ _ _ Hp Hne) in Hlow.
    assert (Heq : combat_turns (S budget) (ThePlayer :: cs) enemy g w
                  = (do '(_, g1) <- skills_menu budget enemy g;
                     combat_turns (S budget) cs enemy g1) asked_again).
    { rewrite Hstep. unfold bind at 1. rewrite Hlow. reflexivity. }
    split; [exact Heq |].
    intros r Hr. rewrite Heq in Hr.
    apply bind_Some in Hr as ([used g1] & w1 & Em & Hr).
    rewrite (combat_turns_skill_step (S budget) cs enemy g p e rest
               (mkWorld (w_rng w) (Txt "k" :: rest) (w_out w ++ [refused])
                  (w_heap w) (w_next w)) Hp He Hpa Hea Hne eq_refl).
    apply skills_menu_mono in Em.
    change (with_w_in rest _) with asked_again.
    rewrite (bind_step _ _ _ _ _ Em). exact Hr.
  - intros Hge m Hm Hwf Hents.
    destruct (skill_menu_uses budget enemy g p m skill n rest
                (with_w_in (Num n :: rest) w) Hp Hm eq_refl Hn Hs Hwf
                ltac:(cbn; eauto) Hents Hge)
      as (p' & g' & w1 & Eh & Hp' & Hen & Eu).
    rewrite (handle_skills_menu _ _ _ _ _ Hp Hne) in Eh.
    exists p', g', w1. split; [exact Eu |]. split; [exact Hp' |]. split; [exact Hen |].
    rewrite Hstep. unfold bind at 1. rewrite Eh. reflexivity.
Qed.

(** In the arena against the drone.  The tired veteran (energy 20) asks
    for Grenade Toss (cost 30), is refused, and uses Power Shot in the
    same step: the round ends as if Power Shot alone had been asked for.
    The rested veteran (energy 40) throws the grenade and is left with
    10. *)
Lemma skill_selection_checks_energy_witness :
  (∃ r,
     combat_turns 2 [ThePlayer; TheEnemy] 0 tired_game
       (arena_world [Txt "k"; Num 2; Num 1] []) = Some r
     ∧ combat_turns 2 [ThePlayer; TheEnemy] 0 tired_game
         (mkWorld [] [Txt "k"; Num 1] [MsgNotEnoughEnergy "Grenade Toss" 30]
            arena_heap 8) = Some r)
  ∧ ∃ p' g' w1,
      skill_use grenade_toss (with_energy 10 veteran) 0 [0; 1]%nat
        (arena_world [] []) = Some (p', w1)
      ∧ p_energy p' = 10
      ∧ combat_turns 2 [ThePlayer; TheEnemy] 0 arena_game
          (arena_world [Txt "k"; Num 2] [])
        = combat_turns 2 [TheEnemy] 0 g' w1.
Proof.
  split.
  - destruct (skill_selection_checks_energy 1 [TheEnemy] 0%nat tired_game
                (with_energy 20 veteran) drone grenade_toss 2 [Num 1]
                (arena_world [Txt "k"; Num 2; Num 1] [])
                eq_refl eq_refl eq_refl eq_refl eq_refl ltac:(lia) eq_refl)
      as [Hlow _].
    destruct (Hlow ltac:(cbn; lia)) as [_ Hnoop].
    destruct (combat_turns 2 [ThePlayer; TheEnemy] 0 tired_game
                (arena_world [Txt "k"; Num 2; Num 1] [])) as [r|] eqn:E;
      [| vm_compute in E; discriminate].
    exists r. split; [reflexivity |]. exact (Hnoop r eq_refl).
  - destruct (skill_selection_checks_energy 1 [TheEnemy] 0%nat arena_game
                veteran drone grenade_toss 2 []
                (arena_world [Txt "k"; Num 2] [])
                eq_refl eq_refl eq_refl eq_refl eq_refl ltac:(lia) eq_refl)
      as [_ Hok].
    assert (Hents : ∀ oid, oid ∈ entities arena →
                           is_Some (w_heap (arena_world [Txt "k"; Num 2] []) !! oid)).
    { intros oid H. vm_compute in H.
      repeat (apply elem_of_cons in H as [-> | H]; [vm_compute; eauto |]).
      inversion H. }
    destruct (Hok ltac:(cbn; lia) arena eq_refl ltac:(split; reflexivity) Hents)
      as (p' & g' & w1 & Eu & _ & Hen & Hstep).
    exists p', g', w1. split; [exact Eu |]. split; [exact Hen | exact Hstep].
Defined.

(** ** Grenade Toss *)

Lemma grenade_effect_spec skill p enemy ents w :
  skill_name skill = "Grenade Toss"%string →
  skill_effect_func skill = GrenadeToss →
  NoDup ents →
  (∀ oid, oid ∈ ents → is_Some (w_heap w !! oid)) →
  ∃ w', skill_use skill p enemy ents w = Some (p, w')
    ∧ (∀ oid e, oid ∈ ents → w_heap w !! oid = Some e →
         w_heap w' !! oid = Some (grenade_result (p_attack p `div` 3 + 10) e))
    ∧ (∀ oid, oid ∉ ents → w_heap w' !! oid = w_heap w !! oid)
    ∧ w_in w' = w_in w ∧ w_rng w' = w_rng w.
Proof.
  intros Hn Hf Hnd Hents. unfold skill_use. rewrite Hn, Hf, String.eqb_refl.
  cbn [run_effect]. unfold _soldier_grenade_toss_effect. msay. set (w0 := mkWorld _ _ _ _ _).
  destruct (grenade_loop_spec (p_attack p `div` 3 + 10) ents w0 Hnd Hents)
    as (w1 & E1 & Hin1 & Hout1 & Hi1 & Hr1 & _).
  mrun E1. exists w1. split; [reflexivity |]. auto.
Qed.

(** Selecting Grenade Toss with enough energy, step by step. *)
Lemma grenade_selected budget enemy g p m skill n rest w :
  player g = Some p →
  current_map g = Some m →
  w_in w = Num n :: rest →
  1 ≤ n →
  p_learned_skills p !! Z.to_nat (n - 1) = Some skill →
  skill_name skill = "Grenade Toss"%string →
  skill_effect_func skill = GrenadeToss →
  energy_cost skill ≤ p_energy p →
  NoDup (entities m) →
  (∀ oid, oid ∈ entities m → is_Some (w_heap w !! oid)) →
  ∃ w',
    handle_skills (S budget) enemy g w
    = Some ((true,
             set_map (m_with_entities
                        (List.filter (alive_in (w_heap w')) (entities m)) m)
               (set_player (with_energy (p_energy p - energy_cost skill) p) g)), w')
    ∧ (∀ oid e, oid ∈ entities m → w_heap w !! oid = Some e →
         w_heap w' !! oid = Some (grenade_result (p_attack p `div` 3 + 10) e))
    ∧ (∀ oid, oid ∉ entities m → w_heap w' !! oid = w_heap w !! oid)
    ∧ w_in w' = rest.
Proof.
  intros Hp Hm Hin Hn Hs Hname Hf Hok Hnd Hents.
  assert (Hne : p_learned_skills p ≠ []) by (intros E; rewrite E in Hs; discriminate).
  rewrite (handle_skills_menu _ _ _ _ _ Hp Hne).
  rewrite (skills_menu_select _ _ _ _ _ _ _ _ Hp Hin Hn Hs).
  replace (energy_cost skill <=? p_energy p) with true by (symmetry; lia).
  cbv zeta. rewrite Hname, String.eqb_refl. rewrite (bind_step _ _ _ _ _ (the_map_eq _ _ _ Hm)).
  destruct (grenade_effect_spec skill (with_energy (p_energy p - energy_cost skill) p)
              enemy (entities m) (with_w_in rest w) Hname Hf Hnd Hents)
    as (w1 & E & Hin1 & Hout1 & Hi1 & _).
  mrun E.
  assert (Hents1 : ∀ oid, oid ∈ entities m → is_Some (w_heap w1 !! oid)).
  { intros oid Ho. destruct (Hents oid Ho) as [e He]. erewrite Hin1; eauto. }
  rewrite (bind_step _ _ _ _ _ (prune_spec (entities m) w1 Hents1)).
  exists w1. split; [reflexivity |]. auto.
Qed.

(** C4: Grenade Toss, selected with enough energy, hits every living
    enemy of the floor's entity list, engaged or not: each loses exactly
    [max(0, (player.attack // 3 + 10) - its own defense)] hp (clamped at
    0) and is otherwise unchanged; enemies that were already dead and
    objects outside the list are untouched; the entity list is then
    exactly the enemies still alive, in order, so every enemy brought to
    0 hp is gone from it.  With [player.attack = 30] the raw damage is
    20. *)
Theorem grenade_toss_hits_every_enemy
    (budget : nat) (enemy : nat) (g : Game) (p : Player) (m : GameMap)
    (skill : Skill) (n : Z) (rest : list Entry) (w : World) :
  player g = Some p →
  current_map g = Some m →
  w_in w = Num n :: rest →
  1 ≤ n →
  p_learned_skills p !! Z.to_nat (n - 1) = Some skill →
  skill_name skill = "Grenade Toss"%string →
  skill_effect_func skill = GrenadeToss →
  energy_cost skill ≤ p_energy p →
  NoDup (entities m) →
  (∀ oid, oid ∈ entities m → is_Some (w_heap w !! oid)) →
  let raw := p_attack p `div` 3 + 10 in
  ∃ g' m' w',
    handle_skills (S budget) enemy g w = Some ((true, g'), w')
    ∧ current_map g' = Some m'
    ∧ (∀ oid e, oid ∈ entities m → w_heap w !! oid = Some e →
         e_is_alive e = true →
         w_heap w' !! oid
         = Some (e_with_hp (Z.max 0 (e_hp e - Z.max 0 (raw - e_defense e))) e))
    ∧ (∀ oid e, oid ∈ entities m → w_heap w !! oid = Some e →
         e_is_alive e = false → w_heap w' !! oid = Some e)
    ∧ (∀ oid, oid ∉ entities m → w_heap w' !! oid = w_heap w !! oid)
    ∧ entities m' = List.filter (alive_in (w_heap w')) (entities m)
    ∧ (∀ oid e', oid ∈ entities m → w_heap w' !! oid = Some e' →
         e_hp e' ≤ 0 → oid ∉ entities m')
    ∧ (p_attack p = 30 → raw = 20).
Proof.
  intros Hp Hm Hin Hn Hs Hname Hf Hok Hnd Hents raw.
  destruct (grenade_selected budget enemy g p m skill n rest w
              Hp Hm Hin Hn Hs Hname Hf Hok Hnd Hents)
    as (w' & E & Hin' & Hout' & _).
  eexists _, _, w'. split; [exact E |]. split; [reflexivity |].
  split; [| split; [| split; [exact Hout' | split; [reflexivity | split]]]].
  - intros oid e Ho He Ha. rewrite (Hin' oid e Ho He).
    unfold grenade_result. rewrite Ha. unfold e_take_damage.
    rewrite take_damage_max. reflexivity.
  - intros oid e Ho He Ha. rewrite (Hin' oid e Ho He).
    unfold grenade_result. rewrite Ha. reflexivity.
  - intros oid e' Ho He' Hhp Hmem. cbn in Hmem.
    apply list_elem_of_In, filter_In in Hmem as [_ Hal].
    rewrite (alive_in_Some _ _ _ He') in Hal. unfold e_is_alive in Hal. lia.
  - intros Ha. subst raw. rewrite Ha. reflexivity.
Qed.

(** The veteran (attack 30) throws a grenade at the drone and the hunter. *)
Lemma grenade_toss_hits_every_enemy_witness :
  ∃ g' w',
    handle_skills 1 0 arena_game (arena_world [Num 2] []) = Some ((true, g'), w')
    ∧ w_heap w' !! 0%nat = Some (e_with_hp 13 drone)
    ∧ w_heap w' !! 1%nat = Some (e_with_hp 49 hunter).
Proof.
  assert (Hents : ∀ oid, oid ∈ entities arena →
                         is_Some (w_heap (arena_world [Num 2] []) !! oid)).
  { intros oid [->|[->|[]%elem_of_nil]%elem_of_cons]%elem_of_cons; vm_compute; eauto. }
  destruct (grenade_toss_hits_every_enemy 0 0%nat arena_game veteran arena
              grenade_toss 2 [] (arena_world [Num 2] [])
              eq_refl eq_refl eq_refl ltac:(lia) eq_refl eq_refl eq_refl
              ltac:(vm_compute; discriminate)
              ltac:(apply (bool_decide_unpack _); vm_compute; exact I) Hents)
    as (g' & m' & w' & E & _ & Hhit & _).
  exists g', w'. split; [exact E |]. split.
  - apply (Hhit 0%nat drone); [set_solver | reflexivity | reflexivity].
  - apply (Hhit 1%nat hunter); [set_solver | reflexivity | reflexivity].
Defined.

(** * Combat *)

(** Decomposes [H : c w = Some r] along the binds, branches and pattern
    matches of the computation [c]; the equations of the computations
    that were run are left in the context. *)
Ltac minv H :=
  lazymatch type of H with
  | bind _ _ _ = Some _ =>
      let a := fresh "a" in
      let w := fresh "w" in
      let E := fresh "E" in
      apply bind_Some in H as (a & w & E & H); cbv beta in H; minv E; minv H
  | ret _ _ = Some _ => apply ret_Some in H
  | raise _ = Some _ => discriminate H
  | None = Some _ => discriminate H
  | (if ?b then _ else _) _ = Some _ =>
      let Hb := fresh "Hb" in destruct b eqn:Hb; minv H
  | (match ?x with _ => _ end) _ = Some _ =>
      let Hx := fresh "Hx" in destruct x eqn:Hx; minv H
  | _ => idtac
  end.

(** ** Frame facts of the primitive steps *)

Lemma bounty_kept_refl h : bounty_kept h h.
Proof. intros oid e H. eauto 10. Qed.

Lemma bounty_kept_trans h1 h2 h3 :
  bounty_kept h1 h2 → bounty_kept h2 h3 → bounty_kept h1 h3.
Proof.
  intros H12 H23 oid e H.
  destruct (H12 oid e H) as (e2 & He2 & ? & ? & ? & ?).
  destruct (H23 oid e2 He2) as (e3 & He3 & ? & ? & ? & ?).
  exists e3. repeat split; congruence.
Qed.

(** Storing back an enemy that differs from the stored one in [hp] or
    position only. *)
Lemma bounty_kept_insert (h : gmap nat Enemy) oid e e' :
  h !! oid = Some e →
  e_xp_value e' = e_xp_value e → e_credit_value e' = e_credit_value e →
  e_item_drop e' = e_item_drop e → e_name e' = e_name e →
  bounty_kept h (<[oid := e']> h).
Proof.
  intros He ? ? ? ? o eo Ho.
  destruct (decide (oid = o)) as [->|Hne].
  - rewrite lookup_insert_eq. exists e'. rewrite He in Ho. injection Ho as <-. auto.
  - rewrite lookup_insert_ne by done. eauto 10.
Qed.

Lemma bounty_kept_hit (h : gmap nat Enemy) oid e v :
  h !! oid = Some e → bounty_kept h (<[oid := e_with_hp v e]> h).
Proof. intros He. eapply bounty_kept_insert; [exact He | reflexivity ..]. Qed.

(** Closes a [bounty_kept] goal from the facts collected about the
    intermediate worlds. *)
Ltac bk :=
  unfold e_take_damage in *;
  cbn [w_heap with_w_heap with_w_in with_w_rng] in *;
  repeat match goal with
  | H : w_heap ?a = _ |- _ => rewrite H in *; clear H
  end;
  eauto using bounty_kept_refl, bounty_kept_trans, bounty_kept_hit.

Lemma g_no_reward_refl g : g_no_reward g g.
Proof. intros p H. exists p. split; [exact H | apply no_reward_refl]. Qed.

Lemma g_no_reward_trans g1 g2 g3 :
  g_no_reward g1 g2 → g_no_reward g2 g3 → g_no_reward g1 g3.
Proof.
  intros H12 H23 p H. destruct (H12 p H) as (p2 & H2 & N2).
  destruct (H23 p2 H2) as (p3 & H3 & N3). exists p3. split; [exact H3 |].
  eapply no_reward_trans; eauto.
Qed.

Lemma g_no_reward_set g p p' :
  player g = Some p → no_reward p p' → g_no_reward g (set_player p' g).
Proof.
  intros Hp N q Hq. rewrite Hp in Hq. injection Hq as <-.
  exists p'. split; [reflexivity | exact N].
Qed.

Lemma display_message_kept msg w r w' :
  display_message msg w = Some (r, w') → w_heap w' = w_heap w.
Proof. intros H. apply display_message_Some in H. injection H as _ ->. reflexivity. Qed.

Lemma read_entry_kept w r w' : read_entry w = Some (r, w') → w_heap w' = w_heap w.
Proof.
  unfold read_entry. destruct (w_in w); [discriminate |].
  intros [= _ <-]. reflexivity.
Qed.

Lemma get_player_input_kept opts w r w' :
  get_player_input opts w = Some (r, w') → w_heap w' = w_heap w.
Proof.
  unfold get_player_input. destruct (get_valid _ _ _) as [[[s rest] out]|]; [| discriminate].
  intros [= _ <-]. reflexivity.
Qed.

Lemma draw_kept w r w' : draw w = Some (r, w') → w_heap w' = w_heap w.
Proof.
  unfold draw. destruct (w_rng w); [discriminate |]. intros [= _ <-]. reflexivity.
Qed.

Lemma random_lt_kept num den w r w' :
  random_lt num den w = Some (r, w') → w_heap w' = w_heap w.
Proof.
  unfold random_lt. intros H. minv H. injection H as _ ->.
  eapply draw_kept; eauto.
Qed.

Lemma choice_kept {A} (l : list A) w r w' :
  choice l w = Some (r, w') → w_heap w' = w_heap w.
Proof.
  unfold choice. destruct l; [discriminate |]. intros H. minv H.
  apply lift_Some in H as (? & _ & [= _ ->]). eapply draw_kept; eauto.
Qed.

Lemma get_enemy_kept oid w e w' :
  get_enemy oid w = Some (e, w') → w' = w ∧ w_heap w !! oid = Some e.
Proof. intros H. apply get_enemy_Some in H as (e' & He & [= <- <-]). auto. Qed.

Lemma lift_kept {A} (o : option A) w a w' : lift o w = Some (a, w') → w' = w ∧ o = Some a.
Proof. intros H. apply lift_Some in H as (a' & -> & [= <- <-]). auto. Qed.

Lemma the_player_kept g w p w' : the_player g w = Some (p, w') → w' = w ∧ player g = Some p.
Proof. apply lift_kept. Qed.

Lemma the_map_kept g w m w' : the_map g w = Some (m, w') → w' = w ∧ current_map g = Some m.
Proof. apply lift_kept. Qed.

Lemma set_enemy_kept oid e w r w' :
  set_enemy oid e w = Some (r, w') → w' = with_w_heap (<[oid := e]> (w_heap w)) w.
Proof. unfold set_enemy. intros H. congruence. Qed.

(** Turns the equations left by [minv] for the primitive steps into
    substitutions. *)
Ltac mclean :=
  repeat match goal with
  | E : display_message _ _ = Some _ |- _ => apply display_message_Some in E
  | E : ret _ _ = Some _ |- _ => apply ret_Some in E
  | E : set_enemy _ _ _ = Some _ |- _ => apply set_enemy_kept in E
  | E : (_, _) = (_, _) |- _ => apply pair_equal_spec in E as [? ?]
  | E : get_enemy _ _ = Some _ |- _ => apply get_enemy_kept in E as [? ?]
  | E : the_player _ _ = Some _ |- _ => apply the_player_kept in E as [? ?]
  | E : the_map _ _ = Some _ |- _ => apply the_map_kept in E as [? ?]
  | E : lift _ _ = Some _ |- _ => apply lift_kept in E as [? ?]
  end; subst.

Lemma occupied_kept skip x y (l : list nat) : ∀ w r w',
  occupied skip x y l w = Some (r, w') → w' = w.
Proof.
  induction l as [|a l IH]; intros w r w' H; cbn [occupied] in H.
  - minv H. mclean. reflexivity.
  - minv H; mclean; eauto.
Qed.

Lemma prune_kept (l : list nat) : ∀ w r w', prune l w = Some (r, w') → w' = w.
Proof.
  induction l as [|a l IH]; intros w r w' H; cbn [prune] in H.
  - minv H. mclean. reflexivity.
  - minv H. mclean. eauto.
Qed.

Lemma player_attacks_kept p oid w r w' :
  player_attacks p oid w = Some (r, w') → bounty_kept (w_heap w) (w_heap w').
Proof.
  unfold player_attacks. intros H. minv H; mclean; bk.
Qed.

Lemma enemy_attacks_kept e p w p' w' :
  enemy_attacks e p w = Some (p', w') →
  w_heap w' = w_heap w ∧ p' = p_take_damage (Z.max 0 (e_attack e - p_defense p)) p.
Proof.
  unfold enemy_attacks. intros H. minv H; mclean; split; reflexivity.
Qed.

Lemma no_reward_hp v p : no_reward p (with_hp v p).
Proof. unfold no_reward. cbn. auto 10. Qed.
Lemma no_reward_energy v p : no_reward p (with_energy v p).
Proof. unfold no_reward. cbn. auto 10. Qed.
Lemma no_reward_speed v p : no_reward p (with_speed v p).
Proof. unfold no_reward. cbn. auto 10. Qed.
Lemma no_reward_defense v p : no_reward p (with_defense v p).
Proof. unfold no_reward. cbn. auto 10. Qed.
Lemma no_reward_attack v p : no_reward p (with_attack v p).
Proof. unfold no_reward. cbn. auto 10. Qed.
Lemma no_reward_xy x y p : no_reward p (with_xy x y p).
Proof. unfold no_reward. cbn. auto 10. Qed.

(** ** Items in combat *)

Lemma remove_item_subset item (inv : list Item) it :
  it ∈ remove_item item inv → it ∈ inv.
Proof.
  induction inv as [|i inv IH]; cbn [remove_item]; [auto |].
  destruct (item_is item i).
  - intros H. right. exact H.
  - intros H. apply elem_of_cons in H as [->|H]; [left | right; auto].
Qed.

Lemma elem_of_option_list {A} (mx : option A) x : x ∈ option_list mx ↔ mx = Some x.
Proof.
  destruct mx as [y|]; cbn.
  - rewrite list_elem_of_singleton. split; congruence.
  - rewrite elem_of_nil. split; [contradiction | discriminate].
Qed.

Lemma elem_of_owned it p :
  it ∈ owned p ↔
  it ∈ p_inventory p ∨ p_equipped_weapon p = Some it ∨ p_equipped_armor p = Some it.
Proof.
  unfold owned. rewrite !elem_of_app, !elem_of_option_list. tauto.
Qed.

Lemma use_item_kept item p w p' w' :
  use_item item p w = Some (p', w') → no_reward p p' ∧ w_heap w' = w_heap w.
Proof.
  unfold use_item, consumable_use. intros H.
  minv H; mclean; (split; [| reflexivity]); unfold no_reward;
    repeat split; try reflexivity; intros it Hit;
    apply elem_of_owned in Hit; apply elem_of_owned; cbn in Hit |- *;
    try assumption;
    (destruct Hit as [Hit|Hit]; [left; eapply remove_item_subset; eassumption | auto]).
Qed.

Lemma equip_item_kept item p w p' w' :
  equip_item item p w = Some (p', w') →
  item ∈ p_inventory p →
  no_reward p p' ∧ w_heap w' = w_heap w.
Proof.
  unfold equip_item. intros H Hin.
  destruct (item_kind_of item) eqn:Hk;
    [ destruct (p_equipped_weapon p) as [old|] eqn:Ho;
        [destruct (item_kind_of old) eqn:Hk' |]
    | destruct (p_equipped_armor p) as [old|] eqn:Ho;
        [destruct (item_kind_of old) eqn:Hk' |]
    | | ];
    minv H; mclean; try discriminate;
    repeat match goal with
    | H : Some _ = Some _ |- _ => apply (inj Some) in H; subst
    end;
    (split; [| reflexivity]); unfold no_reward;
    repeat split; try reflexivity; intros it Hit;
    apply elem_of_owned in Hit; apply elem_of_owned; cbn in Hit |- *;
    rewrite ?Ho;
    repeat match goal with
    | H : Some _ = Some _ |- _ => apply (inj Some) in H; subst
    | H : _ ∈ _ ++ _ |- _ => apply elem_of_app in H as [?|?]
    | H : _ ∈ [_] |- _ => apply list_elem_of_singleton in H; subst
    | H : _ ∨ _ |- _ => destruct H
    end; auto; try congruence.
Qed.

Lemma no_reward_drop_from_inventory p i :
  no_reward p (with_inventory (delete i (p_inventory p)) p).
Proof.
  unfold no_reward. repeat split; try reflexivity. intros it Hit.
  apply elem_of_owned in Hit; apply elem_of_owned; cbn in Hit |- *.
  destruct Hit as [Hit|Hit]; [left; eapply list_elem_of_delete_inv; eauto | auto].
Qed.

Lemma inventory_menu_kept (budget : nat) in_combat g : ∀ w used g' w',
  inventory_menu budget in_combat g w = Some ((used, g'), w') →
  g_no_reward g g' ∧ w_heap w' = w_heap w.
Proof.
  induction budget as [|budget IH]; intros w used g' w' H; [discriminate |].
  cbn [inventory_menu] in H. cbv zeta in H.
  minv H; mclean;
    repeat match goal with
    | E : read_entry _ = Some _ |- _ => apply read_entry_kept in E
    | E : inventory_menu _ _ _ _ = Some _ |- _ => apply IH in E as [? ?]
    | E : use_item _ _ _ = Some _ |- _ => apply use_item_kept in E as [? ?]
    | E : equip_item _ _ _ = Some _ |- _ =>
        apply equip_item_kept in E as [? ?];
        [| eapply list_elem_of_lookup_2; eassumption]
    end;
    (split; [| cbn in *; congruence]);
    try apply g_no_reward_refl; try assumption;
    try destruct (in_inventory _ _);
    (eapply g_no_reward_set; [eassumption |]); try assumption;
    (eapply no_reward_trans; [eassumption | apply no_reward_drop_from_inventory]).
Qed.

Lemma handle_inventory_kept budget in_combat g w used g' w' :
  handle_inventory budget in_combat g w = Some ((used, g'), w') →
  g_no_reward g g' ∧ w_heap w' = w_heap w.
Proof.
  unfold handle_inventory. intros H. minv H; mclean;
    repeat match goal with
    | E : read_entry _ = Some _ |- _ => apply read_entry_kept in E
    end;
    try (eapply inventory_menu_kept; eassumption);
    (split; [apply g_no_reward_refl | assumption || reflexivity]).
Qed.

(** ** Skills in combat *)

Lemma grenade_loop_kept aoe (l : list nat) : ∀ w r w',
  for_each_M l (grenade_hit aoe) w = Some (r, w') →
  bounty_kept (w_heap w) (w_heap w').
Proof.
  induction l as [|a l IH]; intros w r w' H; cbn [for_each_M] in H.
  - minv H. mclean. bk.
  - minv H. apply IH in H. unfold grenade_hit in E. minv E; mclean; bk.
Qed.

Lemma skill_use_kept skill p enemy ents w p' w' :
  skill_use skill p enemy ents w = Some (p', w') →
  no_reward p p' ∧ p_energy p' = p_energy p ∧ bounty_kept (w_heap w) (w_heap w').
Proof.
  unfold skill_use. intros H.
  assert (Hrun : ∀ arg, run_effect (skill_effect_func skill) p arg w = Some (p', w') →
            no_reward p p' ∧ p_energy p' = p_energy p
            ∧ bounty_kept (w_heap w) (w_heap w')).
  { clear H. intros arg H.
    destruct (skill_effect_func skill), arg as [oid|[|o oids]]; cbn [run_effect] in H;
      unfold _engineer_repair_drone_effect, _soldier_power_shot_effect,
        _scout_burst_of_speed_effect, _soldier_grenade_toss_effect,
        _engineer_shield_matrix_effect, _scout_stealth_field_effect in H;
      minv H; mclean;
      repeat match goal with
      | E : for_each_M _ _ _ = Some _ |- _ => apply grenade_loop_kept in E
      end;
      (split; [| split; [reflexivity |]]);
      try apply no_reward_refl; try (unfold no_reward; cbn; auto 10; fail);
      bk. }
  destruct (String.eqb (skill_name skill) "Grenade Toss"); eauto.
Qed.

Lemma skills_menu_kept (budget : nat) enemy g : ∀ w used g' w',
  skills_menu budget enemy g w = Some ((used, g'), w') →
  g_no_reward g g' ∧ bounty_kept (w_heap w) (w_heap w').
Proof.
  induction budget as [|budget IH]; intros w used g' w' H; [discriminate |].
  cbn [skills_menu] in H.
  minv H; mclean;
    repeat match goal with
    | E : read_entry _ = Some _ |- _ => apply read_entry_kept in E
    | E : skills_menu _ _ _ _ = Some _ |- _ => apply IH in E as [? ?]
    | E : skill_use _ _ _ _ _ = Some _ |- _ => apply skill_use_kept in E as (? & ? & ?)
    | E : prune _ _ = Some _ |- _ => apply prune_kept in E; subst
    end;
    (split;
     [ try apply g_no_reward_refl; try assumption;
       try (intros q Hq; eexists; split; [reflexivity |];
            replace q with a0 by congruence;
            eapply no_reward_trans; [apply no_reward_energy | eassumption])
     | bk ]).
Qed.

Lemma handle_skills_kept budget enemy g w used g' w' :
  handle_skills budget enemy g w = Some ((used, g'), w') →
  g_no_reward g g' ∧ bounty_kept (w_heap w) (w_heap w').
Proof.
  unfold handle_skills. intros H. minv H; mclean.
  - split; [apply g_no_reward_refl | bk].
  - eapply skills_menu_kept; eassumption.
Qed.

(** ** Fleeing *)

Lemma free_neighbours_kept m x y (dirs : list (Z * Z)) : ∀ w r w',
  free_neighbours m x y dirs w = Some (r, w') → w' = w.
Proof.
  induction dirs as [|[dx dy] dirs IH]; intros w r w' H; cbn [free_neighbours] in H.
  - minv H. mclean. reflexivity.
  - minv H; mclean;
      repeat match goal with
      | E : occupied _ _ _ _ _ = Some _ |- _ => apply occupied_kept in E; subst
      | E : free_neighbours _ _ _ _ _ = Some _ |- _ => apply IH in E; subst
      end; reflexivity.
Qed.

Lemma attempt_flee_kept enemy g w fled g' w' :
  attempt_flee enemy g w = Some ((fled, g'), w') →
  g_no_reward g g' ∧ w_heap w' = w_heap w.
Proof.
  unfold attempt_flee. intros H.
  minv H; mclean;
    repeat match goal with
    | E : random_lt _ _ _ = Some _ |- _ => apply random_lt_kept in E
    | E : choice _ _ = Some _ |- _ => apply choice_kept in E
    | E : free_neighbours _ _ _ _ _ = Some _ |- _ =>
        apply free_neighbours_kept in E; subst
    end;
    (split; [| cbn in *; congruence]);
    try apply g_no_reward_refl;
    (eapply g_no_reward_set; [eassumption | apply no_reward_xy]).
Qed.

(** ** The fight *)

Ltac gnr :=
  unfold p_take_damage in *;
  eauto using g_no_reward_refl, g_no_reward_trans, g_no_reward_set, no_reward_hp.

Lemma combat_turns_kept budget (cs : list combatant) enemy : ∀ g w active g' w',
  combat_turns budget cs enemy g w = Some ((active, g'), w') →
  g_no_reward g g' ∧ bounty_kept (w_heap w) (w_heap w').
Proof.
  induction cs as [|c cs IH]; intros g w active g' w' H; cbn [combat_turns] in H.
  - minv H. mclean. split; [gnr | bk].
  - minv H; mclean;
      repeat match goal with
      | E : get_player_input _ _ = Some _ |- _ => apply get_player_input_kept in E
      | E : player_attacks _ _ _ = Some _ |- _ => apply player_attacks_kept in E
      | E : enemy_attacks _ _ _ = Some _ |- _ => apply enemy_attacks_kept in E as [? ?]
      | E : handle_inventory _ _ _ _ = Some _ |- _ =>
          apply handle_inventory_kept in E as [? ?]
      | E : handle_skills _ _ _ _ = Some _ |- _ => apply handle_skills_kept in E as [? ?]
      | E : attempt_flee _ _ _ = Some _ |- _ => apply attempt_flee_kept in E as [? ?]
      | E : combat_turns _ _ _ _ _ = Some _ |- _ => apply IH in E as [? ?]
      end; subst;
      (split; [gnr | bk]).
Qed.

Lemma combat_loop_kept (budget : nat) enemy : ∀ g w g' w',
  combat_loop budget enemy g w = Some (g', w') →
  g_no_reward g g' ∧ bounty_kept (w_heap w) (w_heap w').
Proof.
  induction budget as [|budget IH]; intros g w g' w' H; [discriminate |].
  cbn [combat_loop] in H.
  minv H; mclean;
    repeat match goal with
    | E : combat_turns _ _ _ _ _ = Some _ |- _ => apply combat_turns_kept in E as [? ?]
    | E : combat_loop _ _ _ _ = Some _ |- _ => apply IH in E as [? ?]
    end;
    (split; [gnr | bk]).
Qed.

(** The fight returns with the speed and defense recorded at its start,
    and with no reward. *)
Lemma fight_kept budget enemy g p w g1 w1 :
  fight budget enemy g w = Some (g1, w1) →
  player g = Some p →
  ∃ p1, player g1 = Some p1
        ∧ p_speed p1 = p_speed p ∧ p_defense p1 = p_defense p
        ∧ no_reward p p1
        ∧ bounty_kept (w_heap w) (w_heap w1).
Proof.
  unfold fight. intros H Hp. minv H. mclean.
  apply combat_loop_kept in E0 as [Hg Hb].
  replace a with p in * by congruence.
  destruct (Hg p Hp) as (p' & Hp' & N). replace a1 with p' in * by congruence.
  eexists. split; [reflexivity |]. split; [reflexivity |]. split; [reflexivity |].
  split; [| exact Hb].
  eapply no_reward_trans; [exact N |].
  eapply no_reward_trans; [apply no_reward_speed | apply no_reward_defense].
Qed.

(** The outcome block of [combat_round]. *)
Lemma combat_outcome_spec enemy g1 w1 g' w' p1 e1 :
  combat_outcome enemy g1 w1 = Some (g', w') →
  player g1 = Some p1 →
  w_heap w1 !! enemy = Some e1 →
  w_heap w' = w_heap w1 ∧
  if p_is_alive p1 && negb (e_is_alive e1) then
    ∃ pa, player g' = Some
            (with_inventory (p_inventory pa ++ option_list (e_item_drop e1))
               (with_credits (p_credits pa + e_credit_value e1) pa))
      ∧ if p_xp_to_next_level p1 <=? p_xp p1 + e_xp_value e1
        then leveled_up (with_xp (p_xp p1 + e_xp_value e1) p1) pa
        else pa = with_xp (p_xp p1 + e_xp_value e1) p1
  else player g' = Some p1.
Proof.
  unfold combat_outcome. intros H Hp He.
  apply bind_Some in H as (p & w2 & E & H). apply the_player_kept in E as [-> Hp'].
  replace p with p1 in * by congruence. clear p Hp'.
  apply bind_Some in H as (e & w2 & E & H). apply get_enemy_kept in E as [-> He'].
  replace e with e1 in * by congruence. clear e He'.
  destruct (p_is_alive p1) eqn:Hpa; cbn [negb andb] in *.
  - destruct (e_is_alive e1) eqn:Hea; cbn [negb] in *.
    + apply ret_Some in H. injection H as -> ->. auto.
    + apply bind_Some in H as (? & w2 & E & H). apply display_message_Some in E.
      injection E as _ ->.
      apply bind_Some in H as (pa & w3 & E & H).
      destruct (add_xp_total (e_xp_value e1) p1
                  (mkWorld (w_rng w1) (w_in w1) (w_out w1 ++ [MsgYouDefeated (e_name e1)])
                     (w_heap w1) (w_next w1)))
        as (pa' & w3' & E' & Hh & _ & _ & Hup).
      rewrite E in E'. injection E' as <- <-.
      minv H; mclean;
        repeat match goal with
        | E : prune _ _ = Some _ |- _ => apply prune_kept in E; subst
        | E : read_entry _ = Some _ |- _ => apply read_entry_kept in E
        end.
      * split; [cbn in *; congruence |]. exists pa. split; [| exact Hup].
        reflexivity.
      * split; [cbn in *; congruence |]. exists pa. split; [| exact Hup].
        destruct pa; cbn. rewrite app_nil_r. reflexivity.
  - minv H. mclean. auto.
Qed.

(** * What a combat leaves behind *)

(** [combat_round] is the fight followed by the outcome block. *)
Lemma combat_round_split budget enemy g w g' w' p e :
  combat_round budget enemy g w = Some (g', w') →
  player g = Some p →
  w_heap w !! enemy = Some e →
  ∃ g1 w1 p1 e1,
    fight budget enemy g w = Some (g1, w1)
    ∧ combat_outcome enemy g1 w1 = Some (g', w')
    ∧ player g1 = Some p1
    ∧ p_speed p1 = p_speed p ∧ p_defense p1 = p_defense p
    ∧ no_reward p p1
    ∧ w_heap w1 !! enemy = Some e1
    ∧ e_xp_value e1 = e_xp_value e ∧ e_credit_value e1 = e_credit_value e
    ∧ e_item_drop e1 = e_item_drop e.
Proof.
  unfold combat_round. intros H Hp He.
  apply bind_Some in H as (g1 & w1 & F & H).
  destruct (fight_kept _ _ _ _ _ _ _ F Hp) as (p1 & Hp1 & Hs & Hd & N & B).
  destruct (B enemy e He) as (e1 & He1 & ? & ? & ? & _).
  exists g1, w1, p1, e1. auto 15.
Qed.

(** C10: only the engaged enemy pays.  (1) A Grenade Toss removes from
    the floor's entity list every enemy it kills and changes nothing of
    the player but the energy: no XP, no credits, no item.  (2) Whatever
    happened during a [combat_round] (grenades included), the player
    leaves the fight with the XP, level and credits of its start and
    holding no item that was not already held; afterwards XP, credits
    and the drop of the engaged enemy, and of no other, are awarded, and
    only if the engaged enemy is dead and the player alive. *)
Theorem rewards_only_for_the_engaged_enemy :
  (∀ (budget enemy : nat) (g : Game) (p : Player) (m : GameMap) (skill : Skill)
     (n : Z) (rest : list Entry) (w : World),
     player g = Some p →
     current_map g = Some m →
     w_in w = Num n :: rest →
     1 ≤ n →
     p_learned_skills p !! Z.to_nat (n - 1) = Some skill →
     skill_name skill = "Grenade Toss"%string →
     skill_effect_func skill = GrenadeToss →
     energy_cost skill ≤ p_energy p →
     NoDup (entities m) →
     (∀ oid, oid ∈ entities m → is_Some (w_heap w !! oid)) →
     ∃ g' m' w',
       handle_skills (S budget) enemy g w = Some ((true, g'), w')
       ∧ player g' = Some (with_energy (p_energy p - energy_cost skill) p)
       ∧ current_map g' = Some m'
       ∧ entities m' = List.filter (alive_in (w_heap w')) (entities m))
  ∧
  (∀ (budget enemy : nat) (g : Game) (p : Player) (e : Enemy) (w : World)
     (g' : Game) (w' : World),
     combat_round budget enemy g w = Some (g', w') →
     player g = Some p →
     w_heap w !! enemy = Some e →
     ∃ p1 e1 p',
       no_reward p p1
       ∧ w_heap w' !! enemy = Some e1
       ∧ player g' = Some p'
       ∧ if p_is_alive p1 && negb (e_is_alive e1) then
           p_credits p' = p_credits p + e_credit_value e
           ∧ p_inventory p' = p_inventory p1 ++ option_list (e_item_drop e)
           ∧ (if p_xp_to_next_level p <=? p_xp p + e_xp_value e
              then p_level p' = p_level p + 1
                   ∧ p_xp p' = p_xp p + e_xp_value e - p_xp_to_next_level p
              else p_level p' = p_level p
                   ∧ p_xp p' = p_xp p + e_xp_value e)
         else p' = p1).
Proof.
  split.
  - intros budget enemy g p m skill n rest w Hp Hm Hin Hn Hs Hname Hf Hok Hnd Hents.
    destruct (grenade_selected budget enemy g p m skill n rest w
                Hp Hm Hin Hn Hs Hname Hf Hok Hnd Hents) as (w' & E & _).
    eexists _, _, w'. split; [exact E |]. split; [reflexivity |].
    split; reflexivity.
  - intros budget enemy g p e w g' w' H Hp He.
    destruct (combat_round_split _ _ _ _ _ _ _ _ H Hp He)
      as (g1 & w1 & p1 & e1 & F & O & Hp1 & _ & _ & N & He1 & Hx & Hc & Hd).
    destruct (combat_outcome_spec _ _ _ _ _ _ _ O Hp1 He1) as [Hh Hout].
    exists p1, e1.
    assert (He1' : w_heap w' !! enemy = Some e1) by (rewrite Hh; exact He1).
    pose proof N as (Nx & Nt & Nl & Nc & _ & _).
    destruct (p_is_alive p1 && negb (e_is_alive e1)).
    + destruct Hout as (pa & Hp' & Hup). eexists.
      split; [exact N |]. split; [exact He1' |]. split; [exact Hp' |].
      rewrite Nt, Nx, Hx in Hup. rewrite Hd, Hc in *.
      destruct (p_xp_to_next_level p <=? p_xp p + e_xp_value e).
      * destruct Hup as (Hl & _ & _ & _ & _ & _ & _ & _ & Hxp & _ & Hcr & _ & Hinv & _).
        cbn in Hl, Hxp, Hcr, Hinv |- *. rewrite Hl, Hxp, Hcr, Hinv, Nl, Nt, Nc. auto.
      * subst pa. cbn. rewrite Nc, Nl. auto.
    + exists p1. auto.
Qed.

(** The rookie finishes the wounded hunter and is paid for it. *)
Lemma rewards_only_for_the_engaged_enemy_witness :
  ∃ g' w' p',
    combat_round 5 0 rookie_game (rookie_world [Txt "a"; Txt ""]) = Some (g', w')
    ∧ player g' = Some p' ∧ p_credits p' = 15.
Proof.
  destruct (combat_round 5 0 rookie_game (rookie_world [Txt "a"; Txt ""]))
    as [[g' w']|] eqn:E; [| vm_compute in E; discriminate].
  destruct (proj2 rewards_only_for_the_engaged_enemy 5%nat 0%nat rookie_game
              (with_xy 1 1 new_soldier) wounded_hunter
              (rookie_world [Txt "a"; Txt ""]) g' w' E eq_refl eq_refl)
    as (p1 & e1 & p' & _ & He1 & Hp' & Hpay).
  exists g', w', p'. split; [reflexivity |]. split; [exact Hp' |].
  vm_compute in E. injection E as <- <-.
  vm_compute in Hp'. injection Hp' as <-. reflexivity.
Defined.

(** A grenade kills the crippled drone standing by; the veteran then
    shoots the engaged drone.  Both are gone from the floor, and the
    veteran was paid for one drone: 20 XP and 5 credits, no item. *)
Example grenade_kills_bystander_unpaid :
  ∃ g' w' p' m',
    combat_round 5 0 arena_game
      (skirmish_world [Txt "k"; Num 2; Txt "a"; Txt ""] []) = Some (g', w')
    ∧ player g' = Some p' ∧ current_map g' = Some m'
    ∧ entities m' = []
    ∧ alive_in (w_heap w') 1%nat = false
    ∧ p_xp p' = p_xp veteran + 20
    ∧ p_credits p' = p_credits veteran + 5
    ∧ p_inventory p' = p_inventory veteran.
Proof.
  eexists _, _, _, _. split; [vm_compute; reflexivity |].
  repeat split; reflexivity.
Qed.

(** C7 (as the code has it): when the fight loop of [combat_round] ends,
    whatever the outcome and whatever skills were used or items equipped
    meanwhile, speed and defense are set back to the values recorded at
    combat entry.  The outcome block runs after that: if the engaged enemy
    was defeated and its XP makes the player level up, [combat_round]
    returns with speed +1 and defense +2 over the entry values; in every
    other case it returns with exactly the entry values. *)
Theorem combat_round_restores_speed_and_defense
    (budget enemy : nat) (g : Game) (p : Player) (e : Enemy) (w : World)
    (g' : Game) (w' : World) :
  combat_round budget enemy g w = Some (g', w') →
  player g = Some p →
  w_heap w !! enemy = Some e →
  ∃ g1 w1 p1 e1 p',
    fight budget enemy g w = Some (g1, w1)
    ∧ player g1 = Some p1
    ∧ p_speed p1 = p_speed p ∧ p_defense p1 = p_defense p
    ∧ w_heap w1 !! enemy = Some e1
    ∧ player g' = Some p'
    ∧ if p_is_alive p1 && negb (e_is_alive e1)
         && (p_xp_to_next_level p <=? p_xp p + e_xp_value e)
      then p_speed p' = p_speed p + 1 ∧ p_defense p' = p_defense p + 2
      else p_speed p' = p_speed p ∧ p_defense p' = p_defense p.
Proof.
  intros H Hp He.
  destruct (combat_round_split _ _ _ _ _ _ _ _ H Hp He)
    as (g1 & w1 & p1 & e1 & F & O & Hp1 & Hs & Hd & N & He1 & Hx & _).
  destruct (combat_outcome_spec _ _ _ _ _ _ _ O Hp1 He1) as [_ Hout].
  destruct N as (Nx & Nt & _).
  exists g1, w1, p1, e1.
  destruct (p_is_alive p1 && negb (e_is_alive e1)); cbn [andb].
  - destruct Hout as (pa & Hp' & Hup). eexists.
    do 5 (split; [eassumption |]). split; [exact Hp' |].
    rewrite Nt, Nx, Hx in Hup.
    destruct (p_xp_to_next_level p <=? p_xp p + e_xp_value e).
    + destruct Hup as (_ & _ & _ & _ & Hdef & Hsp & _).
      cbn in Hdef, Hsp |- *. rewrite Hdef, Hsp, Hs, Hd. auto.
    + subst pa. cbn. auto.
  - exists p1. auto 10.
Qed.

(** The veteran flees from the drone at the first prompt. *)
Lemma combat_round_restores_speed_and_defense_witness :
  ∃ g' w' p',
    combat_round 5 0 arena_game (arena_world [Txt "f"] [0; 0]%N) = Some (g', w')
    ∧ player g' = Some p'
    ∧ p_speed p' = p_speed veteran ∧ p_defense p' = p_defense veteran.
Proof.
  destruct (combat_round 5 0 arena_game (arena_world [Txt "f"] [0; 0]%N))
    as [[g' w']|] eqn:E; [| vm_compute in E; discriminate].
  destruct (combat_round_restores_speed_and_defense 5 0 arena_game veteran drone
              (arena_world [Txt "f"] [0; 0]%N) g' w' E eq_refl eq_refl)
    as (g1 & w1 & p1 & e1 & p' & F & Hp1 & _ & _ & He1 & Hp' & Hres).
  exists g', w', p'. split; [reflexivity |]. split; [exact Hp' |].
  vm_compute in E. injection E as <- <-.
  vm_compute in Hp'. injection Hp' as <-. split; reflexivity.
Defined.

(** C7 (as stated) fails: the rookie (speed 10, defense 5) defeats the
    wounded hunter, whose 50 XP reach the first threshold; [combat_round]
    returns with speed 11 and defense 7, not the values recorded at
    combat entry. *)
Lemma combat_round_level_up_counterexample :
  ∃ g' w' p',
    combat_round 5 0 rookie_game (rookie_world [Txt "a"; Txt ""]) = Some (g', w')
    ∧ player g' = Some p'
    ∧ p_speed new_soldier = 10 ∧ p_defense new_soldier = 5
    ∧ p_speed p' = 11 ∧ p_defense p' = 7
    ∧ ¬ (p_speed p' = p_speed new_soldier ∧ p_defense p' = p_defense new_soldier).
Proof.
  eexists _, _, _. split; [vm_compute; reflexivity |].
  split; [reflexivity |]. repeat split; try reflexivity.
  intros [H _]. vm_compute in H. discriminate.
Qed.

(** Equipping during combat: the veteran (defense 13, Scrap Armor worn)
    puts on the Reinforced Vest (+7 instead of +3), the drone strikes, and
    the veteran flees.  The vest stays equipped, but the defense is the
    13 recorded at combat entry, not 17. *)
Example armor_bonus_lost_when_equipped_in_combat :
  ∃ g' w' p',
    combat_round 5 0 arena_game
      (arena_world [Txt "i"; Num 2; Txt "f"] [0; 0]%N) = Some (g', w')
    ∧ player g' = Some p'
    ∧ p_equipped_armor p' = Some (ReinforcedVest 3)
    ∧ p_defense p' = 13.
Proof.
  eexists _, _, _. split; [vm_compute; reflexivity |].
  repeat split; reflexivity.
Qed.

(** * Tiles *)

Lemma py_pos_nonneg (len : nat) (i : Z) :
  0 ≤ i → py_pos len i = if i <? Z.of_nat len then Some (Z.to_nat i) else None.
Proof.
  intros H. unfold py_pos.
  replace (0 <=? i) with true by (symmetry; lia).
  replace (i <? 0) with false by (symmetry; lia).
  rewrite andb_false_r. reflexivity.
Qed.

(** Reading a tile at non-negative coordinates is plain list lookup. *)
Lemma tile_get_nonneg t x y :
  0 ≤ x → 0 ≤ y →
  tile_get t x y = t !! Z.to_nat y ≫= λ row, row !! Z.to_nat x.
Proof.
  intros Hx Hy. unfold tile_get, py_get. rewrite (py_pos_nonneg _ y Hy).
  destruct (Z.ltb_spec y (Z.of_nat (length t))) as [Hlt|Hge].
  - destruct (t !! Z.to_nat y) as [row|] eqn:Hrow; cbn; [| reflexivity].
    rewrite (py_pos_nonneg _ x Hx).
    destruct (Z.ltb_spec x (Z.of_nat (length row))) as [Hlt'|Hge']; [reflexivity |].
    symmetry. apply lookup_ge_None. lia.
  - rewrite (proj2 (lookup_ge_None t (Z.to_nat y))) by lia. reflexivity.
Qed.

Lemma tile_get_in_bounds w h t x y :
  wf_tiles w h t → 0 ≤ x < w → 0 ≤ y < h → is_Some (tile_get t x y).
Proof.
  intros [Hlen Hrows] Hx Hy. rewrite tile_get_nonneg by lia.
  destruct (lookup_lt_is_Some_2 t (Z.to_nat y)) as [row Hrow]; [lia |].
  rewrite Hrow. cbn.
  apply lookup_lt_is_Some_2.
  rewrite Forall_forall in Hrows.
  rewrite (Hrows row) by (eapply list_elem_of_lookup_2; eauto). lia.
Qed.

(** * Enemy turns *)

Lemma step_towards_sgn px py ex ey :
  step_towards px py ex ey = (ex + Z.sgn (px - ex), ey + Z.sgn (py - ey)).
Proof.
  unfold step_towards.
  destruct (Z.ltb_spec ex px), (Z.ltb_spec px ex), (Z.ltb_spec ey py),
    (Z.ltb_spec py ey); f_equal; lia.
Qed.

Lemma occupied_spec skip x y (l : list nat) w :
  (∀ oid, oid ∈ l → is_Some (w_heap w !! oid)) →
  ∃ b, occupied skip x y l w = Some (b, w)
       ∧ (b = true ↔
          ∃ oid other, oid ∈ l ∧ skip ≠ Some oid
                       ∧ w_heap w !! oid = Some other ∧ enemy_at x y other = true).
Proof.
  induction l as [|a l IH]; intros Hin.
  - exists false. split; [reflexivity |]. split; [discriminate |].
    intros (? & ? & H & _). inversion H.
  - destruct (Hin a) as [e He]; [left |].
    cbn [occupied]. rewrite (bind_step _ _ _ _ _ (get_enemy_eq _ _ _ He)).
    destruct (negb (bool_decide (skip = Some a)) && enemy_at x y e) eqn:Hc.
    + exists true. split; [reflexivity |]. split; [| reflexivity]. intros _.
      apply andb_true_iff in Hc as [Hs Ha].
      apply negb_true_iff, bool_decide_eq_false in Hs.
      exists a, e. split; [left |]. auto.
    + destruct IH as (b & E & Hb); [intros; apply Hin; right; assumption |].
      exists b. split; [exact E |]. rewrite Hb. split.
      * intros (oid & other & Ho & ?). exists oid, other. split; [right |]; auto.
      * intros (oid & other & Ho & Hs & Hoth & Hat).
        apply elem_of_cons in Ho as [->|Ho]; [| eauto 10].
        exfalso. replace other with e in * by congruence.
        rewrite Hat, andb_true_r in Hc.
        apply negb_false_iff, bool_decide_eq_true in Hc. contradiction.
Qed.

Lemma in_bounds_spec m x y :
  in_bounds m x y = true ↔ 0 ≤ x < width m ∧ 0 ≤ y < height m.
Proof. unfold in_bounds. rewrite !andb_true_iff. lia. Qed.

(** C8: one enemy's turn outside combat.  A living enemy that stands
    orthogonally next to the player (offset exactly (1,0) or (0,1) in
    absolute value) attacks and does not move; any other living enemy,
    diagonal neighbours included, does not attack and tries the tile one
    step towards the player on each axis: the step is rejected, leaving
    every position as it was, exactly when that tile is out of bounds, a
    wall, occupied by another living enemy, or the player's tile, and is
    taken otherwise. *)
Theorem enemy_turn_attacks_or_steps
    (m : GameMap) (oid : nat) (p : Player) (e : Enemy) (w : World) :
  wf_tiles (width m) (height m) (tiles m) →
  w_heap w !! oid = Some e →
  e_is_alive e = true →
  (∀ o, o ∈ entities m → is_Some (w_heap w !! o)) →
  let dx := Z.abs (e_x e - p_x p) in
  let dy := Z.abs (e_y e - p_y p) in
  let adjacent := (dx = 1 ∧ dy = 0) ∨ (dx = 0 ∧ dy = 1) in
  let new_x := e_x e + Z.sgn (p_x p - e_x e) in
  let new_y := e_y e + Z.sgn (p_y p - e_y e) in
  let rejected :=
    ¬ (0 ≤ new_x < width m ∧ 0 ≤ new_y < height m)
    ∨ tile_get (tiles m) new_x new_y = Some "#"%char
    ∨ (∃ o other, o ∈ entities m ∧ o ≠ oid ∧ w_heap w !! o = Some other
                  ∧ e_is_alive other = true
                  ∧ e_x other = new_x ∧ e_y other = new_y)
    ∨ (new_x, new_y) = (p_x p, p_y p) in
  ∃ p' w',
    enemy_turn m oid p w = Some (p', w')
    ∧ (adjacent →
       p' = with_hp (Z.max 0 (p_hp p - Z.max 0 (e_attack e - p_defense p))) p
       ∧ w_heap w' = w_heap w)
    ∧ (¬ adjacent →
       p' = p
       ∧ (rejected → w_heap w' = w_heap w)
       ∧ (¬ rejected →
          w_heap w' = <[oid := e_with_xy new_x new_y e]> (w_heap w)))
    ∧ (dx = 1 ∧ dy = 1 → ¬ adjacent).
Proof.
  intros Hwf He Ha Hents dx dy adjacent new_x new_y rejected.
  unfold enemy_turn. rewrite (bind_step _ _ _ _ _ (get_enemy_eq _ _ _ He)), Ha.
  fold dx dy.
  destruct (((dx =? 1) && (dy =? 0)) || ((dx =? 0) && (dy =? 1))) eqn:Hadj.
  - assert (Hyes : adjacent).
    { subst adjacent. apply orb_true_iff in Hadj as [H|H];
        apply andb_true_iff in H as [H1 H2]; lia. }
    unfold enemy_attacks. cbn [bind display_message].
    exists (p_take_damage (Z.max 0 (e_attack e - p_defense p)) p).
    destruct (p_is_alive _); cbn; eexists; (split; [reflexivity |]);
      (split; [intros _; split;
                 [unfold p_take_damage; rewrite take_damage_max; reflexivity
                 | reflexivity] |]);
      (split; [intros Hno; contradiction | subst adjacent; lia]).
  - assert (Hno : ¬ adjacent).
    { subst adjacent. intros [[H1 H2]|[H1 H2]]; rewrite H1, H2 in Hadj; discriminate. }
    rewrite step_towards_sgn. fold new_x new_y.
    destruct (occupied_spec (Some oid) new_x new_y (entities m) w Hents)
      as (taken & Eocc & Htaken).
    assert (Hcan : ∃ can,
      (if negb (in_bounds m new_x new_y) then ret false
       else do wall <- lift (tile_is "#" (tiles m) new_x new_y); ret (negb wall)) w
      = Some (can, w)
      ∧ (can = false ↔ ¬ (0 ≤ new_x < width m ∧ 0 ≤ new_y < height m)
                        ∨ tile_get (tiles m) new_x new_y = Some "#"%char)).
    { destruct (in_bounds m new_x new_y) eqn:Hb; cbn [negb].
      - apply in_bounds_spec in Hb.
        destruct (tile_get_in_bounds _ _ _ new_x new_y Hwf (proj1 Hb) (proj2 Hb))
          as [c Hc].
        unfold tile_is. rewrite Hc. cbn. eexists. split; [reflexivity |].
        destruct (Ascii.eqb_spec c "#"); cbn; split.
        + intros _. right. congruence.
        + reflexivity.
        + discriminate.
        + intros [H|H]; [contradiction | congruence].
      - exists false. split; [reflexivity |]. split; [| reflexivity].
        intros _. left. rewrite <- in_bounds_spec. congruence. }
    destruct Hcan as (can & Ecan & Hcan).
    rewrite (bind_step _ _ _ _ _ Ecan), (bind_step _ _ _ _ _ Eocc).
    set (can_move := if bool_decide ((new_x, new_y) = (p_x p, p_y p)) then false
                     else if taken then false else can).
    assert (Hrej : can_move = false ↔ rejected).
    { subst can_move rejected. case_bool_decide as Hpos.
      - split; [intros _; right; right; right; exact Hpos | reflexivity].
      - destruct taken.
        + split; [| reflexivity]. intros _. right. right. left.
          destruct (proj1 Htaken eq_refl) as (o & other & Ho & Hs & Hoth & Hat).
          unfold enemy_at in Hat.
          apply andb_true_iff in Hat as [Hat Hy].
          apply andb_true_iff in Hat as [Hal Hx].
          exists o, other. repeat split; auto; try lia; try congruence.
        + rewrite Hcan. split; [tauto |].
          intros [H|[H|[H|H]]]; [tauto | tauto | | contradiction].
          destruct H as (o & other & Ho & Hne & Hoth & Hal & Hx & Hy).
          assert (false = true); [| discriminate].
          apply Htaken. exists o, other. repeat split; auto; [congruence |].
          unfold enemy_at. rewrite Hal. cbn. apply andb_true_iff. lia. }
    change ((if (if bool_decide ((new_x, new_y) = (p_x p, p_y p)) then false
                 else if taken then false else can) then
               set_enemy oid (e_with_xy new_x new_y e) else ret ()) ;; ret p)
      with ((if can_move then set_enemy oid (e_with_xy new_x new_y e) else ret ()) ;;
            ret p).
    destruct can_move.
    + eexists _, _. split; [reflexivity |].
      split; [intros H; contradiction |].
      split; [| subst adjacent; lia].
      intros _. split; [reflexivity |]. split.
      * intros R. apply Hrej in R. discriminate.
      * intros _. reflexivity.
    + eexists _, _. split; [reflexivity |].
      split; [intros H; contradiction |].
      split; [| subst adjacent; lia].
      intros _. split; [reflexivity |]. split.
      * intros _. reflexivity.
      * intros R. exfalso. apply R, Hrej. reflexivity.
Qed.

(** A drone two tiles east of the veteran steps next to the veteran. *)
Lemma enemy_turn_attacks_or_steps_witness :
  ∃ w', enemy_turn arena 0 veteran (arena_world [] []) = Some (veteran, w')
        ∧ w_heap w' !! 0%nat = Some (e_with_xy 2 1 drone).
Proof.
  assert (Hwf : wf_tiles (width arena) (height arena) (tiles arena))
    by (split; [reflexivity | repeat constructor]).
  assert (Hents : ∀ o, o ∈ entities arena → is_Some (w_heap (arena_world [] []) !! o)).
  { intros o H. vm_compute in H.
    apply elem_of_cons in H as [-> | H]; [vm_compute; eauto |].
    apply elem_of_cons in H as [-> | H]; [vm_compute; eauto |].
    inversion H. }
  destruct (enemy_turn_attacks_or_steps arena 0%nat veteran drone (arena_world [] [])
              Hwf eq_refl eq_refl Hents)
    as (p' & w' & E & _ & Hmove & _).
  destruct Hmove as (Hp & _ & Hgo).
  { vm_compute. intros [[H _]|[H _]]; discriminate. }
  subst p'. exists w'. split; [exact E |].
  rewrite Hgo; [apply lookup_insert_eq |].
  vm_compute. intros [H|[H|[H|H]]].
  - apply H. repeat split; discriminate.
  - discriminate.
  - destruct H as (o & other & Ho & Hne & Hoth & _ & Hx & _).
    apply elem_of_cons in Ho as [-> | Ho]; [contradiction |].
    apply elem_of_cons in Ho as [-> | Ho]; [| inversion Ho].
    vm_compute in Hoth. injection Hoth as <-. discriminate.
  - discriminate.
Defined.

(** A diagonal neighbour neither attacks nor moves: its step would land
    on the player. *)
Example diagonal_neighbour_stays :
  ∃ w, w_heap w !! 0%nat = Some (e_with_xy 2 2 drone)
       ∧ (p_x veteran, p_y veteran) = (1, 1)
       ∧ enemy_turn (m_with_entities [0%nat] arena) 0 veteran w = Some (veteran, w).
Proof.
  exists (mkWorld [] [] [] (<[0%nat := e_with_xy 2 2 drone]> ∅) 1).
  repeat split; vm_compute; reflexivity.
Qed.

(** * Saving and loading *)

(** The catalog is keyed by the names its constructors give. *)
Lemma catalog_item_name name item_class oid :
  ALL_ITEM_CLASSES !! name = Some item_class → item_name (item_class oid) = name.
Proof.
  unfold ALL_ITEM_CLASSES. intros H. apply elem_of_list_to_map_2 in H.
  repeat (apply elem_of_cons in H as [H|H]; [injection H as -> ->; reflexivity |]).
  inversion H.
Qed.

Lemma load_inventory_names (names : list string) : ∀ inv w,
  Forall (λ n, is_Some (ALL_ITEM_CLASSES !! n)) names →
  ∃ inv' w', load_inventory names inv w = Some (inv', w')
             ∧ item_name <$> inv' = (item_name <$> inv) ++ names
             ∧ w_rng w' = w_rng w ∧ w_in w' = w_in w.
Proof.
  induction names as [|n names IH]; intros inv w Hk.
  - exists inv, w. rewrite app_nil_r. auto.
  - apply Forall_cons in Hk as [[c Hc] Hk]. cbn [load_inventory]. rewrite Hc.
    cbn [bind new_oid].
    destruct (IH (inv ++ [c (w_next w)])
                (mkWorld (w_rng w) (w_in w) (w_out w) (w_heap w) (S (w_next w))) Hk)
      as (inv' & w' & E & Hn & Hr & Hi).
    exists inv', w'. split; [exact E |]. split; [| auto].
    rewrite Hn, fmap_app. cbn. rewrite (catalog_item_name _ _ _ Hc), <- app_assoc.
    reflexivity.
Qed.

Lemma load_equipped_name name unknown current w :
  (∀ n, name = Some n → is_Some (ALL_ITEM_CLASSES !! n)) →
  current = None →
  ∃ it w', load_equipped name unknown current w = Some (it, w')
           ∧ item_name <$> it = name
           ∧ w_rng w' = w_rng w ∧ w_in w' = w_in w.
Proof.
  intros Hk ->. unfold load_equipped. destruct name as [n|].
  - destruct (Hk n eq_refl) as [c Hc].
    destruct (String.eqb_spec n "") as [->|Hne].
    + vm_compute in Hc. discriminate.
    + rewrite Hc. cbn. eexists _, _. split; [reflexivity |].
      cbn. rewrite (catalog_item_name _ _ _ Hc). auto.
  - eexists _, _. split; [reflexivity |]. auto.
Qed.

Lemma load_skills_names (names : list string) : ∀ skills w,
  Forall (λ n, is_Some (ALL_SKILL_DATA !! n)) names →
  ∃ skills', load_skills names skills w = Some (skills', w)
             ∧ skill_name <$> skills' = (skill_name <$> skills) ++ names.
Proof.
  induction names as [|n names IH]; intros skills w Hk.
  - exists skills. rewrite app_nil_r. auto.
  - apply Forall_cons in Hk as [[[[cost eff] descr] Hc] Hk].
    cbn [load_skills]. rewrite Hc.
    destruct (IH (skills ++ [mkSkill n descr cost eff]) w Hk) as (skills' & E & Hn).
    exists skills'. split; [exact E |].
    rewrite Hn, fmap_app, <- app_assoc. reflexivity.
Qed.

(** Rebuilding the player from a save file with known names always
    succeeds, and the rebuilt player saves back to the same fields. *)
Lemma load_player_spec pd w :
  names_known pd →
  ∃ p w', load_player pd w = Some (p, w')
    ∧ w_rng w' = w_rng w ∧ w_in w' = w_in w
    ∧ p_name p = pd_name pd ∧ p_hp p = pd_hp pd ∧ p_max_hp p = pd_max_hp pd
    ∧ p_attack p = pd_attack pd ∧ p_defense p = pd_defense pd
    ∧ p_speed p = pd_speed pd ∧ p_level p = pd_level pd ∧ p_xp p = pd_xp pd
    ∧ p_xp_to_next_level p = pd_xp_to_next_level pd
    ∧ p_class_type p = pd_class_type pd
    ∧ p_max_energy p = pd_max_energy pd ∧ p_energy p = pd_energy pd
    ∧ p_credits p = default 0 (pd_credits pd)
    ∧ p_crystals_collected p = default 0 (pd_crystals_collected pd)
    ∧ p_x p = pd_x pd ∧ p_y p = pd_y pd
    ∧ item_name <$> p_inventory p = pd_inventory pd
    ∧ item_name <$> p_equipped_weapon p = pd_equipped_weapon pd
    ∧ item_name <$> p_equipped_armor p = pd_equipped_armor pd
    ∧ skill_name <$> p_learned_skills p = pd_learned_skills pd.
Proof.
  intros (Hinv & Hwpn & Harm & Hsk). unfold load_player.
  destruct (load_inventory_names (pd_inventory pd) [] w Hinv)
    as (inv & w1 & E1 & Hn1 & Hr1 & Hi1).
  mrun E1.
  destruct (load_equipped_name (pd_equipped_weapon pd) MsgUnknownWeapon None w1
              Hwpn eq_refl) as (wpn & w2 & E2 & Hn2 & Hr2 & Hi2).
  mrun E2.
  destruct (load_equipped_name (pd_equipped_armor pd) MsgUnknownArmor None w2
              Harm eq_refl) as (arm & w3 & E3 & Hn3 & Hr3 & Hi3).
  mrun E3.
  destruct (load_skills_names (pd_learned_skills pd) [] w3 Hsk) as (skills & E4 & Hn4).
  mrun E4.
  eexists _, w3. split; [reflexivity |].
  split; [rewrite Hr3, Hr2, Hr1; reflexivity |].
  split; [rewrite Hi3, Hi2, Hi1; reflexivity |].
  cbn. repeat split; auto.
Qed.

(** What a round trip writes: the record that was loaded, with the two
    optional keys present. *)
Lemma load_then_save_spec
    (budget : nat) (save_data : SaveData) (g g' : Game) (w w' : World) :
  names_known (sd_player_data save_data) →
  load_game budget save_data g w = Some (g', w') →
  ∃ w'', save_game g' w' = Some (Some (with_defaults save_data), w'').
Proof.
  intros Hk H. unfold load_game in H.
  destruct (load_player_spec (sd_player_data save_data) w Hk)
    as (p & w1 & E & _ & _ & F).
  apply bind_Some in H as (p0 & w0 & E0 & H). rewrite E in E0. injection E0 as <- <-.
  minv H. mclean.
  destruct save_data as [lvl pd]. cbn in F |- *.
  unfold save_game, with_defaults, bind, display_message, ret. cbn.
  destruct F as (-> & -> & -> & -> & -> & -> & -> & -> & -> & -> & -> & -> & -> & ->
                 & -> & -> & -> & -> & -> & ->).
  eexists. reflexivity.
Qed.

(** C6 (as the code has it): loading a save file whose item and skill
    names are all in the catalog, and saving at once, writes back the
    floor index and every field of [player_data] as they were loaded,
    whatever floor was regenerated meanwhile, except that a [credits] or
    [crystals_collected] key missing from the file is written as 0.
    When the file has both keys the record written is the record
    loaded. *)
Theorem load_then_save_is_identity_up_to_defaults
    (budget : nat) (save_data : SaveData) (g g' : Game) (w w' : World) :
  names_known (sd_player_data save_data) →
  load_game budget save_data g w = Some (g', w') →
  (∃ w'', save_game g' w' = Some (Some (with_defaults save_data), w''))
  ∧ (is_Some (pd_credits (sd_player_data save_data)) →
     is_Some (pd_crystals_collected (sd_player_data save_data)) →
     ∃ w'', save_game g' w' = Some (Some save_data, w'')).
Proof.
  intros Hk H.
  destruct (load_then_save_spec budget save_data g g' w w' Hk H) as [w'' S].
  split; [exists w''; exact S |].
  intros [cr Hcr] [cy Hcy]. exists w''. rewrite S.
  destruct save_data as [lvl pd]. destruct pd. cbn in *. subst. reflexivity.
Qed.

(** The veteran's save file, loaded and saved again. *)
Lemma load_then_save_is_identity_up_to_defaults_witness :
  ∃ g' w' w'',
    load_game 5 veteran_save Game_init (mkWorld some_draws [] [] ∅ 0) = Some (g', w')
    ∧ save_game g' w' = Some (Some veteran_save, w'').
Proof.
  destruct (load_game 5 veteran_save Game_init (mkWorld some_draws [] [] ∅ 0))
    as [[g' w']|] eqn:E; [| vm_compute in E; discriminate].
  assert (Hk : names_known (sd_player_data veteran_save)).
  { repeat split.
    - repeat constructor; vm_compute; eauto.
    - intros n [= <-]. vm_compute. eauto.
    - intros n [= <-]. vm_compute. eauto.
    - repeat constructor; vm_compute; eauto. }
  destruct (load_then_save_is_identity_up_to_defaults 5 veteran_save Game_init g'
              (mkWorld some_draws [] [] ∅ 0) w' Hk E) as [_ Hid].
  destruct (Hid ltac:(vm_compute; eauto) ltac:(vm_compute; eauto)) as [w'' S].
  exists g', w', w''. split; [reflexivity | exact S].
Defined.

(** C6 (as stated) fails: a save file with known names only, written
    before credits and crystals were saved, lacks the two keys.
    [load_game] accepts it ([.get(key, 0)]), and the record saved at
    once has both keys, set to 0: it is not the record loaded. *)
Lemma load_then_save_missing_keys_counterexample :
  names_known (sd_player_data legacy_save)
  ∧ ∃ g' w' w'' saved,
      load_game 5 legacy_save Game_init (mkWorld some_draws [] [] ∅ 0) = Some (g', w')
      ∧ save_game g' w' = Some (Some saved, w'')
      ∧ pd_credits (sd_player_data legacy_save) = None
      ∧ pd_crystals_collected (sd_player_data legacy_save) = None
      ∧ pd_credits (sd_player_data saved) = Some 0
      ∧ pd_crystals_collected (sd_player_data saved) = Some 0
      ∧ saved ≠ legacy_save.
Proof.
  split.
  { repeat split.
    - repeat constructor; vm_compute; eauto.
    - intros n [= <-]. vm_compute. eauto.
    - intros n [= <-]. vm_compute. eauto.
    - repeat constructor; vm_compute; eauto. }
  destruct (load_game 5 legacy_save Game_init (mkWorld some_draws [] [] ∅ 0))
    as [[g' w']|] eqn:E; [| vm_compute in E; discriminate].
  destruct (save_game g' w') as [[[saved|] w'']|] eqn:S.
  - exists g', w', w'', saved. split; [reflexivity |]. split; [exact S |].
    vm_compute in E. injection E as <- <-.
    vm_compute in S. injection S as <- _.
    repeat split; try reflexivity. discriminate.
  - exfalso. vm_compute in E. injection E as <- <-. vm_compute in S. discriminate.
  - exfalso. vm_compute in E. injection E as <- <-. vm_compute in S. discriminate.
Qed.

(** * Carving the floor *)

(** ** Writing tiles *)

Lemma tile_set_spec c x y t t' W H :
  wf_tiles W H t → 0 ≤ x → 0 ≤ y →
  tile_set c x y t = Some t' →
  wf_tiles W H t' ∧ x < W ∧ y < H
  ∧ tile_get t' x y = Some c
  ∧ ∀ x' y', 0 ≤ x' → 0 ≤ y' → (x', y') ≠ (x, y) →
             tile_get t' x' y' = tile_get t x' y'.
Proof.
  intros [Hlen Hrows] Hx Hy. unfold tile_set, py_get, py_set.
  rewrite (py_pos_nonneg _ y Hy).
  destruct (Z.ltb_spec y (Z.of_nat (length t))) as [Hylt|]; [| discriminate].
  destruct (t !! Z.to_nat y) as [row|] eqn:Hrow; [| discriminate].
  rewrite (py_pos_nonneg _ x Hx).
  destruct (Z.ltb_spec x (Z.of_nat (length row))) as [Hxlt|]; [| discriminate].
  intros [= <-].
  assert (Hrl : length row = Z.to_nat W).
  { rewrite Forall_forall in Hrows. apply Hrows. eapply list_elem_of_lookup_2; eauto. }
  split; [| split; [lia | split; [lia | split]]].
  - split; [rewrite length_insert; exact Hlen |].
    apply Forall_insert; [exact Hrows |]. rewrite length_insert. exact Hrl.
  - rewrite tile_get_nonneg by lia.
    rewrite list_lookup_insert_eq by lia. cbn.
    apply list_lookup_insert_eq. lia.
  - intros x' y' Hx' Hy' Hne. rewrite !tile_get_nonneg by lia.
    destruct (decide (Z.to_nat y = Z.to_nat y')) as [Hey|Hney].
    + rewrite <- Hey, list_lookup_insert_eq, Hrow by lia. cbn.
      apply list_lookup_insert_ne. intros Hex. apply Hne. f_equal; lia.
    + rewrite list_lookup_insert_ne by exact Hney. reflexivity.
Qed.

(** Writing anything but a wall opens that tile and no other. *)
Lemma tile_set_open c x y t t' W H :
  wf_tiles W H t → 0 ≤ x → 0 ≤ y → c ≠ "#"%char →
  tile_set c x y t = Some t' →
  wf_tiles W H t'
  ∧ ∀ x' y', open_tile t' x' y' ↔ open_tile t x' y' ∨ (x' = x ∧ y' = y).
Proof.
  intros Hwf Hx Hy Hc E.
  destruct (tile_set_spec _ _ _ _ _ _ _ Hwf Hx Hy E) as (Hwf' & _ & _ & Hget & Hoth).
  split; [exact Hwf' |]. intros x' y'. unfold open_tile.
  destruct (decide ((x', y') = (x, y))) as [[= -> ->]|Hne].
  - rewrite Hget. split; [auto |]. intros _. eauto 10.
  - split.
    + intros (Hx' & Hy' & Ho). rewrite Hoth in Ho by assumption. auto.
    + intros [(Hx' & Hy' & Ho)|[-> ->]]; [| contradiction].
      rewrite Hoth by assumption. auto.
Qed.

(** ** Loops that write tiles *)

Lemma for_each_ind {A S} (body : A → S → option S) (P : list A → S → Prop)
    (l : list A) (s s' : S) :
  for_each l body s = Some s' →
  P [] s →
  (∀ done a s1 s2, a ∈ l → P done s1 → body a s1 = Some s2 → P (done ++ [a]) s2) →
  P l s'.
Proof.
  intros H H0 Hstep.
  enough (G : ∀ rest done s1, l = done ++ rest → P done s1 →
              for_each rest body s1 = Some s' → P l s').
  { eapply (G l []); eauto. }
  induction rest as [|a rest IH]; intros done s1 Hl Hd E; cbn [for_each] in E.
  - injection E as <-. rewrite Hl, app_nil_r. exact Hd.
  - destruct (body a s1) as [s2|] eqn:Eb; [| discriminate].
    apply (IH (done ++ [a]) s2); [rewrite <- app_assoc; exact Hl | | exact E].
    eapply Hstep; eauto. rewrite Hl. apply elem_of_app. right. left.
Qed.

Lemma elem_of_range a b k : k ∈ range a b ↔ a ≤ k < b.
Proof. unfold range. rewrite elem_of_seqZ. lia. Qed.

(** A horizontal run of tiles on row [y]. *)
Lemma paint_row c y a b t t' W H :
  wf_tiles W H t → 0 ≤ a → 0 ≤ y → c ≠ "#"%char →
  for_each (range a b) (λ x t, tile_set c x y t) t = Some t' →
  wf_tiles W H t'
  ∧ ∀ x' y', open_tile t' x' y' ↔ open_tile t x' y' ∨ (a ≤ x' < b ∧ y' = y).
Proof.
  intros Hwf Ha Hy Hc E.
  pose (P := λ (done : list Z) (s : list (list ascii)),
               wf_tiles W H s
               ∧ ∀ x' y', open_tile s x' y' ↔ open_tile t x' y' ∨ (x' ∈ done ∧ y' = y)).
  assert (HP : P (range a b) t').
  { apply (for_each_ind _ P _ _ _ E).
    - split; [exact Hwf |]. intros x' y'. rewrite elem_of_nil. tauto.
    - intros done x s1 s2 Hin [Hwf1 Ho1] Eb. apply elem_of_range in Hin.
      destruct (tile_set_open c x y s1 s2 W H Hwf1 ltac:(lia) Hy Hc Eb) as [Hwf2 Ho2].
      split; [exact Hwf2 |]. intros x' y'.
      rewrite Ho2, Ho1, elem_of_app, list_elem_of_singleton. tauto. }
  destruct HP as [Hwf' Ho]. split; [exact Hwf' |].
  intros x' y'. rewrite Ho, elem_of_range. tauto.
Qed.

(** A vertical run of tiles on column [x]. *)
Lemma paint_col c x a b t t' W H :
  wf_tiles W H t → 0 ≤ a → 0 ≤ x → c ≠ "#"%char →
  for_each (range a b) (λ y t, tile_set c x y t) t = Some t' →
  wf_tiles W H t'
  ∧ ∀ x' y', open_tile t' x' y' ↔ open_tile t x' y' ∨ (x' = x ∧ a ≤ y' < b).
Proof.
  intros Hwf Ha Hx Hc E.
  pose (P := λ (done : list Z) (s : list (list ascii)),
               wf_tiles W H s
               ∧ ∀ x' y', open_tile s x' y' ↔ open_tile t x' y' ∨ (x' = x ∧ y' ∈ done)).
  assert (HP : P (range a b) t').
  { apply (for_each_ind _ P _ _ _ E).
    - split; [exact Hwf |]. intros x' y'. rewrite elem_of_nil. tauto.
    - intros done y s1 s2 Hin [Hwf1 Ho1] Eb. apply elem_of_range in Hin.
      destruct (tile_set_open c x y s1 s2 W H Hwf1 Hx ltac:(lia) Hc Eb) as [Hwf2 Ho2].
      split; [exact Hwf2 |]. intros x' y'.
      rewrite Ho2, Ho1, elem_of_app, list_elem_of_singleton. tauto. }
  destruct HP as [Hwf' Ho]. split; [exact Hwf' |].
  intros x' y'. rewrite Ho, elem_of_range. tauto.
Qed.

Lemma carve_room_spec r t t' W H :
  wf_tiles W H t → 0 ≤ x1 r → 0 ≤ y1 r →
  carve_room r t = Some t' →
  wf_tiles W H t'
  ∧ ∀ x y, open_tile t' x y ↔ open_tile t x y ∨ in_room r x y.
Proof.
  intros Hwf Hx Hy E. unfold carve_room in E.
  pose (P := λ (done : list Z) (s : list (list ascii)),
               wf_tiles W H s
               ∧ ∀ x y, open_tile s x y ↔
                         open_tile t x y ∨ (x1 r ≤ x < x2 r ∧ y ∈ done)).
  assert (HP : P (range (y1 r) (y2 r)) t').
  { apply (for_each_ind _ P _ _ _ E).
    - split; [exact Hwf |]. intros x y. rewrite elem_of_nil. tauto.
    - intros done ry s1 s2 Hin [Hwf1 Ho1] Eb. apply elem_of_range in Hin.
      destruct (paint_row "." ry (x1 r) (x2 r) s1 s2 W H Hwf1 Hx ltac:(lia)
                  ltac:(discriminate) Eb) as [Hwf2 Ho2].
      split; [exact Hwf2 |]. intros x y.
      rewrite Ho2, Ho1, elem_of_app, list_elem_of_singleton. tauto. }
  destruct HP as [Hwf' Ho]. split; [exact Hwf' |].
  intros x y. rewrite Ho, elem_of_range. unfold in_room. tauto.
Qed.

Lemma center_in_room W H r :
  room_ok W H r → in_room r (center_x r) (center_y r).
Proof.
  unfold room_ok, in_room, center_x, center_y, ROOM_MIN_SIZE.
  intros (? & ? & ? & ? & ? & ?).
  pose proof (Z.div_le_lower_bound (x1 r + x2 r) 2 (x1 r) ltac:(lia) ltac:(lia)).
  pose proof (Z.div_lt_upper_bound (x1 r + x2 r) 2 (x2 r) ltac:(lia) ltac:(lia)).
  pose proof (Z.div_le_lower_bound (y1 r + y2 r) 2 (y1 r) ltac:(lia) ltac:(lia)).
  pose proof (Z.div_lt_upper_bound (y1 r + y2 r) 2 (y2 r) ltac:(lia) ltac:(lia)).
  lia.
Qed.

Lemma carve_corridor_spec r1 r2 t t' W H :
  wf_tiles W H t → room_ok W H r1 → room_ok W H r2 →
  carve_corridor r1 r2 t = Some t' →
  wf_tiles W H t'
  ∧ ∀ x y, open_tile t' x y ↔ open_tile t x y ∨ on_corridor r1 r2 x y.
Proof.
  intros Hwf Hr1 Hr2 E. unfold carve_corridor in E.
  pose proof (center_in_room _ _ _ Hr1) as [C1x C1y].
  pose proof (center_in_room _ _ _ Hr2) as [C2x C2y].
  destruct Hr1 as (? & ? & ? & ? & ? & ?), Hr2 as (? & ? & ? & ? & ? & ?).
  destruct (for_each _ _ t) as [t1|] eqn:E1; [| discriminate].
  apply paint_row with (W := W) (H := H) in E1 as [Hwf1 Ho1];
    [| exact Hwf | lia | lia | discriminate].
  apply paint_col with (W := W) (H := H) in E as [Hwf2 Ho2];
    [| exact Hwf1 | lia | lia | discriminate].
  split; [exact Hwf2 |]. intros x y. rewrite Ho2, Ho1. unfold on_corridor.
  split; [intros [[?|?]|?] | intros [?|[?|?]]]; auto; try (right; lia);
    try (left; right; lia).
Qed.

Lemma connect_rooms_spec (rs : list Room) W H : ∀ t t',
  wf_tiles W H t → Forall (room_ok W H) rs →
  connect_rooms rs t = Some t' →
  wf_tiles W H t'
  ∧ ∀ x y, open_tile t' x y ↔ open_tile t x y ∨ on_corridors rs x y.
Proof.
  induction rs as [|r1 rs IH]; intros t t' Hwf Hok E.
  - injection E as <-. split; [exact Hwf |]. cbn. tauto.
  - destruct rs as [|r2 rs].
    + injection E as <-. split; [exact Hwf |]. cbn. tauto.
    + cbn [connect_rooms] in E.
      destruct (carve_corridor r1 r2 t) as [t1|] eqn:E1; [| discriminate].
      apply Forall_cons in Hok as [Hr1 Hok]. pose proof Hok as Hok'.
      apply Forall_cons in Hok' as [Hr2 _].
      destruct (carve_corridor_spec _ _ _ _ _ _ Hwf Hr1 Hr2 E1) as [Hwf1 Ho1].
      destruct (IH t1 t' Hwf1 Hok E) as [Hwf2 Ho2].
      split; [exact Hwf2 |]. intros x y. rewrite Ho2, Ho1.
      cbn [on_corridors]. tauto.
Qed.

(** ** Steps 1 and 2 *)

Lemma draw_frame w r w' :
  draw w = Some (r, w') →
  w_heap w' = w_heap w ∧ w_next w' = w_next w ∧ w_out w' = w_out w ∧ w_in w' = w_in w.
Proof.
  unfold draw. destruct (w_rng w); [discriminate |]. intros [= _ <-]. auto.
Qed.

Lemma randint_spec a b w v w' :
  randint a b w = Some (v, w') →
  a ≤ v ≤ b
  ∧ w_heap w' = w_heap w ∧ w_next w' = w_next w ∧ w_out w' = w_out w
  ∧ w_in w' = w_in w.
Proof.
  unfold randint. destruct (Z.ltb_spec b a); [discriminate |].
  intros E. minv E. mclean. apply draw_frame in E0.
  split; [| exact E0].
  pose proof (Z.mod_pos_bound (Z.of_N a0) (b - a + 1) ltac:(lia)). lia.
Qed.

Lemma choice_spec {A} (l : list A) w v w' :
  choice l w = Some (v, w') →
  v ∈ l
  ∧ w_heap w' = w_heap w ∧ w_next w' = w_next w ∧ w_out w' = w_out w
  ∧ w_in w' = w_in w.
Proof.
  unfold choice. destruct l as [|a l]; [discriminate |].
  intros E. minv E. mclean. apply draw_frame in E0.
  split; [eapply list_elem_of_lookup_2; eassumption | exact E0].
Qed.

(** Chains the frame equations collected about intermediate worlds. *)
Ltac wchain :=
  cbn [w_heap w_next w_out w_in w_rng] in *;
  repeat match goal with
  | H : w_heap _ = _ |- _ => rewrite H; clear H
  | H : w_next _ = _ |- _ => rewrite H; clear H
  end;
  reflexivity.

Lemma all_walls_wf W H : wf_tiles W H (all_walls W H).
Proof.
  unfold all_walls. split; [apply length_replicate |].
  apply Forall_replicate. apply length_replicate.
Qed.

Lemma all_walls_closed W H x y : ¬ open_tile (all_walls W H) x y.
Proof.
  intros (Hx & Hy & c & Hc & Hne). rewrite tile_get_nonneg in Hc by assumption.
  unfold all_walls in Hc.
  destruct (replicate (Z.to_nat H) _ !! Z.to_nat y) as [row|] eqn:Hrow; [| discriminate].
  apply lookup_replicate in Hrow as [-> _]. cbn in Hc.
  apply lookup_replicate in Hc as [-> _]. contradiction.
Qed.

Lemma reset_map_spec self :
  rooms_carved (reset_map self) ∧ blank (reset_map self)
  ∧ width (reset_map self) = width self ∧ height (reset_map self) = height self.
Proof.
  unfold rooms_carved, blank, reset_map. cbn.
  split; [| auto 10]. split; [apply all_walls_wf |]. split; [constructor |].
  intros x y. split.
  - intros H. exfalso. eapply all_walls_closed; eauto.
  - intros (r & Hr & _). inversion Hr.
Qed.

Lemma try_room_spec self w self' w' :
  rooms_carved self → blank self →
  try_room self w = Some (self', w') →
  rooms_carved self' ∧ blank self'
  ∧ width self' = width self ∧ height self' = height self
  ∧ w_heap w' = w_heap w ∧ w_next w' = w_next w.
Proof.
  intros (Hwf & Hok & Hopen) Hblank E. unfold try_room in E.
  minv E; mclean;
    repeat match goal with
    | E : randint _ _ _ = Some _ |- _ => apply randint_spec in E as (? & ? & ? & _)
    end.
  - (* the candidate overlaps: nothing changes *)
    split; [split; auto |]. split; [exact Hblank |].
    split; [reflexivity |]. split; [reflexivity |]. split; wchain.
  - (* the candidate is carved *)
    cbn [tiles rooms m_with_rooms] in *.
    match goal with
    | E : carve_room ?r _ = Some ?t |- _ =>
        apply carve_room_spec with (W := width self) (H := height self) in E
          as [Hwf' Hopen']; [| exact Hwf | cbn; lia | cbn; lia]
    end.
    split; [| split; [exact Hblank |];
               split; [reflexivity |]; split; [reflexivity |]; split; wchain].
    split; [exact Hwf' |]. cbn. split.
    + apply Forall_app. split; [exact Hok |]. apply Forall_singleton.
      unfold room_ok, ROOM_MIN_SIZE, ROOM_MAX_SIZE in *. cbn. lia.
    + intros x y. rewrite Hopen', Hopen. split.
      * intros [(r & Hr & Hin)|Hin]; eexists; (split; [| exact Hin]);
          apply elem_of_app; [left; exact Hr | right; left].
      * intros (r & Hr & Hin). apply elem_of_app in Hr as [Hr|Hr]; [left; eauto |].
        apply list_elem_of_singleton in Hr as ->. right. exact Hin.
Qed.

Lemma place_rooms_spec (n : nat) : ∀ self w self' w',
  rooms_carved self → blank self →
  place_rooms n self w = Some (self', w') →
  rooms_carved self' ∧ blank self'
  ∧ width self' = width self ∧ height self' = height self
  ∧ w_heap w' = w_heap w ∧ w_next w' = w_next w.
Proof.
  induction n as [|n IH]; intros self w self' w' Hc Hb E; cbn [place_rooms] in E.
  - minv E. mclean. auto 10.
  - minv E.
    apply try_room_spec in E0 as (Hc1 & Hb1 & Hw1 & Hh1 & Hhp1 & Hn1); [| assumption ..].
    apply IH in E as (Hc2 & Hb2 & Hw2 & Hh2 & Hhp2 & Hn2); [| assumption ..].
    split; [exact Hc2 |]. split; [exact Hb2 |].
    split; [rewrite Hw2; exact Hw1 |]. split; [rewrite Hh2; exact Hh1 |].
    split; wchain.
Qed.

Lemma insert_room_perm r (l : list Room) : insert_room r l ≡ₚ r :: l.
Proof.
  induction l as [|r' l IH]; cbn [insert_room]; [reflexivity |].
  destruct (x1 r <=? x1 r'); [reflexivity |].
  rewrite IH. apply Permutation_swap.
Qed.

Lemma sort_rooms_perm (l : list Room) : sort_rooms l ≡ₚ l.
Proof.
  induction l as [|r l IH]; cbn; [reflexivity |].
  rewrite insert_room_perm, IH. reflexivity.
Qed.

Lemma connect_spec self self' :
  rooms_carved self → blank self →
  connect self = Some self' →
  carved self' ∧ blank self'
  ∧ width self' = width self ∧ height self' = height self.
Proof.
  intros (Hwf & Hok & Hopen) Hblank E. unfold connect in E.
  destruct (1 <? length (rooms self))%nat eqn:Hlen.
  - cbn [rooms tiles m_with_rooms] in E.
    destruct (connect_rooms _ _) as [t|] eqn:Ec; [| discriminate].
    injection E as <-.
    assert (Hok' : Forall (room_ok (width self) (height self)) (sort_rooms (rooms self)))
      by (rewrite sort_rooms_perm; exact Hok).
    destruct (connect_rooms_spec _ _ _ _ _ Hwf Hok' Ec) as [Hwf' Hopen'].
    split; [| split; [exact Hblank | split; reflexivity]].
    split; [exact Hwf' |]. split; [exact Hok' |]. cbn.
    intros x y. rewrite Hopen', Hopen.
    assert (Hsame : (∃ r, r ∈ rooms self ∧ in_room r x y)
                    ↔ (∃ r, r ∈ sort_rooms (rooms self) ∧ in_room r x y)).
    { split; intros (r & Hr & Hin); exists r; (split; [| exact Hin]).
      - rewrite sort_rooms_perm. exact Hr.
      - rewrite sort_rooms_perm in Hr. exact Hr. }
    rewrite Hsame. reflexivity.
  - injection E as <-.
    split; [| split; [exact Hblank | split; reflexivity]].
    split; [exact Hwf |]. split; [exact Hok |].
    intros x y. rewrite Hopen.
    assert (Hnone : ¬ on_corridors (rooms self) x y).
    { destruct (rooms self) as [|r1 [|r2 rs]]; cbn; [tauto | tauto |].
      cbn in Hlen. discriminate. }
    tauto.
Qed.

Lemma carve_floor_spec self w m0 w' :
  carve_floor self w = Some (m0, w') →
  carved m0 ∧ blank m0
  ∧ width m0 = width self ∧ height m0 = height self
  ∧ w_heap w' = w_heap w ∧ w_next w' = w_next w.
Proof.
  unfold carve_floor. intros E. minv E. mclean.
  destruct (reset_map_spec self) as (Hc & Hb & Hw & Hh).
  apply place_rooms_spec in E0 as (Hc1 & Hb1 & Hw1 & Hh1 & Hhp & Hn); [| assumption ..].
  match goal with
  | E : connect _ = Some _ |- _ =>
      apply connect_spec in E as (Hc2 & Hb2 & Hw2 & Hh2); [| assumption ..]
  end.
  split; [exact Hc2 |]. split; [exact Hb2 |].
  split; [rewrite Hw2, Hw1; exact Hw |]. split; [rewrite Hh2, Hh1; exact Hh |].
  split; wchain.
Qed.

(** * Connectivity of the carved floor *)

Section Paths.

Variable O : Z * Z → Prop.

Lemma path_ends p q : path O p q → O p ∧ O q.
Proof. induction 1 as [p Hp | p q r _ [Hp _] _ Hr]; auto. Qed.

Lemma path_trans p q r : path O p q → path O q r → path O p r.
Proof.
  intros Hpq Hqr. induction Hqr as [? ? | ? ? ? ? IH ? ?]; [assumption |].
  eapply path_step; [apply IH; exact Hpq | eassumption | assumption].
Qed.

Lemma adjacent4_sym p q : adjacent4 p q → adjacent4 q p.
Proof. unfold adjacent4. lia. Qed.

Lemma path_sym p q : path O p q → path O q p.
Proof.
  induction 1 as [p Hp | p q r Hpq IH Hadj Hr]; [apply path_here; exact Hp |].
  eapply path_trans; [| exact IH].
  eapply path_step; [apply path_here; exact Hr | apply adjacent4_sym; exact Hadj |].
  apply (path_ends _ _ Hpq).
Qed.

(** Straight runs. *)
Lemma path_east (n : nat) a y :
  (∀ x, a ≤ x ≤ a + Z.of_nat n → O (x, y)) → path O (a, y) (a + Z.of_nat n, y).
Proof.
  induction n as [|n IH]; intros Hrun.
  - replace (a + Z.of_nat 0) with a by lia. apply path_here, Hrun. lia.
  - eapply path_step; [apply IH; intros; apply Hrun; lia | | apply Hrun; lia].
    unfold adjacent4. cbn. lia.
Qed.

Lemma path_south (n : nat) x b :
  (∀ y, b ≤ y ≤ b + Z.of_nat n → O (x, y)) → path O (x, b) (x, b + Z.of_nat n).
Proof.
  induction n as [|n IH]; intros Hrun.
  - replace (b + Z.of_nat 0) with b by lia. apply path_here, Hrun. lia.
  - eapply path_step; [apply IH; intros; apply Hrun; lia | | apply Hrun; lia].
    unfold adjacent4. cbn. lia.
Qed.

Lemma path_row lo hi y a b :
  (∀ x, lo ≤ x ≤ hi → O (x, y)) → lo ≤ a ≤ hi → lo ≤ b ≤ hi →
  path O (a, y) (b, y).
Proof.
  intros Hrun Ha Hb. destruct (Z.le_ge_cases a b).
  - replace b with (a + Z.of_nat (Z.to_nat (b - a))) by lia.
    apply path_east. intros; apply Hrun; lia.
  - apply path_sym. replace a with (b + Z.of_nat (Z.to_nat (a - b))) by lia.
    apply path_east. intros; apply Hrun; lia.
Qed.

Lemma path_col lo hi x a b :
  (∀ y, lo ≤ y ≤ hi → O (x, y)) → lo ≤ a ≤ hi → lo ≤ b ≤ hi →
  path O (x, a) (x, b).
Proof.
  intros Hrun Ha Hb. destruct (Z.le_ge_cases a b).
  - replace b with (a + Z.of_nat (Z.to_nat (b - a))) by lia.
    apply path_south. intros; apply Hrun; lia.
  - apply path_sym. replace a with (b + Z.of_nat (Z.to_nat (a - b))) by lia.
    apply path_south. intros; apply Hrun; lia.
Qed.

(** Inside a room: along the row to the centre column, then along it. *)
Lemma path_in_room W H r x y :
  room_ok W H r →
  (∀ x y, in_room r x y → O (x, y)) →
  in_room r x y →
  path O (x, y) (center_x r, center_y r).
Proof.
  intros Hok Hroom Hin. pose proof (center_in_room _ _ _ Hok) as Hc.
  unfold in_room in *.
  eapply path_trans.
  - apply (path_row (x1 r) (x2 r - 1) y x (center_x r)); [| lia | lia].
    intros; apply Hroom; lia.
  - apply (path_col (y1 r) (y2 r - 1) (center_x r) y (center_y r)); [| lia | lia].
    intros; apply Hroom; lia.
Qed.

(** Along a corridor: from the first centre to any of its cells. *)
Lemma path_on_corridor r1 r2 x y :
  (∀ x y, on_corridor r1 r2 x y → O (x, y)) →
  on_corridor r1 r2 x y →
  path O (center_x r1, center_y r1) (x, y).
Proof.
  intros Hcor Hon. unfold on_corridor in *.
  assert (Hrow : ∀ b, Z.min (center_x r1) (center_x r2) ≤ b
                      ≤ Z.max (center_x r1) (center_x r2) →
                      path O (center_x r1, center_y r1) (b, center_y r1)).
  { intros b Hb.
    apply (path_row (Z.min (center_x r1) (center_x r2))
             (Z.max (center_x r1) (center_x r2))); [| lia | lia].
    intros; apply Hcor; left; lia. }
  destruct Hon as [[-> Hx]|[-> Hy]]; [apply Hrow; exact Hx |].
  eapply path_trans; [apply (Hrow (center_x r2)); lia |].
  apply (path_col (Z.min (center_y r1) (center_y r2))
           (Z.max (center_y r1) (center_y r2))); [| lia | lia].
  intros; apply Hcor; right; lia.
Qed.

Lemma path_between_centers r1 r2 :
  (∀ x y, on_corridor r1 r2 x y → O (x, y)) →
  path O (center_x r1, center_y r1) (center_x r2, center_y r2).
Proof.
  intros Hcor. apply (path_on_corridor r1 r2); [exact Hcor |].
  unfold on_corridor. right. lia.
Qed.

(** The chain of corridors links the first room to every room and to
    every corridor cell. *)
Lemma path_along_chain W H (rs : list Room) : ∀ head,
  Forall (room_ok W H) (head :: rs) →
  (∀ r x y, r ∈ head :: rs → in_room r x y → O (x, y)) →
  (∀ x y, on_corridors (head :: rs) x y → O (x, y)) →
  (∀ r, r ∈ head :: rs →
        path O (center_x head, center_y head) (center_x r, center_y r))
  ∧ (∀ x y, on_corridors (head :: rs) x y →
            path O (center_x head, center_y head) (x, y)).
Proof.
  induction rs as [|r2 rs IH]; intros head Hok Hrooms Hcors.
  - split; [| intros x y []].
    intros r Hr. apply list_elem_of_singleton in Hr as ->.
    apply path_here. apply Forall_cons in Hok as [Hok _].
    apply (Hrooms head); [left |]. eapply center_in_room; eauto.
  - apply Forall_cons in Hok as [Hhead Hok].
    destruct (IH r2 Hok) as [IHr IHc].
    { intros r x y Hr. apply Hrooms. right. exact Hr. }
    { intros x y Hon. apply Hcors. cbn [on_corridors]. right. exact Hon. }
    assert (Hlink : path O (center_x head, center_y head) (center_x r2, center_y r2)).
    { apply path_between_centers. intros x y Hon. apply Hcors.
      cbn [on_corridors]. left. exact Hon. }
    split.
    + intros r Hr. apply elem_of_cons in Hr as [->|Hr].
      * apply path_here. apply (Hrooms head); [left |]. eapply center_in_room; eauto.
      * eapply path_trans; [exact Hlink | apply IHr; exact Hr].
    + intros x y Hon. cbn [on_corridors] in Hon. destruct Hon as [Hon|Hon].
      * apply path_on_corridor with (r2 := r2); [| exact Hon].
        intros x' y' Hon'. apply Hcors. cbn [on_corridors]. left. exact Hon'.
      * eapply path_trans; [exact Hlink | apply IHc; exact Hon].
Qed.

End Paths.

(** Every two open tiles of a carved floor are joined by a path of open
    tiles. *)
Lemma carved_connected m p q :
  carved m →
  open_tile (tiles m) p.1 p.2 → open_tile (tiles m) q.1 q.2 →
  path (λ pos, open_tile (tiles m) pos.1 pos.2) p q.
Proof.
  intros (Hwf & Hok & Hopen) Hp Hq.
  set (O := λ pos : Z * Z, open_tile (tiles m) pos.1 pos.2).
  destruct (rooms m) as [|head rs] eqn:Hrooms.
  { exfalso. apply Hopen in Hp as [(r & Hr & _)|[]]. inversion Hr. }
  destruct (path_along_chain O (width m) (height m) rs head Hok) as [Hr Hc].
  { intros r x y Hin Hroom. apply (Hopen x y). left. eauto. }
  { intros x y Hon. apply (Hopen x y). right. exact Hon. }
  assert (Hto : ∀ x y, open_tile (tiles m) x y →
                       path O (center_x head, center_y head) (x, y)).
  { intros x y Ho. apply Hopen in Ho as [(r & Hin & Hroom)|Hon]; [| apply Hc; exact Hon].
    eapply path_trans; [apply Hr; exact Hin |].
    apply path_sym. apply path_in_room with (W := width m) (H := height m).
    - rewrite Forall_forall in Hok. apply Hok. exact Hin.
    - intros x' y' Hin'. apply (Hopen x' y'). left. eauto.
    - exact Hroom. }
  destruct p as [px py], q as [qx qy]. cbn in Hp, Hq.
  eapply path_trans; [apply path_sym, Hto; exact Hp | apply Hto; exact Hq].
Qed.

(** * Placing the features *)

(** ** The pool of empty tiles *)

Lemma for_each_split {A S} (body : A → S → option S) (P : list A → S → Prop)
    (l : list A) (s s' : S) :
  for_each l body s = Some s' →
  P [] s →
  (∀ done a rest s1 s2,
     l = done ++ a :: rest → P done s1 → body a s1 = Some s2 → P (done ++ [a]) s2) →
  P l s'.
Proof.
  intros H H0 Hstep.
  enough (G : ∀ rest done s1, l = done ++ rest → P done s1 →
              for_each rest body s1 = Some s' → P l s').
  { eapply (G l []); eauto. }
  induction rest as [|a rest IH]; intros done s1 Hl Hd E; cbn [for_each] in E.
  - injection E as <-. rewrite Hl, app_nil_r. exact Hd.
  - destruct (body a s1) as [s2|] eqn:Eb; [| discriminate].
    apply (IH (done ++ [a]) s2); [rewrite <- app_assoc; exact Hl | | exact E].
    eapply Hstep; eauto.
Qed.

Lemma range_split_fresh a b done k rest :
  range a b = done ++ k :: rest → (k ∉ done) ∧ a ≤ k < b.
Proof.
  intros E. split.
  - pose proof (NoDup_seqZ a (b - a)) as Hnd. fold (range a b) in Hnd.
    rewrite E in Hnd. apply NoDup_app in Hnd as (_ & Hdis & _).
    intros Hk. apply (Hdis k Hk). left.
  - apply elem_of_range. rewrite E. apply elem_of_app. right. left.
Qed.

(** The scan returns each floor tile of the grid once. *)
Lemma scan_empty_spec m empty_tiles :
  scan_empty m = Some empty_tiles →
  NoDup empty_tiles
  ∧ ∀ pos, pos ∈ empty_tiles →
           0 ≤ pos.1 < width m ∧ 0 ≤ pos.2 < height m
           ∧ tile_get (tiles m) pos.1 pos.2 = Some "."%char.
Proof.
  unfold scan_empty. intros E.
  pose (good := λ pos : Z * Z,
          0 ≤ pos.1 < width m ∧ 0 ≤ pos.2 < height m
          ∧ tile_get (tiles m) pos.1 pos.2 = Some "."%char).
  pose (P := λ (rows : list Z) (acc : list (Z * Z)),
          NoDup acc ∧ ∀ pos, pos ∈ acc → good pos ∧ pos.2 ∈ rows).
  assert (HP : P (range 0 (height m)) empty_tiles).
  { apply (for_each_split _ P _ _ _ E).
    - split; [constructor |]. intros pos Hin. inversion Hin.
    - intros rows y rest acc acc' Hsplit [Hnd Hacc] Erow.
      apply range_split_fresh in Hsplit as [Hy Hyr].
      pose (Q := λ (cols : list Z) (acc1 : list (Z * Z)),
              NoDup acc1
              ∧ ∀ pos, pos ∈ acc1 →
                       good pos ∧ (pos.2 ∈ rows ∨ (pos.2 = y ∧ pos.1 ∈ cols))).
      assert (HQ : Q (range 0 (width m)) acc').
      { apply (for_each_split _ Q _ _ _ Erow).
        - split; [exact Hnd |]. intros pos Hin. destruct (Hacc pos Hin). auto.
        - intros cols x rest' acc1 acc2 Hsplit' [Hnd1 Hacc1] Ecell.
          apply range_split_fresh in Hsplit' as [Hx Hxr].
          unfold tile_is in Ecell.
          destruct (tile_get (tiles m) x y) as [c|] eqn:Hc; [| discriminate].
          destruct (Ascii.eqb_spec c ".") as [->|Hne]; injection Ecell as <-.
          + split.
            * apply NoDup_app. split; [exact Hnd1 |]. split; [| apply NoDup_singleton].
              intros pos Hin Hpos. apply list_elem_of_singleton in Hpos as ->.
              destruct (Hacc1 _ Hin) as [_ [Hrow|[_ Hcol]]]; cbn in *; contradiction.
            * intros pos Hin. apply elem_of_app in Hin as [Hin|Hin].
              -- destruct (Hacc1 pos Hin) as [Hg [Hrow|[Hrow Hcol]]];
                   (split; [exact Hg |]); [left; exact Hrow |].
                 right. split; [exact Hrow |]. apply elem_of_app. left. exact Hcol.
              -- apply list_elem_of_singleton in Hin as ->. cbn. split.
                 ++ unfold good. cbn. repeat split; try lia. exact Hc.
                 ++ right. split; [reflexivity |]. apply elem_of_app. right. left.
          + split; [exact Hnd1 |]. intros pos Hin.
            destruct (Hacc1 pos Hin) as [Hg [Hrow|[Hrow Hcol]]];
              (split; [exact Hg |]); [left; exact Hrow |].
            right. split; [exact Hrow |]. apply elem_of_app. left. exact Hcol. }
      destruct HQ as [Hnd' Hacc']. split; [exact Hnd' |].
      intros pos Hin. destruct (Hacc' pos Hin) as [Hg [Hrow|[Hrow _]]];
        (split; [exact Hg |]); apply elem_of_app; [left; exact Hrow |].
      right. rewrite Hrow. left. }
  destruct HP as [Hnd Hacc]. split; [exact Hnd |].
  intros pos Hin. apply (Hacc pos Hin).
Qed.

Lemma remove_first_perm pos (l : list (Z * Z)) : ∀ l',
  remove_first pos l = Some l' → l ≡ₚ pos :: l'.
Proof.
  induction l as [|q l IH]; intros l' E; cbn [remove_first] in E; [discriminate |].
  case_bool_decide as Hq.
  - injection E as <-. rewrite Hq. reflexivity.
  - destruct (remove_first pos l) as [r|]; [| discriminate]. injection E as <-.
    rewrite (IH r eq_refl). apply Permutation_swap.
Qed.

Lemma take_tile_spec empty_tiles w pos rest w' :
  take_tile empty_tiles w = Some ((pos, rest), w') →
  empty_tiles ≡ₚ pos :: rest
  ∧ w_heap w' = w_heap w ∧ w_next w' = w_next w.
Proof.
  unfold take_tile. intros E. minv E. mclean.
  apply choice_spec in E0 as (_ & Hh & Hn & _).
  split; [apply remove_first_perm; assumption | auto].
Qed.

(** Marking an open tile keeps the open tiles as they are. *)
Lemma mark_spec c pos self w self' w' :
  wf_tiles (width self) (height self) (tiles self) →
  open_tile (tiles self) pos.1 pos.2 →
  c ≠ "#"%char →
  mark c pos self w = Some (self', w') →
  self' = m_with_tiles (tiles self') self
  ∧ wf_tiles (width self) (height self) (tiles self')
  ∧ (∀ x y, open_tile (tiles self') x y ↔ open_tile (tiles self) x y)
  ∧ w' = w.
Proof.
  intros Hwf Hopen Hc E. unfold mark in E. minv E. mclean.
  pose proof Hopen as (Hx & Hy & _).
  match goal with
  | E : tile_set _ _ _ _ = Some _ |- _ =>
      apply tile_set_open with (W := width self) (H := height self) in E
        as [Hwf' Ho]; [| assumption ..]
  end.
  split; [reflexivity |]. split; [exact Hwf' |]. split; [| reflexivity].
  intros x y. cbn. rewrite Ho. split; [| auto].
  intros [H|[-> ->]]; [exact H | exact Hopen].
Qed.

(** ** The placement loops *)

(** A tile of the pool becomes a key of a map of features. *)
Lemma keys_insert_from_pool {A} (m : gmap (Z * Z) A) pos v (rest rest' : list (Z * Z)) :
  NoDup (keys m ++ rest) →
  rest ≡ₚ pos :: rest' →
  keys (<[pos := v]> m) ++ rest' ≡ₚ keys m ++ rest.
Proof.
  intros Hnd Hperm.
  assert (Hfresh : m !! pos = None).
  { apply NoDup_app in Hnd as (_ & Hdis & _).
    destruct (m !! pos) as [x|] eqn:Hx; [| reflexivity]. exfalso.
    apply (Hdis pos).
    - apply list_elem_of_fmap. exists (pos, x). split; [reflexivity |].
      apply elem_of_map_to_list. exact Hx.
    - rewrite Hperm. left. }
  rewrite (map_to_list_insert m pos v Hfresh), Hperm. cbn.
  apply Permutation_middle.
Qed.

Lemma place_exit_spec (budget : nat) : ∀ self empty_tiles w self' rest w',
  wf_tiles (width self) (height self) (tiles self) →
  (∀ pos, pos ∈ empty_tiles → open_tile (tiles self) pos.1 pos.2) →
  place_exit budget self empty_tiles w = Some ((self', rest), w') →
  self' = m_with_tiles (tiles self') (m_with_exit_location (exit_location self') self)
  ∧ wf_tiles (width self) (height self) (tiles self')
  ∧ (∀ x y, open_tile (tiles self') x y ↔ open_tile (tiles self) x y)
  ∧ empty_tiles ≡ₚ exit_location self' :: rest
  ∧ w_heap w' = w_heap w ∧ w_next w' = w_next w.
Proof.
  induction budget as [|budget IH]; intros self empty_tiles w self' rest w' Hwf Hpool E;
    [discriminate |].
  cbn [place_exit] in E.
  apply bind_Some in E as (ex & w1 & Ec & E).
  apply choice_spec in Ec as (Hex & Hh1 & Hn1 & _).
  destruct (_ || _).
  - minv E. mclean.
    match goal with
    | E : mark _ _ _ _ = Some _ |- _ =>
        apply mark_spec in E as (Hself & Hwf' & Ho & ->);
          [| exact Hwf | apply Hpool; exact Hex | discriminate]
    end.
    rewrite Hself. cbn.
    split; [reflexivity |]. split; [exact Hwf' |]. split; [exact Ho |].
    split; [apply remove_first_perm; assumption | auto].
  - apply IH in E as (Hself & Hwf' & Ho & Hperm & Hh & Hn); [| assumption ..].
    split; [rewrite Hself at 1; reflexivity |].
    split; [exact Hwf' |]. split; [exact Ho |]. split; [exact Hperm |].
    split; congruence.
Qed.

Lemma place_shop_spec (budget : nat) : ∀ self empty_tiles w self' rest w',
  wf_tiles (width self) (height self) (tiles self) →
  (∀ pos, pos ∈ empty_tiles → open_tile (tiles self) pos.1 pos.2) →
  place_shop budget self empty_tiles w = Some ((self', rest), w') →
  ∃ pos,
    self' = m_with_tiles (tiles self') (m_with_shop_location (Some pos) self)
    ∧ wf_tiles (width self) (height self) (tiles self')
    ∧ (∀ x y, open_tile (tiles self') x y ↔ open_tile (tiles self) x y)
    ∧ empty_tiles ≡ₚ pos :: rest
    ∧ w_heap w' = w_heap w ∧ w_next w' = w_next w.
Proof.
  induction budget as [|budget IH]; intros self empty_tiles w self' rest w' Hwf Hpool E;
    [discriminate |].
  cbn [place_shop] in E.
  apply bind_Some in E as (pos & w1 & Ec & E).
  apply choice_spec in Ec as (Hpos & Hh1 & Hn1 & _).
  destruct (_ && _).
  - minv E. mclean.
    match goal with
    | E : mark _ _ _ _ = Some _ |- _ =>
        apply mark_spec in E as (Hself & Hwf' & Ho & ->);
          [| exact Hwf | apply Hpool; exact Hpos | discriminate]
    end.
    exists pos. rewrite Hself. cbn.
    split; [reflexivity |]. split; [exact Hwf' |]. split; [exact Ho |].
    split; [apply remove_first_perm; assumption | auto].
  - apply IH in E as (pos' & Hself & Hwf' & Ho & Hperm & Hh & Hn); [| assumption ..].
    exists pos'. split; [exact Hself |].
    split; [exact Hwf' |]. split; [exact Ho |]. split; [exact Hperm |].
    split; congruence.
Qed.

Lemma place_traps_spec (n : nat) : ∀ self empty_tiles w self' rest w',
  NoDup (keys (traps_on_map self) ++ empty_tiles) →
  place_traps n self empty_tiles w = Some ((self', rest), w') →
  self' = m_with_traps_on_map (traps_on_map self') self
  ∧ keys (traps_on_map self') ++ rest ≡ₚ keys (traps_on_map self) ++ empty_tiles
  ∧ w_heap w' = w_heap w ∧ w_next w' = w_next w.
Proof.
  induction n as [|n IH]; intros self empty_tiles w self' rest w' Hnd E;
    cbn [place_traps] in E.
  - minv E. mclean. split; [destruct self; reflexivity | auto].
  - destruct empty_tiles as [|q pool].
    { minv E. mclean. split; [destruct self; reflexivity | auto]. }
    apply bind_Some in E as ([pos rest1] & w1 & Et & E).
    apply take_tile_spec in Et as (Hperm & Hh1 & Hn1).
    pose proof (keys_insert_from_pool (traps_on_map self) pos
                  (mkTrap pos.1 pos.2 TRAP_DAMAGE_BASE false) _ _ Hnd Hperm) as Hk.
    apply IH in E as (Hself & Hperm' & Hh & Hn).
    + split; [rewrite Hself at 1; reflexivity |].
      split; [rewrite Hperm'; exact Hk |]. split; congruence.
    + cbn. rewrite Hk. exact Hnd.
Qed.

Lemma new_oid_spec w oid w' :
  new_oid w = Some (oid, w') →
  oid = w_next w ∧ w_heap w' = w_heap w ∧ w_next w' = S (w_next w).
Proof. unfold new_oid. intros [= <- <-]. auto. Qed.

Lemma fresh_loot_spec w loot w' :
  fresh_loot w = Some (loot, w') →
  w_heap w' = w_heap w ∧ (w_next w ≤ w_next w')%nat.
Proof.
  unfold fresh_loot. intros E. minv E. mclean.
  repeat match goal with
  | E : new_oid _ = Some _ |- _ => apply new_oid_spec in E as (_ & ? & ?)
  end.
  split; [wchain | lia].
Qed.

Lemma random_lt_spec num den w b w' :
  random_lt num den w = Some (b, w') →
  w_heap w' = w_heap w ∧ w_next w' = w_next w.
Proof.
  unfold random_lt. intros E. minv E; mclean; apply draw_frame in E0 as (? & ? & _); auto.
Qed.

Lemma create_random_enemy_spec player_level w e w' :
  create_random_enemy player_level w = Some (e, w') →
  w_heap w' = w_heap w ∧ (w_next w ≤ w_next w')%nat.
Proof.
  unfold create_random_enemy. intros E.
  apply bind_Some in E as ([[[[[[[name hp] atk] def] spd] xp] credits] symbol] & w1 & Ec & E).
  apply choice_spec in Ec as (_ & Hh1 & Hn1 & _).
  minv E; mclean;
    repeat match goal with
    | E : random_lt _ _ _ = Some _ |- _ => apply random_lt_spec in E as (? & ?)
    | E : fresh_loot _ = Some _ |- _ => apply fresh_loot_spec in E as (? & ?)
    | E : choice _ _ = Some _ |- _ => apply choice_spec in E as (_ & ? & ? & _)
    end;
    (split; [wchain | lia]).
Qed.

(** Enemies allocated earlier keep their heap cell. *)
Lemma enemy_positions_stable (h h' : gmap nat Enemy) (oids : list nat) (bound : nat) :
  Forall (λ oid, (oid < bound)%nat) oids →
  (∀ oid, (oid < bound)%nat → h' !! oid = h !! oid) →
  enemy_positions h' oids = enemy_positions h oids.
Proof.
  intros Hb Hsame. unfold enemy_positions.
  induction Hb as [|oid oids Ho _ IH]; [reflexivity |].
  cbn. replace (enemy_xy h' oid) with (enemy_xy h oid)
    by (unfold enemy_xy; rewrite (Hsame oid Ho); reflexivity).
  rewrite IH. reflexivity.
Qed.

Lemma enemy_positions_length (h : gmap nat Enemy) (oids : list nat) (bound : nat) :
  Forall (λ oid, (oid < bound)%nat ∧ is_Some (h !! oid)) oids →
  length (enemy_positions h oids) = length oids.
Proof.
  unfold enemy_positions. induction 1 as [|oid oids [_ [e He]] _ IH]; [reflexivity |].
  cbn. unfold enemy_xy at 1. rewrite He. cbn. rewrite IH. reflexivity.
Qed.

Lemma place_enemies_spec (n : nat) player_level :
  ∀ self empty_tiles w self' rest w',
  Forall (λ oid, (oid < w_next w)%nat ∧ is_Some (w_heap w !! oid)) (entities self) →
  NoDup (entities self) →
  place_enemies n player_level self empty_tiles w = Some ((self', rest), w') →
  self' = m_with_entities (entities self') self
  ∧ Forall (λ oid, (oid < w_next w')%nat ∧ is_Some (w_heap w' !! oid)) (entities self')
  ∧ NoDup (entities self')
  ∧ length (enemy_positions (w_heap w') (entities self')) = length (entities self')
  ∧ enemy_positions (w_heap w') (entities self') ++ rest
    ≡ₚ enemy_positions (w_heap w) (entities self) ++ empty_tiles.
Proof.
  induction n as [|n IH]; intros self empty_tiles w self' rest w' Hold Hnd E;
    cbn [place_enemies] in E.
  - minv E. mclean. split; [destruct self; reflexivity |].
    split; [exact Hold |]. split; [exact Hnd |]. split; [| reflexivity].
    eapply enemy_positions_length; exact Hold.
  - destruct empty_tiles as [|q pool].
    { minv E. mclean. split; [destruct self; reflexivity |].
      split; [exact Hold |]. split; [exact Hnd |]. split; [| reflexivity].
      eapply enemy_positions_length; exact Hold. }
    apply bind_Some in E as ([pos rest1] & w1 & Et & E).
    apply take_tile_spec in Et as (Hperm & Hh1 & Hn1).
    apply bind_Some in E as (enemy & w2 & Ee & E).
    apply create_random_enemy_spec in Ee as (Hh2 & Hn2).
    apply bind_Some in E as (oid & w3 & Ea & E).
    unfold alloc_enemy in Ea. minv Ea. mclean.
    match goal with
    | E : new_oid _ = Some _ |- _ => apply new_oid_spec in E as (-> & Hh3 & Hn3)
    end.
    cbn [w_heap w_next with_w_heap] in *.
    set (oid := w_next w2) in *.
    set (placed := e_with_xy pos.1 pos.2 enemy) in *.
    assert (Hlt : Forall (λ o, (o < oid)%nat) (entities self)).
    { eapply Forall_impl; [exact Hold |]. intros o [Ho _]. subst oid. lia. }
    assert (Hfresh : oid ∉ entities self).
    { intros Hin. rewrite Forall_forall in Hlt. specialize (Hlt _ Hin). lia. }
    apply IH in E as (Hself & Hall & Hnd' & Hlen & Hperm'); cbn [entities m_with_entities].
    + split; [rewrite Hself at 1; reflexivity |].
      split; [exact Hall |]. split; [exact Hnd' |]. split; [exact Hlen |].
      rewrite Hperm'. cbn [w_heap with_w_heap entities m_with_entities].
      assert (Hxy : enemy_positions (<[oid:=placed]> (w_heap w0)) [oid] = [pos]).
      { unfold enemy_positions. cbn. unfold enemy_xy. rewrite lookup_insert_eq.
        destruct pos; reflexivity. }
      assert (Hst : enemy_positions (<[oid:=placed]> (w_heap w0)) (entities self)
                    = enemy_positions (w_heap w) (entities self)).
      { apply (enemy_positions_stable _ _ _ oid Hlt).
        intros o Ho. rewrite lookup_insert_ne by lia. rewrite Hh3, Hh2, Hh1. reflexivity. }
      unfold enemy_positions in *. rewrite omap_app, Hxy, Hst, Hperm, <- app_assoc.
      reflexivity.
    + cbn [w_heap w_next with_w_heap]. apply Forall_app. split.
      * eapply Forall_impl; [exact Hold |]. intros o [Ho [e He]]. split; [subst oid; lia |].
        rewrite lookup_insert_ne by (subst oid; lia).
        rewrite Hh3, Hh2, Hh1, He. eauto.
      * apply Forall_singleton. split; [lia |]. rewrite lookup_insert_eq. eauto.
    + apply NoDup_app. split; [exact Hnd |]. split; [| apply NoDup_singleton].
      intros o Ho Ho'. apply list_elem_of_singleton in Ho' as ->. contradiction.
Qed.

Lemma place_items_spec (n : nat) : ∀ self empty_tiles w self' rest w',
  NoDup (keys (items_on_map self) ++ empty_tiles) →
  place_items n self empty_tiles w = Some ((self', rest), w') →
  self' = m_with_items_on_map (items_on_map self') self
  ∧ keys (items_on_map self') ++ rest ≡ₚ keys (items_on_map self) ++ empty_tiles
  ∧ w_heap w' = w_heap w.
Proof.
  induction n as [|n IH]; intros self empty_tiles w self' rest w' Hnd E;
    cbn [place_items] in E.
  - minv E. mclean. split; [destruct self; reflexivity | auto].
  - destruct empty_tiles as [|q pool].
    { minv E. mclean. split; [destruct self; reflexivity | auto]. }
    apply bind_Some in E as ([pos rest1] & w1 & Et & E).
    apply take_tile_spec in Et as (Hperm & Hh1 & Hn1).
    apply bind_Some in E as (loot & w2 & El & E).
    apply fresh_loot_spec in El as (Hh2 & _).
    apply bind_Some in E as (item & w3 & Ec & E).
    apply choice_spec in Ec as (_ & Hh3 & _).
    pose proof (keys_insert_from_pool (items_on_map self) pos item _ _ Hnd Hperm) as Hk.
    apply IH in E as (Hself & Hperm' & Hh).
    + split; [rewrite Hself at 1; reflexivity |].
      split; [rewrite Hperm'; exact Hk |]. wchain.
    + cbn. rewrite Hk. exact Hnd.
Qed.

Lemma place_crystals_spec (n : nat) current_level_num :
  ∀ self empty_tiles w self' rest w',
  NoDup (keys (items_on_map self) ++ empty_tiles) →
  place_crystals n current_level_num self empty_tiles w = Some ((self', rest), w') →
  self' = m_with_items_on_map (items_on_map self') self
  ∧ keys (items_on_map self') ++ rest ≡ₚ keys (items_on_map self) ++ empty_tiles
  ∧ w_heap w' = w_heap w.
Proof.
  induction n as [|n IH]; intros self empty_tiles w self' rest w' Hnd E;
    cbn [place_crystals] in E.
  - minv E. mclean. split; [destruct self; reflexivity | auto].
  - destruct empty_tiles as [|q pool].
    { minv E. mclean. split; [destruct self; reflexivity | auto]. }
    apply bind_Some in E as (spawn & w1 & Es & E).
    apply random_lt_spec in Es as (Hh1 & _).
    destruct spawn.
    + apply bind_Some in E as ([pos rest1] & w2 & Et & E).
      apply take_tile_spec in Et as (Hperm & Hh2 & _).
      apply bind_Some in E as (oid & w3 & Eo & E).
      apply new_oid_spec in Eo as (_ & Hh3 & _).
      pose proof (keys_insert_from_pool (items_on_map self) pos (EnergyCrystal oid)
                    _ _ Hnd Hperm) as Hk.
      apply IH in E as (Hself & Hperm' & Hh).
      * split; [rewrite Hself at 1; reflexivity |].
        split; [rewrite Hperm'; exact Hk |]. wchain.
      * cbn. rewrite Hk. exact Hnd.
    + apply IH in E as (Hself & Hperm' & Hh); [| exact Hnd].
      split; [exact Hself |]. split; [exact Hperm' |]. wchain.
Qed.

(** ** Step 3 as a whole *)

Lemma place_features_spec budget m0 empty_tiles player_level current_level_num
    is_shop_floor w m w' :
  wf_tiles (width m0) (height m0) (tiles m0) →
  blank m0 →
  NoDup empty_tiles →
  (∀ pos, pos ∈ empty_tiles → open_tile (tiles m0) pos.1 pos.2) →
  place_features budget m0 empty_tiles player_level current_level_num is_shop_floor w
  = Some (m, w') →
  width m = width m0 ∧ height m = height m0
  ∧ wf_tiles (width m) (height m) (tiles m)
  ∧ (∀ x y, open_tile (tiles m) x y ↔ open_tile (tiles m0) x y)
  ∧ (∃ rest, feature_positions m (w_heap w') ++ rest ≡ₚ empty_tiles)
  ∧ NoDup (entities m)
  ∧ length (enemy_positions (w_heap w') (entities m)) = length (entities m)
  ∧ (is_shop_floor = false → shop_location m = None)
  ∧ (is_shop_floor = true → is_Some (shop_location m)).
Proof.
  intros Hwf (Hents & Hitems & Htraps & Hshop) Hnd Hpool E. unfold place_features in E.
  (* player start *)
  apply bind_Some in E as (start & w1 & Ec & E).
  apply choice_spec in Ec as (Hstart & _).
  apply bind_Some in E as (pool1 & w2 & Er & E). apply lift_kept in Er as [-> Er].
  apply remove_first_perm in Er.
  apply bind_Some in E as (m1 & w2 & Em & E).
  apply mark_spec in Em as (Hm1 & Hwf1 & Ho1 & ->);
    [| exact Hwf | apply Hpool; exact Hstart | discriminate].
  cbn [width height tiles m_with_player_start] in *.
  assert (Hpool1 : ∀ pos, pos ∈ pool1 → open_tile (tiles m1) pos.1 pos.2).
  { intros pos Hin. apply Ho1, Hpool. rewrite Er. right. exact Hin. }
  assert (Hw1 : width m1 = width m0 ∧ height m1 = height m0) by (rewrite Hm1; auto).
  destruct Hw1 as [Hw1 Hh1].
  (* exit *)
  apply bind_Some in E as ([m2 pool2] & w3 & Ee & E).
  apply place_exit_spec in Ee as (Hm2 & Hwf2 & Ho2 & Hperm2 & Hhp2 & _);
    [| rewrite Hw1, Hh1; exact Hwf1 | exact Hpool1].
  assert (Hw2 : width m2 = width m0 ∧ height m2 = height m0) by (rewrite Hm2; auto).
  destruct Hw2 as [Hw2 Hh2].
  assert (Hpool2 : ∀ pos, pos ∈ pool2 → open_tile (tiles m2) pos.1 pos.2).
  { intros pos Hin. apply Ho2, Hpool1. rewrite Hperm2. right. exact Hin. }
  (* shop *)
  apply bind_Some in E as ([m3 pool3] & w4 & Es & E).
  assert (Hshop3 :
    width m3 = width m0 ∧ height m3 = height m0
    ∧ wf_tiles (width m0) (height m0) (tiles m3)
    ∧ (∀ x y, open_tile (tiles m3) x y ↔ open_tile (tiles m2) x y)
    ∧ pool2 ≡ₚ option_list (shop_location m3) ++ pool3
    ∧ w_heap w4 = w_heap w3
    ∧ player_start m3 = player_start m2 ∧ exit_location m3 = exit_location m2
    ∧ entities m3 = entities m2 ∧ items_on_map m3 = items_on_map m2
    ∧ traps_on_map m3 = traps_on_map m2
    ∧ (is_shop_floor = false → shop_location m3 = shop_location m2)
    ∧ (is_shop_floor = true → is_Some (shop_location m3))).
  { destruct is_shop_floor.
    - apply place_shop_spec in Es as (pos & Hm3 & Hwf3 & Ho3 & Hperm3 & Hhp3 & _);
        [| rewrite Hw1, Hh1 in Hwf2; rewrite Hw2, Hh2; exact Hwf2 | exact Hpool2].
      rewrite Hw2, Hh2 in Hwf3. rewrite Hm3. cbn.
      split_and!; auto; try discriminate.
    - minv Es. mclean. rewrite Hw1, Hh1 in Hwf2.
      assert (Hsh2 : shop_location m2 = None)
        by (rewrite Hm2; cbn; rewrite Hm1; exact Hshop).
      split_and!; auto; try discriminate. rewrite Hsh2. reflexivity. }
  destruct Hshop3 as (Hw3 & Hh3 & Hwf3 & Ho3 & Hperm3 & Hhp3 & Hst3 & Hex3 & Hen3 & Hit3
                      & Htr3 & Hno3 & Hyes3).
  (* traps *)
  apply bind_Some in E as ([m4 pool4] & w5 & Et & E).
  assert (Hnd3 : NoDup pool3).
  { rewrite Er in Hnd. apply NoDup_cons in Hnd as [_ Hnd].
    rewrite Hperm2 in Hnd. apply NoDup_cons in Hnd as [_ Hnd].
    rewrite Hperm3 in Hnd. apply NoDup_app in Hnd as (_ & _ & Hnd). exact Hnd. }
  assert (Htr0 : traps_on_map m3 = ∅)
    by (rewrite Htr3, Hm2; cbn; rewrite Hm1; exact Htraps).
  assert (Hit0 : items_on_map m3 = ∅)
    by (rewrite Hit3, Hm2; cbn; rewrite Hm1; exact Hitems).
  assert (Hen0 : entities m3 = [])
    by (rewrite Hen3, Hm2; cbn; rewrite Hm1; exact Hents).
  apply place_traps_spec in Et as (Hm4 & Hperm4 & Hhp4 & Hn4);
    [| rewrite Htr0, map_to_list_empty; exact Hnd3].
  rewrite Htr0, map_to_list_empty in Hperm4. cbn [fmap list_fmap app] in Hperm4.
  (* enemies *)
  apply bind_Some in E as (num_enemies & w6 & _ & E).
  apply bind_Some in E as ([m5 pool5] & w7 & Ee & E).
  apply place_enemies_spec in Ee as (Hm5 & _ & Hnd5 & Hlen5 & Hperm5);
    [| rewrite Hm4; cbn; rewrite Hen0; constructor
     | rewrite Hm4; cbn; rewrite Hen0; constructor].
  replace (entities m4) with (@nil nat) in Hperm5 by (rewrite Hm4; cbn; auto).
  cbn [enemy_positions omap list_omap app] in Hperm5.
  (* items and crystals *)
  apply bind_Some in E as (num_items & w8 & Eni & E).
  apply randint_spec in Eni as (_ & Hhp8 & _).
  apply bind_Some in E as ([m6 pool6] & w9 & Ei & E).
  assert (Hnd5' : NoDup pool5).
  { rewrite <- Hperm4 in Hnd3. apply NoDup_app in Hnd3 as (_ & _ & Hnd3).
    rewrite <- Hperm5 in Hnd3. apply NoDup_app in Hnd3 as (_ & _ & Hnd3). exact Hnd3. }
  assert (Hit5 : items_on_map m5 = ∅) by (rewrite Hm5; cbn; rewrite Hm4; cbn; exact Hit0).
  apply place_items_spec in Ei as (Hm6 & Hperm6 & Hhp9);
    [| rewrite Hit5, map_to_list_empty; exact Hnd5'].
  rewrite Hit5, map_to_list_empty in Hperm6. cbn [fmap list_fmap app] in Hperm6.
  apply bind_Some in E as (num_crystals & w10 & Enc & E).
  apply randint_spec in Enc as (_ & Hhp10 & _).
  apply bind_Some in E as ([m7 pool7] & w11 & Ecr & E).
  apply place_crystals_spec in Ecr as (Hm7 & Hperm7 & Hhp11);
    [| rewrite Hperm6; exact Hnd5'].
  apply ret_Some in E. injection E as Em Ew. subst m w'.
  (* assembling *)
  assert (Hfields :
    width m7 = width m3 ∧ height m7 = height m3 ∧ tiles m7 = tiles m3
    ∧ player_start m7 = player_start m3 ∧ exit_location m7 = exit_location m3
    ∧ shop_location m7 = shop_location m3 ∧ traps_on_map m7 = traps_on_map m4
    ∧ entities m7 = entities m5).
  { rewrite Hm7. cbn. rewrite Hm6. cbn. rewrite Hm5. cbn. rewrite Hm4. cbn. auto 10. }
  destruct Hfields as (Fw & Fh & Ft & Fs & Fe & Fsh & Ftr & Fen).
  assert (Hheap : w_heap w11 = w_heap w7) by wchain.
  split; [rewrite Fw; exact Hw3 |]. split; [rewrite Fh; exact Hh3 |].
  split; [rewrite Fw, Fh, Ft, Hw3, Hh3; exact Hwf3 |].
  split; [intros x y; rewrite Ft, Ho3, Ho2, Ho1; reflexivity |].
  split; [| split; [rewrite Fen; exact Hnd5 |];
            split; [rewrite Hheap, Fen; exact Hlen5 |];
            split; [intros Hf; rewrite Fsh, (Hno3 Hf), Hm2; cbn; rewrite Hm1; exact Hshop
                   | rewrite Fsh; exact Hyes3]].
  exists pool7. unfold feature_positions.
  rewrite Fs, Fe, Fsh, Ftr, Fen, Hheap, Hst3, Hex3.
  assert (Hst : player_start m2 = start) by (rewrite Hm2; cbn; rewrite Hm1; reflexivity).
  rewrite Hst, Er, Hperm2, Hperm3, <- Hperm4, <- Hperm5, <- Hperm6, <- Hperm7.
  cbn [app]. do 2 apply Permutation_skip.
  rewrite <- !app_assoc. reflexivity.
Qed.

(** * Generated floors *)

(** A run of [generate_map] that returns ends with one carving whose scan
    finds floor tiles, followed by the placement of the features on it. *)
Lemma generate_map_inv (budget : nat) player_level current_level_num is_shop_floor :
  ∀ self w m w',
  generate_map budget self player_level current_level_num is_shop_floor w = Some (m, w') →
  ∃ self0 w0 m0 w1 empty_tiles budget',
    carve_floor self0 w0 = Some (m0, w1)
    ∧ scan_empty m0 = Some empty_tiles
    ∧ empty_tiles ≠ []
    ∧ place_features budget' m0 empty_tiles player_level current_level_num
        is_shop_floor w1 = Some (m, w').
Proof.
  induction budget as [|budget IH]; intros self w m w' E; [discriminate |].
  cbn [generate_map] in E.
  apply bind_Some in E as (m0 & w1 & Ec & E).
  apply bind_Some in E as (empty_tiles & w2 & Es & E).
  apply lift_kept in Es as [-> Es].
  destruct empty_tiles as [|pos pool].
  - apply bind_Some in E as (u & w2 & _ & E). eapply IH. exact E.
  - exists self, w, m0, w1, (pos :: pool), budget. auto.
Qed.

(** What is known of the floor returned by [generate_map], in terms of
    the carved floor [m0] it was built on. *)
Lemma generate_map_spec budget self player_level current_level_num is_shop_floor w m w' :
  generate_map budget self player_level current_level_num is_shop_floor w = Some (m, w') →
  ∃ self0 w0 m0 w1 empty_tiles,
    carve_floor self0 w0 = Some (m0, w1)
    ∧ carved m0
    ∧ scan_empty m0 = Some empty_tiles
    ∧ width m = width m0 ∧ height m = height m0
    ∧ wf_tiles (width m) (height m) (tiles m)
    ∧ (∀ x y, open_tile (tiles m) x y ↔ open_tile (tiles m0) x y)
    ∧ NoDup empty_tiles
    ∧ (∃ rest, feature_positions m (w_heap w') ++ rest ≡ₚ empty_tiles)
    ∧ NoDup (entities m)
    ∧ length (enemy_positions (w_heap w') (entities m)) = length (entities m)
    ∧ (is_shop_floor = false → shop_location m = None)
    ∧ (is_shop_floor = true → is_Some (shop_location m)).
Proof.
  intros E.
  apply generate_map_inv in E as (self0 & w0 & m0 & w1 & empty_tiles & budget' & Ec & Es & _ & E).
  pose proof Ec as Ec'.
  apply carve_floor_spec in Ec' as (Hcarved & Hblank & _).
  pose proof Es as Es'.
  apply scan_empty_spec in Es' as (Hnd & Hpool).
  assert (Hopen : ∀ pos, pos ∈ empty_tiles → open_tile (tiles m0) pos.1 pos.2).
  { intros pos Hin. destruct (Hpool pos Hin) as (Hx & Hy & Hget).
    split; [lia |]. split; [lia |]. exists "."%char. split; [exact Hget | discriminate]. }
  apply place_features_spec in E
    as (Hw & Hh & Hwf & Ho & Hperm & Hnde & Hlen & Hno & Hyes);
    [| apply Hcarved | assumption ..].
  exists self0, w0, m0, w1, empty_tiles. split_and!; assumption.
Qed.

(** Paths only depend on the set of positions one may stand on. *)
Lemma path_mono (O O' : Z * Z → Prop) p q :
  (∀ pos, O pos → O' pos) → path O p q → path O' p q.
Proof.
  intros Himp Hp. induction Hp as [p Hp|p q r _ IH Hadj Hr].
  - apply path_here. auto.
  - eapply path_step; eauto.
Qed.

(** On a well-formed grid the test of [move_player] singles out the
    non-wall tiles. *)
Lemma walkable_open m pos :
  wf_tiles (width m) (height m) (tiles m) →
  walkable m pos ↔ open_tile (tiles m) pos.1 pos.2.
Proof.
  intros Hwf. unfold walkable, open_tile. rewrite in_bounds_spec. split.
  - intros ((Hx & Hy) & Hc). split; [lia |]. split; [lia | exact Hc].
  - intros (Hx & Hy & c & Hget & Hc). split; [| eauto].
    destruct Hwf as [Hlen Hrows].
    rewrite tile_get_nonneg in Hget by lia.
    destruct (tiles m !! Z.to_nat pos.2) as [row|] eqn:Hrow; [| discriminate].
    cbn in Hget.
    rewrite Forall_forall in Hrows.
    assert (Hin : row ∈ tiles m) by (eapply list_elem_of_lookup_2; eauto).
    apply Hrows in Hin.
    apply lookup_lt_Some in Hrow. apply lookup_lt_Some in Hget. lia.
Qed.

(** C3: on every floor returned by [generate_map], the positions of the
    player start, the exit, the shop when there is one, the traps, the
    enemies and the items are pairwise distinct, every enemy of the
    entity list is counted among them, and each position is inside the
    grid on a tile that read '.' on the carved floor [m0], before the
    first feature was placed; the placement marks tiles but opens and
    closes none. *)
Theorem features_on_distinct_floor_tiles
    budget self player_level current_level_num is_shop_floor w m w' :
  generate_map budget self player_level current_level_num is_shop_floor w = Some (m, w') →
  NoDup (feature_positions m (w_heap w'))
  ∧ NoDup (entities m)
  ∧ length (enemy_positions (w_heap w') (entities m)) = length (entities m)
  ∧ (is_Some (shop_location m) ↔ is_shop_floor = true)
  ∧ ∃ self0 w0 m0 w1,
      carve_floor self0 w0 = Some (m0, w1)
      ∧ (∀ x y, open_tile (tiles m) x y ↔ open_tile (tiles m0) x y)
      ∧ ∀ pos, pos ∈ feature_positions m (w_heap w') →
          0 ≤ pos.1 < width m ∧ 0 ≤ pos.2 < height m
          ∧ tile_get (tiles m0) pos.1 pos.2 = Some "."%char.
Proof.
  intros E.
  apply generate_map_spec in E
    as (self0 & w0 & m0 & w1 & empty_tiles & Ec & _ & Es & Hw & Hh & _ & Ho & Hnd
        & (rest & Hperm) & Hnde & Hlen & Hno & Hyes).
  apply scan_empty_spec in Es as (_ & Hpool).
  split.
  { rewrite <- Hperm in Hnd. apply NoDup_app in Hnd as (Hnd & _). exact Hnd. }
  split; [exact Hnde |]. split; [exact Hlen |].
  split.
  { destruct is_shop_floor.
    - split; auto.
    - rewrite Hno by reflexivity. split; [intros [? [=]] | discriminate]. }
  exists self0, w0, m0, w1. split; [exact Ec |]. split; [exact Ho |].
  intros pos Hin. rewrite Hw, Hh. apply Hpool.
  rewrite <- Hperm. apply elem_of_app. left. exact Hin.
Qed.

Lemma features_on_distinct_floor_tiles_witness :
  ∃ m w',
    generate_map 5 (GameMap_init MAP_WIDTH MAP_HEIGHT) 1 1 false
      (mkWorld some_draws [] [] ∅ 0) = Some (m, w')
    ∧ length (feature_positions m (w_heap w')) = 9%nat
    ∧ NoDup (feature_positions m (w_heap w')).
Proof.
  destruct (generate_map 5 (GameMap_init MAP_WIDTH MAP_HEIGHT) 1 1 false
              (mkWorld some_draws [] [] ∅ 0)) as [[m w']|] eqn:E;
    [| vm_compute in E; discriminate].
  destruct (features_on_distinct_floor_tiles 5 (GameMap_init MAP_WIDTH MAP_HEIGHT) 1 1
              false (mkWorld some_draws [] [] ∅ 0) m w' E) as (Hnd & _).
  exists m, w'. split; [reflexivity |]. split; [| exact Hnd].
  vm_compute in E. injection E as <- <-. vm_compute. reflexivity.
Defined.

(** C2: on every floor returned by [generate_map], the player start is
    a non-wall tile and every non-wall tile is reached from it by moves
    in the four directions through non-wall tiles. *)
Theorem generated_floor_is_connected
    budget self player_level current_level_num is_shop_floor w m w' :
  generate_map budget self player_level current_level_num is_shop_floor w = Some (m, w') →
  walkable m (player_start m)
  ∧ ∀ pos, walkable m pos → reachable m (player_start m) pos.
Proof.
  intros E.
  apply generate_map_spec in E
    as (self0 & w0 & m0 & w1 & empty_tiles & _ & Hcarved & Es & _ & _ & Hwf & Ho & _
        & (rest & Hperm) & _).
  apply scan_empty_spec in Es as (_ & Hpool).
  assert (Hstart : open_tile (tiles m0) (player_start m).1 (player_start m).2).
  { destruct (Hpool (player_start m)) as (Hx & Hy & Hget).
    - rewrite <- Hperm. left.
    - split; [lia |]. split; [lia |]. exists "."%char.
      split; [exact Hget | discriminate]. }
  split; [apply walkable_open; [exact Hwf | apply Ho; exact Hstart] |].
  intros pos Hpos. apply walkable_open in Hpos; [| exact Hwf]. apply Ho in Hpos.
  apply path_mono with (O := λ pos, open_tile (tiles m0) pos.1 pos.2).
  - intros q Hq. apply walkable_open; [exact Hwf | apply Ho; exact Hq].
  - apply carved_connected; assumption.
Qed.

Lemma generated_floor_is_connected_witness :
  ∃ m w',
    generate_map 5 (GameMap_init MAP_WIDTH MAP_HEIGHT) 1 1 false
      (mkWorld some_draws [] [] ∅ 0) = Some (m, w')
    ∧ player_start m = (1, 1) ∧ exit_location m = (28, 11)
    ∧ reachable m (player_start m) (exit_location m).
Proof.
  destruct (generate_map 5 (GameMap_init MAP_WIDTH MAP_HEIGHT) 1 1 false
              (mkWorld some_draws [] [] ∅ 0)) as [[m w']|] eqn:E;
    [| vm_compute in E; discriminate].
  destruct (generated_floor_is_connected 5 (GameMap_init MAP_WIDTH MAP_HEIGHT) 1 1
              false (mkWorld some_draws [] [] ∅ 0) m w' E) as (_ & Hreach).
  exists m, w'. split; [reflexivity |].
  assert (Hm : player_start m = (1, 1) ∧ exit_location m = (28, 11)
               ∧ walkable m (exit_location m)).
  { vm_compute in E. injection E as <- <-.
    split; [reflexivity |]. split; [reflexivity |].
    split; [reflexivity |]. exists "E"%char. split; [reflexivity | discriminate]. }
  destruct Hm as (Hs & He & Hw). split; [exact Hs |]. split; [exact He |].
  apply Hreach. exact Hw.
Defined.

(** * The inventory menu *)

Lemma item_is_refl item : item_is item item = true.
Proof. unfold item_is. apply Nat.eqb_refl. Qed.

Lemma in_inventory_elem item (inv : list Item) : item ∈ inv → in_inventory item inv = true.
Proof.
  intros Hin. unfold in_inventory. apply existsb_exists. exists item.
  split; [apply list_elem_of_In; exact Hin | apply item_is_refl].
Qed.

(** The menu entry [n] when it designates the item at index [n - 1]. *)
Lemma inventory_menu_pick budget in_combat g p item n rest w :
  player g = Some p →
  w_in w = Num n :: rest →
  1 ≤ n →
  p_inventory p !! Z.to_nat (n - 1) = Some item →
  inventory_menu (S budget) in_combat g w =
    (match item_kind_of item with
     | Consumable _ => do p <- use_item item p; ret (true, set_player p g)
     | Collectible =>
         display_message MsgCannotUseCrystals ;; inventory_menu budget in_combat g
     | Weapon _ =>
         if in_slot item (p_equipped_weapon p)
         then display_message (MsgAlreadyEquipped (item_name item)) ;;
              inventory_menu budget in_combat g
         else
           do p <- equip_item item p;
           let p :=
             if in_inventory item (p_inventory p)
             then with_inventory (delete (Z.to_nat (n - 1)) (p_inventory p)) p
             else p in
           ret (true, set_player p g)
     | Armor _ =>
         if in_slot item (p_equipped_armor p)
         then display_message (MsgAlreadyEquipped (item_name item)) ;;
              inventory_menu budget in_combat g
         else
           do p <- equip_item item p;
           let p :=
             if in_inventory item (p_inventory p)
             then with_inventory (delete (Z.to_nat (n - 1)) (p_inventory p)) p
             else p in
           ret (true, set_player p g)
     end) (with_w_in rest w).
Proof.
  intros Hp Hin Hn Hitem. cbn [inventory_menu].
  mrun (read_entry_eq _ _ _ Hin). mrun (the_player_eq g p (with_w_in rest w) Hp).
  apply lookup_lt_Some in Hitem as Hlt.
  replace ((0 <=? n - 1) && (n - 1 <? Z.of_nat (length (p_inventory p)))) with true
    by (symmetry; apply andb_true_iff; split; [apply Z.leb_le | apply Z.ltb_lt]; lia).
  mrun (lift_eq _ _ (with_w_in rest w) Hitem).
  unfold in_slot. reflexivity.
Qed.

Lemma delete_then_add {A} (l : list A) i x tail :
  l !! i = Some x → delete i (l ++ tail) ++ [x] ≡ₚ l ++ tail.
Proof.
  intros Hx.
  assert (Hx' : (l ++ tail) !! i = Some x) by (apply lookup_app_l_Some; exact Hx).
  rewrite (delete_Permutation _ _ _ Hx') at 2.
  rewrite Permutation_app_comm. reflexivity.
Qed.

(** [equip_item] in closed form, for well-formed slots. *)
Lemma equip_weapon_eq item b p w :
  item_kind_of item = Weapon b →
  (∀ it, p_equipped_weapon p = Some it → ∃ ob, item_kind_of it = Weapon ob) →
  equip_item item p w
  = Some (with_attack (p_attack p - damage_bonus_of (p_equipped_weapon p) + b)
            (with_equipped_weapon (Some item)
               (with_inventory (p_inventory p ++ option_list (p_equipped_weapon p)) p)),
          mkWorld (w_rng w) (w_in w) (w_out w ++ [MsgEquipped (item_name item) b])
            (w_heap w) (w_next w)).
Proof.
  intros Hk Hwf. unfold equip_item. rewrite Hk.
  destruct p as [? ? ? ? ? ? ? ? inv wpn ? ? ? ? ? ? ? ? ? ? ?]. cbn in *.
  destruct wpn as [old|]; cbn.
  - destruct (Hwf old eq_refl) as [ob Hob]. rewrite Hob. reflexivity.
  - rewrite app_nil_r, Z.sub_0_r. reflexivity.
Qed.

Lemma equip_armor_eq item b p w :
  item_kind_of item = Armor b →
  (∀ it, p_equipped_armor p = Some it → ∃ ob, item_kind_of it = Armor ob) →
  equip_item item p w
  = Some (with_defense (p_defense p - defense_bonus_of (p_equipped_armor p) + b)
            (with_equipped_armor (Some item)
               (with_inventory (p_inventory p ++ option_list (p_equipped_armor p)) p)),
          mkWorld (w_rng w) (w_in w) (w_out w ++ [MsgEquipped (item_name item) b])
            (w_heap w) (w_next w)).
Proof.
  intros Hk Hwf. unfold equip_item. rewrite Hk.
  destruct p as [? ? ? ? ? ? ? ? inv ? arm ? ? ? ? ? ? ? ? ? ?]. cbn in *.
  destruct arm as [old|]; cbn.
  - destruct (Hwf old eq_refl) as [ob Hob]. rewrite Hob. reflexivity.
  - rewrite app_nil_r, Z.sub_0_r. reflexivity.
Qed.

(** X1: equipping a weapon or an armor from the inventory menu.  The
    chosen item goes to its slot, the item that was there goes back to
    the inventory, so that the player holds the same objects as before;
    attack and defense change by the difference of the two bonuses, so
    that the values without equipment are the same as before; the step
    is consumed. *)
Theorem equipping_keeps_items_and_base_stats
    (budget : nat) (in_combat : bool) (g : Game) (p : Player) (item : Item)
    (n : Z) (rest : list Entry) (w : World) :
  player g = Some p →
  slots_wf p →
  w_in w = Num n :: rest →
  1 ≤ n →
  p_inventory p !! Z.to_nat (n - 1) = Some item →
  (∃ b, item_kind_of item = Weapon b) ∧ in_slot item (p_equipped_weapon p) = false
  ∨ (∃ b, item_kind_of item = Armor b) ∧ in_slot item (p_equipped_armor p) = false →
  ∃ p' w',
    inventory_menu (S budget) in_combat g w = Some ((true, set_player p' g), w')
    ∧ w_in w' = rest
    ∧ (p_equipped_weapon p' = Some item ∨ p_equipped_armor p' = Some item)
    ∧ owned p' ≡ₚ owned p
    ∧ base_attack p' = base_attack p
    ∧ base_defense p' = base_defense p
    ∧ p_hp p' = p_hp p ∧ p_energy p' = p_energy p
    ∧ slots_wf p'.
Proof.
  intros Hp [Hwf_w Hwf_a] Hin Hn Hitem Hkind.
  rewrite (inventory_menu_pick _ _ _ _ _ _ _ _ Hp Hin Hn Hitem).
  assert (Hmem : item ∈ p_inventory p) by (eapply list_elem_of_lookup_2; eauto).
  destruct Hkind as [[[b Hk] Hslot]|[[b Hk] Hslot]]; rewrite Hk, Hslot.
  - mrun (equip_weapon_eq item b p (with_w_in rest w) Hk Hwf_w).
    cbn [p_inventory with_attack with_equipped_weapon with_inventory].
    rewrite in_inventory_elem by (apply elem_of_app; left; exact Hmem).
    eexists _, _. split; [reflexivity |].
    split; [reflexivity |]. split; [left; reflexivity |].
    split.
    { unfold owned. cbn.
      change (item :: option_list (p_equipped_armor p))
        with ([item] ++ option_list (p_equipped_armor p)).
      rewrite (app_assoc _ [item]). rewrite (delete_then_add _ _ _ _ Hitem).
      rewrite <- app_assoc. reflexivity. }
    assert (Hb : damage_bonus_of (Some item) = b)
      by (unfold damage_bonus_of; rewrite Hk; reflexivity).
    unfold base_attack, base_defense. cbn -[damage_bonus_of defense_bonus_of].
    rewrite Hb. split; [lia |]. split; [reflexivity |]. split; [reflexivity |].
    split; [reflexivity |].
    split; cbn; [intros it [= <-]; eauto | exact Hwf_a].
  - mrun (equip_armor_eq item b p (with_w_in rest w) Hk Hwf_a).
    cbn [p_inventory with_defense with_equipped_armor with_inventory].
    rewrite in_inventory_elem by (apply elem_of_app; left; exact Hmem).
    eexists _, _. split; [reflexivity |].
    split; [reflexivity |]. split; [right; reflexivity |].
    split.
    { unfold owned. cbn.
      rewrite (Permutation_app_comm (option_list (p_equipped_weapon p)) [item]).
      rewrite app_assoc, (delete_then_add _ _ _ _ Hitem), <- app_assoc.
      apply Permutation_app_head, Permutation_app_comm. }
    assert (Hb : defense_bonus_of (Some item) = b)
      by (unfold defense_bonus_of; rewrite Hk; reflexivity).
    unfold base_attack, base_defense. cbn -[damage_bonus_of defense_bonus_of].
    rewrite Hb. split; [reflexivity |]. split; [lia |]. split; [reflexivity |].
    split; [reflexivity |].
    split; cbn; [exact Hwf_w | intros it [= <-]; eauto].
Qed.

(** The veteran swaps the Scrap Armor (+3) for the Reinforced Vest (+7). *)
Lemma equipping_keeps_items_and_base_stats_witness :
  ∃ p' w',
    inventory_menu 1 false arena_game (arena_world [Num 2] [])
    = Some ((true, set_player p' arena_game), w')
    ∧ p_equipped_armor p' = Some (ReinforcedVest 3)
    ∧ p_inventory p' = [HealthPotion 2; ScrapArmor 5]
    ∧ p_defense veteran = 13 ∧ p_defense p' = 17.
Proof.
  assert (Hwf : slots_wf veteran).
  { split; intros it [= <-]; eexists; reflexivity. }
  destruct (equipping_keeps_items_and_base_stats 0 false arena_game veteran
              (ReinforcedVest 3) 2 [] (arena_world [Num 2] [])
              eq_refl Hwf eq_refl ltac:(lia) eq_refl
              (or_intror (conj (ex_intro _ 7 eq_refl) eq_refl)))
    as (p' & w' & E & _).
  exists p', w'. split; [exact E |].
  vm_compute in E. injection E as <- _. repeat split.
Defined.

(** [inventory.remove(item)] frees the first slot that holds the object. *)
Lemma remove_item_delete item (inv : list Item) :
  in_inventory item inv = true →
  ∃ (i : nat) it, inv !! i = Some it ∧ item_is item it = true
                  ∧ remove_item item inv = delete i inv.
Proof.
  unfold in_inventory. induction inv as [|x inv IH]; cbn; [discriminate |].
  destruct (item_is item x) eqn:Hx; cbn.
  - intros _. exists 0%nat, x. auto.
  - intros H. destruct (IH H) as (i & it & Hi & Hit & ->).
    exists (S i), it. auto.
Qed.

(** X2: using a consumable from the inventory menu.  A healing item
    sets hp to [min(max_hp, hp + amount)], an energy item sets energy to
    [min(max_energy, energy + amount)]; one inventory slot holding the
    object is freed and nothing else of the player changes; the step is
    consumed. *)
Theorem consumable_restores_up_to_the_maximum
    (budget : nat) (in_combat : bool) (g : Game) (p : Player) (item : Item)
    (eff : consumable_effect) (n : Z) (rest : list Entry) (w : World) :
  player g = Some p →
  w_in w = Num n :: rest →
  1 ≤ n →
  p_inventory p !! Z.to_nat (n - 1) = Some item →
  item_kind_of item = Consumable eff →
  ∃ p' w' (i : nat) it,
    inventory_menu (S budget) in_combat g w = Some ((true, set_player p' g), w')
    ∧ w_in w' = rest ∧ w_heap w' = w_heap w
    ∧ p_inventory p !! i = Some it ∧ item_is item it = true
    ∧ p' = with_inventory (delete i (p_inventory p))
             match eff with
             | HealHP heal_amount =>
                 with_hp (Z.min (p_max_hp p) (p_hp p + heal_amount)) p
             | RestoreEnergy energy_restore =>
                 with_energy (Z.min (p_max_energy p) (p_energy p + energy_restore)) p
             end
    ∧ p_hp p' ≤ Z.max (p_hp p) (p_max_hp p)
    ∧ S (length (p_inventory p')) = length (p_inventory p).
Proof.
  intros Hp Hin Hn Hitem Hk.
  rewrite (inventory_menu_pick _ _ _ _ _ _ _ _ Hp Hin Hn Hitem), Hk.
  assert (Hmem : in_inventory item (p_inventory p) = true).
  { apply in_inventory_elem. eapply list_elem_of_lookup_2; eauto. }
  destruct (remove_item_delete _ _ Hmem) as (i & it & Hi & Hit & Hrm).
  unfold use_item. rewrite Hk. unfold consumable_use.
  destruct eff as [a|a]; unfold bind, display_message, ret;
    cbn -[in_inventory remove_item Z.min];
    rewrite Hmem, Hrm; cbn -[Z.min];
    (eexists _, _, i, it; split; [reflexivity |]);
    (split; [reflexivity |]); (split; [reflexivity |]);
    (split; [exact Hi |]); (split; [exact Hit |]);
    (split; [reflexivity |]); cbn -[Z.min];
    (split; [lia |]);
    rewrite length_delete by eauto;
    apply lookup_lt_Some in Hi; lia.
Qed.

(** The veteran, at 140 of 170 hp, drinks the Health Potion (+50). *)
Lemma consumable_restores_up_to_the_maximum_witness :
  ∃ p' w',
    inventory_menu 1 true (set_player (with_hp 140 veteran) arena_game)
      (arena_world [Num 1] [])
    = Some ((true, set_player p' (set_player (with_hp 140 veteran) arena_game)), w')
    ∧ p_hp p' = 170 ∧ p_inventory p' = [ReinforcedVest 3].
Proof.
  destruct (consumable_restores_up_to_the_maximum 0 true
              (set_player (with_hp 140 veteran) arena_game) (with_hp 140 veteran)
              (HealthPotion 2) (HealHP 50) 1 [] (arena_world [Num 1] [])
              eq_refl eq_refl ltac:(lia) eq_refl eq_refl)
    as (p' & w' & i & it & E & _).
  exists p', w'. split; [exact E |].
  vm_compute in E. injection E as <- _. split; reflexivity.
Defined.

(** ** Backing out of a menu *)

Lemma read_entry_frame w r w' :
  read_entry w = Some (r, w') →
  w_heap w' = w_heap w ∧ w_rng w' = w_rng w ∧ w_next w' = w_next w.
Proof.
  unfold read_entry. destruct (w_in w); [discriminate |].
  intros [= _ <-]. auto.
Qed.

Lemma inventory_menu_false (budget : nat) in_combat g : ∀ w g' w',
  inventory_menu budget in_combat g w = Some ((false, g'), w') →
  g' = g ∧ w_heap w' = w_heap w ∧ w_rng w' = w_rng w ∧ w_next w' = w_next w.
Proof.
  induction budget as [|budget IH]; intros w g' w' H; [discriminate |].
  cbn [inventory_menu] in H. cbv zeta in H.
  minv H; mclean;
    repeat match goal with
    | E : read_entry _ = Some _ |- _ => apply read_entry_frame in E as (? & ? & ?)
    | E : inventory_menu _ _ _ _ = Some _ |- _ => apply IH in E as (? & ? & ? & ?)
    | E : true = false |- _ => discriminate E
    end;
    cbn in *; split_and!; congruence.
Qed.

Lemma skills_menu_false (budget : nat) enemy g : ∀ w g' w',
  skills_menu budget enemy g w = Some ((false, g'), w') →
  g' = g ∧ w_heap w' = w_heap w ∧ w_rng w' = w_rng w ∧ w_next w' = w_next w.
Proof.
  induction budget as [|budget IH]; intros w g' w' H; [discriminate |].
  cbn [skills_menu] in H.
  minv H; mclean;
    repeat match goal with
    | E : read_entry _ = Some _ |- _ => apply read_entry_frame in E as (? & ? & ?)
    | E : skills_menu _ _ _ _ = Some _ |- _ => apply IH in E as (? & ? & ? & ?)
    | E : true = false |- _ => discriminate E
    end;
    cbn in *; split_and!; congruence.
Qed.

(** X3: a menu that returns [False] has changed nothing.  Whatever was
    typed before backing out (invalid numbers, crystals, items already
    equipped, skills that cost too much), when [handle_inventory] or
    [handle_skills] returns [False] the game object, the enemies and the
    random generator are exactly as they were; only entries were read and
    messages shown. *)
Theorem menus_returning_false_change_nothing :
  (∀ (budget : nat) (in_combat : bool) (g g' : Game) (w w' : World),
     handle_inventory budget in_combat g w = Some ((false, g'), w') →
     g' = g ∧ w_heap w' = w_heap w ∧ w_rng w' = w_rng w ∧ w_next w' = w_next w)
  ∧
  (∀ (budget enemy : nat) (g g' : Game) (w w' : World),
     handle_skills budget enemy g w = Some ((false, g'), w') →
     g' = g ∧ w_heap w' = w_heap w ∧ w_rng w' = w_rng w ∧ w_next w' = w_next w).
Proof.
  split.
  - intros budget in_combat g g' w w' H. unfold handle_inventory in H.
    minv H; mclean;
      repeat match goal with
      | E : read_entry _ = Some _ |- _ => apply read_entry_frame in E as (? & ? & ?)
      | E : inventory_menu _ _ _ _ = Some _ |- _ =>
          apply inventory_menu_false in E as (? & ? & ? & ?)
      end;
      cbn in *; split_and!; congruence.
  - intros budget enemy g g' w w' H. unfold handle_skills in H.
    minv H; mclean;
      repeat match goal with
      | E : skills_menu _ _ _ _ = Some _ |- _ =>
          apply skills_menu_false in E as (? & ? & ? & ?)
      end;
      cbn in *; split_and!; congruence.
Qed.

(** The veteran asks for the Grenade Toss with 20 energy, for a skill
    that does not exist, and backs out. *)
Lemma menus_returning_false_change_nothing_witness :
  ∃ w',
    handle_skills 3 0 (set_player (with_energy 20 veteran) arena_game)
      (arena_world [Num 2; Num 7; Txt "b"] [])
    = Some ((false, set_player (with_energy 20 veteran) arena_game), w')
    ∧ w_heap w' = arena_heap
    ∧ w_out w' = [MsgNotEnoughEnergy "Grenade Toss" 30; MsgInvalidSkillNumber].
Proof.
  destruct (handle_skills 3 0 (set_player (with_energy 20 veteran) arena_game)
              (arena_world [Num 2; Num 7; Txt "b"] [])) as [[[used g'] w']|] eqn:E;
    [| vm_compute in E; discriminate].
  assert (Hused : used = false) by (vm_compute in E; congruence).
  subst used.
  destruct (proj2 menus_returning_false_change_nothing _ _ _ _ _ _ E)
    as (-> & Hh & _).
  exists w'. split; [reflexivity |]. split; [exact Hh |].
  vm_compute in E. injection E as <-. reflexivity.
Defined.

(** * Fleeing *)

Lemma occupied_false skip x y (l : list nat) : ∀ w w',
  occupied skip x y l w = Some (false, w') →
  ∀ oid e, oid ∈ l → skip ≠ Some oid → w_heap w !! oid = Some e →
           enemy_at x y e = false.
Proof.
  induction l as [|a l IH]; intros w w' H oid e Hin Hskip He; [inversion Hin |].
  cbn [occupied] in H.
  apply bind_Some in H as (other & w1 & Eg & H).
  apply get_enemy_kept in Eg as [-> Ha].
  destruct (negb (bool_decide (skip = Some a)) && enemy_at x y other) eqn:Hc.
  { apply ret_Some in H. discriminate. }
  apply elem_of_cons in Hin as [->|Hin]; [| eapply IH; eauto].
  replace e with other by congruence.
  apply andb_false_iff in Hc as [Hc|Hc]; [| exact Hc].
  apply negb_false_iff, bool_decide_eq_true in Hc. contradiction.
Qed.

Lemma tile_is_true c t x y :
  tile_is c t x y = Some true ↔ tile_get t x y = Some c.
Proof.
  unfold tile_is. destruct (tile_get t x y) as [c'|]; [| split; discriminate].
  split.
  - intros [= H]. apply Ascii.eqb_eq in H. congruence.
  - intros [= ->]. rewrite Ascii.eqb_refl. reflexivity.
Qed.

Lemma free_neighbours_sound m x y (dirs : list (Z * Z)) : ∀ w r w',
  free_neighbours m x y dirs w = Some (r, w') →
  ∀ pos, pos ∈ r →
    (pos.1 - x, pos.2 - y) ∈ dirs
    ∧ 0 ≤ pos.1 < width m ∧ 0 ≤ pos.2 < height m
    ∧ tile_get (tiles m) pos.1 pos.2 = Some "."%char
    ∧ tile_free_of_enemies m (w_heap w) pos.1 pos.2.
Proof.
  induction dirs as [|[dx dy] dirs IH]; intros w r w' H pos Hpos;
    cbn [free_neighbours] in H.
  - apply ret_Some in H. injection H as -> _. inversion Hpos.
  - apply bind_Some in H as (ok & w1 & Eok & H).
    apply bind_Some in H as (rest & w2 & Erest & H).
    apply ret_Some in H. injection H as -> _.
    assert (Hw1 : w1 = w).
    { minv Eok; mclean;
        repeat match goal with
        | E : occupied _ _ _ _ _ = Some _ |- _ => apply occupied_kept in E; subst
        end; reflexivity. }
    subst w1.
    assert (Hrest : pos ∈ rest →
      (pos.1 - x, pos.2 - y) ∈ (dx, dy) :: dirs
      ∧ 0 ≤ pos.1 < width m ∧ 0 ≤ pos.2 < height m
      ∧ tile_get (tiles m) pos.1 pos.2 = Some "."%char
      ∧ tile_free_of_enemies m (w_heap w) pos.1 pos.2).
    { intros Hin. destruct (IH _ _ _ Erest pos Hin) as (Hd & ?).
      split; [right; exact Hd | assumption]. }
    destruct ok; [| auto].
    apply elem_of_cons in Hpos as [->|Hpos]; [| auto]. cbn [fst snd].
    split; [replace (x + dx - x) with dx by lia; replace (y + dy - y) with dy by lia; left |].
    destruct (in_bounds m (x + dx) (y + dy)) eqn:Hb;
      [| apply ret_Some in Eok; discriminate].
    apply in_bounds_spec in Hb.
    apply bind_Some in Eok as (floor & w1 & Ef & Eok).
    apply lift_kept in Ef as [-> Ef].
    destruct floor; [| apply ret_Some in Eok; discriminate].
    apply tile_is_true in Ef.
    apply bind_Some in Eok as (occ & w1 & Eo & Eok).
    apply ret_Some in Eok. injection Eok as Hocc _.
    symmetry in Hocc. apply negb_true_iff in Hocc. subst occ.
    split; [lia |]. split; [lia |]. split; [exact Ef |].
    intros oid e Hin He. eapply occupied_false; eauto.
Qed.



(** * Turns in combat *)

Lemma take_damage_max_0 hp damage : take_damage hp damage = Z.max 0 (hp - damage).
Proof. unfold take_damage. cbv zeta. destruct (Z.ltb_spec (hp - damage) 0); lia. Qed.

Lemma enemy_attacks_eq e p w :
  ∃ w', enemy_attacks e p w
        = Some (with_hp (Z.max 0 (p_hp p - Z.max 0 (e_attack e - p_defense p))) p, w')
        ∧ w_heap w' = w_heap w ∧ w_in w' = w_in w ∧ w_rng w' = w_rng w
        ∧ w_next w' = w_next w.
Proof.
  unfold enemy_attacks, p_take_damage. cbv zeta. rewrite take_damage_max_0.
  unfold bind, display_message, ret.
  destruct (p_is_alive _); eexists; (split; [reflexivity |]); cbn; auto.
Qed.

(** X5: backing out of the skill menu forfeits the turn.  When the
    player, at least as fast as the enemy, opens the skill menu and
    backs out with 'b', the [continue] of [combat_round] moves on to the
    next combatant: the enemy strikes (hp drops by
    [max(0, enemy.attack - player.defense)], not below 0) before the
    player is asked again. *)
Theorem backing_out_of_the_skill_menu_forfeits_the_turn
    (budget enemy : nat) (g : Game) (p : Player) (e : Enemy)
    (rest : list Entry) (w : World) :
  player g = Some p →
  w_heap w !! enemy = Some e →
  p_is_alive p = true →
  e_is_alive e = true →
  e_speed e ≤ p_speed p →
  p_learned_skills p ≠ [] →
  w_in w = Txt "k" :: Txt "b" :: rest →
  ∃ w',
    combat_turns (S budget) (turn_order p e) enemy g w
    = Some ((true,
             set_player
               (with_hp (Z.max 0 (p_hp p - Z.max 0 (e_attack e - p_defense p))) p) g),
            w')
    ∧ w_in w' = rest ∧ w_heap w' = w_heap w ∧ w_rng w' = w_rng w.
Proof.
  intros Hp He Hpa Hea Hspeed Hskills Hin.
  unfold turn_order. destruct (Z.ltb_spec (p_speed p) (e_speed e)); [lia |].
  cbn [combat_turns].
  mrun (the_player_eq g p w Hp). mrun (get_enemy_eq _ _ _ He).
  rewrite Hpa, Hea. cbn [negb orb].
  destruct (p_learned_skills p) as [|sk sks] eqn:Hsk; [contradiction |].
  erewrite bind_step
    by (apply (get_player_input_first _ "k" (Txt "b" :: rest)); [exact Hin | set_solver]).
  cbn [String.eqb Ascii.eqb Bool.eqb].
  assert (Ehs : handle_skills (S budget) enemy g (with_w_in (Txt "b" :: rest) w)
                = Some ((false, g), with_w_in rest w)).
  { unfold handle_skills. mrun (the_player_eq g p (with_w_in (Txt "b" :: rest) w) Hp).
    rewrite Hsk. cbn [skills_menu].
    erewrite bind_step by (apply read_entry_eq; reflexivity).
    mrun (the_player_eq g p (with_w_in rest (with_w_in (Txt "b" :: rest) w)) Hp).
    reflexivity. }
  mrun Ehs. cbv beta iota.
  mrun (the_player_eq g p (with_w_in rest w) Hp).
  erewrite bind_step by (apply get_enemy_eq; exact He).
  rewrite Hpa, Hea. cbn [negb orb].
  destruct (enemy_attacks_eq e p (with_w_in rest w)) as (w' & Ea & Hh & Hi & Hr & _).
  mrun Ea.
  exists w'. split; [| auto].
  cbn [combat_turns]. reflexivity.
Qed.

(** The veteran (speed 14, defense 13) faces the hunter (speed 9,
    attack 18), opens the skill menu and backs out. *)
Lemma backing_out_of_the_skill_menu_forfeits_the_turn_witness :
  ∃ p' w',
    combat_turns 1 (turn_order veteran hunter) 1 arena_game
      (arena_world [Txt "k"; Txt "b"] [])
    = Some ((true, set_player p' arena_game), w')
    ∧ p_hp veteran = 170 ∧ p_hp p' = 165.
Proof.
  destruct (backing_out_of_the_skill_menu_forfeits_the_turn 0 1 arena_game veteran
              hunter [] (arena_world [Txt "k"; Txt "b"] [])
              eq_refl eq_refl eq_refl eq_refl ltac:(cbn; lia)
              ltac:(discriminate) eq_refl)
    as (w' & E & _).
  eexists _, w'. split; [exact E |]. split; reflexivity.
Defined.

Lemma player_attacks_eq p oid e w :
  w_heap w !! oid = Some e →
  let damage := Z.max 0 (p_attack p - e_defense e) in
  ∃ w', player_attacks p oid w = Some (damage, w')
        ∧ w_heap w' = <[oid := e_with_hp (Z.max 0 (e_hp e - damage)) e]> (w_heap w)
        ∧ w_in w' = w_in w ∧ w_rng w' = w_rng w ∧ w_next w' = w_next w.
Proof.
  intros He damage. unfold player_attacks.
  mrun (get_enemy_eq _ _ _ He). cbv zeta. fold damage.
  unfold e_take_damage. rewrite take_damage_max_0.
  unfold bind, set_enemy, display_message, ret.
  destruct (e_is_alive _); eexists; (split; [reflexivity |]); cbn; auto.
Qed.

Lemma reset_is_identity p :
  with_defense (p_defense p) (with_speed (p_speed p) p) = p.
Proof. destruct p. reflexivity. Qed.

Lemma set_player_same g p : player g = Some p → set_player p g = g.
Proof. destruct g. cbn. intros ->. reflexivity. Qed.

(** X6: a fight won with the first blow.  When the player is at least as
    fast as the enemy and [attack - enemy.defense] is at least the enemy's
    hp, attacking ends the fight at once: the dead enemy does not strike
    back, so the player's hp is untouched; the enemy's XP (here short of
    the next threshold), credits and drop are collected, the enemy is
    gone from the floor's entity list, and one key press is awaited. *)
Theorem first_blow_kill_leaves_the_player_unharmed
    (budget enemy : nat) (g : Game) (p : Player) (m : GameMap) (e : Enemy)
    (key : Entry) (rest : list Entry) (w : World) :
  player g = Some p →
  current_map g = Some m →
  w_heap w !! enemy = Some e →
  (∀ oid, oid ∈ entities m → is_Some (w_heap w !! oid)) →
  p_is_alive p = true →
  e_is_alive e = true →
  e_speed e ≤ p_speed p →
  e_hp e ≤ p_attack p - e_defense e →
  p_xp p + e_xp_value e < p_xp_to_next_level p →
  w_in w = Txt "a" :: key :: rest →
  ∃ m' w',
    combat_round (S (S budget)) enemy g w
    = Some (set_map m'
              (set_player
                 (with_inventory (p_inventory p ++ option_list (e_item_drop e))
                    (with_credits (p_credits p + e_credit_value e)
                       (with_xp (p_xp p + e_xp_value e) p))) g), w')
    ∧ m' = m_with_entities (List.filter (alive_in (w_heap w')) (entities m)) m
    ∧ (enemy ∉ entities m')
    ∧ w_heap w' = <[enemy := e_with_hp 0 e]> (w_heap w)
    ∧ w_in w' = rest ∧ w_rng w' = w_rng w.
Proof.
  intros Hp Hm He Hents Hpa Hea Hspeed Hkill Hxp Hin.
  assert (Hhp : 0 < e_hp e) by (apply Z.ltb_lt; exact Hea).
  unfold combat_round.
  (* the loop: one round, one blow *)
  assert (Eturns : ∃ w1,
    combat_turns (S budget) (turn_order p e) enemy g w = Some ((true, g), w1)
    ∧ w_heap w1 = <[enemy := e_with_hp 0 e]> (w_heap w)
    ∧ w_in w1 = key :: rest ∧ w_rng w1 = w_rng w).
  { unfold turn_order. destruct (Z.ltb_spec (p_speed p) (e_speed e)); [lia |].
    cbn [combat_turns].
    mrun (the_player_eq g p w Hp). mrun (get_enemy_eq _ _ _ He).
    rewrite Hpa, Hea. cbn [negb orb].
    erewrite bind_step
      by (apply (get_player_input_first _ "a" (key :: rest));
          [exact Hin | destruct (p_learned_skills p); set_solver]).
    cbn [String.eqb Ascii.eqb Bool.eqb].
    destruct (player_attacks_eq p enemy e (with_w_in (key :: rest) w) He)
      as (w1 & Ea & Hh1 & Hi1 & Hr1 & _).
    mrun Ea.
    replace (Z.max 0 (e_hp e - Z.max 0 (p_attack p - e_defense e))) with 0 in Hh1
      by lia.
    assert (He1 : w_heap w1 !! enemy = Some (e_with_hp 0 e))
      by (rewrite Hh1; apply lookup_insert_eq).
    mrun (the_player_eq g p w1 Hp). mrun (get_enemy_eq _ _ _ He1).
    rewrite Hpa. cbn [e_is_alive e_with_hp e_hp Z.ltb Z.compare negb orb].
    exists w1. split; [reflexivity |]. auto. }
  destruct Eturns as (w1 & Eturns & Hh1 & Hi1 & Hr1).
  assert (He1 : w_heap w1 !! enemy = Some (e_with_hp 0 e))
    by (rewrite Hh1; apply lookup_insert_eq).
  assert (Eloop : combat_loop (S (S budget)) enemy g w = Some (g, w1)).
  { cbn [combat_loop].
    mrun (the_player_eq g p w Hp). mrun (get_enemy_eq _ _ _ He).
    rewrite Hpa, Hea. cbn [andb].
    mrun Eturns. cbv beta iota.
    mrun (the_player_eq g p w1 Hp). mrun (get_enemy_eq _ _ _ He1).
    rewrite Hpa. reflexivity. }
  assert (Efight : fight (S (S budget)) enemy g w = Some (g, w1)).
  { unfold fight. mrun (the_player_eq g p w Hp). cbv zeta.
    mrun Eloop. mrun (the_player_eq g p w1 Hp).
    rewrite reset_is_identity, (set_player_same g p Hp). reflexivity. }
  mrun Efight.
  (* the outcome *)
  unfold combat_outcome.
  mrun (the_player_eq g p w1 Hp). mrun (get_enemy_eq _ _ _ He1).
  rewrite Hpa. cbn [e_is_alive e_with_hp e_hp Z.ltb Z.compare negb].
  msay.
  cbn [e_xp_value e_credit_value e_item_drop e_name e_with_hp].
  match goal with
  | |- context [bind (add_xp ?a ?q) _ ?v] =>
      destruct (add_xp_total a q v) as (pa & w2 & Ex & Hh2 & Hi2 & Hr2 & Hpa')
  end.
  destruct (Z.leb_spec (p_xp_to_next_level p) (p_xp p + e_xp_value e)); [lia |].
  subst pa. mrun Ex. msay.
  set (pc := with_credits (p_credits (with_xp (p_xp p + e_xp_value e) p)
                           + e_credit_value e)
               (with_xp (p_xp p + e_xp_value e) p)).
  assert (Edrop : ∀ v3, ∃ w3,
    (match e_item_drop e with
     | Some drop =>
         display_message (MsgDropped (e_name e) (item_name drop)) ;;
         ret (with_inventory (p_inventory pc ++ [drop]) pc)
     | None => ret pc
     end) v3
    = Some (with_inventory (p_inventory p ++ option_list (e_item_drop e))
              (with_credits (p_credits p + e_credit_value e)
                 (with_xp (p_xp p + e_xp_value e) p)), w3)
    ∧ w_heap w3 = w_heap v3 ∧ w_in w3 = w_in v3 ∧ w_rng w3 = w_rng v3).
  { intros v3. subst pc. destruct (e_item_drop e) as [drop|].
    - eexists. split; [reflexivity |]. cbn. auto.
    - eexists. split.
      + unfold ret. cbn [option_list]. rewrite app_nil_r. do 2 f_equal.
      + auto. }
  match goal with
  | |- context [bind _ _ ?v] =>
      destruct (Edrop v) as (w3 & Edrop' & Hh3 & Hi3 & Hr3)
  end.
  cbn [w_heap w_in w_rng] in Hh2, Hi2, Hr2, Hh3, Hi3, Hr3.
  rewrite Hh2 in Hh3. rewrite Hi2, Hi1 in Hi3. rewrite Hr2, Hr1 in Hr3.
  mrun Edrop'. mrun (the_map_eq g m w3 Hm).
  assert (Hents3 : ∀ oid, oid ∈ entities m → is_Some (w_heap w3 !! oid)).
  { intros oid Hoid. rewrite Hh3, Hh1.
    destruct (decide (enemy = oid)) as [->|Hne];
      [rewrite lookup_insert_eq; eauto | rewrite lookup_insert_ne by done; auto]. }
  mrun (prune_spec (entities m) w3 Hents3). msay.
  erewrite bind_step by (apply read_entry_eq; cbn; exact Hi3).
  eexists _, _. split; [reflexivity |]. cbn.
  split; [reflexivity |].
  split.
  { intros Hin'. apply list_elem_of_In, filter_In in Hin' as [_ Halive].
    unfold alive_in in Halive. rewrite Hh3, He1 in Halive. discriminate. }
  split; [congruence |]. split; [reflexivity | exact Hr3].
Qed.

(** The veteran (attack 30, speed 14) finishes off the crippled drone
    (5 hp, defense 3, speed 7), which stands by in the skirmish. *)
Lemma first_blow_kill_leaves_the_player_unharmed_witness :
  ∃ g' w' p' m',
    combat_round 2 1 arena_game (skirmish_world [Txt "a"; Txt ""] []) = Some (g', w')
    ∧ player g' = Some p' ∧ current_map g' = Some m'
    ∧ p_hp p' = p_hp veteran
    ∧ p_xp p' = 30 ∧ p_credits p' = 17
    ∧ p_inventory p' = [HealthPotion 2; ReinforcedVest 3; EnergyCell 6]
    ∧ entities m' = [0%nat].
Proof.
  assert (Hents : ∀ oid, oid ∈ entities arena →
                         is_Some (w_heap (skirmish_world [Txt "a"; Txt ""] []) !! oid)).
  { intros oid [->|[->|[]%elem_of_nil]%elem_of_cons]%elem_of_cons; vm_compute; eauto. }
  destruct (first_blow_kill_leaves_the_player_unharmed 0 1 arena_game veteran arena
              crippled_drone (Txt "") [] (skirmish_world [Txt "a"; Txt ""] [])
              eq_refl eq_refl eq_refl Hents eq_refl eq_refl
              ltac:(cbn; lia) ltac:(cbn; lia) ltac:(cbn; lia) eq_refl)
    as (m' & w' & E & Hm' & _ & Hh & _).
  eexists _, w', _, m'. split; [exact E |].
  split; [reflexivity |]. split; [reflexivity |].
  split; [reflexivity |]. split; [reflexivity |]. split; [reflexivity |].
  split; [reflexivity |].
  rewrite Hm', Hh. vm_compute. reflexivity.
Defined.

(** * The enemies' turns *)

Lemma only_moved_refl h : only_moved h h.
Proof. intros oid e He. exists e. split; [exact He |]. split; [destruct e |]; auto. Qed.

Lemma only_moved_trans h1 h2 h3 :
  only_moved h1 h2 → only_moved h2 h3 → only_moved h1 h3.
Proof.
  intros H12 H23 oid e He.
  destruct (H12 oid e He) as (e2 & He2 & Hm2 & Hd2).
  destruct (H23 oid e2 He2) as (e3 & He3 & Hm3 & Hd3).
  exists e3. split; [exact He3 |]. split.
  - rewrite Hm3, Hm2. destruct e. reflexivity.
  - intros Hdead. rewrite Hd3; [auto |]. rewrite Hm2. exact Hdead.
Qed.

Lemma tile_is_false c t x y :
  tile_is c t x y = Some false ↔ ∃ c', tile_get t x y = Some c' ∧ c' ≠ c.
Proof.
  unfold tile_is. destruct (tile_get t x y) as [c'|].
  - split.
    + intros [= H]. apply Ascii.eqb_neq in H. eauto.
    + intros (c'' & [= <-] & Hne). apply Ascii.eqb_neq in Hne. rewrite Hne. reflexivity.
  - split; [discriminate | intros (? & [=] & _)].
Qed.

(** What one enemy's turn may do. *)
Lemma enemy_turn_step m oid p w p' w' :
  enemy_turn m oid p w = Some (p', w') →
  p' = with_hp (p_hp p') p
  ∧ p_hp p' ≤ Z.max 0 (p_hp p)
  ∧ (w_heap w' = w_heap w
     ∨ ∃ e x y,
         w_heap w !! oid = Some e ∧ e_is_alive e = true
         ∧ w_heap w' = <[oid := e_with_xy x y e]> (w_heap w)
         ∧ walkable m (x, y)
         ∧ (x, y) ≠ (p_x p, p_y p)
         ∧ (∀ o other, o ∈ entities m → o ≠ oid → w_heap w !! o = Some other →
              enemy_at x y other = false)).
Proof.
  intros H. unfold enemy_turn in H.
  apply bind_Some in H as (e & w1 & Ee & H). apply get_enemy_kept in Ee as [-> Ee].
  destruct (e_is_alive e) eqn:Ha.
  2:{ apply ret_Some in H. injection H as -> ->.
      split; [destruct p; reflexivity |]. split; [lia | auto]. }
  destruct (_ || _).
  { apply enemy_attacks_kept in H as [Hh ->].
    unfold p_take_damage. rewrite take_damage_max_0. cbn.
    split; [reflexivity |]. split; [lia | auto]. }
  destruct (step_towards _ _ _ _) as [new_x new_y].
  apply bind_Some in H as (can_move & w1 & Ec & H).
  apply bind_Some in H as (taken & w2 & Et & H).
  apply bind_Some in H as (u & w3 & Es & H).
  apply ret_Some in H. injection H as -> ->.
  split; [destruct p; reflexivity |]. split; [lia |].
  pose proof (occupied_kept _ _ _ _ _ _ _ Et) as ->.
  assert (Hw1 : w1 = w ∧ (can_move = true → walkable m (new_x, new_y))).
  { destruct (in_bounds m new_x new_y) eqn:Hb; cbn [negb] in Ec.
    - apply bind_Some in Ec as (wall & w0 & El & Ec).
      apply lift_kept in El as [-> El]. apply ret_Some in Ec. injection Ec as -> ->.
      split; [reflexivity |]. intros Hw. apply negb_true_iff in Hw. subst wall.
      apply tile_is_false in El. split; [exact Hb | exact El].
    - apply ret_Some in Ec. injection Ec as -> ->. split; [reflexivity | discriminate]. }
  destruct Hw1 as [-> Hwalk].
  destruct taken; case_bool_decide as Hpl; destruct can_move; cbv iota in Es;
    try (apply ret_Some in Es; injection Es as _ ->; left; reflexivity).
  apply set_enemy_kept in Es. rewrite Es. right.
  exists e, new_x, new_y. split; [exact Ee |]. split; [exact Ha |].
  split; [reflexivity |]. split; [auto |]. split; [exact Hpl |].
  intros o other Ho Hne Hoth. eapply occupied_false; eauto. congruence.
Qed.

Lemma enemy_at_false x y e :
  enemy_at x y e = false → e_is_alive e = true → (e_x e, e_y e) ≠ (x, y).
Proof.
  unfold enemy_at. intros H Ha [= Hx Hy]. rewrite Ha in H. cbn in H.
  apply andb_false_iff in H as [H|H]; apply Z.eqb_neq in H; contradiction.
Qed.

Lemma enemies_apart_step m (h : gmap nat Enemy) px py oid e x y :
  enemies_apart m h px py →
  h !! oid = Some e → e_is_alive e = true →
  walkable m (x, y) → (x, y) ≠ (px, py) →
  (∀ o other, o ∈ entities m → o ≠ oid → h !! o = Some other →
     enemy_at x y other = false) →
  enemies_apart m (<[oid := e_with_xy x y e]> h) px py.
Proof.
  intros [Hoff Hapart] He Ha Hwalk Hpl Hfree. split.
  - intros o eo Ho Hlook Halive.
    destruct (decide (oid = o)) as [->|Hne].
    + rewrite lookup_insert_eq in Hlook. injection Hlook as <-. cbn. auto.
    + rewrite lookup_insert_ne in Hlook by exact Hne. eauto.
  - intros o1 o2 e1 e2 Ho1 Ho2 Hne H1 H2 Ha1 Ha2.
    destruct (decide (o1 = oid)) as [->|Hne1]; destruct (decide (o2 = oid)) as [->|Hne2].
    + contradiction.
    + rewrite lookup_insert_eq in H1. injection H1 as <-.
      rewrite lookup_insert_ne in H2 by congruence. cbn.
      intros Heq. symmetry in Heq. revert Heq.
      apply enemy_at_false; [| exact Ha2]. exact (Hfree o2 e2 Ho2 Hne2 H2).
    + rewrite lookup_insert_eq in H2. injection H2 as <-.
      rewrite lookup_insert_ne in H1 by congruence. cbn.
      apply enemy_at_false; [| exact Ha1]. exact (Hfree o1 e1 Ho1 Hne1 H1).
    + rewrite lookup_insert_ne in H1 by congruence.
      rewrite lookup_insert_ne in H2 by congruence. eauto.
Qed.

Lemma only_moved_step (h : gmap nat Enemy) oid e x y :
  h !! oid = Some e → e_is_alive e = true →
  only_moved h (<[oid := e_with_xy x y e]> h).
Proof.
  intros He Ha o eo Ho. destruct (decide (oid = o)) as [->|Hne].
  - rewrite lookup_insert_eq. replace eo with e by congruence.
    eexists. split; [reflexivity |]. split; [reflexivity | congruence].
  - rewrite lookup_insert_ne by exact Hne. exists eo.
    split; [exact Ho |]. split; [destruct eo; reflexivity | auto].
Qed.

Lemma enemy_turns_loop_spec m (oids : list nat) : ∀ p w p' w',
  (∀ oid, oid ∈ oids → oid ∈ entities m) →
  enemy_turns_loop m oids p w = Some (p', w') →
  enemies_apart m (w_heap w) (p_x p) (p_y p) →
  p' = with_hp (p_hp p') p
  ∧ p_hp p' ≤ Z.max 0 (p_hp p)
  ∧ enemies_apart m (w_heap w') (p_x p) (p_y p)
  ∧ only_moved (w_heap w) (w_heap w').
Proof.
  induction oids as [|oid oids IH]; intros p w p' w' Hsub H Hinv;
    cbn [enemy_turns_loop] in H.
  - apply ret_Some in H. injection H as -> ->.
    split; [destruct p; reflexivity |]. split; [lia |].
    split; [exact Hinv | apply only_moved_refl].
  - apply bind_Some in H as (p1 & w1 & Estep & H).
    apply enemy_turn_step in Estep as (Hp1 & Hhp1 & Hheap).
    assert (Hxy : p_x p1 = p_x p ∧ p_y p1 = p_y p) by (rewrite Hp1; auto).
    destruct Hxy as [Hx1 Hy1].
    assert (Hinv1 : enemies_apart m (w_heap w1) (p_x p) (p_y p)
                    ∧ only_moved (w_heap w) (w_heap w1)).
    { destruct Hheap as [->|(e & x & y & He & Ha & -> & Hwalk & Hpl & Hfree)].
      - split; [exact Hinv | apply only_moved_refl].
      - split; [| apply only_moved_step; assumption].
        apply enemies_apart_step; auto. }
    destruct Hinv1 as [Hinv1 Hmv1].
    apply IH in H as (Hp' & Hhp' & Hinv' & Hmv');
      [| intros; apply Hsub; right; assumption | rewrite Hx1, Hy1; exact Hinv1].
    rewrite Hx1, Hy1 in Hinv'.
    split; [rewrite Hp', Hp1; reflexivity |]. split; [lia |].
    split; [exact Hinv' | eapply only_moved_trans; eauto].
Qed.

(** X7: the enemies' turns keep everyone apart.  If before the enemy
    turns the living enemies of the floor stand on non-wall tiles inside
    the grid, off the player's tile and on pairwise different tiles, the
    same holds afterwards; the enemies have at most changed position
    (dead ones not even that), and of the player only [hp] may have
    changed, downwards. *)
Theorem enemy_turns_keep_everyone_apart
    (g : Game) (p : Player) (m : GameMap) (w : World) (g' : Game) (w' : World) :
  enemy_turns g w = Some (g', w') →
  player g = Some p →
  current_map g = Some m →
  enemies_apart m (w_heap w) (p_x p) (p_y p) →
  ∃ p',
    g' = set_player p' g
    ∧ p' = with_hp (p_hp p') p
    ∧ p_hp p' ≤ Z.max 0 (p_hp p)
    ∧ enemies_apart m (w_heap w') (p_x p) (p_y p)
    ∧ only_moved (w_heap w) (w_heap w').
Proof.
  intros H Hp Hm Hinv. unfold enemy_turns in H.
  apply bind_Some in H as (p0 & w0 & Ep & H). apply the_player_kept in Ep as [-> Ep].
  replace p0 with p in * by congruence. clear Ep.
  destruct (p_is_alive p && negb (game_over g)).
  - apply bind_Some in H as (m0 & w0 & Em & H). apply the_map_kept in Em as [-> Em].
    replace m0 with m in * by congruence. clear Em.
    apply bind_Some in H as (p' & w1 & Eloop & H).
    apply ret_Some in H. injection H as -> ->.
    apply enemy_turns_loop_spec in Eloop as (Hp' & Hhp & Hinv' & Hmv); auto.
    exists p'. auto.
  - apply ret_Some in H. injection H as -> ->.
    exists p. rewrite (set_player_same g p Hp).
    split; [reflexivity |]. split; [destruct p; reflexivity |]. split; [lia |].
    split; [exact Hinv | apply only_moved_refl].
Qed.

(** In the arena: the drone at (3, 1) and the hunter at (5, 3) close in
    on the veteran at (1, 1). *)
Lemma enemy_turns_keep_everyone_apart_witness :
  ∃ g' w',
    enemy_turns arena_game (arena_world [] []) = Some (g', w')
    ∧ g' = arena_game
    ∧ w_heap w' !! 0%nat = Some (e_with_xy 2 1 drone)
    ∧ w_heap w' !! 1%nat = Some (e_with_xy 4 2 hunter)
    ∧ enemies_apart arena (w_heap w') 1 1.
Proof.
  assert (Hinv : enemies_apart arena (w_heap (arena_world [] [])) 1 1).
  { split.
    - intros oid e [->|[->|[]%elem_of_nil]%elem_of_cons]%elem_of_cons [= <-] _;
        (split; [split; [reflexivity | eexists; split; [reflexivity | discriminate]]
                | discriminate]).
    - intros o1 o2 e1 e2
        [->|[->|[]%elem_of_nil]%elem_of_cons]%elem_of_cons
        [->|[->|[]%elem_of_nil]%elem_of_cons]%elem_of_cons Hne [= <-] [= <-] _ _;
        try contradiction; discriminate. }
  destruct (enemy_turns arena_game (arena_world [] [])) as [[g' w']|] eqn:E;
    [| vm_compute in E; discriminate].
  destruct (enemy_turns_keep_everyone_apart arena_game veteran arena
              (arena_world [] []) g' w' E eq_refl eq_refl Hinv)
    as (p' & _ & _ & _ & Hinv' & _).
  exists g', w'. split; [reflexivity |].
  split; [vm_compute in E; injection E as <- _; reflexivity |].
  split; [vm_compute in E; injection E as _ <-; reflexivity |].
  split; [vm_compute in E; injection E as _ <-; reflexivity |].
  exact Hinv'.
Defined.

(** * Loading a save file with unknown names *)





(** * The floor of a loaded game *)

Lemma generate_map_dims (budget : nat) player_level current_level_num is_shop_floor :
  ∀ self w m w',
  generate_map budget self player_level current_level_num is_shop_floor w = Some (m, w') →
  width m = width self ∧ height m = height self
  ∧ (is_Some (shop_location m) ↔ is_shop_floor = true).
Proof.
  induction budget as [|budget IH]; intros self w m w' E; [discriminate |].
  cbn [generate_map] in E.
  apply bind_Some in E as (m0 & w1 & Ec & E).
  apply bind_Some in E as (empty_tiles & w2 & Es & E).
  apply lift_kept in Es as [-> Es].
  pose proof Ec as Ec'.
  apply carve_floor_spec in Ec' as (Hcarved & Hblank & Hw0 & Hh0 & _).
  destruct empty_tiles as [|pos pool].
  - apply bind_Some in E as (u & w2 & _ & E). apply IH in E as (Hw & Hh & Hs).
    split; [congruence |]. split; [congruence | exact Hs].
  - pose proof Es as Es'. apply scan_empty_spec in Es' as (Hnd & Hpool).
    apply place_features_spec in E
      as (Hw & Hh & _ & _ & _ & _ & _ & Hno & Hyes);
      [| apply Hcarved | exact Hblank | exact Hnd |].
    + split; [congruence |]. split; [congruence |].
      destruct is_shop_floor.
      * split; auto.
      * rewrite Hno by reflexivity. split; [intros [? [=]] | discriminate].
    + intros q Hq. destruct (Hpool q Hq) as (Hx & Hy & Hget).
      split; [lia |]. split; [lia |]. exists "."%char.
      split; [exact Hget | discriminate].
Qed.

Lemma load_player_fields pd w p w' :
  load_player pd w = Some (p, w') →
  p_x p = pd_x pd ∧ p_y p = pd_y pd
  ∧ p_speed p = pd_speed pd ∧ p_defense p = pd_defense pd
  ∧ p_level p = pd_level pd.
Proof.
  unfold load_player. cbv zeta. intros H.
  apply bind_Some in H as (inv & w1 & _ & H).
  apply bind_Some in H as (wpn & w2 & _ & H).
  apply bind_Some in H as (arm & w3 & _ & H).
  apply bind_Some in H as (skills & w4 & _ & H).
  apply ret_Some in H. injection H as -> _. cbn. auto.
Qed.

(** X9: what [load_game] installs besides the player's fields.  The
    floor is regenerated on the 40 x 20 grid, with a shop exactly when
    the saved floor number is a positive multiple of 5; the player keeps
    the saved coordinates (they are not moved to the new floor's start);
    the speed and defense recorded for the game are the saved ones, and
    the floor number is the saved one. *)
Theorem load_game_regenerates_the_floor
    (budget : nat) (save_data : SaveData) (g g' : Game) (w w' : World) :
  load_game budget save_data g w = Some (g', w') →
  ∃ p m,
    player g' = Some p ∧ current_map g' = Some m
    ∧ width m = MAP_WIDTH ∧ height m = MAP_HEIGHT
    ∧ (is_Some (shop_location m)
       ↔ sd_current_level_num save_data `mod` 5 = 0
         ∧ 0 < sd_current_level_num save_data)
    ∧ p_x p = pd_x (sd_player_data save_data)
    ∧ p_y p = pd_y (sd_player_data save_data)
    ∧ current_level_num g' = sd_current_level_num save_data
    ∧ original_player_speed g' = pd_speed (sd_player_data save_data)
    ∧ original_player_defense g' = pd_defense (sd_player_data save_data)
    ∧ game_over g' = game_over g.
Proof.
  intros H. unfold load_game in H. cbv zeta in H.
  apply bind_Some in H as (p & w1 & Ep & H).
  apply load_player_fields in Ep as (Hx & Hy & Hsp & Hde & _).
  apply bind_Some in H as (m & w2 & Em & H).
  apply generate_map_dims in Em as (Hw & Hh & Hshop).
  apply bind_Some in H as (u & w3 & _ & H).
  apply ret_Some in H. injection H as -> ->.
  exists p, m. cbn in *.
  split; [reflexivity |]. split; [reflexivity |].
  split; [exact Hw |]. split; [exact Hh |].
  split.
  { rewrite Hshop, andb_true_iff, Z.eqb_eq, Z.ltb_lt. reflexivity. }
  auto 10.
Qed.

(** The veteran's save, made on floor 3: no shop. *)
Lemma load_game_regenerates_the_floor_witness :
  ∃ g' w' m,
    load_game 5 veteran_save Game_init (mkWorld some_draws [] [] ∅ 0) = Some (g', w')
    ∧ current_map g' = Some m
    ∧ width m = 40 ∧ height m = 20 ∧ shop_location m = None.
Proof.
  destruct (load_game 5 veteran_save Game_init (mkWorld some_draws [] [] ∅ 0))
    as [[g' w']|] eqn:E; [| vm_compute in E; discriminate].
  destruct (load_game_regenerates_the_floor 5 veteran_save Game_init g'
              (mkWorld some_draws [] [] ∅ 0) w' E)
    as (p & m & _ & Hm & Hw & Hh & Hshop & _).
  exists g', w', m. split; [reflexivity |]. split; [exact Hm |].
  split; [exact Hw |]. split; [exact Hh |].
  destruct (shop_location m) as [pos|]; [| reflexivity].
  exfalso. destruct Hshop as [Hshop _].
  destruct Hshop as [Hmod _]; [eauto | vm_compute in Hmod; discriminate].
Defined.

(** * More on generated floors *)

(** ** The outer wall *)

Lemma on_corridors_elem (rs : list Room) x y :
  on_corridors rs x y → ∃ r1 r2, r1 ∈ rs ∧ r2 ∈ rs ∧ on_corridor r1 r2 x y.
Proof.
  induction rs as [|r1 rs IH]; [intros [] |].
  destruct rs as [|r2 rs]; [intros [] |].
  cbn [on_corridors]. intros [H|H].
  - exists r1, r2. split; [left |]. split; [right; left | exact H].
  - destruct (IH H) as (a & b & Ha & Hb & Hab).
    exists a, b. split; [right; exact Ha |]. split; [right; exact Hb | exact Hab].
Qed.

Lemma center_bounds W H r :
  room_ok W H r →
  1 ≤ center_x r ≤ W - 2 ∧ 1 ≤ center_y r ≤ H - 2.
Proof.
  intros Hok. pose proof (center_in_room W H r Hok) as [Hx Hy].
  destruct Hok as (? & ? & ? & ? & ? & ?). lia.
Qed.

(** The carved tiles keep off the border of the grid. *)
Lemma carved_interior m x y :
  carved m → open_tile (tiles m) x y →
  1 ≤ x ≤ width m - 2 ∧ 1 ≤ y ≤ height m - 2.
Proof.
  intros (_ & Hok & Hopen) Ho. rewrite Forall_forall in Hok.
  apply Hopen in Ho as [(r & Hr & Hx & Hy)|Hc].
  - destruct (Hok r Hr) as (? & ? & ? & ? & ? & ?). lia.
  - apply on_corridors_elem in Hc as (r1 & r2 & Hr1 & Hr2 & Hon).
    pose proof (center_bounds _ _ _ (Hok r1 Hr1)).
    pose proof (center_bounds _ _ _ (Hok r2 Hr2)).
    destruct Hon as [[-> ?]|[-> ?]]; lia.
Qed.

(** X10: every generated floor is walled in.  The floor returned by
    [generate_map] has the dimensions of the map object, and every tile
    of its first and last row and column is a wall: rooms and corridors
    keep at least one tile away from the edge of the grid. *)
Theorem generated_floor_is_walled_in
    (budget : nat) (self : GameMap) (player_level current_level_num : Z)
    (is_shop_floor : bool) (w : World) (m : GameMap) (w' : World) :
  generate_map budget self player_level current_level_num is_shop_floor w = Some (m, w') →
  width m = width self ∧ height m = height self
  ∧ ∀ x y, 0 ≤ x < width m → 0 ≤ y < height m →
           x = 0 ∨ y = 0 ∨ x = width m - 1 ∨ y = height m - 1 →
           tile_get (tiles m) x y = Some "#"%char.
Proof.
  intros E. pose proof (generate_map_dims _ _ _ _ _ _ _ _ E) as (Hw & Hh & _).
  split; [exact Hw |]. split; [exact Hh |].
  apply generate_map_spec in E
    as (self0 & w0 & m0 & w1 & empty_tiles & _ & Hcarved & _ & Hw0 & Hh0 & Hwf & Ho & _).
  intros x y Hx Hy Hedge.
  destruct (tile_get_in_bounds _ _ _ x y Hwf Hx Hy) as [c Hc].
  destruct (decide (c = "#"%char)) as [->|Hne]; [exact Hc |].
  exfalso.
  assert (Hopen : open_tile (tiles m0) x y).
  { apply Ho. split; [lia |]. split; [lia |]. eauto. }
  apply carved_interior in Hopen; [| exact Hcarved]. lia.
Qed.

Lemma generated_floor_is_walled_in_witness :
  ∃ m w',
    generate_map 5 (GameMap_init MAP_WIDTH MAP_HEIGHT) 1 1 false
      (mkWorld some_draws [] [] ∅ 0) = Some (m, w')
    ∧ width m = 40 ∧ height m = 20
    ∧ tile_get (tiles m) 39 7 = Some "#"%char.
Proof.
  destruct (generate_map 5 (GameMap_init MAP_WIDTH MAP_HEIGHT) 1 1 false
              (mkWorld some_draws [] [] ∅ 0)) as [[m w']|] eqn:E;
    [| vm_compute in E; discriminate].
  destruct (generated_floor_is_walled_in 5 (GameMap_init MAP_WIDTH MAP_HEIGHT) 1 1
              false (mkWorld some_draws [] [] ∅ 0) m w' E) as (Hw & Hh & Hwall).
  exists m, w'. split; [reflexivity |]. split; [exact Hw |]. split; [exact Hh |].
  apply Hwall; rewrite ?Hw, ?Hh; cbn; unfold MAP_WIDTH, MAP_HEIGHT; lia.
Defined.

(** ** The rooms *)

Lemma separated_sym r r' : separated r r' → separated r' r.
Proof.
  intros H x y x' y' Hr Hr'. destruct (H x' y' x y Hr' Hr); lia.
Qed.

Lemma overlaps_room_false new_room existing_room :
  overlaps_room new_room existing_room = false → separated new_room existing_room.
Proof.
  unfold overlaps_room, separated, in_room. intros H x y x' y' [Hx Hy] [Hx' Hy'].
  rewrite !andb_false_iff, !Z.leb_gt in H. lia.
Qed.

Lemma pairwise_snoc {A} (R : A → A → Prop) (l : list A) x :
  pairwise R l → Forall (λ a, R a x) l → pairwise R (l ++ [x]).
Proof.
  induction l as [|a l IH]; cbn [pairwise app]; [auto |].
  intros [Ha Hl] Hx. apply Forall_cons in Hx as [Hax Hx].
  split; [| auto]. apply Forall_app. split; [exact Ha | apply Forall_singleton; exact Hax].
Qed.

Lemma pairwise_perm {A} (R : A → A → Prop) (l l' : list A) :
  (∀ a b, R a b → R b a) → l ≡ₚ l' → pairwise R l → pairwise R l'.
Proof.
  intros Hsym Hperm. induction Hperm as [|a l l' Hp IH|a b l|l1 l2 l3 _ IH1 _ IH2];
    cbn [pairwise]; [auto | | | auto].
  - intros [Ha Hl]. split; [rewrite <- Hp; exact Ha | auto].
  - intros [Hb [Ha Hl]]. apply Forall_cons in Hb as [Hba Hb].
    split; [apply Forall_cons; auto |]. split; assumption.
Qed.

Lemma try_room_rooms self w self' w' :
  try_room self w = Some (self', w') →
  pairwise separated (rooms self) →
  pairwise separated (rooms self')
  ∧ (length (rooms self') ≤ S (length (rooms self)))%nat.
Proof.
  unfold try_room. intros E Hp.
  apply bind_Some in E as (rw & w1 & _ & E).
  apply bind_Some in E as (rh & w2 & _ & E).
  apply bind_Some in E as (x & w3 & _ & E).
  apply bind_Some in E as (y & w4 & _ & E).
  cbv zeta in E.
  destruct (existsb _ (rooms self)) eqn:Hov.
  - apply ret_Some in E. injection E as -> _. split; [exact Hp | lia].
  - apply bind_Some in E as (t & w5 & _ & E).
    apply ret_Some in E. injection E as -> _. cbn [rooms m_with_tiles m_with_rooms].
    split; [| rewrite length_app; cbn; lia].
    apply pairwise_snoc; [exact Hp |].
    apply Forall_forall. intros r Hr.
    apply separated_sym, overlaps_room_false.
    apply not_true_iff_false. intros Hrr.
    assert (existsb (overlaps_room (mkRoom x y (x + rw) (y + rh))) (rooms self) = true).
    { apply existsb_exists. exists r. split; [apply list_elem_of_In; exact Hr | exact Hrr]. }
    congruence.
Qed.

Lemma place_rooms_rooms (n : nat) : ∀ self w self' w',
  place_rooms n self w = Some (self', w') →
  pairwise separated (rooms self) →
  pairwise separated (rooms self')
  ∧ (length (rooms self') ≤ n + length (rooms self))%nat.
Proof.
  induction n as [|n IH]; intros self w self' w' E Hp; cbn [place_rooms] in E.
  - apply ret_Some in E. injection E as -> _. split; [exact Hp | lia].
  - apply bind_Some in E as (self1 & w1 & Et & E).
    apply try_room_rooms in Et as [Hp1 Hl1]; [| exact Hp].
    apply IH in E as [Hp' Hl']; [| exact Hp1]. split; [exact Hp' | lia].
Qed.

Lemma carve_floor_rooms self w m0 w' :
  carve_floor self w = Some (m0, w') →
  pairwise separated (rooms m0) ∧ (length (rooms m0) ≤ MAX_ROOMS)%nat.
Proof.
  unfold carve_floor. intros E.
  apply bind_Some in E as (self1 & w1 & Ep & E).
  apply place_rooms_rooms in Ep as [Hp Hl]; [| exact I].
  cbn [rooms reset_map length] in Hl.
  apply lift_kept in E as [-> E]. unfold connect in E.
  destruct (1 <? length (rooms self1))%nat.
  - destruct (connect_rooms _ _) as [t|]; [| discriminate].
    injection E as <-. cbn [rooms m_with_tiles m_with_rooms].
    split.
    + eapply pairwise_perm; [apply separated_sym | | exact Hp].
      symmetry. apply sort_rooms_perm.
    + rewrite (Permutation_length (sort_rooms_perm _)). lia.
  - injection E as <-. split; [exact Hp | lia].
Qed.

(** ** The phases of the placement, once more *)

Lemma place_exit_far (budget : nat) : ∀ self empty_tiles w self' rest w',
  place_exit budget self empty_tiles w = Some ((self', rest), w') →
  far_apart self (player_start self) (exit_location self')
  ∧ exit_location self' ∈ empty_tiles.
Proof.
  induction budget as [|budget IH]; intros self empty_tiles w self' rest w' E;
    [discriminate |].
  cbn [place_exit] in E.
  apply bind_Some in E as (ex & w1 & Ec & E).
  apply choice_spec in Ec as (Hex & _).
  cbv zeta in E. cbn [width height player_start m_with_exit_location] in E.
  destruct (_ || _) eqn:Hfar.
  - apply bind_Some in E as (rest1 & w2 & _ & E).
    apply bind_Some in E as (self1 & w3 & Em & E).
    apply ret_Some in E. injection E as -> _ _.
    unfold mark in Em. apply bind_Some in Em as (t & w4 & _ & Em).
    apply ret_Some in Em. injection Em as -> _.
    cbn [exit_location m_with_tiles m_with_exit_location].
    split; [| exact Hex].
    unfold far_apart. apply orb_true_iff in Hfar. rewrite !Z.ltb_lt in Hfar. exact Hfar.
  - apply IH in E as [Hf Hin]. split; [exact Hf | exact Hin].
Qed.

Lemma place_traps_fresh (n : nat) : ∀ self empty_tiles w self' rest w',
  place_traps n self empty_tiles w = Some ((self', rest), w') →
  (∀ pos t, traps_on_map self !! pos = Some t → fresh_trap_at pos t) →
  (∀ pos t, traps_on_map self' !! pos = Some t → fresh_trap_at pos t)
  ∧ (size (traps_on_map self') ≤ n + size (traps_on_map self))%nat.
Proof.
  induction n as [|n IH]; intros self empty_tiles w self' rest w' E Hold;
    cbn [place_traps] in E.
  - apply ret_Some in E. injection E as -> _ _. split; [exact Hold | lia].
  - destruct empty_tiles as [|q pool].
    { apply ret_Some in E. injection E as -> _ _. split; [exact Hold | lia]. }
    apply bind_Some in E as ([pos rest1] & w1 & _ & E).
    apply IH in E as [Hfresh Hsize].
    + split; [exact Hfresh |]. cbn [traps_on_map m_with_traps_on_map] in Hsize.
      pose proof (map_size_insert pos (mkTrap pos.1 pos.2 TRAP_DAMAGE_BASE false)
                    (traps_on_map self)) as Hs.
      destruct (traps_on_map self !! pos); cbn [id] in Hs; unfold id in Hs; lia.
    + cbn [traps_on_map m_with_traps_on_map]. intros pos' t Ht.
      destruct (decide (pos = pos')) as [->|Hne].
      * rewrite lookup_insert_eq in Ht. injection Ht as <-. reflexivity.
      * rewrite lookup_insert_ne in Ht by exact Hne. eauto.
Qed.

Lemma create_random_enemy_fresh player_level w e w' :
  create_random_enemy player_level w = Some (e, w') → fresh_enemy player_level e.
Proof.
  unfold create_random_enemy. intros E.
  apply bind_Some in E as ([[[[[[[name hp] atk] def] spd] xp] credits] symbol] & w1 & Ec & E).
  apply choice_spec in Ec as (Hty & _).
  apply bind_Some in E as (drops & w2 & _ & E).
  apply bind_Some in E as (item_drop & w3 & _ & E).
  apply ret_Some in E. injection E as -> _.
  split; [reflexivity |]. split.
  - cbn [e_name]. apply list_elem_of_fmap. eexists. split; [| exact Hty]. reflexivity.
  - intros Hl. unfold e_is_alive, scale_stat. cbn [e_hp]. apply Z.ltb_lt.
    assert (Hhp : 30 ≤ hp).
    { unfold enemy_types in Hty.
      repeat (apply elem_of_cons in Hty as [[= -> -> -> -> -> -> -> ->]|Hty]; [lia |]).
      inversion Hty. }
    apply Z.quot_str_pos. nia.
Qed.

Lemma place_enemies_fresh (n : nat) player_level :
  ∀ self empty_tiles w self' rest w',
  place_enemies n player_level self empty_tiles w = Some ((self', rest), w') →
  Forall (λ oid, (oid < w_next w)%nat
                 ∧ ∃ e, w_heap w !! oid = Some e ∧ fresh_enemy player_level e)
         (entities self) →
  Forall (λ oid, (oid < w_next w')%nat
                 ∧ ∃ e, w_heap w' !! oid = Some e ∧ fresh_enemy player_level e)
         (entities self')
  ∧ (length (entities self') ≤ n + length (entities self))%nat.
Proof.
  induction n as [|n IH]; intros self empty_tiles w self' rest w' E Hold;
    cbn [place_enemies] in E.
  - apply ret_Some in E. injection E as -> _ ->. split; [exact Hold | lia].
  - destruct empty_tiles as [|q pool].
    { apply ret_Some in E. injection E as -> _ ->. split; [exact Hold | lia]. }
    apply bind_Some in E as ([pos rest1] & w1 & Et & E).
    apply take_tile_spec in Et as (_ & Hh1 & Hn1).
    apply bind_Some in E as (enemy & w2 & Ee & E).
    pose proof (create_random_enemy_fresh _ _ _ _ Ee) as (Hfull & Hname & Halive).
    apply create_random_enemy_spec in Ee as (Hh2 & Hn2).
    apply bind_Some in E as (oid & w3 & Ea & E).
    unfold alloc_enemy in Ea. minv Ea. mclean.
    match goal with
    | E : new_oid _ = Some _ |- _ => apply new_oid_spec in E as (-> & Hh3 & Hn3)
    end.
    apply IH in E as [Hall Hlen].
    + split; [exact Hall |].
      cbn [entities m_with_entities] in Hlen. rewrite length_app in Hlen. cbn in Hlen. lia.
    + cbn [entities m_with_entities w_heap w_next with_w_heap]. apply Forall_app. split.
      * eapply Forall_impl; [exact Hold |]. intros o (Ho & e & He & Hfresh).
        split; [lia |]. exists e. split; [| exact Hfresh].
        rewrite lookup_insert_ne by lia. rewrite Hh3, Hh2, Hh1. exact He.
      * apply Forall_singleton. split; [lia |].
        eexists. split; [apply lookup_insert_eq |].
        split; [exact Hfull |]. split; [exact Hname | exact Halive].
Qed.

Lemma place_items_count (n : nat) : ∀ self empty_tiles w self' rest w',
  place_items n self empty_tiles w = Some ((self', rest), w') →
  (size (items_on_map self') ≤ n + size (items_on_map self))%nat.
Proof.
  induction n as [|n IH]; intros self empty_tiles w self' rest w' E;
    cbn [place_items] in E.
  - apply ret_Some in E. injection E as -> _ _. lia.
  - destruct empty_tiles as [|q pool].
    { apply ret_Some in E. injection E as -> _ _. lia. }
    apply bind_Some in E as ([pos rest1] & w1 & _ & E).
    apply bind_Some in E as (loot & w2 & _ & E).
    apply bind_Some in E as (item & w3 & _ & E).
    apply IH in E. cbn [items_on_map m_with_items_on_map] in E.
    pose proof (map_size_insert pos item (items_on_map self)) as Hs.
    destruct (items_on_map self !! pos); unfold id in Hs; lia.
Qed.

Lemma place_crystals_count (n : nat) current_level_num :
  ∀ self empty_tiles w self' rest w',
  place_crystals n current_level_num self empty_tiles w = Some ((self', rest), w') →
  (size (items_on_map self') ≤ n + size (items_on_map self))%nat.
Proof.
  induction n as [|n IH]; intros self empty_tiles w self' rest w' E;
    cbn [place_crystals] in E.
  - apply ret_Some in E. injection E as -> _ _. lia.
  - destruct empty_tiles as [|q pool].
    { apply ret_Some in E. injection E as -> _ _. lia. }
    apply bind_Some in E as (spawn & w1 & _ & E).
    destruct spawn.
    + apply bind_Some in E as ([pos rest1] & w2 & _ & E).
      apply bind_Some in E as (oid & w3 & _ & E).
      apply IH in E. cbn [items_on_map m_with_items_on_map] in E.
      pose proof (map_size_insert pos (EnergyCrystal oid) (items_on_map self)) as Hs.
      destruct (items_on_map self !! pos); unfold id in Hs; lia.
    + apply IH in E. lia.
Qed.

Lemma place_traps_frame (n : nat) : ∀ self empty_tiles w self' rest w',
  place_traps n self empty_tiles w = Some ((self', rest), w') →
  self' = m_with_traps_on_map (traps_on_map self') self.
Proof.
  induction n as [|n IH]; intros self empty_tiles w self' rest w' E;
    cbn [place_traps] in E.
  - apply ret_Some in E. injection E as -> _ _. destruct self; reflexivity.
  - destruct empty_tiles as [|q pool].
    { apply ret_Some in E. injection E as -> _ _. destruct self; reflexivity. }
    apply bind_Some in E as ([pos rest1] & w1 & _ & E).
    apply IH in E. rewrite E at 1. reflexivity.
Qed.

Lemma place_items_frame (n : nat) : ∀ self empty_tiles w self' rest w',
  place_items n self empty_tiles w = Some ((self', rest), w') →
  self' = m_with_items_on_map (items_on_map self') self ∧ w_heap w' = w_heap w.
Proof.
  induction n as [|n IH]; intros self empty_tiles w self' rest w' E;
    cbn [place_items] in E.
  - apply ret_Some in E. injection E as -> _ ->. split; [destruct self |]; reflexivity.
  - destruct empty_tiles as [|q pool].
    { apply ret_Some in E. injection E as -> _ ->.
      split; [destruct self |]; reflexivity. }
    apply bind_Some in E as ([pos rest1] & w1 & Et & E).
    apply take_tile_spec in Et as (_ & Hh1 & _).
    apply bind_Some in E as (loot & w2 & El & E).
    apply fresh_loot_spec in El as (Hh2 & _).
    apply bind_Some in E as (item & w3 & Ec & E).
    apply choice_spec in Ec as (_ & Hh3 & _).
    apply IH in E as [Hm Hh]. split; [rewrite Hm at 1; reflexivity | congruence].
Qed.

Lemma place_crystals_frame (n : nat) current_level_num :
  ∀ self empty_tiles w self' rest w',
  place_crystals n current_level_num self empty_tiles w = Some ((self', rest), w') →
  self' = m_with_items_on_map (items_on_map self') self ∧ w_heap w' = w_heap w.
Proof.
  induction n as [|n IH]; intros self empty_tiles w self' rest w' E;
    cbn [place_crystals] in E.
  - apply ret_Some in E. injection E as -> _ ->. split; [destruct self |]; reflexivity.
  - destruct empty_tiles as [|q pool].
    { apply ret_Some in E. injection E as -> _ ->.
      split; [destruct self |]; reflexivity. }
    apply bind_Some in E as (spawn & w1 & Es & E).
    apply random_lt_spec in Es as (Hh1 & _).
    destruct spawn.
    + apply bind_Some in E as ([pos rest1] & w2 & Et & E).
      apply take_tile_spec in Et as (_ & Hh2 & _).
      apply bind_Some in E as (oid & w3 & Eo & E).
      apply new_oid_spec in Eo as (_ & Hh3 & _).
      apply IH in E as [Hm Hh]. split; [rewrite Hm at 1; reflexivity | congruence].
    + apply IH in E as [Hm Hh]. split; [exact Hm | congruence].
Qed.

Lemma place_features_detail budget m0 empty_tiles player_level current_level_num
    is_shop_floor w m w' :
  wf_tiles (width m0) (height m0) (tiles m0) →
  blank m0 →
  NoDup empty_tiles →
  (∀ pos, pos ∈ empty_tiles → open_tile (tiles m0) pos.1 pos.2) →
  place_features budget m0 empty_tiles player_level current_level_num is_shop_floor w
  = Some (m, w') →
  rooms m = rooms m0
  ∧ far_apart m (player_start m) (exit_location m)
  ∧ (∀ pos t, traps_on_map m !! pos = Some t → fresh_trap_at pos t)
  ∧ Forall (λ oid, ∃ e, w_heap w' !! oid = Some e ∧ fresh_enemy player_level e)
           (entities m)
  ∧ (length (entities m) ≤ Z.to_nat MAX_ENEMIES_PER_LEVEL)%nat
  ∧ (size (items_on_map m) ≤ Z.to_nat MAX_ITEMS_PER_LEVEL + 2)%nat.
Proof.
  intros Hwf (Hents & Hitems & Htraps & Hshop) Hnd Hpool E. unfold place_features in E.
  apply bind_Some in E as (start & w1 & Ec & E).
  apply choice_spec in Ec as (Hstart & _).
  apply bind_Some in E as (pool1 & w2 & Er & E). apply lift_kept in Er as [-> Er].
  apply remove_first_perm in Er.
  apply bind_Some in E as (m1 & w2 & Em & E).
  apply mark_spec in Em as (Hm1 & Hwf1 & Ho1 & ->);
    [| exact Hwf | apply Hpool; exact Hstart | discriminate].
  cbn [width height tiles m_with_player_start] in *.
  assert (Hpool1 : ∀ pos, pos ∈ pool1 → open_tile (tiles m1) pos.1 pos.2).
  { intros pos Hin. apply Ho1, Hpool. rewrite Er. right. exact Hin. }
  assert (Hw1 : width m1 = width m0 ∧ height m1 = height m0) by (rewrite Hm1; auto).
  destruct Hw1 as [Hw1 Hh1].
  (* exit *)
  apply bind_Some in E as ([m2 pool2] & w3 & Ee & E).
  pose proof (place_exit_far _ _ _ _ _ _ _ Ee) as [Hfar _].
  apply place_exit_spec in Ee as (Hm2 & Hwf2 & Ho2 & Hperm2 & Hhp2 & _);
    [| rewrite Hw1, Hh1; exact Hwf1 | exact Hpool1].
  assert (Hw2 : width m2 = width m0 ∧ height m2 = height m0) by (rewrite Hm2; auto).
  destruct Hw2 as [Hw2 Hh2].
  assert (Hpool2 : ∀ pos, pos ∈ pool2 → open_tile (tiles m2) pos.1 pos.2).
  { intros pos Hin. apply Ho2, Hpool1. rewrite Hperm2. right. exact Hin. }
  (* shop *)
  apply bind_Some in E as ([m3 pool3] & w4 & Es & E).
  assert (Hm3 : ∃ t3 s3, m3 = m_with_tiles t3 (m_with_shop_location s3 m2)
                         ∧ w_heap w4 = w_heap w3).
  { destruct is_shop_floor.
    - apply place_shop_spec in Es as (pos & Hm3 & _ & _ & _ & Hhp3 & _);
        [| rewrite Hw1, Hh1 in Hwf2; rewrite Hw2, Hh2; exact Hwf2 | exact Hpool2].
      eauto.
    - apply ret_Some in Es. injection Es as -> _ ->.
      exists (tiles m2), (shop_location m2). split; [destruct m2 |]; reflexivity. }
  destruct Hm3 as (t3 & s3 & Hm3 & Hhp3).
  (* traps *)
  apply bind_Some in E as ([m4 pool4] & w5 & Et & E).
  assert (Htr3 : traps_on_map m3 = ∅)
    by (rewrite Hm3; cbn; rewrite Hm2; cbn; rewrite Hm1; exact Htraps).
  assert (Hit3 : items_on_map m3 = ∅)
    by (rewrite Hm3; cbn; rewrite Hm2; cbn; rewrite Hm1; exact Hitems).
  assert (Hen3 : entities m3 = [])
    by (rewrite Hm3; cbn; rewrite Hm2; cbn; rewrite Hm1; exact Hents).
  pose proof (place_traps_fresh _ _ _ _ _ _ _ Et) as [Hfresh _].
  { rewrite Htr3. intros pos t Ht. rewrite lookup_empty in Ht. discriminate. }
  pose proof (place_traps_frame _ _ _ _ _ _ _ Et) as Hm4.
  (* enemies *)
  apply bind_Some in E as (num_enemies & w6 & En & E).
  apply randint_spec in En as (Hne & _).
  apply bind_Some in E as ([m5 pool5] & w7 & Een & E).
  pose proof (place_enemies_fresh _ _ _ _ _ _ _ _ Een) as [Hfe Hlen].
  { rewrite Hm4. cbn. rewrite Hen3. constructor. }
  apply place_enemies_spec in Een as (Hm5 & _);
    [| rewrite Hm4; cbn; rewrite Hen3; constructor
     | rewrite Hm4; cbn; rewrite Hen3; constructor].
  (* items and crystals *)
  apply bind_Some in E as (num_items & w8 & Eni & E).
  apply randint_spec in Eni as (Hni & Hhp8 & _).
  apply bind_Some in E as ([m6 pool6] & w9 & Ei & E).
  pose proof (place_items_count _ _ _ _ _ _ _ Ei) as Hci.
  pose proof (place_items_frame _ _ _ _ _ _ _ Ei) as Hm6.
  destruct Hm6 as [Hm6 Hhp9].
  apply bind_Some in E as (num_crystals & w10 & Enc & E).
  apply randint_spec in Enc as (Hnc & Hhp10 & _).
  apply bind_Some in E as ([m7 pool7] & w11 & Ecr & E).
  pose proof (place_crystals_count _ _ _ _ _ _ _ _ Ecr) as Hcc.
  pose proof (place_crystals_frame _ _ _ _ _ _ _ _ Ecr) as Hm7.
  destruct Hm7 as [Hm7 Hhp11].
  apply ret_Some in E. injection E as Em Ew. subst m w'.
  (* assembling *)
  assert (Hfields :
    width m7 = width m0 ∧ height m7 = height m0
    ∧ rooms m7 = rooms m0
    ∧ player_start m7 = player_start m1 ∧ exit_location m7 = exit_location m2
    ∧ traps_on_map m7 = traps_on_map m4 ∧ entities m7 = entities m5
    ∧ items_on_map m6 = items_on_map m6).
  { rewrite Hm7. cbn. rewrite Hm6. cbn. rewrite Hm5. cbn. rewrite Hm4. cbn.
    rewrite Hm3. cbn. rewrite Hm2. cbn. rewrite Hm1. cbn. auto 10. }
  destruct Hfields as (Fw & Fh & Fr & Fs & Fe & Ftr & Fen & _).
  split; [exact Fr |].
  split.
  { unfold far_apart in *. rewrite Fw, Fh, Fs, Fe, <- Hw1, <- Hh1. exact Hfar. }
  split; [rewrite Ftr; exact Hfresh |].
  split.
  { rewrite Fen. eapply Forall_impl; [exact Hfe |]. intros oid (_ & e & He & Hf).
    exists e. split; [| exact Hf]. rewrite Hhp11, Hhp10, Hhp9, Hhp8. exact He. }
  split.
  { rewrite Fen. rewrite Hm4 in Hlen. cbn [entities m_with_traps_on_map] in Hlen.
    rewrite Hen3 in Hlen. cbn [length] in Hlen. unfold MAX_ENEMIES_PER_LEVEL in *. lia. }
  assert (Hi5 : items_on_map m5 = ∅).
  { rewrite Hm5. cbn. rewrite Hm4. cbn. exact Hit3. }
  rewrite Hi5, map_size_empty in Hci. unfold MAX_ITEMS_PER_LEVEL in *. lia.
Qed.

Lemma generate_map_detail budget self player_level current_level_num is_shop_floor
    w m w' :
  generate_map budget self player_level current_level_num is_shop_floor w = Some (m, w') →
  (∃ m0, carved m0 ∧ rooms m = rooms m0
         ∧ width m = width m0 ∧ height m = height m0
         ∧ (∀ x y, open_tile (tiles m) x y ↔ open_tile (tiles m0) x y)
         ∧ ∃ x y, open_tile (tiles m0) x y)
  ∧ pairwise separated (rooms m)
  ∧ (length (rooms m) ≤ MAX_ROOMS)%nat
  ∧ far_apart m (player_start m) (exit_location m)
  ∧ (∀ pos t, traps_on_map m !! pos = Some t → fresh_trap_at pos t)
  ∧ Forall (λ oid, ∃ e, w_heap w' !! oid = Some e ∧ fresh_enemy player_level e)
           (entities m)
  ∧ (length (entities m) ≤ Z.to_nat MAX_ENEMIES_PER_LEVEL)%nat
  ∧ (size (items_on_map m) ≤ Z.to_nat MAX_ITEMS_PER_LEVEL + 2)%nat.
Proof.
  intros E.
  apply generate_map_inv in E
    as (self0 & w0 & m0 & w1 & empty_tiles & budget' & Ec & Es & Hne & E).
  pose proof (carve_floor_rooms _ _ _ _ Ec) as [Hsep Hlen].
  apply carve_floor_spec in Ec as (Hcarved & Hblank & _).
  apply scan_empty_spec in Es as (Hnd & Hpool).
  assert (Hopen : ∀ pos, pos ∈ empty_tiles → open_tile (tiles m0) pos.1 pos.2).
  { intros pos Hin. destruct (Hpool pos Hin) as (Hx & Hy & Hget).
    split; [lia |]. split; [lia |]. exists "."%char. split; [exact Hget | discriminate]. }
  pose proof (place_features_detail _ _ _ _ _ _ _ _ _
                (proj1 Hcarved) Hblank Hnd Hopen E)
    as (Hrooms & Hfar & Htraps & Hen & Hlen_e & Hitems).
  apply place_features_spec in E as (Hw & Hh & _ & Ho & _);
    [| apply Hcarved | assumption ..].
  split.
  { exists m0. split; [exact Hcarved |]. split; [exact Hrooms |].
    split; [exact Hw |]. split; [exact Hh |]. split; [exact Ho |].
    destruct empty_tiles as [|pos pool]; [contradiction |].
    exists pos.1, pos.2. apply Hopen. left. }
  rewrite Hrooms. auto 10.
Qed.

Lemma on_corridors_two (rs : list Room) x y :
  on_corridors rs x y → rs ≠ [].
Proof. destruct rs; [intros [] | discriminate]. Qed.

(** X11: the rooms of a generated floor.  There are between 1 and
    [MAX_ROOMS] rooms; each is at least [ROOM_MIN_SIZE] wide and high and
    lies inside the outer wall; any two rooms are at least two tiles
    apart along one axis, so that rooms never overlap or touch; and every
    tile of a room is a non-wall tile of the floor. *)
Theorem generated_rooms_are_apart_and_inside
    (budget : nat) (self : GameMap) (player_level current_level_num : Z)
    (is_shop_floor : bool) (w : World) (m : GameMap) (w' : World) :
  generate_map budget self player_level current_level_num is_shop_floor w = Some (m, w') →
  (1 ≤ length (rooms m) ≤ MAX_ROOMS)%nat
  ∧ Forall (room_ok (width m) (height m)) (rooms m)
  ∧ pairwise separated (rooms m)
  ∧ ∀ r x y, r ∈ rooms m → in_room r x y → open_tile (tiles m) x y.
Proof.
  intros E. apply generate_map_detail in E
    as ((m0 & Hcarved & Hrooms & Hw & Hh & Ho & x0 & y0 & Hx0) & Hsep & Hlen & _).
  destruct Hcarved as (_ & Hok & Hopen).
  split.
  { split; [| exact Hlen]. rewrite Hrooms.
    apply Hopen in Hx0 as [(r & Hr & _)|Hc].
    - destruct (rooms m0); [inversion Hr | cbn; lia].
    - apply on_corridors_two in Hc. destruct (rooms m0); [contradiction | cbn; lia]. }
  split; [rewrite Hrooms, Hw, Hh; exact Hok |].
  split; [exact Hsep |].
  intros r x y Hr Hin. apply Ho, Hopen. left. exists r.
  split; [rewrite <- Hrooms; exact Hr | exact Hin].
Qed.

Lemma generated_rooms_are_apart_and_inside_witness :
  ∃ m w',
    generate_map 5 (GameMap_init MAP_WIDTH MAP_HEIGHT) 1 1 false
      (mkWorld some_draws [] [] ∅ 0) = Some (m, w')
    ∧ rooms m = [mkRoom 1 1 6 6; mkRoom 28 10 33 15]
    ∧ pairwise separated (rooms m).
Proof.
  destruct (generate_map 5 (GameMap_init MAP_WIDTH MAP_HEIGHT) 1 1 false
              (mkWorld some_draws [] [] ∅ 0)) as [[m w']|] eqn:E;
    [| vm_compute in E; discriminate].
  destruct (generated_rooms_are_apart_and_inside 5 (GameMap_init MAP_WIDTH MAP_HEIGHT)
              1 1 false (mkWorld some_draws [] [] ∅ 0) m w' E) as (_ & _ & Hsep & _).
  exists m, w'. split; [reflexivity |]. split; [| exact Hsep].
  vm_compute in E. injection E as <- _. reflexivity.
Defined.

(** X12: the exit is never next to the start.  On every generated floor
    the exit lies more than a quarter of the grid's width away from the
    start horizontally, or more than a quarter of its height away
    vertically. *)
Theorem exit_is_far_from_the_start
    (budget : nat) (self : GameMap) (player_level current_level_num : Z)
    (is_shop_floor : bool) (w : World) (m : GameMap) (w' : World) :
  generate_map budget self player_level current_level_num is_shop_floor w = Some (m, w') →
  width self `div` 4 < Z.abs ((exit_location m).1 - (player_start m).1)
  ∨ height self `div` 4 < Z.abs ((exit_location m).2 - (player_start m).2).
Proof.
  intros E. pose proof (generate_map_dims _ _ _ _ _ _ _ _ E) as (Hw & Hh & _).
  apply generate_map_detail in E as (_ & _ & _ & Hfar & _).
  unfold far_apart in Hfar. rewrite Hw, Hh in Hfar. exact Hfar.
Qed.

Lemma exit_is_far_from_the_start_witness :
  ∃ m w',
    generate_map 5 (GameMap_init MAP_WIDTH MAP_HEIGHT) 1 1 false
      (mkWorld some_draws [] [] ∅ 0) = Some (m, w')
    ∧ player_start m = (1, 1) ∧ exit_location m = (28, 11)
    ∧ (10 < Z.abs ((exit_location m).1 - (player_start m).1)
       ∨ 5 < Z.abs ((exit_location m).2 - (player_start m).2)).
Proof.
  destruct (generate_map 5 (GameMap_init MAP_WIDTH MAP_HEIGHT) 1 1 false
              (mkWorld some_draws [] [] ∅ 0)) as [[m w']|] eqn:E;
    [| vm_compute in E; discriminate].
  pose proof (exit_is_far_from_the_start 5 (GameMap_init MAP_WIDTH MAP_HEIGHT)
                1 1 false (mkWorld some_draws [] [] ∅ 0) m w' E) as Hfar.
  exists m, w'. split; [reflexivity |].
  split; [vm_compute in E; injection E as <- _; reflexivity |].
  split; [vm_compute in E; injection E as <- _; reflexivity |].
  exact Hfar.
Defined.

(** X13: the traps of a new floor are armed.  Every entry of
    [traps_on_map] of a generated floor is an untriggered trap dealing
    [TRAP_DAMAGE_BASE] whose coordinates are its key. *)
Theorem generated_traps_are_armed
    (budget : nat) (self : GameMap) (player_level current_level_num : Z)
    (is_shop_floor : bool) (w : World) (m : GameMap) (w' : World) :
  generate_map budget self player_level current_level_num is_shop_floor w = Some (m, w') →
  ∀ pos t, traps_on_map m !! pos = Some t →
           triggered t = false ∧ t_damage t = TRAP_DAMAGE_BASE
           ∧ (t_x t, t_y t) = pos.
Proof.
  intros E pos t Ht.
  apply generate_map_detail in E as (_ & _ & _ & _ & Htraps & _).
  rewrite (Htraps pos t Ht). destruct pos. auto.
Qed.

(** X14: the population of a new floor.  A generated floor holds at most
    [MAX_ENEMIES_PER_LEVEL] enemies and at most [MAX_ITEMS_PER_LEVEL + 2]
    items and crystals; every enemy of its entity list is one of the four
    kinds, at full health, and alive when the player's level is 1 to
    18. *)
Theorem generated_population_is_bounded_and_fresh
    (budget : nat) (self : GameMap) (player_level current_level_num : Z)
    (is_shop_floor : bool) (w : World) (m : GameMap) (w' : World) :
  generate_map budget self player_level current_level_num is_shop_floor w = Some (m, w') →
  Z.of_nat (length (entities m)) ≤ MAX_ENEMIES_PER_LEVEL
  ∧ Z.of_nat (size (items_on_map m)) ≤ MAX_ITEMS_PER_LEVEL + 2
  ∧ ∀ oid, oid ∈ entities m →
      ∃ e, w_heap w' !! oid = Some e
           ∧ e_hp e = e_max_hp e
           ∧ e_name e ∈ ["Cyber-Drone"; "Mutant Scavenger"; "Rogue Android";
                         "Alien Hunter"]%string
           ∧ (1 ≤ player_level ≤ 18 → e_is_alive e = true).
Proof.
  intros E.
  apply generate_map_detail in E as (_ & _ & _ & _ & _ & Hen & Hlen & Hitems).
  unfold MAX_ENEMIES_PER_LEVEL, MAX_ITEMS_PER_LEVEL in *.
  split; [lia |]. split; [lia |].
  intros oid Hoid. rewrite Forall_forall in Hen.
  destruct (Hen oid Hoid) as (e & He & Hfull & Hname & Halive).
  exists e. auto.
Qed.

Lemma generated_traps_are_armed_witness :
  ∃ m w' t,
    generate_map 5 (GameMap_init MAP_WIDTH MAP_HEIGHT) 1 1 false
      (mkWorld some_draws [] [] ∅ 0) = Some (m, w')
    ∧ traps_on_map m !! (5, 1) = Some t
    ∧ triggered t = false ∧ t_damage t = 15.
Proof.
  destruct (generate_map 5 (GameMap_init MAP_WIDTH MAP_HEIGHT) 1 1 false
              (mkWorld some_draws [] [] ∅ 0)) as [[m w']|] eqn:E;
    [| vm_compute in E; discriminate].
  assert (Ht : ∃ t, traps_on_map m !! (5, 1) = Some t).
  { vm_compute in E. injection E as <- _. eexists. reflexivity. }
  destruct Ht as [t Ht].
  destruct (generated_traps_are_armed 5 (GameMap_init MAP_WIDTH MAP_HEIGHT) 1 1 false
              (mkWorld some_draws [] [] ∅ 0) m w' E (5, 1) t Ht) as (Htr & Hd & _).
  exists m, w', t. split; [reflexivity |]. split; [exact Ht |].
  split; [exact Htr | exact Hd].
Defined.

Lemma generated_population_is_bounded_and_fresh_witness :
  ∃ m w' e,
    generate_map 5 (GameMap_init MAP_WIDTH MAP_HEIGHT) 1 1 false
      (mkWorld some_draws [] [] ∅ 0) = Some (m, w')
    ∧ entities m = [7%nat]
    ∧ w_heap w' !! 7%nat = Some e
    ∧ e_hp e = e_max_hp e ∧ e_is_alive e = true.
Proof.
  destruct (generate_map 5 (GameMap_init MAP_WIDTH MAP_HEIGHT) 1 1 false
              (mkWorld some_draws [] [] ∅ 0)) as [[m w']|] eqn:E;
    [| vm_compute in E; discriminate].
  assert (Hen : entities m = [7%nat])
    by (vm_compute in E; injection E as <- _; reflexivity).
  destruct (generated_population_is_bounded_and_fresh 5
              (GameMap_init MAP_WIDTH MAP_HEIGHT) 1 1 false
              (mkWorld some_draws [] [] ∅ 0) m w' E) as (_ & _ & Hall).
  destruct (Hall 7%nat) as (e & He & Hfull & _ & Halive);
    [rewrite Hen; left |].
  exists m, w', e. split; [reflexivity |]. split; [exact Hen |].
  split; [exact He |]. split; [exact Hfull | apply Halive; lia].
Defined.

(** * Who stands where during a move *)

Lemma only_hurt_refl h : only_hurt h h.
Proof.
  intros oid e He. exists e. split; [exact He |]. split; [destruct e; reflexivity | auto].
Qed.

Lemma only_hurt_trans h1 h2 h3 : only_hurt h1 h2 → only_hurt h2 h3 → only_hurt h1 h3.
Proof.
  intros H12 H23 oid e3 He3.
  destruct (H23 oid e3 He3) as (e2 & He2 & E3 & A3).
  destruct (H12 oid e2 He2) as (e1 & He1 & E2 & A2).
  exists e1. split; [exact He1 |]. split; [| auto].
  rewrite E3, E2. destruct e1; reflexivity.
Qed.

Lemma only_hurt_same h h' : h' = h → only_hurt h h'.
Proof. intros ->. apply only_hurt_refl. Qed.

Lemma take_damage_alive hp damage :
  0 ≤ damage → (0 <? take_damage hp damage) = true → (0 <? hp) = true.
Proof.
  unfold take_damage. cbv zeta. intros Hd H.
  destruct (hp - damage <? 0) eqn:E; [discriminate |].
  apply Z.ltb_lt in H. apply Z.ltb_lt. lia.
Qed.

Lemma only_hurt_hit (h : gmap nat Enemy) oid e damage :
  h !! oid = Some e → 0 ≤ damage →
  only_hurt h (<[oid := e_take_damage damage e]> h).
Proof.
  intros He Hd o e' Hlook.
  destruct (decide (oid = o)) as [->|Hne].
  - rewrite lookup_insert_eq in Hlook. injection Hlook as <-.
    exists e. split; [exact He |]. split; [destruct e; reflexivity |].
    unfold e_is_alive, e_take_damage. cbn. apply take_damage_alive. exact Hd.
  - rewrite lookup_insert_ne in Hlook by exact Hne.
    exists e'. split; [exact Hlook |]. split; [destruct e'; reflexivity | auto].
Qed.

Lemma same_place_refl g : same_place g g.
Proof. intros p m Hp Hm. exists p, m. auto 10. Qed.

Lemma same_place_trans g1 g2 g3 : same_place g1 g2 → same_place g2 g3 → same_place g1 g3.
Proof.
  intros H12 H23 p m Hp Hm.
  destruct (H12 p m Hp Hm) as (p2 & m2 & Hp2 & Hm2 & ? & ? & ? & ? & ? & S2).
  destruct (H23 p2 m2 Hp2 Hm2) as (p3 & m3 & Hp3 & Hm3 & ? & ? & ? & ? & ? & S3).
  exists p3, m3. split; [exact Hp3 |]. split; [exact Hm3 |].
  repeat (split; [congruence |]). intros o Ho. auto.
Qed.

Lemma same_place_set_player g p p' :
  player g = Some p → p_x p' = p_x p → p_y p' = p_y p →
  same_place g (set_player p' g).
Proof.
  intros Hp Hx Hy q m Hq Hm. exists p', m. cbn.
  replace q with p by congruence. auto 10.
Qed.

Lemma walkable_same_grid m m' pos :
  tiles m' = tiles m → width m' = width m → height m' = height m →
  walkable m pos → walkable m' pos.
Proof. unfold walkable, in_bounds. intros -> -> ->. auto. Qed.

(** The order of things survives what hurts the enemies and moves
    nobody. *)
Lemma in_order_frame g h g' h' :
  in_order g h → same_place g g' → only_hurt h h' → in_order g' h'.
Proof.
  intros (p & m & Hp & Hm & Hw & Hoff & Hapart) Hs Hh.
  destruct (Hs p m Hp Hm) as (p' & m' & Hp' & Hm' & Hx & Hy & Ht & Hwd & Hht & Hsub).
  exists p', m'. split; [exact Hp' |]. split; [exact Hm' |]. rewrite Hx, Hy.
  split; [eapply walkable_same_grid; eauto |]. split.
  - intros oid e' Ho He' Ha.
    destruct (Hh oid e' He') as (e & He & Ee & Hal).
    destruct (Hoff oid e (Hsub _ Ho) He (Hal Ha)) as [W N].
    rewrite Ee. cbn. split; [eapply walkable_same_grid; eauto | exact N].
  - intros o1 o2 e1' e2' Ho1 Ho2 Hne H1 H2 A1 A2.
    destruct (Hh o1 e1' H1) as (e1 & He1 & Ee1 & Hal1).
    destruct (Hh o2 e2' H2) as (e2 & He2 & Ee2 & Hal2).
    rewrite Ee1, Ee2. cbn.
    exact (Hapart o1 o2 e1 e2 (Hsub _ Ho1) (Hsub _ Ho2) Hne He1 He2 (Hal1 A1) (Hal2 A2)).
Qed.

Lemma prune_sub (l : list nat) : ∀ w r w', prune l w = Some (r, w') → r ⊆ l.
Proof.
  induction l as [|a l IH]; intros w r w' H; cbn [prune] in H.
  - apply ret_Some in H. injection H as Hr _. subst r. reflexivity.
  - apply bind_Some in H as (e & w1 & _ & H).
    apply bind_Some in H as (rest & w2 & Er & H).
    apply IH in Er. apply ret_Some in H. injection H as Hr _. subst r.
    destruct (e_is_alive e); intros o Ho.
    + apply elem_of_cons in Ho as [->|Ho]; [left | right; apply Er, Ho].
    + right. apply Er, Ho.
Qed.

(** ** Items and skills leave the player where they are *)

Lemma use_item_xy item p w p' w' :
  use_item item p w = Some (p', w') → p_x p' = p_x p ∧ p_y p' = p_y p.
Proof.
  unfold use_item, consumable_use. intros H. minv H; mclean; auto.
Qed.

Lemma equip_item_xy item p w p' w' :
  equip_item item p w = Some (p', w') → p_x p' = p_x p ∧ p_y p' = p_y p.
Proof.
  unfold equip_item. intros H. minv H; mclean; auto;
    repeat match goal with
    | E : match ?x with _ => _ end = Some _ |- _ => destruct x
    | E : Some _ = Some _ |- _ => injection E as <-
    | E : None = Some _ |- _ => discriminate E
    end; auto.
Qed.

Lemma inventory_menu_place (budget : nat) in_combat g : ∀ w used g' w',
  inventory_menu budget in_combat g w = Some ((used, g'), w') →
  same_place g g'.
Proof.
  induction budget as [|budget IH]; intros w used g' w' H; [discriminate |].
  cbn [inventory_menu] in H. cbv zeta in H.
  minv H; mclean;
    repeat match goal with
    | E : inventory_menu _ _ _ _ = Some _ |- _ => apply IH in E
    | E : use_item _ _ _ = Some _ |- _ => apply use_item_xy in E as [? ?]
    | E : equip_item _ _ _ = Some _ |- _ => apply equip_item_xy in E as [? ?]
    end;
    try apply same_place_refl; try assumption;
    try destruct (in_inventory _ _);
    (eapply same_place_set_player; [eassumption | cbn; congruence | cbn; congruence]).
Qed.

Lemma handle_inventory_place budget in_combat g w used g' w' :
  handle_inventory budget in_combat g w = Some ((used, g'), w') →
  same_place g g'.
Proof.
  unfold handle_inventory. intros H. minv H; mclean;
    try (eapply inventory_menu_place; eassumption);
    apply same_place_refl.
Qed.

Lemma grenade_loop_hurt aoe (l : list nat) : ∀ w r w',
  for_each_M l (grenade_hit aoe) w = Some (r, w') →
  only_hurt (w_heap w) (w_heap w').
Proof.
  induction l as [|a l IH]; intros w r w' H; cbn [for_each_M] in H.
  - minv H. mclean. apply only_hurt_refl.
  - minv H. apply IH in H. eapply only_hurt_trans; [| exact H].
    unfold grenade_hit in E. minv E; mclean; cbn;
      try apply only_hurt_refl;
      (apply only_hurt_hit; [assumption | lia]).
Qed.

Lemma skill_use_place skill p enemy ents w p' w' :
  skill_use skill p enemy ents w = Some (p', w') →
  p_x p' = p_x p ∧ p_y p' = p_y p ∧ only_hurt (w_heap w) (w_heap w').
Proof.
  unfold skill_use. intros H.
  assert (Hrun : ∀ arg, run_effect (skill_effect_func skill) p arg w = Some (p', w') →
            p_x p' = p_x p ∧ p_y p' = p_y p ∧ only_hurt (w_heap w) (w_heap w')).
  { clear H. intros arg H.
    destruct (skill_effect_func skill), arg as [oid|[|o oids]]; cbn [run_effect] in H;
      unfold _engineer_repair_drone_effect, _soldier_power_shot_effect,
        _scout_burst_of_speed_effect, _soldier_grenade_toss_effect,
        _engineer_shield_matrix_effect, _scout_stealth_field_effect in H;
      minv H; mclean;
      repeat match goal with
      | E : for_each_M _ _ _ = Some _ |- _ => apply grenade_loop_hurt in E
      end;
      (split; [reflexivity |]; split; [reflexivity |]); cbn;
      try apply only_hurt_refl; try assumption;
      (apply only_hurt_hit; [assumption | lia]). }
  destruct (String.eqb (skill_name skill) "Grenade Toss"); eauto.
Qed.

Lemma skills_menu_place (budget : nat) enemy g : ∀ w used g' w',
  skills_menu budget enemy g w = Some ((used, g'), w') →
  same_place g g' ∧ only_hurt (w_heap w) (w_heap w').
Proof.
  induction budget as [|budget IH]; intros w used g' w' H; [discriminate |].
  cbn [skills_menu] in H.
  minv H; mclean;
    repeat match goal with
    | E : read_entry _ = Some _ |- _ => apply read_entry_kept in E
    | E : skills_menu _ _ _ _ = Some _ |- _ => apply IH in E as [? ?]
    | E : skill_use _ _ _ _ _ = Some _ |- _ => apply skill_use_place in E as (? & ? & ?)
    | E : prune _ _ = Some _ |- _ =>
        let S := fresh "S" in pose proof (prune_sub _ _ _ _ E) as S;
        apply prune_kept in E; subst
    end;
    (split;
     [ try apply same_place_refl; try assumption
     | cbn in *;
       repeat match goal with E : w_heap _ = w_heap _ |- _ => rewrite E in * end;
       try apply only_hurt_refl; try assumption ]).
  - intros q m Hq Hm. eexists _, _. cbn.
    split; [reflexivity |]. split; [reflexivity |].
    replace q with a0 by congruence. replace m with a2 by congruence. cbn in *.
    auto 10.
  - intros q m Hq Hm. exists a2, m. cbn.
    replace q with a0 by congruence. cbn in *. auto 10.
Qed.

Lemma handle_skills_place budget enemy g w used g' w' :
  handle_skills budget enemy g w = Some ((used, g'), w') →
  same_place g g' ∧ only_hurt (w_heap w) (w_heap w').
Proof.
  unfold handle_skills. intros H. minv H; mclean.
  - split; [apply same_place_refl | apply only_hurt_refl].
  - eapply skills_menu_place; eassumption.
Qed.

(** ** Fleeing, fighting *)

Lemma in_order_moved g h p m x y :
  in_order g h → player g = Some p → current_map g = Some m →
  walkable m (x, y) → tile_free_of_enemies m h x y →
  in_order (set_player (with_xy x y p) g) h.
Proof.
  intros (p0 & m0 & Hp0 & Hm0 & _ & Hoff & Hapart) Hp Hm Hw Hfree.
  replace m0 with m in * by congruence.
  exists (with_xy x y p), m. cbn.
  split; [reflexivity |]. split; [exact Hm |]. split; [exact Hw |]. split.
  - intros oid e Ho He Ha. split; [eapply Hoff; eauto |].
    apply enemy_at_false; [eapply Hfree; eauto | exact Ha].
  - exact Hapart.
Qed.

Lemma attempt_flee_order enemy g w fled g' w' :
  attempt_flee enemy g w = Some ((fled, g'), w') →
  in_order g (w_heap w) → in_order g' (w_heap w').
Proof.
  intros H Hord.
  pose proof (attempt_flee_kept _ _ _ _ _ _ H) as [_ Hh]. rewrite Hh.
  unfold attempt_flee in H.
  apply bind_Some in H as (p & w1 & Ep & H). apply the_player_kept in Ep as [-> Ep].
  apply bind_Some in H as (e & w1 & Ee & H). apply get_enemy_kept in Ee as [-> Ee].
  apply bind_Some in H as (u & w1 & Ed & H). apply display_message_Some in Ed.
  injection Ed as _ ->.
  apply bind_Some in H as (escaped & w2 & Er & H).
  apply random_lt_kept in Er as Hh2.
  destruct escaped.
  2:{ apply ret_Some in H. injection H as _ Hg _. subst g'. exact Hord. }
  apply bind_Some in H as (u' & w3 & Ed & H). apply display_message_Some in Ed.
  injection Ed as _ ->.
  apply bind_Some in H as (m & w3 & Em & H). apply the_map_kept in Em as [-> Em].
  apply bind_Some in H as (moves & w3 & Ef & H).
  pose proof (free_neighbours_sound _ _ _ _ _ _ _ Ef) as Hsound.
  apply free_neighbours_kept in Ef as ->.
  destruct moves as [|mv moves].
  { apply bind_Some in H as (u'' & w3 & _ & H).
    apply ret_Some in H. injection H as _ Hg _. subst g'. exact Hord. }
  apply bind_Some in H as (pos & w3 & Ec & H).
  apply choice_spec in Ec as (Hin & _).
  apply bind_Some in H as (u'' & w4 & _ & H).
  apply ret_Some in H. injection H as _ Hg _. subst g'.
  destruct (Hsound pos Hin) as (_ & Hx & Hy & Ht & Hfree). cbn in Hfree.
  rewrite Hh2 in Hfree.
  apply in_order_moved with (m := m); auto.
  split; [apply in_bounds_spec; cbn; lia |].
  exists "."%char. split; [exact Ht | discriminate].
Qed.

Lemma player_attacks_hurt p oid w r w' :
  player_attacks p oid w = Some (r, w') → only_hurt (w_heap w) (w_heap w').
Proof.
  unfold player_attacks. intros H. minv H; mclean; cbn;
    (apply only_hurt_hit; [assumption | lia]).
Qed.

Lemma enemy_attacks_xy e p w p' w' :
  enemy_attacks e p w = Some (p', w') →
  p_x p' = p_x p ∧ p_y p' = p_y p ∧ w_heap w' = w_heap w.
Proof.
  unfold enemy_attacks. intros H. minv H; mclean; cbn; auto.
Qed.

Ltac heaps :=
  cbn [w_heap] in *;
  repeat match goal with
  | E : w_heap ?a = w_heap ?a |- _ => clear E
  | E : w_heap _ = w_heap _ |- _ => rewrite E in *; clear E
  end.

Lemma combat_turns_order budget (cs : list combatant) enemy : ∀ g w active g' w',
  combat_turns budget cs enemy g w = Some ((active, g'), w') →
  in_order g (w_heap w) → in_order g' (w_heap w').
Proof.
  induction cs as [|c cs IH]; intros g w active g' w' H Hord; cbn [combat_turns] in H.
  - minv H. mclean. exact Hord.
  - minv H; mclean.
    all: try exact Hord.
    all: repeat match goal with
      | E : get_player_input _ _ = Some _ |- _ => apply get_player_input_kept in E
      | E : player_attacks _ _ _ = Some _ |- _ => apply player_attacks_hurt in E
      | E : enemy_attacks _ _ _ = Some _ |- _ => apply enemy_attacks_xy in E as (? & ? & ?)
      | E : handle_inventory _ _ _ _ = Some _ |- _ =>
          let K := fresh "K" in
          pose proof (handle_inventory_kept _ _ _ _ _ _ _ E) as [_ K];
          apply handle_inventory_place in E
      | E : handle_skills _ _ _ _ = Some _ |- _ => apply handle_skills_place in E as [? ?]
      end.
    all: try (eapply IH; [eassumption |]).
    all: heaps.
    all: try (eapply in_order_frame;
       [ exact Hord
       | first [eassumption | apply same_place_refl
               | eapply same_place_set_player; eassumption]
       | first [eassumption | apply only_hurt_refl] ]).
    all: eapply attempt_flee_order; [eassumption |].
    all: match goal with E : w_heap _ = w_heap _ |- _ => rewrite E end; exact Hord.
Qed.

Lemma combat_loop_order (budget : nat) enemy : ∀ g w g' w',
  combat_loop budget enemy g w = Some (g', w') →
  in_order g (w_heap w) → in_order g' (w_heap w').
Proof.
  induction budget as [|budget IH]; intros g w g' w' H Hord; [discriminate |].
  cbn [combat_loop] in H.
  minv H; mclean; try exact Hord.
  all: match goal with
       | E : combat_turns _ _ _ _ _ = Some _ |- _ =>
           apply combat_turns_order in E; [| exact Hord]
       end.
  - eapply IH; eassumption.
  - assumption.
Qed.

Lemma fight_order budget enemy g w g' w' :
  fight budget enemy g w = Some (g', w') →
  in_order g (w_heap w) → in_order g' (w_heap w').
Proof.
  unfold fight. intros H Hord. minv H. mclean.
  apply combat_loop_order in E0; [| exact Hord].
  eapply in_order_frame; [exact E0 | | apply only_hurt_refl].
  eapply same_place_set_player; [eassumption | reflexivity | reflexivity].
Qed.

Lemma unlock_xy lvl s p w p' w' :
  unlock lvl s p w = Some (p', w') → p_x p' = p_x p ∧ p_y p' = p_y p.
Proof. unfold unlock. intros H. minv H; mclean; auto. Qed.

Lemma level_up_xy p w p' w' :
  level_up p w = Some (p', w') → p_x p' = p_x p ∧ p_y p' = p_y p.
Proof.
  unfold level_up. cbv zeta. intros H. minv H; mclean;
    repeat match goal with
    | E : unlock _ _ _ _ = Some _ |- _ => apply unlock_xy in E as [? ?]
    end; cbn in *; split; congruence.
Qed.

Lemma add_xp_xy amount p w p' w' :
  add_xp amount p w = Some (p', w') → p_x p' = p_x p ∧ p_y p' = p_y p.
Proof.
  unfold add_xp. cbv zeta. intros H. minv H; mclean; auto.
  apply level_up_xy in H. exact H.
Qed.

Lemma add_xp_heap amount p w p' w' :
  add_xp amount p w = Some (p', w') → w_heap w' = w_heap w.
Proof.
  intros H. destruct (add_xp_total amount p w) as (q & w1 & E & Hh & _).
  rewrite H in E. injection E as <- <-. exact Hh.
Qed.

Lemma combat_outcome_order enemy g w g' w' :
  combat_outcome enemy g w = Some (g', w') →
  in_order g (w_heap w) → in_order g' (w_heap w').
Proof.
  unfold combat_outcome. intros H Hord.
  apply bind_Some in H as (p & w1 & E & H). apply the_player_kept in E as [-> Hp].
  apply bind_Some in H as (e & w1 & E & H). apply get_enemy_kept in E as [-> He].
  destruct (negb (p_is_alive p)).
  { minv H. mclean. eapply in_order_frame; [exact Hord | | apply only_hurt_refl].
    intros q m Hq Hm. exists q, m. cbn. auto 10. }
  destruct (negb (e_is_alive e)); [| apply ret_Some in H; injection H as -> ->; exact Hord].
  apply bind_Some in H as (u & w1 & E & H). apply display_message_Some in E.
  injection E as _ ->.
  apply bind_Some in H as (pa & w2 & Ex & H).
  pose proof (add_xp_xy _ _ _ _ _ Ex) as [Hx Hy].
  apply add_xp_heap in Ex. cbn in Ex.
  apply bind_Some in H as (u' & w3 & E & H). apply display_message_Some in E.
  injection E as _ ->.
  apply bind_Some in H as (pb & w4 & Eb & H).
  assert (Hb : p_x pb = p_x p ∧ p_y pb = p_y p ∧ w_heap w4 = w_heap w).
  { destruct (e_item_drop e); minv Eb; mclean; cbn; auto. }
  destruct Hb as (Hbx & Hby & Hbh).
  apply bind_Some in H as (m & w5 & E & H). apply the_map_kept in E as [-> Hm].
  apply bind_Some in H as (alive & w5 & Ep & H).
  pose proof (prune_sub _ _ _ _ Ep) as Hsub. apply prune_kept in Ep as ->.
  apply bind_Some in H as (u'' & w5 & E & H). apply display_message_Some in E.
  injection E as _ ->.
  apply bind_Some in H as (k & w6 & Ek & H). apply read_entry_kept in Ek.
  apply ret_Some in H. injection H as -> ->.
  eapply in_order_frame; [exact Hord | | apply only_hurt_same; cbn in *; congruence].
  intros q m0 Hq Hm0. eexists _, _. cbn.
  split; [reflexivity |]. split; [reflexivity |].
  replace q with p by congruence. replace m0 with m by congruence. cbn. auto 10.
Qed.

Lemma combat_round_order budget enemy g w g' w' :
  combat_round budget enemy g w = Some (g', w') →
  in_order g (w_heap w) → in_order g' (w_heap w').
Proof.
  unfold combat_round. intros H Hord.
  apply bind_Some in H as (g1 & w1 & Ef & H).
  apply fight_order in Ef; [| exact Hord].
  eapply combat_outcome_order; eassumption.
Qed.

(** ** Moving *)

Lemma find_enemy_at_kept x y (l : list nat) : ∀ w r w',
  find_enemy_at x y l w = Some (r, w') → w' = w.
Proof.
  induction l as [|a l IH]; intros w r w' H; cbn [find_enemy_at] in H.
  - minv H. mclean. reflexivity.
  - minv H; mclean; [reflexivity | eapply IH; eassumption].
Qed.

Lemma find_enemy_at_None x y (l : list nat) : ∀ w w',
  find_enemy_at x y l w = Some (None, w') →
  ∀ oid e, oid ∈ l → w_heap w !! oid = Some e → enemy_at x y e = false.
Proof.
  induction l as [|a l IH]; intros w w' H oid e Hin He; [inversion Hin |].
  cbn [find_enemy_at] in H.
  apply bind_Some in H as (e0 & w1 & Eg & H).
  apply get_enemy_kept in Eg as [-> Ha].
  destruct (enemy_at x y e0) eqn:Hat; [apply ret_Some in H; discriminate |].
  apply elem_of_cons in Hin as [->|Hin]; [congruence | eapply IH; eauto].
Qed.

Lemma step_on_trap_place pos m p w fired m' p' w' :
  step_on_trap pos m p w = Some ((fired, m', p'), w') →
  p_x p' = p_x p ∧ p_y p' = p_y p
  ∧ tiles m' = tiles m ∧ width m' = width m ∧ height m' = height m
  ∧ entities m' = entities m ∧ items_on_map m' = items_on_map m
  ∧ w_heap w' = w_heap w.
Proof.
  unfold step_on_trap, trigger. intros H. minv H; mclean; cbn; auto 10.
Qed.

Lemma in_order_same_grid g h g' p m p' m' :
  in_order g h → player g = Some p → current_map g = Some m →
  player g' = Some p' → current_map g' = Some m' →
  p_x p' = p_x p → p_y p' = p_y p →
  tiles m' = tiles m → width m' = width m → height m' = height m →
  entities m' = entities m →
  in_order g' h.
Proof.
  intros Hord Hp Hm Hp' Hm' Hx Hy Ht Hw Hh He.
  eapply in_order_frame; [exact Hord | | apply only_hurt_refl].
  intros q m0 Hq Hm0. exists p', m'.
  replace q with p by congruence. replace m0 with m by congruence.
  rewrite He. auto 10.
Qed.

(** X15: a move keeps everybody in order.  If the player stands on a
    non-wall tile inside the grid and the living enemies of the floor
    stand on such tiles too, each on its own and none on the player's,
    then the same holds after [move_player] (up to the pick-up of an
    item, before a shop or an exit is entered), whichever way the move
    went: into a wall, onto a trap, into a fight (won, lost or fled
    from) or onto the next tile. *)
Theorem move_keeps_everybody_in_order
    (budget : nat) (direction : string) (g : Game) (w : World)
    (r : move_result) (g' : Game) (w' : World) :
  move_player budget direction g w = Some ((r, g'), w') →
  in_order g (w_heap w) →
  in_order g' (w_heap w').
Proof.
  unfold move_player. intros H Hord.
  apply bind_Some in H as (p & w1 & E & H). apply the_player_kept in E as [-> Hp].
  apply bind_Some in H as (target & w1 & Et & H).
  assert (Hw1 : w_heap w1 = w_heap w).
  { repeat match type of Et with
           | (if ?b then _ else _) _ = Some _ => destruct b
           end; minv Et; mclean; reflexivity. }
  clear Et.
  destruct target as [[new_x new_y]|].
  2:{ apply ret_Some in H. injection H as _ -> ->. rewrite Hw1. exact Hord. }
  apply bind_Some in H as (m & w2 & E & H). apply the_map_kept in E as [-> Hm].
  apply bind_Some in H as (blocked & w2 & Eb & H).
  assert (Hb : w2 = w1 ∧ (blocked = false → walkable m (new_x, new_y))).
  { destruct (in_bounds m new_x new_y) eqn:Hin; cbn [negb] in Eb.
    - apply lift_kept in Eb as [-> Eb]. split; [reflexivity |]. intros ->.
      apply tile_is_false in Eb. split; [exact Hin | exact Eb].
    - apply ret_Some in Eb. injection Eb as -> ->. split; [reflexivity | discriminate]. }
  destruct Hb as [-> Hwalk]. clear Eb.
  destruct blocked.
  { minv H. mclean. cbn. rewrite Hw1. exact Hord. }
  specialize (Hwalk eq_refl).
  apply bind_Some in H as ([[fired m1] p1] & w2 & Es & H).
  apply step_on_trap_place in Es as (Hx & Hy & Ht & Hwd & Hht & Hent & Hit & Hh2).
  assert (Hord1 : in_order (set_map m1 (set_player p1 g)) (w_heap w2)).
  { rewrite Hh2, Hw1.
    eapply in_order_same_grid with (p' := p1) (m' := m1); eauto. }
  destruct (fired && negb (p_is_alive p1)).
  { apply ret_Some in H. injection H as _ -> ->. exact Hord1. }
  apply bind_Some in H as (target_enemy & w3 & Ef & H).
  pose proof (find_enemy_at_kept _ _ _ _ _ _ Ef) as ->.
  destruct target_enemy as [enemy|].
  - apply bind_Some in H as (e & w3 & E & H). apply get_enemy_kept in E as [-> He].
    apply bind_Some in H as (u & w3 & E & H). apply display_message_Some in E.
    injection E as _ ->.
    apply bind_Some in H as (u' & w3 & E & H). apply display_message_Some in E.
    injection E as _ ->.
    apply bind_Some in H as (k & w3 & Ek & H). apply read_entry_kept in Ek.
    apply bind_Some in H as (g1 & w4 & Ec & H).
    apply ret_Some in H. injection H as _ -> ->.
    eapply combat_round_order; [exact Ec |].
    rewrite Ek. exact Hord1.
  - pose proof (find_enemy_at_None _ _ _ _ _ Ef) as Hfree.
    assert (Hord2 : in_order (set_player (with_xy new_x new_y p1)
                                (set_map m1 (set_player p1 g))) (w_heap w2)).
    { apply in_order_moved with (m := m1); [exact Hord1 | reflexivity | reflexivity | |].
      - eapply walkable_same_grid; [| | | exact Hwalk]; congruence.
      - intros oid e Ho He. eapply Hfree; eauto. }
    cbv zeta in H. cbn [p_x p_y with_xy] in H.
    destruct (items_on_map m1 !! (new_x, new_y)) as [item|].
    + destruct (item_kind_of item); minv H; mclean; cbn [w_heap];
        (eapply in_order_same_grid; [exact Hord2 | reflexivity | reflexivity
                                    | reflexivity | reflexivity | ..]);
        reflexivity.
    + apply ret_Some in H. injection H as _ -> ->.
      eapply in_order_same_grid; [exact Hord2 | reflexivity | reflexivity
                                 | reflexivity | reflexivity | ..]; reflexivity.
Qed.

(** In the arena the veteran steps from (1, 1) to (2, 1), towards the
    drone at (3, 1). *)
Lemma move_keeps_everybody_in_order_witness :
  ∃ g' w',
    move_player 5 "d" arena_game (arena_world [] []) = Some ((Stepped, g'), w')
    ∧ in_order g' (w_heap w').
Proof.
  assert (Hord : in_order arena_game (w_heap (arena_world [] []))).
  { exists veteran, arena. split; [reflexivity |]. split; [reflexivity |].
    split; [split; [reflexivity | eexists; split; [reflexivity | discriminate]] |].
    split.
    - intros oid e [->|[->|[]%elem_of_nil]%elem_of_cons]%elem_of_cons [= <-] _;
        (split; [split; [reflexivity | eexists; split; [reflexivity | discriminate]]
                | discriminate]).
    - intros o1 o2 e1 e2
        [->|[->|[]%elem_of_nil]%elem_of_cons]%elem_of_cons
        [->|[->|[]%elem_of_nil]%elem_of_cons]%elem_of_cons Hne [= <-] [= <-] _ _;
        try contradiction; discriminate. }
  destruct (move_player 5 "d" arena_game (arena_world [] [])) as [[[r g'] w']|] eqn:E;
    [| vm_compute in E; discriminate].
  pose proof (move_keeps_everybody_in_order 5 "d" arena_game (arena_world [] [])
                r g' w' E Hord) as Hord'.
  exists g', w'. split; [| exact Hord'].
  vm_compute in E. injection E as <- <- <-. reflexivity.
Defined.



(** * The skills that [level_up] teaches *)

Lemma knows_skill_false name p :
  knows_skill name p = false → name ∉ skill_name <$> p_learned_skills p.
Proof.
  unfold knows_skill. intros H Hin.
  apply list_elem_of_fmap in Hin as (s & -> & Hs).
  apply list_elem_of_In in Hs.
  assert (existsb (λ s0, String.eqb (skill_name s0) (skill_name s)) (p_learned_skills p)
          = true) as E.
  { apply existsb_exists. exists s. split; [exact Hs | apply String.eqb_refl]. }
  congruence.
Qed.

(** One unlock step: nothing, or one skill of the given level that the
    player did not know. *)
Lemma unlock_spec lvl s p w p' w' :
  unlock lvl s p w = Some (p', w') →
  same_but_skills p p'
  ∧ (p_learned_skills p' = p_learned_skills p
     ∨ (p_learned_skills p' = p_learned_skills p ++ [s]
        ∧ p_level p = lvl ∧ knows_skill (skill_name s) p = false)).
Proof.
  unfold unlock, same_but_skills. intros H.
  destruct (p_level p =? lvl) eqn:Hl; cbn [andb] in H.
  - destruct (knows_skill (skill_name s) p) eqn:Hk; cbn [negb] in H.
    + apply ret_Some in H. injection H as -> _.
      split; [destruct p; reflexivity | left; reflexivity].
    + apply bind_Some in H as (u & w1 & _ & H).
      apply ret_Some in H. injection H as -> _.
      split; [destruct p; reflexivity |]. right.
      apply Z.eqb_eq in Hl. auto.
  - apply ret_Some in H. injection H as -> _.
    split; [destruct p; reflexivity | left; reflexivity].
Qed.

(** Two unlock steps for different levels teach at most one skill. *)
Lemma unlock_twice l1 s1 l2 s2 q w p' w' :
  l1 ≠ l2 →
  (do p <- unlock l1 s1 q; unlock l2 s2 p) w = Some (p', w') →
  ∃ new, p_learned_skills p' = p_learned_skills q ++ new
         ∧ p_level p' = p_level q
         ∧ (new = []
            ∨ (new = [s1] ∧ p_level q = l1 ∧ knows_skill (skill_name s1) q = false)
            ∨ (new = [s2] ∧ p_level q = l2 ∧ knows_skill (skill_name s2) q = false)).
Proof.
  intros Hne H.
  apply bind_Some in H as (q1 & w1 & E1 & E2).
  apply unlock_spec in E1 as (S1 & H1). apply unlock_spec in E2 as (S2 & H2).
  assert (Hlev : p_level q1 = p_level q) by (rewrite S1; reflexivity).
  assert (Hlev' : p_level p' = p_level q) by (rewrite S2; exact Hlev).
  destruct H1 as [H1|(H1 & Hl1 & Hk1)], H2 as [H2|(H2 & Hl2 & Hk2)].
  - exists []. rewrite app_nil_r. split; [congruence |]. auto.
  - exists [s2]. split; [congruence |]. split; [exact Hlev' |].
    right. right. split; [reflexivity |]. split; [congruence |].
    unfold knows_skill in *. rewrite <- H1. exact Hk2.
  - exists [s1]. split; [congruence |]. split; [exact Hlev' |]. auto.
  - exfalso. congruence.
Qed.

(** X17: the skills of a level-up.  [level_up] teaches at most one skill
    per call, appended to the learned skills: a skill of the player's
    class, on reaching level 2 or level 5, and only if no learned skill
    has its name.  The skill taught is the catalog's ([ALL_SKILL_DATA]
    has its cost, effect and description under its name), and skill
    names stay free of duplicates. *)
Theorem level_up_teaches_one_catalog_skill
    (p : Player) (w : World) (p' : Player) (w' : World) :
  level_up p w = Some (p', w') →
  ∃ new,
    p_learned_skills p' = p_learned_skills p ++ new
    ∧ (length new ≤ 1)%nat
    ∧ (∀ s, s ∈ new →
         ALL_SKILL_DATA !! skill_name s
           = Some (energy_cost s, skill_effect_func s, skill_description s)
         ∧ knows_skill (skill_name s) p = false
         ∧ (p_level p' = 2 ∨ p_level p' = 5))
    ∧ (NoDup (skill_name <$> p_learned_skills p) →
       NoDup (skill_name <$> p_learned_skills p')).
Proof.
  unfold level_up. cbv zeta. intros H.
  apply bind_Some in H as (u & w1 & _ & H).
  apply bind_Some in H as (u' & w2 & _ & H).
  set (q := with_xp_to_next_level _ _) in H.
  assert (Hsk : p_learned_skills q = p_learned_skills p) by reflexivity.
  assert (Hlv : p_level q = p_level p + 1) by reflexivity.
  assert (Hkn : ∀ name, knows_skill name q = knows_skill name p) by reflexivity.
  clearbody q.
  assert (Hfin : ∀ new,
    p_learned_skills p' = p_learned_skills q ++ new →
    p_level p' = p_level q →
    (new = [] ∨ ∃ s, new = [s]
       ∧ ALL_SKILL_DATA !! skill_name s
         = Some (energy_cost s, skill_effect_func s, skill_description s)
       ∧ (p_level q = 2 ∨ p_level q = 5)
       ∧ knows_skill (skill_name s) q = false) →
    ∃ new,
      p_learned_skills p' = p_learned_skills p ++ new
      ∧ (length new ≤ 1)%nat
      ∧ (∀ s, s ∈ new →
           ALL_SKILL_DATA !! skill_name s
             = Some (energy_cost s, skill_effect_func s, skill_description s)
           ∧ knows_skill (skill_name s) p = false
           ∧ (p_level p' = 2 ∨ p_level p' = 5))
      ∧ (NoDup (skill_name <$> p_learned_skills p) →
         NoDup (skill_name <$> p_learned_skills p'))).
  { intros new Hnew Hl' Hcase. exists new. rewrite Hsk in Hnew.
    split; [exact Hnew |].
    destruct Hcase as [->|(s & -> & Hcat & Hlev & Hk)].
    - split; [cbn; lia |]. split; [intros s Hs; inversion Hs |].
      rewrite Hnew, app_nil_r. auto.
    - split; [cbn; lia |]. split.
      + intros s' Hs'. apply list_elem_of_singleton in Hs'. subst s'.
        rewrite <- Hkn, Hl'. auto.
      + intros Hnd. rewrite Hnew, fmap_app. apply NoDup_app. split; [exact Hnd |].
        split; [| apply NoDup_singleton].
        intros name Hin Hin'. cbn in Hin'. apply list_elem_of_singleton in Hin'.
        subst name. rewrite Hkn in Hk. apply knows_skill_false in Hk. contradiction. }
  destruct (String.eqb (p_class_type q) "soldier");
    [| destruct (String.eqb (p_class_type q) "engineer");
       [| destruct (String.eqb (p_class_type q) "scout")]].
  1-3: apply unlock_twice in H as (new & Hnew & Hl' & Hcase); [| lia];
       apply (Hfin new Hnew Hl');
       destruct Hcase as [->|[(-> & Hl & Hk)|(-> & Hl & Hk)]];
       [ left; reflexivity
       | right; eexists; split; [reflexivity |]; split; [reflexivity |]; auto
       | right; eexists; split; [reflexivity |]; split; [reflexivity |]; auto ].
  apply ret_Some in H. injection H as -> _.
  apply (Hfin []); [rewrite app_nil_r; reflexivity | reflexivity | left; reflexivity].
Qed.

(** A level-1 soldier levels up and learns Power Shot. *)
Lemma level_up_teaches_one_catalog_skill_witness :
  ∃ p' w',
    level_up new_soldier empty_world = Some (p', w')
    ∧ p_level p' = 2
    ∧ skill_name <$> p_learned_skills p' = ["Power Shot"%string]
    ∧ NoDup (skill_name <$> p_learned_skills p').
Proof.
  destruct (level_up new_soldier empty_world) as [[p' w']|] eqn:E;
    [| vm_compute in E; discriminate].
  destruct (level_up_teaches_one_catalog_skill new_soldier empty_world p' w' E)
    as (new & _ & _ & _ & Hnd).
  exists p', w'. split; [reflexivity |].
  split; [vm_compute in E; injection E as <- _; reflexivity |].
  split; [vm_compute in E; injection E as <- _; reflexivity |].
  apply Hnd. constructor.
Defined.
